(** * Partial-assembly convection kernels of MFEM
    (fem/integ/bilininteg_convection_pa.cpp)

    A shallow embedding of the Setup kernels, of the generic and the
    shared-memory Apply / ApplyTranspose kernels and of the dispatch layer,
    followed by the properties of the operator they implement.

    The kernels only add, subtract and multiply: they are written over
    a type [real_t] with these operations and no law. [real_t] is
    [double] in the source, and [FScalar] instantiates the operations with
    the binary64 floating-point numbers. A statement that holds in exact
    arithmetic only (for the integers, the rationals, the reals) carries
    the hypothesis [exact K], the laws of a commutative ring; a statement
    without it holds for the floating-point numbers as well.

    Parts I to III hold the definitions: the kernels as the source writes
    them, loop nest by loop nest and local array by local array, then the
    operators and the quantities the statements are about. Parts IV to XII
    prove that every kernel returns [y] plus a closed-form contribution,
    and derive the algebra of that contribution. Part XIII states the
    properties of the interface. Parts XIV to XIX add properties of the
    kernels, of Setup and AssemblePA, of the packed symmetric matrix of
    linalg/symmat.hpp and of the velocity field of
    miniapps/multidomain/multidomain_nd.cpp. Part XX holds the statements
    of which only a part needs exact arithmetic, Part XXI what the entry
    points return at sizes whose dispatch key collides, Part XXIII the
    kernels and uninitialised memory. Parts XXII and XXIV run the
    statements on sample data. *)

From Stdlib Require Import Arith Lia List Bool NArith ZArith.
From Stdlib Require Import Ring Ring_theory ZArithRing PrimFloat.
Import ListNotations.

Set Implicit Arguments.

(** * Part I. The kernels *)

(** ** Scalars *)

Record Scalar : Type := MkScalar {
  real_t : Type;
  s0 : real_t;
  s1 : real_t;
  sadd : real_t -> real_t -> real_t;
  smul : real_t -> real_t -> real_t;
  ssub : real_t -> real_t -> real_t;
  sopp : real_t -> real_t
}.

(** Exact arithmetic: the operations obey the laws of a commutative
    ring. *)
Definition exact (K : Scalar) : Prop :=
  ring_theory (s0 K) (s1 K) (sadd K) (smul K) (ssub K) (sopp K) eq.

(** The integers, used to run the kernels on concrete data. *)
Definition ZScalar : Scalar := MkScalar 0%Z 1%Z Z.add Z.mul Z.sub Z.opp.


(** Sample data: the tables of an element with two dofs and two
    quadrature points per axis ([sample_Bt] and [sample_Gt] are the
    transposes of [sample_B] and [sample_G]), a coefficient buffer and
    vectors for one element in dimension 2, and the Jacobians of a single
    point in dimension 2 and 3. *)
Definition sample_B : list Z := [1; 2; 3; 4]%Z.
Definition sample_G : list Z := [5; -6; 7; 8]%Z.
Definition sample_Bt : list Z := [1; 3; 2; 4]%Z.
Definition sample_Gt : list Z := [5; 7; -6; 8]%Z.
Definition sample_op : list Z := [1; 2; 3; 4; 5; 6; 7; 8]%Z.
Definition sample_p : list Z := [1; -1; 2; 3]%Z.
Definition sample_q : list Z := [2; 5; -3; 1]%Z.
Definition sample_y : list Z := [10; 20; 30; 40]%Z.
Definition sample_J2 : list Z := [1; 2; 3; 4]%Z.
Definition sample_J3 : list Z := [1; 0; 0; 2; 1; 0; 0; 0; 1]%Z.

(** The same tables as a call with [D1D = 2] and [Q1D = 34] passes them:
    [2 * 34] entries per table, [34 * 34 * 2] coefficients per element. *)
Definition wide_B : list Z := sample_B ++ repeat 1%Z 64.
Definition wide_G : list Z := sample_G ++ repeat 1%Z 64.
Definition wide_Bt : list Z := sample_Bt ++ repeat 1%Z 64.
Definition wide_Gt : list Z := sample_Gt ++ repeat 1%Z 64.
Definition wide_op : list Z := sample_op ++ repeat 1%Z 2304.

(** Sizes whose dispatch key is the key [0x33] of the catalogue pair
    [(3, 3)]: three dofs and nineteen quadrature points per axis
    ([col_B], [col_G] of [19 * 3] entries, [col_Bt], [col_Gt] their
    transposes), and two dofs and nineteen quadrature points per axis
    ([skew_B] .. [skew_Gt] of [19 * 2] entries); a coefficient buffer of
    [19 * 19 * 2] entries and vectors of one element of [3 * 3] dofs. *)
Definition col_B : list Z := map (fun k => (Z.of_nat (k mod 7) - 3)%Z) (seq 0 57).
Definition col_G : list Z := map (fun k => (Z.of_nat (k mod 5) - 2)%Z) (seq 0 57).
Definition col_Bt : list Z :=
  map (fun k => nth (k / 3 + 19 * (k mod 3)) col_B 0%Z) (seq 0 57).
Definition col_Gt : list Z :=
  map (fun k => nth (k / 3 + 19 * (k mod 3)) col_G 0%Z) (seq 0 57).
Definition col_op : list Z := map (fun k => (Z.of_nat (k mod 3) + 1)%Z) (seq 0 722).
Definition col_p : list Z := [1; -1; 2; 3; 0; 1; -2; 1; 1]%Z.
Definition col_q : list Z := [2; 5; -3; 1; 1; 0; 4; -1; 2]%Z.
Definition col_y : list Z := [10; 20; 30; 40; 50; 60; 70; 80; 90]%Z.
Definition skew_B : list Z := map (fun k => (Z.of_nat (k mod 7) - 3)%Z) (seq 0 38).
Definition skew_G : list Z := map (fun k => (Z.of_nat (k mod 5) - 2)%Z) (seq 0 38).
Definition skew_Bt : list Z :=
  map (fun k => nth (k / 2 + 19 * (k mod 2)) skew_B 0%Z) (seq 0 38).
Definition skew_Gt : list Z :=
  map (fun k => nth (k / 2 + 19 * (k mod 2)) skew_G 0%Z) (seq 0 38).


(** ** Counted loops

    [for_loop n body s] is [for (int i = 0; i < n; ++i) s = body(i, s);]. *)

Fixpoint for_loop {S : Type} (n : nat) (body : nat -> S -> S) (s : S) : S :=
  match n with
  | O => s
  | Datatypes.S n' => body n' (for_loop n' body s)
  end.

(** Modelled from the spec: [mfem::forall], [forall_2D_batch], [forall_3D],
    [MFEM_FOREACH_THREAD], [MFEM_THREAD_ID] and [MFEM_SYNC_THREAD] come from
    general/forall.hpp, which is not among the sources. The spec (section 5)
    has one task, or one thread group, per element, the elements being
    independent and their order irrelevant, with a barrier between the
    stages of an element: here the elements are run one after the other,
    and a thread loop runs through all of its indices before the next
    stage starts. On the host [MFEM_THREAD_ID(z)] is 0; on a device, in a
    batch of [NBZ] elements, it is the rank of the element in its batch. *)

Inductive Backend : Type := Host | Device.

Definition MFEM_THREAD_ID_z (backend : Backend) (NBZ e : nat) : nat :=
  match backend with
  | Host => 0
  | Device => e mod NBZ
  end.

Definition forall_ {S : Type} (N : nat) (body : nat -> S -> S) : S -> S :=
  for_loop N body.

Definition forall_2D_batch {S : Type} (backend : Backend) (N X Y BZ : nat)
           (body : nat -> nat -> S -> S) : S -> S :=
  for_loop N (fun e => body e (MFEM_THREAD_ID_z backend BZ e)).

Definition forall_3D {S : Type} (N X Y Z : nat) (body : nat -> S -> S) : S -> S :=
  for_loop N body.

Abbreviation MFEM_FOREACH_THREAD := for_loop (only parsing).

(** ** Index maps

    A C array [real_t a[n0][n1]] stores [a[i][j]] at offset [i*n1 + j].

    Modelled from the spec: [Reshape] (linalg/dtensor.hpp) is not among
    the sources; the spec addresses the vectors by (local-dof-tuple,
    element-index) through one flattened index. [Reshape(p, N1, N2, ...)]
    is MFEM's column-major view, the first index running fastest:
    [(i,j,k)] is [p[i + N1*(j + N2*k)]]. *)

Definition at2 (n1 i j : nat) : nat := i * n1 + j.
Definition at3 (n1 n2 i j k : nat) : nat := (i * n1 + j) * n2 + k.
Definition at4 (n1 n2 n3 i j k l : nat) : nat := ((i * n1 + j) * n2 + k) * n3 + l.

Definition Reshape2 (N1 i j : nat) : nat := i + N1 * j.
Definition Reshape3 (N1 N2 i j k : nat) : nat := i + N1 * (j + N2 * k).
Definition Reshape4 (N1 N2 N3 i j k l : nat) : nat :=
  i + N1 * (j + N2 * (k + N3 * l)).
Definition Reshape5 (N1 N2 N3 N4 i j k l m : nat) : nat :=
  i + N1 * (j + N2 * (k + N3 * (l + N4 * m))).

(** [T_D1D ? T_D1D : d1d] *)
Definition tparam (t d : nat) : nat :=
  match t with O => d | _ => t end.

(** Modelled from the spec: [MFEM_VERIFY] and [MFEM_ABORT]
    (general/error.hpp) are not among the sources; the spec has a failed
    check end the program fatally, with no error to recover from.
    [MFEM_VERIFY(cond, msg)] aborts unless [cond] holds, and [None] is the
    abort of the program. *)
Definition MFEM_VERIFY {A : Type} (cond : bool) (k : option A) : option A :=
  if cond then k else None.

Section Kernels.

Variable K : Scalar.
Local Abbreviation T := (real_t K).
Declare Scope scalar_scope.
Delimit Scope scalar_scope with K.
Local Abbreviation zero := (s0 K).
Infix "+" := (sadd K) : scalar_scope.
Infix "*" := (smul K) : scalar_scope.
Infix "-" := (ssub K) : scalar_scope.
Notation "- x" := (sopp K x) : scalar_scope.
Local Open Scope scalar_scope.

(** ** Buffers: [Vector], [Array<real_t>] and local arrays are flat lists.

    An access of the source past the end of a buffer is undefined; here
    a read past the end of a list returns zero and a write past the end
    is dropped. The statements take the buffers as long as the kernels
    address them, or list the cells that lie behind a vector. *)

Definition rd (v : list T) (i : nat) : T := nth i v zero.

Fixpoint upd (v : list T) (i : nat) (x : T) : list T :=
  match v, i with
  | [], _ => []
  | _ :: v', O => x :: v'
  | y :: v', Datatypes.S i' => y :: upd v' i' x
  end.

(** Storage that is declared but not initialised holds indeterminate
    values: [uninit] stands for them. *)
Variable uninit : nat -> T.

Definition alloc (n : nat) : list T := map uninit (seq 0 n).

(** [sum n f] is the accumulation loop
    [acc = 0.0; for (k = 0; k < n; ++k) acc += f(k);]. *)
Definition sum (n : nat) (f : nat -> T) : T :=
  for_loop n (fun k acc => acc + f k) zero.

(** ** Platform limits

    [DofQuadLimits::MAX_D1D] and [DofQuadLimits::MAX_Q1D], and the run-time
    [DeviceDofQuadLimits::Get()] that agrees with them on the device in
    use, are defined in general/forall.hpp: they are parameters here. *)
Variables MAX_D1D MAX_Q1D : nat.

(** The backend the kernels run on. *)
Variable backend : Backend.

(** ** Setup *)

(** PA Convection Assemble 2D kernel *)
Definition PAConvectionSetup2D (NQ NE : nat) (w j vel : list T) (alpha : T)
           (op : list T) : list T :=
  let DIM := 2 in
  let const_v := length vel =? DIM in
  let W := fun q => rd w q in
  let J := fun q r c e => rd j (Reshape4 NQ DIM DIM q r c e) in
  let V := if const_v
           then fun c q e => rd vel (Reshape3 DIM 1 c q e)
           else fun c q e => rd vel (Reshape3 DIM NQ c q e) in
  forall_ (NE * NQ) (fun q_global y =>
    let e := q_global / NQ in
    let q := q_global mod NQ in
    let J11 := J q 0 0 e in
    let J21 := J q 1 0 e in
    let J12 := J q 0 1 e in
    let J22 := J q 1 1 e in
    let w := alpha * W q in
    let v0 := if const_v then V 0 0 0 else V 0 q e in
    let v1 := if const_v then V 1 0 0 else V 1 q e in
    let wx := w * v0 in
    let wy := w * v1 in
    (* y = alpha * W * det(J) * J^{-1} . v = adj(J) . { wx, wy } *)
    let y := upd y (Reshape3 NQ DIM q 0 e) (wx * J22 - wy * J12) in
    upd y (Reshape3 NQ DIM q 1 e) (- wx * J21 + wy * J11)) op.

(** PA Convection Assemble 3D kernel *)
Definition PAConvectionSetup3D (NQ NE : nat) (w j vel : list T) (alpha : T)
           (op : list T) : list T :=
  let DIM := 3 in
  let SDIM := DIM in
  let W := fun q => rd w q in
  let J := fun q r c e => rd j (Reshape4 NQ SDIM DIM q r c e) in
  let const_v := length vel =? DIM in
  let V := if const_v
           then fun c q e => rd vel (Reshape3 3 1 c q e)
           else fun c q e => rd vel (Reshape3 3 NQ c q e) in
  forall_ (NE * NQ) (fun q_global y =>
    let e := q_global / NQ in
    let q := q_global mod NQ in
    let J11 := J q 0 0 e in
    let J12 := J q 0 1 e in
    let J13 := J q 0 2 e in
    let J21 := J q 1 0 e in
    let J22 := J q 1 1 e in
    let J23 := J q 1 2 e in
    let J31 := J q 2 0 e in
    let J32 := J q 2 1 e in
    let J33 := J q 2 2 e in
    let w := alpha * W q in
    let v0 := if const_v then V 0 0 0 else V 0 q e in
    let v1 := if const_v then V 1 0 0 else V 1 q e in
    let v2 := if const_v then V 2 0 0 else V 2 q e in
    let wx := w * v0 in
    let wy := w * v1 in
    let wz := w * v2 in
    (* A = adj(J) *)
    let A11 := (J22 * J33) - (J23 * J32) in
    let A12 := (J32 * J13) - (J12 * J33) in
    let A13 := (J12 * J23) - (J22 * J13) in
    let A21 := (J31 * J23) - (J21 * J33) in
    let A22 := (J11 * J33) - (J13 * J31) in
    let A23 := (J21 * J13) - (J11 * J23) in
    let A31 := (J21 * J32) - (J31 * J22) in
    let A32 := (J31 * J12) - (J11 * J32) in
    let A33 := (J11 * J22) - (J12 * J21) in
    (* y = alpha * W * det(J) * J^{-1} . v = adj(J) . { wx, wy, wz } *)
    let y := upd y (Reshape3 NQ 3 q 0 e) (wx * A11 + wy * A12 + wz * A13) in
    let y := upd y (Reshape3 NQ 3 q 1 e) (wx * A21 + wy * A22 + wz * A23) in
    upd y (Reshape3 NQ 3 q 2 e) (wx * A31 + wy * A32 + wz * A33)) op.

(** [None] is the [MFEM_ABORT]; the result is the coefficient buffer
    [op] after the call. *)
Definition PAConvectionSetup (dim NQ NE : nat) (W J coeff : list T) (alpha : T)
           (op : list T) : option (list T) :=
  if dim =? 1 then None (* "dim==1 not supported in PAConvectionSetup" *)
  else
    let op := if dim =? 2
              then PAConvectionSetup2D NQ NE W J coeff alpha op else op in
    let op := if dim =? 3
              then PAConvectionSetup3D NQ NE W J coeff alpha op else op in
    Some op.

(** ** PAConvectionApply2D *)

Section Apply2D_body.
Variables D1D Q1D max_D1D max_Q1D : nat.
Variables B G Bt : nat -> nat -> T.
Variable op : nat -> nat -> nat -> nat -> T.
Variable x : nat -> nat -> nat -> T.
Variable e : nat.

Definition Apply2D_u : list T :=
  for_loop D1D (fun dy => for_loop D1D (fun dx u =>
    upd u (at2 max_D1D dy dx) (x dx dy e)))
  (alloc (max_D1D * max_D1D)).

Definition Apply2D_Bu_Gu (u : list T) : list T * list T :=
  for_loop D1D (fun dy => for_loop Q1D (fun qx '(Bu, Gu) =>
    let Bu := upd Bu (at2 max_Q1D dy qx) zero in
    let Gu := upd Gu (at2 max_Q1D dy qx) zero in
    for_loop D1D (fun dx '(Bu, Gu) =>
      let bx := B qx dx in
      let gx := G qx dx in
      let x := rd u (at2 max_D1D dy dx) in
      (upd Bu (at2 max_Q1D dy qx) (rd Bu (at2 max_Q1D dy qx) + bx * x),
       upd Gu (at2 max_Q1D dy qx) (rd Gu (at2 max_Q1D dy qx) + gx * x)))
    (Bu, Gu)))
  (alloc (max_D1D * max_Q1D), alloc (max_D1D * max_Q1D)).

Definition Apply2D_GBu_BGu (Bu Gu : list T) : list T * list T :=
  for_loop Q1D (fun qx => for_loop Q1D (fun qy '(GBu, BGu) =>
    let GBu := upd GBu (at2 max_Q1D qy qx) zero in
    let BGu := upd BGu (at2 max_Q1D qy qx) zero in
    for_loop D1D (fun dy '(GBu, BGu) =>
      let bx := B qy dy in
      let gx := G qy dy in
      (upd GBu (at2 max_Q1D qy qx)
           (rd GBu (at2 max_Q1D qy qx) + gx * rd Bu (at2 max_Q1D dy qx)),
       upd BGu (at2 max_Q1D qy qx)
           (rd BGu (at2 max_Q1D qy qx) + bx * rd Gu (at2 max_Q1D dy qx))))
    (GBu, BGu)))
  (alloc (max_Q1D * max_Q1D), alloc (max_Q1D * max_Q1D)).

(* Calculate Dxy, xDy in plane *)
Definition Apply2D_DGu (GBu BGu : list T) : list T :=
  for_loop Q1D (fun qy => for_loop Q1D (fun qx DGu =>
    let O1 := op qx qy 0 e in
    let O2 := op qx qy 1 e in
    let gradX := rd BGu (at2 max_Q1D qy qx) in
    let gradY := rd GBu (at2 max_Q1D qy qx) in
    upd DGu (at2 max_Q1D qy qx) ((O1 * gradX) + (O2 * gradY))))
  (alloc (max_Q1D * max_Q1D)).

Definition Apply2D_BDGu (DGu : list T) : list T :=
  for_loop Q1D (fun qx => for_loop D1D (fun dy BDGu =>
    let BDGu := upd BDGu (at2 max_Q1D dy qx) zero in
    for_loop Q1D (fun qy BDGu =>
      let w := Bt dy qy in
      upd BDGu (at2 max_Q1D dy qx)
          (rd BDGu (at2 max_Q1D dy qx) + w * rd DGu (at2 max_Q1D qy qx)))
    BDGu))
  (alloc (max_D1D * max_Q1D)).

(** The local arrays of one element, up to [BDGu]. *)
Definition Apply2D_local : list T :=
  let u := Apply2D_u in
  let '(Bu, Gu) := Apply2D_Bu_Gu u in
  let '(GBu, BGu) := Apply2D_GBu_BGu Bu Gu in
  let DGu := Apply2D_DGu GBu BGu in
  Apply2D_BDGu DGu.
End Apply2D_body.

(** PA Convection Apply 2D kernel *)
Definition PAConvectionApply2D (T_D1D T_Q1D : nat) (ne : nat)
           (b g bt gt op_ x_ y_ : list T) (d1d q1d : nat) : option (list T) :=
  let NE := ne in
  let D1D := tparam T_D1D d1d in
  let Q1D := tparam T_Q1D q1d in
  MFEM_VERIFY (D1D <=? MAX_D1D) (
  MFEM_VERIFY (Q1D <=? MAX_Q1D) (
  let B := fun qx dx => rd b (Reshape2 Q1D qx dx) in
  let G := fun qx dx => rd g (Reshape2 Q1D qx dx) in
  let Bt := fun dx qx => rd bt (Reshape2 D1D dx qx) in
  let op := fun qx qy c e => rd op_ (Reshape4 Q1D Q1D 2 qx qy c e) in
  let x := fun dx dy e => rd x_ (Reshape3 D1D D1D dx dy e) in
  Some (forall_ NE (fun e y =>
    (* the following variables are evaluated at compile time *)
    let max_D1D := tparam T_D1D MAX_D1D in
    let max_Q1D := tparam T_Q1D MAX_Q1D in
    let BDGu := Apply2D_local D1D Q1D max_D1D max_Q1D B G Bt op x e in
    for_loop D1D (fun dx => for_loop D1D (fun dy y =>
      let BBDGu := for_loop Q1D (fun qx BBDGu =>
                     let w := Bt dx qx in
                     BBDGu + w * rd BDGu (at2 max_Q1D dy qx)) zero in
      upd y (Reshape3 D1D D1D dx dy e)
          (rd y (Reshape3 D1D D1D dx dy e) + BBDGu))) y) y_))).

(** ** SmemPAConvectionApply2D *)

Section SmemApply2D_body.
Variables D1D Q1D NBZ max_D1D max_Q1D : nat.
Variables B G Bt : nat -> nat -> T.
Variable op : nat -> nat -> nat -> nat -> T.
Variable x : nat -> nat -> nat -> T.
Variables e tidz : nat.

Definition SmemApply2D_u : list T :=
  MFEM_FOREACH_THREAD D1D (fun dy => MFEM_FOREACH_THREAD D1D (fun dx u =>
    (* e is really equal to e+tidz *)
    upd u (at3 max_D1D max_D1D tidz dy dx) (x dx dy e)))
  (alloc (NBZ * max_D1D * max_D1D)).

Definition SmemApply2D_Bu_Gu (u : list T) : list T * list T :=
  MFEM_FOREACH_THREAD D1D (fun dy => MFEM_FOREACH_THREAD Q1D (fun qx '(Bu, Gu) =>
    let Bu := upd Bu (at3 max_D1D max_Q1D tidz dy qx) zero in
    let Gu := upd Gu (at3 max_D1D max_Q1D tidz dy qx) zero in
    for_loop D1D (fun dx '(Bu, Gu) =>
      let bx := B qx dx in
      let gx := G qx dx in
      let x := rd u (at3 max_D1D max_D1D tidz dy dx) in
      (upd Bu (at3 max_D1D max_Q1D tidz dy qx)
           (rd Bu (at3 max_D1D max_Q1D tidz dy qx) + bx * x),
       upd Gu (at3 max_D1D max_Q1D tidz dy qx)
           (rd Gu (at3 max_D1D max_Q1D tidz dy qx) + gx * x)))
    (Bu, Gu)))
  (alloc (NBZ * max_D1D * max_Q1D), alloc (NBZ * max_D1D * max_Q1D)).

Definition SmemApply2D_GBu_BGu (Bu Gu : list T) : list T * list T :=
  MFEM_FOREACH_THREAD Q1D (fun qx => MFEM_FOREACH_THREAD Q1D (fun qy '(GBu, BGu) =>
    let GBu := upd GBu (at3 max_Q1D max_Q1D tidz qy qx) zero in
    let BGu := upd BGu (at3 max_Q1D max_Q1D tidz qy qx) zero in
    for_loop D1D (fun dy '(GBu, BGu) =>
      let bx := B qy dy in
      let gx := G qy dy in
      (upd GBu (at3 max_Q1D max_Q1D tidz qy qx)
           (rd GBu (at3 max_Q1D max_Q1D tidz qy qx)
            + gx * rd Bu (at3 max_D1D max_Q1D tidz dy qx)),
       upd BGu (at3 max_Q1D max_Q1D tidz qy qx)
           (rd BGu (at3 max_Q1D max_Q1D tidz qy qx)
            + bx * rd Gu (at3 max_D1D max_Q1D tidz dy qx))))
    (GBu, BGu)))
  (alloc (NBZ * max_Q1D * max_Q1D), alloc (NBZ * max_Q1D * max_Q1D)).

(* Calculate Dxy, xDy in plane *)
Definition SmemApply2D_DGu (GBu BGu : list T) : list T :=
  MFEM_FOREACH_THREAD Q1D (fun qy => MFEM_FOREACH_THREAD Q1D (fun qx DGu =>
    let O1 := op qx qy 0 e in
    let O2 := op qx qy 1 e in
    let gradX := rd BGu (at3 max_Q1D max_Q1D tidz qy qx) in
    let gradY := rd GBu (at3 max_Q1D max_Q1D tidz qy qx) in
    upd DGu (at3 max_Q1D max_Q1D tidz qy qx) ((O1 * gradX) + (O2 * gradY))))
  (alloc (NBZ * max_Q1D * max_Q1D)).

Definition SmemApply2D_BDGu (DGu : list T) : list T :=
  MFEM_FOREACH_THREAD Q1D (fun qx => MFEM_FOREACH_THREAD D1D (fun dy BDGu =>
    let BDGu := upd BDGu (at3 max_D1D max_Q1D tidz dy qx) zero in
    for_loop Q1D (fun qy BDGu =>
      let w := Bt dy qy in
      upd BDGu (at3 max_D1D max_Q1D tidz dy qx)
          (rd BDGu (at3 max_D1D max_Q1D tidz dy qx)
           + w * rd DGu (at3 max_Q1D max_Q1D tidz qy qx)))
    BDGu))
  (alloc (NBZ * max_D1D * max_Q1D)).

(** The shared arrays of one element, up to [BDGu]. *)
Definition SmemApply2D_local : list T :=
  let u := SmemApply2D_u in
  let '(Bu, Gu) := SmemApply2D_Bu_Gu u in
  let '(GBu, BGu) := SmemApply2D_GBu_BGu Bu Gu in
  let DGu := SmemApply2D_DGu GBu BGu in
  SmemApply2D_BDGu DGu.
End SmemApply2D_body.

(** Optimized PA Convection Apply 2D kernel *)
Definition SmemPAConvectionApply2D (T_D1D T_Q1D T_NBZ : nat) (ne : nat)
           (b g bt gt op_ x_ y_ : list T) (d1d q1d : nat) : option (list T) :=
  let NE := ne in
  let D1D := tparam T_D1D d1d in
  let Q1D := tparam T_Q1D q1d in
  let NBZ := tparam T_NBZ 1 in
  MFEM_VERIFY (D1D <=? MAX_D1D) (
  MFEM_VERIFY (Q1D <=? MAX_Q1D) (
  let B := fun qx dx => rd b (Reshape2 Q1D qx dx) in
  let G := fun qx dx => rd g (Reshape2 Q1D qx dx) in
  let Bt := fun dx qx => rd bt (Reshape2 D1D dx qx) in
  let op := fun qx qy c e => rd op_ (Reshape4 Q1D Q1D 2 qx qy c e) in
  let x := fun dx dy e => rd x_ (Reshape3 D1D D1D dx dy e) in
  Some (forall_2D_batch backend NE Q1D Q1D NBZ (fun e tidz y =>
    (* the following variables are evaluated at compile time *)
    let max_D1D := tparam T_D1D MAX_D1D in
    let max_Q1D := tparam T_Q1D MAX_Q1D in
    let BDGu := SmemApply2D_local D1D Q1D NBZ max_D1D max_Q1D B G Bt op x e tidz in
    MFEM_FOREACH_THREAD D1D (fun dx => MFEM_FOREACH_THREAD D1D (fun dy y =>
      let BBDGu := for_loop Q1D (fun qx BBDGu =>
                     let w := Bt dx qx in
                     BBDGu + w * rd BDGu (at3 max_D1D max_Q1D tidz dy qx)) zero in
      upd y (Reshape3 D1D D1D dx dy e)
          (rd y (Reshape3 D1D D1D dx dy e) + BBDGu))) y) y_))).

(** ** PAConvectionApply3D *)

Section Apply3D_body.
Variables D1D Q1D max_D1D max_Q1D : nat.
Variables B G Bt : nat -> nat -> T.
Variable op : nat -> nat -> nat -> nat -> nat -> T.
Variable x : nat -> nat -> nat -> nat -> T.
Variable e : nat.

Definition Apply3D_u : list T :=
  for_loop D1D (fun dz => for_loop D1D (fun dy => for_loop D1D (fun dx u =>
    upd u (at3 max_D1D max_D1D dz dy dx) (x dx dy dz e))))
  (alloc (max_D1D * max_D1D * max_D1D)).

Definition Apply3D_Bu_Gu (u : list T) : list T * list T :=
  for_loop D1D (fun dz => for_loop D1D (fun dy => for_loop Q1D (fun qx '(Bu, Gu) =>
    let Bu := upd Bu (at3 max_D1D max_Q1D dz dy qx) zero in
    let Gu := upd Gu (at3 max_D1D max_Q1D dz dy qx) zero in
    for_loop D1D (fun dx '(Bu, Gu) =>
      let bx := B qx dx in
      let gx := G qx dx in
      let x := rd u (at3 max_D1D max_D1D dz dy dx) in
      (upd Bu (at3 max_D1D max_Q1D dz dy qx)
           (rd Bu (at3 max_D1D max_Q1D dz dy qx) + bx * x),
       upd Gu (at3 max_D1D max_Q1D dz dy qx)
           (rd Gu (at3 max_D1D max_Q1D dz dy qx) + gx * x)))
    (Bu, Gu))))
  (alloc (max_D1D * max_D1D * max_Q1D), alloc (max_D1D * max_D1D * max_Q1D)).

Definition Apply3D_BBu_GBu_BGu (Bu Gu : list T) : list T * list T * list T :=
  for_loop D1D (fun dz => for_loop Q1D (fun qx => for_loop Q1D
    (fun qy '(BBu, GBu, BGu) =>
    let BBu := upd BBu (at3 max_Q1D max_Q1D dz qy qx) zero in
    let GBu := upd GBu (at3 max_Q1D max_Q1D dz qy qx) zero in
    let BGu := upd BGu (at3 max_Q1D max_Q1D dz qy qx) zero in
    for_loop D1D (fun dy '(BBu, GBu, BGu) =>
      let bx := B qy dy in
      let gx := G qy dy in
      (upd BBu (at3 max_Q1D max_Q1D dz qy qx)
           (rd BBu (at3 max_Q1D max_Q1D dz qy qx)
            + bx * rd Bu (at3 max_D1D max_Q1D dz dy qx)),
       upd GBu (at3 max_Q1D max_Q1D dz qy qx)
           (rd GBu (at3 max_Q1D max_Q1D dz qy qx)
            + gx * rd Bu (at3 max_D1D max_Q1D dz dy qx)),
       upd BGu (at3 max_Q1D max_Q1D dz qy qx)
           (rd BGu (at3 max_Q1D max_Q1D dz qy qx)
            + bx * rd Gu (at3 max_D1D max_Q1D dz dy qx))))
    (BBu, GBu, BGu))))
  (alloc (max_D1D * max_Q1D * max_Q1D), alloc (max_D1D * max_Q1D * max_Q1D),
   alloc (max_D1D * max_Q1D * max_Q1D)).

Definition Apply3D_GBBu_BGBu_BBGu (BBu GBu BGu : list T)
  : list T * list T * list T :=
  for_loop Q1D (fun qx => for_loop Q1D (fun qy => for_loop Q1D
    (fun qz '(GBBu, BGBu, BBGu) =>
    let GBBu := upd GBBu (at3 max_Q1D max_Q1D qz qy qx) zero in
    let BGBu := upd BGBu (at3 max_Q1D max_Q1D qz qy qx) zero in
    let BBGu := upd BBGu (at3 max_Q1D max_Q1D qz qy qx) zero in
    for_loop D1D (fun dz '(GBBu, BGBu, BBGu) =>
      let bx := B qz dz in
      let gx := G qz dz in
      (upd GBBu (at3 max_Q1D max_Q1D qz qy qx)
           (rd GBBu (at3 max_Q1D max_Q1D qz qy qx)
            + gx * rd BBu (at3 max_Q1D max_Q1D dz qy qx)),
       upd BGBu (at3 max_Q1D max_Q1D qz qy qx)
           (rd BGBu (at3 max_Q1D max_Q1D qz qy qx)
            + bx * rd GBu (at3 max_Q1D max_Q1D dz qy qx)),
       upd BBGu (at3 max_Q1D max_Q1D qz qy qx)
           (rd BBGu (at3 max_Q1D max_Q1D qz qy qx)
            + bx * rd BGu (at3 max_Q1D max_Q1D dz qy qx))))
    (GBBu, BGBu, BBGu))))
  (alloc (max_Q1D * max_Q1D * max_Q1D), alloc (max_Q1D * max_Q1D * max_Q1D),
   alloc (max_Q1D * max_Q1D * max_Q1D)).

(* Calculate Dxy, xDy in plane *)
Definition Apply3D_DGu (GBBu BGBu BBGu : list T) : list T :=
  for_loop Q1D (fun qz => for_loop Q1D (fun qy => for_loop Q1D (fun qx DGu =>
    let O1 := op qx qy qz 0 e in
    let O2 := op qx qy qz 1 e in
    let O3 := op qx qy qz 2 e in
    let gradX := rd BBGu (at3 max_Q1D max_Q1D qz qy qx) in
    let gradY := rd BGBu (at3 max_Q1D max_Q1D qz qy qx) in
    let gradZ := rd GBBu (at3 max_Q1D max_Q1D qz qy qx) in
    upd DGu (at3 max_Q1D max_Q1D qz qy qx)
        ((O1 * gradX) + (O2 * gradY) + (O3 * gradZ)))))
  (alloc (max_Q1D * max_Q1D * max_Q1D)).

Definition Apply3D_BDGu (DGu : list T) : list T :=
  for_loop Q1D (fun qx => for_loop Q1D (fun qy => for_loop D1D (fun dz BDGu =>
    let BDGu := upd BDGu (at3 max_Q1D max_Q1D dz qy qx) zero in
    for_loop Q1D (fun qz BDGu =>
      let w := Bt dz qz in
      upd BDGu (at3 max_Q1D max_Q1D dz qy qx)
          (rd BDGu (at3 max_Q1D max_Q1D dz qy qx)
           + w * rd DGu (at3 max_Q1D max_Q1D qz qy qx)))
    BDGu)))
  (alloc (max_D1D * max_Q1D * max_Q1D)).

Definition Apply3D_BBDGu (BDGu : list T) : list T :=
  for_loop D1D (fun dz => for_loop Q1D (fun qx => for_loop D1D (fun dy BBDGu =>
    let BBDGu := upd BBDGu (at3 max_D1D max_Q1D dz dy qx) zero in
    for_loop Q1D (fun qy BBDGu =>
      let w := Bt dy qy in
      upd BBDGu (at3 max_D1D max_Q1D dz dy qx)
          (rd BBDGu (at3 max_D1D max_Q1D dz dy qx)
           + w * rd BDGu (at3 max_Q1D max_Q1D dz qy qx)))
    BBDGu)))
  (alloc (max_D1D * max_D1D * max_Q1D)).

(** The local arrays of one element, up to [BBDGu]. *)
Definition Apply3D_local : list T :=
  let u := Apply3D_u in
  let '(Bu, Gu) := Apply3D_Bu_Gu u in
  let '(BBu, GBu, BGu) := Apply3D_BBu_GBu_BGu Bu Gu in
  let '(GBBu, BGBu, BBGu) := Apply3D_GBBu_BGBu_BBGu BBu GBu BGu in
  let DGu := Apply3D_DGu GBBu BGBu BBGu in
  let BDGu := Apply3D_BDGu DGu in
  Apply3D_BBDGu BDGu.
End Apply3D_body.

(** PA Convection Apply 3D kernel *)
Definition PAConvectionApply3D (T_D1D T_Q1D : nat) (ne : nat)
           (b g bt gt op_ x_ y_ : list T) (d1d q1d : nat) : option (list T) :=
  let NE := ne in
  let D1D := tparam T_D1D d1d in
  let Q1D := tparam T_Q1D q1d in
  MFEM_VERIFY (D1D <=? MAX_D1D) (
  MFEM_VERIFY (Q1D <=? MAX_Q1D) (
  let B := fun qx dx => rd b (Reshape2 Q1D qx dx) in
  let G := fun qx dx => rd g (Reshape2 Q1D qx dx) in
  let Bt := fun dx qx => rd bt (Reshape2 D1D dx qx) in
  let op := fun qx qy qz c e => rd op_ (Reshape5 Q1D Q1D Q1D 3 qx qy qz c e) in
  let x := fun dx dy dz e => rd x_ (Reshape4 D1D D1D D1D dx dy dz e) in
  Some (forall_ NE (fun e y =>
    (* the following variables are evaluated at compile time *)
    let max_D1D := tparam T_D1D MAX_D1D in
    let max_Q1D := tparam T_Q1D MAX_Q1D in
    let BBDGu := Apply3D_local D1D Q1D max_D1D max_Q1D B G Bt op x e in
    for_loop D1D (fun dz => for_loop D1D (fun dy => for_loop D1D (fun dx y =>
      let BBBDGu := for_loop Q1D (fun qx BBBDGu =>
                      let w := Bt dx qx in
                      BBBDGu + w * rd BBDGu (at3 max_D1D max_Q1D dz dy qx)) zero in
      upd y (Reshape4 D1D D1D D1D dx dy dz e)
          (rd y (Reshape4 D1D D1D D1D dx dy dz e) + BBBDGu)))) y) y_))).

(** ** SmemPAConvectionApply3D

    The six shared buffers [sm0] ... [sm5] are reused from stage to stage
    through pointer casts; each stage below names the buffers it reads and
    returns the ones it writes. *)

Section SmemApply3D_body.
Variables D1D Q1D max_D1D max_Q1D : nat.
Variables B G Bt : nat -> nat -> T.
Variable op : nat -> nat -> nat -> nat -> nat -> T.
Variable x : nat -> nat -> nat -> nat -> T.
Variable e : nat.

(* u is sm0, [max_D1D][max_D1D] *)
Definition SmemApply3D_u (sm0 : list T) : list T :=
  MFEM_FOREACH_THREAD D1D (fun dz => MFEM_FOREACH_THREAD D1D (fun dy =>
    MFEM_FOREACH_THREAD D1D (fun dx u =>
      upd u (at3 max_D1D max_D1D dz dy dx) (x dx dy dz e)))) sm0.

(* Bu is sm1, Gu is sm2, both [max_D1D][max_Q1D]; u is sm0 *)
Definition SmemApply3D_Bu_Gu (u : list T) (sm1 sm2 : list T) : list T * list T :=
  MFEM_FOREACH_THREAD D1D (fun dz => MFEM_FOREACH_THREAD D1D (fun dy =>
    MFEM_FOREACH_THREAD Q1D (fun qx '(Bu, Gu) =>
      let '(Bu_, Gu_) :=
        for_loop D1D (fun dx '(Bu_, Gu_) =>
          let bx := B qx dx in
          let gx := G qx dx in
          let x := rd u (at3 max_D1D max_D1D dz dy dx) in
          (Bu_ + bx * x, Gu_ + gx * x)) (zero, zero) in
      (upd Bu (at3 max_D1D max_Q1D dz dy qx) Bu_,
       upd Gu (at3 max_D1D max_Q1D dz dy qx) Gu_)))) (sm1, sm2).

(* BBu is sm3, GBu is sm4, BGu is sm5, all [max_Q1D][max_Q1D] *)
Definition SmemApply3D_BBu_GBu_BGu (Bu Gu : list T) (sm3 sm4 sm5 : list T)
  : list T * list T * list T :=
  MFEM_FOREACH_THREAD D1D (fun dz => MFEM_FOREACH_THREAD Q1D (fun qx =>
    MFEM_FOREACH_THREAD Q1D (fun qy '(BBu, GBu, BGu) =>
      let '(BBu_, GBu_, BGu_) :=
        for_loop D1D (fun dy '(BBu_, GBu_, BGu_) =>
          let bx := B qy dy in
          let gx := G qy dy in
          (BBu_ + bx * rd Bu (at3 max_D1D max_Q1D dz dy qx),
           GBu_ + gx * rd Bu (at3 max_D1D max_Q1D dz dy qx),
           BGu_ + bx * rd Gu (at3 max_D1D max_Q1D dz dy qx))) (zero, zero, zero) in
      (upd BBu (at3 max_Q1D max_Q1D dz qy qx) BBu_,
       upd GBu (at3 max_Q1D max_Q1D dz qy qx) GBu_,
       upd BGu (at3 max_Q1D max_Q1D dz qy qx) BGu_)))) (sm3, sm4, sm5).

(* GBBu is sm0, BGBu is sm1, BBGu is sm2, all [max_Q1D][max_Q1D] *)
Definition SmemApply3D_GBBu_BGBu_BBGu (BBu GBu BGu : list T) (sm0 sm1 sm2 : list T)
  : list T * list T * list T :=
  MFEM_FOREACH_THREAD Q1D (fun qx => MFEM_FOREACH_THREAD Q1D (fun qy =>
    MFEM_FOREACH_THREAD Q1D (fun qz '(GBBu, BGBu, BBGu) =>
      let '(GBBu_, BGBu_, BBGu_) :=
        for_loop D1D (fun dz '(GBBu_, BGBu_, BBGu_) =>
          let bx := B qz dz in
          let gx := G qz dz in
          (GBBu_ + gx * rd BBu (at3 max_Q1D max_Q1D dz qy qx),
           BGBu_ + bx * rd GBu (at3 max_Q1D max_Q1D dz qy qx),
           BBGu_ + bx * rd BGu (at3 max_Q1D max_Q1D dz qy qx))) (zero, zero, zero) in
      (upd GBBu (at3 max_Q1D max_Q1D qz qy qx) GBBu_,
       upd BGBu (at3 max_Q1D max_Q1D qz qy qx) BGBu_,
       upd BBGu (at3 max_Q1D max_Q1D qz qy qx) BBGu_)))) (sm0, sm1, sm2).

(* DGu is sm3, [max_Q1D][max_Q1D] *)
Definition SmemApply3D_DGu (GBBu BGBu BBGu : list T) (sm3 : list T) : list T :=
  MFEM_FOREACH_THREAD Q1D (fun qz => MFEM_FOREACH_THREAD Q1D (fun qy =>
    MFEM_FOREACH_THREAD Q1D (fun qx DGu =>
      let O1 := op qx qy qz 0 e in
      let O2 := op qx qy qz 1 e in
      let O3 := op qx qy qz 2 e in
      let gradX := rd BBGu (at3 max_Q1D max_Q1D qz qy qx) in
      let gradY := rd BGBu (at3 max_Q1D max_Q1D qz qy qx) in
      let gradZ := rd GBBu (at3 max_Q1D max_Q1D qz qy qx) in
      upd DGu (at3 max_Q1D max_Q1D qz qy qx)
          ((O1 * gradX) + (O2 * gradY) + (O3 * gradZ))))) sm3.

(* BDGu is sm4, [max_Q1D][max_Q1D] *)
Definition SmemApply3D_BDGu (DGu : list T) (sm4 : list T) : list T :=
  MFEM_FOREACH_THREAD Q1D (fun qx => MFEM_FOREACH_THREAD Q1D (fun qy =>
    MFEM_FOREACH_THREAD D1D (fun dz BDGu =>
      let BDGu_ :=
        for_loop Q1D (fun qz BDGu_ =>
          let w := Bt dz qz in
          BDGu_ + w * rd DGu (at3 max_Q1D max_Q1D qz qy qx)) zero in
      upd BDGu (at3 max_Q1D max_Q1D dz qy qx) BDGu_))) sm4.

(* BBDGu is sm5, [max_D1D][max_Q1D] *)
Definition SmemApply3D_BBDGu (BDGu : list T) (sm5 : list T) : list T :=
  MFEM_FOREACH_THREAD D1D (fun dz => MFEM_FOREACH_THREAD Q1D (fun qx =>
    MFEM_FOREACH_THREAD D1D (fun dy BBDGu =>
      let BBDGu_ :=
        for_loop Q1D (fun qy BBDGu_ =>
          let w := Bt dy qy in
          BBDGu_ + w * rd BDGu (at3 max_Q1D max_Q1D dz qy qx)) zero in
      upd BBDGu (at3 max_D1D max_Q1D dz dy qx) BBDGu_))) sm5.

(** The shared buffers of one element, up to [BBDGu] (in [sm5]). *)
Definition SmemApply3D_local : list T :=
  let max_DQ := if max_D1D <? max_Q1D then max_Q1D else max_D1D in
  let sm0 := alloc (max_DQ * max_DQ * max_DQ) in
  let sm1 := alloc (max_DQ * max_DQ * max_DQ) in
  let sm2 := alloc (max_DQ * max_DQ * max_DQ) in
  let sm3 := alloc (max_DQ * max_DQ * max_DQ) in
  let sm4 := alloc (max_DQ * max_DQ * max_DQ) in
  let sm5 := alloc (max_DQ * max_DQ * max_DQ) in
  let sm0 := SmemApply3D_u sm0 in
  let '(sm1, sm2) := SmemApply3D_Bu_Gu sm0 sm1 sm2 in
  let '(sm3, sm4, sm5) := SmemApply3D_BBu_GBu_BGu sm1 sm2 sm3 sm4 sm5 in
  let '(sm0, sm1, sm2) := SmemApply3D_GBBu_BGBu_BBGu sm3 sm4 sm5 sm0 sm1 sm2 in
  let sm3 := SmemApply3D_DGu sm0 sm1 sm2 sm3 in
  let sm4 := SmemApply3D_BDGu sm3 sm4 in
  let sm5 := SmemApply3D_BBDGu sm4 sm5 in
  sm5.
End SmemApply3D_body.

(** Optimized PA Convection Apply 3D kernel *)
Definition SmemPAConvectionApply3D (T_D1D T_Q1D : nat) (ne : nat)
           (b g bt gt op_ x_ y_ : list T) (d1d q1d : nat) : option (list T) :=
  let NE := ne in
  let D1D := tparam T_D1D d1d in
  let Q1D := tparam T_Q1D q1d in
  MFEM_VERIFY (D1D <=? MAX_D1D) (
  MFEM_VERIFY (Q1D <=? MAX_Q1D) (
  let B := fun qx dx => rd b (Reshape2 Q1D qx dx) in
  let G := fun qx dx => rd g (Reshape2 Q1D qx dx) in
  let Bt := fun dx qx => rd bt (Reshape2 D1D dx qx) in
  let op := fun qx qy qz c e => rd op_ (Reshape5 Q1D Q1D Q1D 3 qx qy qz c e) in
  let x := fun dx dy dz e => rd x_ (Reshape4 D1D D1D D1D dx dy dz e) in
  Some (forall_3D NE Q1D Q1D Q1D (fun e y =>
    (* the following variables are evaluated at compile time *)
    let max_D1D := tparam T_D1D MAX_D1D in
    let max_Q1D := tparam T_Q1D MAX_Q1D in
    let BBDGu := SmemApply3D_local D1D Q1D max_D1D max_Q1D B G Bt op x e in
    MFEM_FOREACH_THREAD D1D (fun dz => MFEM_FOREACH_THREAD D1D (fun dy =>
      MFEM_FOREACH_THREAD D1D (fun dx y =>
        let BBBDGu := for_loop Q1D (fun qx BBBDGu =>
                        let w := Bt dx qx in
                        BBBDGu + w * rd BBDGu (at3 max_D1D max_Q1D dz dy qx)) zero in
        upd y (Reshape4 D1D D1D D1D dx dy dz e)
            (rd y (Reshape4 D1D D1D D1D dx dy dz e) + BBBDGu)))) y) y_))).

(** ** PAConvectionApplyT2D *)

Section ApplyT2D_body.
Variables D1D Q1D max_D1D max_Q1D : nat.
Variables B Bt Gt : nat -> nat -> T.
Variable op : nat -> nat -> nat -> nat -> T.
Variable x : nat -> nat -> nat -> T.
Variable e : nat.

Definition ApplyT2D_u : list T :=
  for_loop D1D (fun dy => for_loop D1D (fun dx u =>
    upd u (at2 max_D1D dy dx) (x dx dy e)))
  (alloc (max_D1D * max_D1D)).

Definition ApplyT2D_Bu (u : list T) : list T :=
  for_loop D1D (fun dy => for_loop Q1D (fun qx Bu =>
    let Bu := upd Bu (at2 max_Q1D dy qx) zero in
    for_loop D1D (fun dx Bu =>
      let bx := B qx dx in
      let x := rd u (at2 max_D1D dy dx) in
      upd Bu (at2 max_Q1D dy qx) (rd Bu (at2 max_Q1D dy qx) + bx * x))
    Bu))
  (alloc (max_D1D * max_Q1D)).

Definition ApplyT2D_BBu (Bu : list T) : list T :=
  for_loop Q1D (fun qx => for_loop Q1D (fun qy BBu =>
    let BBu := upd BBu (at2 max_Q1D qy qx) zero in
    for_loop D1D (fun dy BBu =>
      let bx := B qy dy in
      upd BBu (at2 max_Q1D qy qx)
          (rd BBu (at2 max_Q1D qy qx) + bx * rd Bu (at2 max_Q1D dy qx)))
    BBu))
  (alloc (max_Q1D * max_Q1D)).

(* Calculate Dxy, xDy in plane *)
Definition ApplyT2D_DBu (BBu : list T) : list T :=
  for_loop Q1D (fun qy => for_loop Q1D (fun qx DBu =>
    let O1 := op qx qy 0 e in
    let O2 := op qx qy 1 e in
    let X := rd BBu (at2 max_Q1D qy qx) in
    let DBu := upd DBu (at3 max_Q1D 2 qy qx 0) (O1 * X) in
    upd DBu (at3 max_Q1D 2 qy qx 1) (O2 * X)))
  (alloc (max_Q1D * max_Q1D * 2)).

Definition ApplyT2D_GDBu (DBu : list T) : list T :=
  for_loop Q1D (fun qx => for_loop D1D (fun dy GDBu =>
    let GDBu := upd GDBu (at3 max_Q1D 2 dy qx 0) zero in
    let GDBu := upd GDBu (at3 max_Q1D 2 dy qx 1) zero in
    for_loop Q1D (fun qy GDBu =>
      let by_ := Bt dy qy in
      let gy := Gt dy qy in
      let GDBu := upd GDBu (at3 max_Q1D 2 dy qx 0)
                      (rd GDBu (at3 max_Q1D 2 dy qx 0)
                       + by_ * rd DBu (at3 max_Q1D 2 qy qx 0)) in
      upd GDBu (at3 max_Q1D 2 dy qx 1)
          (rd GDBu (at3 max_Q1D 2 dy qx 1) + gy * rd DBu (at3 max_Q1D 2 qy qx 1)))
    GDBu))
  (alloc (max_D1D * max_Q1D * 2)).

(** The local arrays of one element, up to [GDBu]. *)
Definition ApplyT2D_local : list T :=
  let u := ApplyT2D_u in
  let Bu := ApplyT2D_Bu u in
  let BBu := ApplyT2D_BBu Bu in
  let DBu := ApplyT2D_DBu BBu in
  ApplyT2D_GDBu DBu.
End ApplyT2D_body.

(** PA Convection Apply 2D kernel (transposed) *)
Definition PAConvectionApplyT2D (T_D1D T_Q1D : nat) (ne : nat)
           (b g bt gt op_ x_ y_ : list T) (d1d q1d : nat) : option (list T) :=
  let NE := ne in
  let D1D := tparam T_D1D d1d in
  let Q1D := tparam T_Q1D q1d in
  MFEM_VERIFY (D1D <=? MAX_D1D) (
  MFEM_VERIFY (Q1D <=? MAX_Q1D) (
  let B := fun qx dx => rd b (Reshape2 Q1D qx dx) in
  let Bt := fun dx qx => rd bt (Reshape2 D1D dx qx) in
  let Gt := fun dx qx => rd gt (Reshape2 D1D dx qx) in
  let op := fun qx qy c e => rd op_ (Reshape4 Q1D Q1D 2 qx qy c e) in
  let x := fun dx dy e => rd x_ (Reshape3 D1D D1D dx dy e) in
  Some (forall_ NE (fun e y =>
    (* the following variables are evaluated at compile time *)
    let max_D1D := tparam T_D1D MAX_D1D in
    let max_Q1D := tparam T_Q1D MAX_Q1D in
    let GDBu := ApplyT2D_local D1D Q1D max_D1D max_Q1D B Bt Gt op x e in
    for_loop D1D (fun dx => for_loop D1D (fun dy y =>
      let res := for_loop Q1D (fun qx res =>
                   let bx := Bt dx qx in
                   let gx := Gt dx qx in
                   res + (gx * rd GDBu (at3 max_Q1D 2 dy qx 0)
                          + bx * rd GDBu (at3 max_Q1D 2 dy qx 1))) zero in
      upd y (Reshape3 D1D D1D dx dy e)
          (rd y (Reshape3 D1D D1D dx dy e) + res))) y) y_))).

(** ** SmemPAConvectionApplyT2D *)

Section SmemApplyT2D_body.
Variables D1D Q1D NBZ max_D1D max_Q1D : nat.
Variables B Bt Gt : nat -> nat -> T.
Variable op : nat -> nat -> nat -> nat -> T.
Variable x : nat -> nat -> nat -> T.
Variables e tidz : nat.

Definition SmemApplyT2D_u : list T :=
  MFEM_FOREACH_THREAD D1D (fun dy => MFEM_FOREACH_THREAD D1D (fun dx u =>
    (* e is really equal to e+tidz *)
    upd u (at3 max_D1D max_D1D tidz dy dx) (x dx dy e)))
  (alloc (NBZ * max_D1D * max_D1D)).

Definition SmemApplyT2D_Bu (u : list T) : list T :=
  MFEM_FOREACH_THREAD D1D (fun dy => MFEM_FOREACH_THREAD Q1D (fun qx Bu =>
    let Bu := upd Bu (at3 max_D1D max_Q1D tidz dy qx) zero in
    for_loop D1D (fun dx Bu =>
      let bx := B qx dx in
      let x := rd u (at3 max_D1D max_D1D tidz dy dx) in
      upd Bu (at3 max_D1D max_Q1D tidz dy qx)
          (rd Bu (at3 max_D1D max_Q1D tidz dy qx) + bx * x))
    Bu))
  (alloc (NBZ * max_D1D * max_Q1D)).

Definition SmemApplyT2D_BBu (Bu : list T) : list T :=
  MFEM_FOREACH_THREAD Q1D (fun qx => MFEM_FOREACH_THREAD Q1D (fun qy BBu =>
    let BBu := upd BBu (at3 max_Q1D max_Q1D tidz qy qx) zero in
    for_loop D1D (fun dy BBu =>
      let bx := B qy dy in
      upd BBu (at3 max_Q1D max_Q1D tidz qy qx)
          (rd BBu (at3 max_Q1D max_Q1D tidz qy qx)
           + bx * rd Bu (at3 max_D1D max_Q1D tidz dy qx)))
    BBu))
  (alloc (NBZ * max_Q1D * max_Q1D)).

(* Calculate Dxy, xDy in plane *)
Definition SmemApplyT2D_DBu (BBu : list T) : list T :=
  MFEM_FOREACH_THREAD Q1D (fun qy => MFEM_FOREACH_THREAD Q1D (fun qx DBu =>
    let O1 := op qx qy 0 e in
    let O2 := op qx qy 1 e in
    let X := rd BBu (at3 max_Q1D max_Q1D tidz qy qx) in
    let DBu := upd DBu (at4 max_Q1D max_Q1D 2 tidz qy qx 0) (O1 * X) in
    upd DBu (at4 max_Q1D max_Q1D 2 tidz qy qx 1) (O2 * X)))
  (alloc (NBZ * max_Q1D * max_Q1D * 2)).

Definition SmemApplyT2D_GDBu (DBu : list T) : list T :=
  MFEM_FOREACH_THREAD Q1D (fun qx => MFEM_FOREACH_THREAD D1D (fun dy GDBu =>
    let GDBu := upd GDBu (at4 max_D1D max_Q1D 2 tidz dy qx 0) zero in
    let GDBu := upd GDBu (at4 max_D1D max_Q1D 2 tidz dy qx 1) zero in
    for_loop Q1D (fun qy GDBu =>
      let by_ := Bt dy qy in
      let gy := Gt dy qy in
      let GDBu := upd GDBu (at4 max_D1D max_Q1D 2 tidz dy qx 0)
                      (rd GDBu (at4 max_D1D max_Q1D 2 tidz dy qx 0)
                       + by_ * rd DBu (at4 max_Q1D max_Q1D 2 tidz qy qx 0)) in
      upd GDBu (at4 max_D1D max_Q1D 2 tidz dy qx 1)
          (rd GDBu (at4 max_D1D max_Q1D 2 tidz dy qx 1)
           + gy * rd DBu (at4 max_Q1D max_Q1D 2 tidz qy qx 1)))
    GDBu))
  (alloc (NBZ * max_D1D * max_Q1D * 2)).

(** The shared arrays of one element, up to [GDBu]. *)
Definition SmemApplyT2D_local : list T :=
  let u := SmemApplyT2D_u in
  let Bu := SmemApplyT2D_Bu u in
  let BBu := SmemApplyT2D_BBu Bu in
  let DBu := SmemApplyT2D_DBu BBu in
  SmemApplyT2D_GDBu DBu.
End SmemApplyT2D_body.

(** Optimized PA Convection Apply 2D kernel (transposed) *)
Definition SmemPAConvectionApplyT2D (T_D1D T_Q1D T_NBZ : nat) (ne : nat)
           (b g bt gt op_ x_ y_ : list T) (d1d q1d : nat) : option (list T) :=
  let NE := ne in
  let D1D := tparam T_D1D d1d in
  let Q1D := tparam T_Q1D q1d in
  let NBZ := tparam T_NBZ 1 in
  MFEM_VERIFY (D1D <=? MAX_D1D) (
  MFEM_VERIFY (Q1D <=? MAX_Q1D) (
  let B := fun qx dx => rd b (Reshape2 Q1D qx dx) in
  let Bt := fun dx qx => rd bt (Reshape2 D1D dx qx) in
  let Gt := fun dx qx => rd gt (Reshape2 D1D dx qx) in
  let op := fun qx qy c e => rd op_ (Reshape4 Q1D Q1D 2 qx qy c e) in
  let x := fun dx dy e => rd x_ (Reshape3 D1D D1D dx dy e) in
  Some (forall_2D_batch backend NE Q1D Q1D NBZ (fun e tidz y =>
    (* the following variables are evaluated at compile time *)
    let max_D1D := tparam T_D1D MAX_D1D in
    let max_Q1D := tparam T_Q1D MAX_Q1D in
    let GDBu := SmemApplyT2D_local D1D Q1D NBZ max_D1D max_Q1D B Bt Gt op x e tidz in
    MFEM_FOREACH_THREAD D1D (fun dx => MFEM_FOREACH_THREAD D1D (fun dy y =>
      let res := for_loop Q1D (fun qx res =>
                   let bx := Bt dx qx in
                   let gx := Gt dx qx in
                   res + (gx * rd GDBu (at4 max_D1D max_Q1D 2 tidz dy qx 0)
                          + bx * rd GDBu (at4 max_D1D max_Q1D 2 tidz dy qx 1))) zero in
      upd y (Reshape3 D1D D1D dx dy e)
          (rd y (Reshape3 D1D D1D dx dy e) + res))) y) y_))).

(** ** PAConvectionApplyT3D *)

Section ApplyT3D_body.
Variables D1D Q1D max_D1D max_Q1D : nat.
Variables B Bt Gt : nat -> nat -> T.
Variable op : nat -> nat -> nat -> nat -> nat -> T.
Variable x : nat -> nat -> nat -> nat -> T.
Variable e : nat.

Definition ApplyT3D_u : list T :=
  for_loop D1D (fun dz => for_loop D1D (fun dy => for_loop D1D (fun dx u =>
    upd u (at3 max_D1D max_D1D dz dy dx) (x dx dy dz e))))
  (alloc (max_D1D * max_D1D * max_D1D)).

Definition ApplyT3D_Bu (u : list T) : list T :=
  for_loop D1D (fun dz => for_loop D1D (fun dy => for_loop Q1D (fun qx Bu =>
    let Bu := upd Bu (at3 max_D1D max_Q1D dz dy qx) zero in
    for_loop D1D (fun dx Bu =>
      let bx := B qx dx in
      let x := rd u (at3 max_D1D max_D1D dz dy dx) in
      upd Bu (at3 max_D1D max_Q1D dz dy qx)
          (rd Bu (at3 max_D1D max_Q1D dz dy qx) + bx * x))
    Bu)))
  (alloc (max_D1D * max_D1D * max_Q1D)).

Definition ApplyT3D_BBu (Bu : list T) : list T :=
  for_loop D1D (fun dz => for_loop Q1D (fun qx => for_loop Q1D (fun qy BBu =>
    let BBu := upd BBu (at3 max_Q1D max_Q1D dz qy qx) zero in
    for_loop D1D (fun dy BBu =>
      let bx := B qy dy in
      upd BBu (at3 max_Q1D max_Q1D dz qy qx)
          (rd BBu (at3 max_Q1D max_Q1D dz qy qx)
           + bx * rd Bu (at3 max_D1D max_Q1D dz dy qx)))
    BBu)))
  (alloc (max_D1D * max_Q1D * max_Q1D)).

Definition ApplyT3D_BBBu (BBu : list T) : list T :=
  for_loop Q1D (fun qx => for_loop Q1D (fun qy => for_loop Q1D (fun qz BBBu =>
    let BBBu := upd BBBu (at3 max_Q1D max_Q1D qz qy qx) zero in
    for_loop D1D (fun dz BBBu =>
      let bx := B qz dz in
      upd BBBu (at3 max_Q1D max_Q1D qz qy qx)
          (rd BBBu (at3 max_Q1D max_Q1D qz qy qx)
           + bx * rd BBu (at3 max_Q1D max_Q1D dz qy qx)))
    BBBu)))
  (alloc (max_Q1D * max_Q1D * max_Q1D)).

(* Calculate Dxy, xDy in plane *)
Definition ApplyT3D_DBu (BBBu : list T) : list T :=
  for_loop Q1D (fun qz => for_loop Q1D (fun qy => for_loop Q1D (fun qx DBu =>
    let O1 := op qx qy qz 0 e in
    let O2 := op qx qy qz 1 e in
    let O3 := op qx qy qz 2 e in
    let X := rd BBBu (at3 max_Q1D max_Q1D qz qy qx) in
    let DBu := upd DBu (at4 max_Q1D max_Q1D 3 qz qy qx 0) (O1 * X) in
    let DBu := upd DBu (at4 max_Q1D max_Q1D 3 qz qy qx 1) (O2 * X) in
    upd DBu (at4 max_Q1D max_Q1D 3 qz qy qx 2) (O3 * X))))
  (alloc (max_Q1D * max_Q1D * max_Q1D * 3)).

Definition ApplyT3D_GDBu (DBu : list T) : list T :=
  for_loop Q1D (fun qx => for_loop Q1D (fun qy => for_loop D1D (fun dz GDBu =>
    let GDBu := upd GDBu (at4 max_Q1D max_Q1D 3 dz qy qx 0) zero in
    let GDBu := upd GDBu (at4 max_Q1D max_Q1D 3 dz qy qx 1) zero in
    let GDBu := upd GDBu (at4 max_Q1D max_Q1D 3 dz qy qx 2) zero in
    for_loop Q1D (fun qz GDBu =>
      let bz := Bt dz qz in
      let gz := Gt dz qz in
      let GDBu := upd GDBu (at4 max_Q1D max_Q1D 3 dz qy qx 0)
                      (rd GDBu (at4 max_Q1D max_Q1D 3 dz qy qx 0)
                       + bz * rd DBu (at4 max_Q1D max_Q1D 3 qz qy qx 0)) in
      let GDBu := upd GDBu (at4 max_Q1D max_Q1D 3 dz qy qx 1)
                      (rd GDBu (at4 max_Q1D max_Q1D 3 dz qy qx 1)
                       + bz * rd DBu (at4 max_Q1D max_Q1D 3 qz qy qx 1)) in
      upd GDBu (at4 max_Q1D max_Q1D 3 dz qy qx 2)
          (rd GDBu (at4 max_Q1D max_Q1D 3 dz qy qx 2)
           + gz * rd DBu (at4 max_Q1D max_Q1D 3 qz qy qx 2)))
    GDBu)))
  (alloc (max_D1D * max_Q1D * max_Q1D * 3)).

Definition ApplyT3D_GGDBu (GDBu : list T) : list T :=
  for_loop D1D (fun dz => for_loop Q1D (fun qx => for_loop D1D (fun dy GGDBu =>
    let GGDBu := upd GGDBu (at4 max_D1D max_Q1D 3 dz dy qx 0) zero in
    let GGDBu := upd GGDBu (at4 max_D1D max_Q1D 3 dz dy qx 1) zero in
    let GGDBu := upd GGDBu (at4 max_D1D max_Q1D 3 dz dy qx 2) zero in
    for_loop Q1D (fun qy GGDBu =>
      let by_ := Bt dy qy in
      let gy := Gt dy qy in
      let GGDBu := upd GGDBu (at4 max_D1D max_Q1D 3 dz dy qx 0)
                       (rd GGDBu (at4 max_D1D max_Q1D 3 dz dy qx 0)
                        + by_ * rd GDBu (at4 max_Q1D max_Q1D 3 dz qy qx 0)) in
      let GGDBu := upd GGDBu (at4 max_D1D max_Q1D 3 dz dy qx 1)
                       (rd GGDBu (at4 max_D1D max_Q1D 3 dz dy qx 1)
                        + gy * rd GDBu (at4 max_Q1D max_Q1D 3 dz qy qx 1)) in
      upd GGDBu (at4 max_D1D max_Q1D 3 dz dy qx 2)
          (rd GGDBu (at4 max_D1D max_Q1D 3 dz dy qx 2)
           + by_ * rd GDBu (at4 max_Q1D max_Q1D 3 dz qy qx 2)))
    GGDBu)))
  (alloc (max_D1D * max_D1D * max_Q1D * 3)).

(** The local arrays of one element, up to [GGDBu]. *)
Definition ApplyT3D_local : list T :=
  let u := ApplyT3D_u in
  let Bu := ApplyT3D_Bu u in
  let BBu := ApplyT3D_BBu Bu in
  let BBBu := ApplyT3D_BBBu BBu in
  let DBu := ApplyT3D_DBu BBBu in
  let GDBu := ApplyT3D_GDBu DBu in
  ApplyT3D_GGDBu GDBu.
End ApplyT3D_body.

(** PA Convection Apply 3D kernel (transposed) *)
Definition PAConvectionApplyT3D (T_D1D T_Q1D : nat) (ne : nat)
           (b g bt gt op_ x_ y_ : list T) (d1d q1d : nat) : option (list T) :=
  let NE := ne in
  let D1D := tparam T_D1D d1d in
  let Q1D := tparam T_Q1D q1d in
  MFEM_VERIFY (D1D <=? MAX_D1D) (
  MFEM_VERIFY (Q1D <=? MAX_Q1D) (
  let B := fun qx dx => rd b (Reshape2 Q1D qx dx) in
  let Bt := fun dx qx => rd bt (Reshape2 D1D dx qx) in
  let Gt := fun dx qx => rd gt (Reshape2 D1D dx qx) in
  let op := fun qx qy qz c e => rd op_ (Reshape5 Q1D Q1D Q1D 3 qx qy qz c e) in
  let x := fun dx dy dz e => rd x_ (Reshape4 D1D D1D D1D dx dy dz e) in
  Some (forall_ NE (fun e y =>
    (* the following variables are evaluated at compile time *)
    let max_D1D := tparam T_D1D MAX_D1D in
    let max_Q1D := tparam T_Q1D MAX_Q1D in
    let GGDBu := ApplyT3D_local D1D Q1D max_D1D max_Q1D B Bt Gt op x e in
    for_loop D1D (fun dz => for_loop D1D (fun dy => for_loop D1D (fun dx y =>
      let res := for_loop Q1D (fun qx res =>
                   let bx := Bt dx qx in
                   let gx := Gt dx qx in
                   let res := res + gx * rd GGDBu (at4 max_D1D max_Q1D 3 dz dy qx 0) in
                   let res := res + bx * rd GGDBu (at4 max_D1D max_Q1D 3 dz dy qx 1) in
                   res + bx * rd GGDBu (at4 max_D1D max_Q1D 3 dz dy qx 2)) zero in
      upd y (Reshape4 D1D D1D D1D dx dy dz e)
          (rd y (Reshape4 D1D D1D D1D dx dy dz e) + res)))) y) y_))).

(** ** SmemPAConvectionApplyT3D

    Two shared buffers, [sm0] and [sm1], each of [3*max_DQ^3] cells, are
    reused in turn. *)

Section SmemApplyT3D_body.
Variables D1D Q1D max_D1D max_Q1D : nat.
Variables B Bt Gt : nat -> nat -> T.
Variable op : nat -> nat -> nat -> nat -> nat -> T.
Variable x : nat -> nat -> nat -> nat -> T.
Variable e : nat.

(* u is sm0, [max_D1D][max_D1D] *)
Definition SmemApplyT3D_u (sm0 : list T) : list T :=
  MFEM_FOREACH_THREAD D1D (fun dz => MFEM_FOREACH_THREAD D1D (fun dy =>
    MFEM_FOREACH_THREAD D1D (fun dx u =>
      upd u (at3 max_D1D max_D1D dz dy dx) (x dx dy dz e)))) sm0.

(* Bu is sm1, [max_D1D][max_Q1D] *)
Definition SmemApplyT3D_Bu (u : list T) (sm1 : list T) : list T :=
  MFEM_FOREACH_THREAD D1D (fun dz => MFEM_FOREACH_THREAD D1D (fun dy =>
    MFEM_FOREACH_THREAD Q1D (fun qx Bu =>
      let Bu_ :=
        for_loop D1D (fun dx Bu_ =>
          let bx := B qx dx in
          let x := rd u (at3 max_D1D max_D1D dz dy dx) in
          Bu_ + bx * x) zero in
      upd Bu (at3 max_D1D max_Q1D dz dy qx) Bu_))) sm1.

(* BBu is sm0, [max_Q1D][max_Q1D] *)
Definition SmemApplyT3D_BBu (Bu : list T) (sm0 : list T) : list T :=
  MFEM_FOREACH_THREAD D1D (fun dz => MFEM_FOREACH_THREAD Q1D (fun qx =>
    MFEM_FOREACH_THREAD Q1D (fun qy BBu =>
      let BBu_ :=
        for_loop D1D (fun dy BBu_ =>
          let bx := B qy dy in
          BBu_ + bx * rd Bu (at3 max_D1D max_Q1D dz dy qx)) zero in
      upd BBu (at3 max_Q1D max_Q1D dz qy qx) BBu_))) sm0.

(* BBBu is sm1, [max_Q1D][max_Q1D] *)
Definition SmemApplyT3D_BBBu (BBu : list T) (sm1 : list T) : list T :=
  MFEM_FOREACH_THREAD Q1D (fun qx => MFEM_FOREACH_THREAD Q1D (fun qy =>
    MFEM_FOREACH_THREAD Q1D (fun qz BBBu =>
      let BBBu_ :=
        for_loop D1D (fun dz BBBu_ =>
          let bx := B qz dz in
          BBBu_ + bx * rd BBu (at3 max_Q1D max_Q1D dz qy qx)) zero in
      upd BBBu (at3 max_Q1D max_Q1D qz qy qx) BBBu_))) sm1.

(* DBu is sm0, [max_Q1D][max_Q1D][3] *)
Definition SmemApplyT3D_DBu (BBBu : list T) (sm0 : list T) : list T :=
  MFEM_FOREACH_THREAD Q1D (fun qz => MFEM_FOREACH_THREAD Q1D (fun qy =>
    MFEM_FOREACH_THREAD Q1D (fun qx DBu =>
      let O1 := op qx qy qz 0 e in
      let O2 := op qx qy qz 1 e in
      let O3 := op qx qy qz 2 e in
      let X := rd BBBu (at3 max_Q1D max_Q1D qz qy qx) in
      let DBu := upd DBu (at4 max_Q1D max_Q1D 3 qz qy qx 0) (O1 * X) in
      let DBu := upd DBu (at4 max_Q1D max_Q1D 3 qz qy qx 1) (O2 * X) in
      upd DBu (at4 max_Q1D max_Q1D 3 qz qy qx 2) (O3 * X)))) sm0.

(* GDBu is sm1, [max_Q1D][max_Q1D][3] *)
Definition SmemApplyT3D_GDBu (DBu : list T) (sm1 : list T) : list T :=
  MFEM_FOREACH_THREAD Q1D (fun qx => MFEM_FOREACH_THREAD Q1D (fun qy =>
    MFEM_FOREACH_THREAD D1D (fun dz GDBu =>
      let '(GDBu0, GDBu1, GDBu2) :=
        for_loop Q1D (fun qz '(GDBu0, GDBu1, GDBu2) =>
          let bz := Bt dz qz in
          let gz := Gt dz qz in
          (GDBu0 + bz * rd DBu (at4 max_Q1D max_Q1D 3 qz qy qx 0),
           GDBu1 + bz * rd DBu (at4 max_Q1D max_Q1D 3 qz qy qx 1),
           GDBu2 + gz * rd DBu (at4 max_Q1D max_Q1D 3 qz qy qx 2)))
          (zero, zero, zero) in
      let GDBu := upd GDBu (at4 max_Q1D max_Q1D 3 dz qy qx 0) GDBu0 in
      let GDBu := upd GDBu (at4 max_Q1D max_Q1D 3 dz qy qx 1) GDBu1 in
      upd GDBu (at4 max_Q1D max_Q1D 3 dz qy qx 2) GDBu2))) sm1.

(* GGDBu is sm0, [max_D1D][max_Q1D][3] *)
Definition SmemApplyT3D_GGDBu (GDBu : list T) (sm0 : list T) : list T :=
  MFEM_FOREACH_THREAD D1D (fun dz => MFEM_FOREACH_THREAD Q1D (fun qx =>
    MFEM_FOREACH_THREAD D1D (fun dy GGDBu =>
      let '(GGDBu0, GGDBu1, GGDBu2) :=
        for_loop Q1D (fun qy '(GGDBu0, GGDBu1, GGDBu2) =>
          let by_ := Bt dy qy in
          let gy := Gt dy qy in
          (GGDBu0 + by_ * rd GDBu (at4 max_Q1D max_Q1D 3 dz qy qx 0),
           GGDBu1 + gy * rd GDBu (at4 max_Q1D max_Q1D 3 dz qy qx 1),
           GGDBu2 + by_ * rd GDBu (at4 max_Q1D max_Q1D 3 dz qy qx 2)))
          (zero, zero, zero) in
      let GGDBu := upd GGDBu (at4 max_D1D max_Q1D 3 dz dy qx 0) GGDBu0 in
      let GGDBu := upd GGDBu (at4 max_D1D max_Q1D 3 dz dy qx 1) GGDBu1 in
      upd GGDBu (at4 max_D1D max_Q1D 3 dz dy qx 2) GGDBu2))) sm0.

(** The shared buffers of one element, up to [GGDBu] (in [sm0]). *)
Definition SmemApplyT3D_local : list T :=
  let max_DQ := if max_D1D <? max_Q1D then max_Q1D else max_D1D in
  let sm0 := alloc (3 * max_DQ * max_DQ * max_DQ) in
  let sm1 := alloc (3 * max_DQ * max_DQ * max_DQ) in
  let sm0 := SmemApplyT3D_u sm0 in
  let sm1 := SmemApplyT3D_Bu sm0 sm1 in
  let sm0 := SmemApplyT3D_BBu sm1 sm0 in
  let sm1 := SmemApplyT3D_BBBu sm0 sm1 in
  let sm0 := SmemApplyT3D_DBu sm1 sm0 in
  let sm1 := SmemApplyT3D_GDBu sm0 sm1 in
  let sm0 := SmemApplyT3D_GGDBu sm1 sm0 in
  sm0.
End SmemApplyT3D_body.

(** Optimized PA Convection Apply 3D kernel (transposed) *)
Definition SmemPAConvectionApplyT3D (T_D1D T_Q1D : nat) (ne : nat)
           (b g bt gt op_ x_ y_ : list T) (d1d q1d : nat) : option (list T) :=
  let NE := ne in
  let D1D := tparam T_D1D d1d in
  let Q1D := tparam T_Q1D q1d in
  MFEM_VERIFY (D1D <=? MAX_D1D) (
  MFEM_VERIFY (Q1D <=? MAX_Q1D) (
  let B := fun qx dx => rd b (Reshape2 Q1D qx dx) in
  let Bt := fun dx qx => rd bt (Reshape2 D1D dx qx) in
  let Gt := fun dx qx => rd gt (Reshape2 D1D dx qx) in
  let op := fun qx qy qz c e => rd op_ (Reshape5 Q1D Q1D Q1D 3 qx qy qz c e) in
  let x := fun dx dy dz e => rd x_ (Reshape4 D1D D1D D1D dx dy dz e) in
  Some (forall_3D NE Q1D Q1D Q1D (fun e y =>
    (* the following variables are evaluated at compile time *)
    let max_D1D := tparam T_D1D MAX_D1D in
    let max_Q1D := tparam T_Q1D MAX_Q1D in
    let GGDBu := SmemApplyT3D_local D1D Q1D max_D1D max_Q1D B Bt Gt op x e in
    MFEM_FOREACH_THREAD D1D (fun dz => MFEM_FOREACH_THREAD D1D (fun dy =>
      MFEM_FOREACH_THREAD D1D (fun dx y =>
        let res := for_loop Q1D (fun qx res =>
                     let bx := Bt dx qx in
                     let gx := Gt dx qx in
                     let res := res + gx * rd GGDBu (at4 max_D1D max_Q1D 3 dz dy qx 0) in
                     let res := res + bx * rd GGDBu (at4 max_D1D max_Q1D 3 dz dy qx 1) in
                     res + bx * rd GGDBu (at4 max_D1D max_Q1D 3 dz dy qx 2)) zero in
        upd y (Reshape4 D1D D1D D1D dx dy dz e)
            (rd y (Reshape4 D1D D1D D1D dx dy dz e) + res)))) y) y_))).

(** ** Dispatch *)

(** [(D1D << 4) | Q1D] *)
Definition dispatch_key (D1D Q1D : nat) : N :=
  N.lor (N.shiftl (N.of_nat D1D) 4) (N.of_nat Q1D).

(** [None] is a failed [MFEM_VERIFY] or the final [MFEM_ABORT]; otherwise
    the result is [y] after the call. The specialized kernels are called
    without [d1d] and [q1d], which default to 0. *)
Definition PAConvectionApply (dim D1D Q1D NE : nat)
           (B G Bt Gt op x y : list T) : option (list T) :=
  if dim =? 2 then
    match dispatch_key D1D Q1D with
    | 0x22%N => SmemPAConvectionApply2D 2 2 8 NE B G Bt Gt op x y 0 0
    | 0x33%N => SmemPAConvectionApply2D 3 3 4 NE B G Bt Gt op x y 0 0
    | 0x34%N => SmemPAConvectionApply2D 3 4 4 NE B G Bt Gt op x y 0 0
    | 0x44%N => SmemPAConvectionApply2D 4 4 4 NE B G Bt Gt op x y 0 0
    | 0x46%N => SmemPAConvectionApply2D 4 6 4 NE B G Bt Gt op x y 0 0
    | 0x55%N => SmemPAConvectionApply2D 5 5 2 NE B G Bt Gt op x y 0 0
    | 0x58%N => SmemPAConvectionApply2D 5 8 2 NE B G Bt Gt op x y 0 0
    | 0x66%N => SmemPAConvectionApply2D 6 6 1 NE B G Bt Gt op x y 0 0
    | 0x77%N => SmemPAConvectionApply2D 7 7 1 NE B G Bt Gt op x y 0 0
    | 0x88%N => SmemPAConvectionApply2D 8 8 1 NE B G Bt Gt op x y 0 0
    | 0x99%N => SmemPAConvectionApply2D 9 9 1 NE B G Bt Gt op x y 0 0
    | _ => PAConvectionApply2D 0 0 NE B G Bt Gt op x y D1D Q1D
    end
  else if dim =? 3 then
    match dispatch_key D1D Q1D with
    | 0x22%N => SmemPAConvectionApply3D 2 2 NE B G Bt Gt op x y 0 0
    | 0x23%N => SmemPAConvectionApply3D 2 3 NE B G Bt Gt op x y 0 0
    | 0x24%N => SmemPAConvectionApply3D 2 4 NE B G Bt Gt op x y 0 0
    | 0x26%N => SmemPAConvectionApply3D 2 6 NE B G Bt Gt op x y 0 0
    | 0x34%N => SmemPAConvectionApply3D 3 4 NE B G Bt Gt op x y 0 0
    | 0x35%N => SmemPAConvectionApply3D 3 5 NE B G Bt Gt op x y 0 0
    | 0x45%N => SmemPAConvectionApply3D 4 5 NE B G Bt Gt op x y 0 0
    | 0x48%N => SmemPAConvectionApply3D 4 8 NE B G Bt Gt op x y 0 0
    | 0x56%N => SmemPAConvectionApply3D 5 6 NE B G Bt Gt op x y 0 0
    | 0x67%N => SmemPAConvectionApply3D 6 7 NE B G Bt Gt op x y 0 0
    | 0x78%N => SmemPAConvectionApply3D 7 8 NE B G Bt Gt op x y 0 0
    | 0x89%N => SmemPAConvectionApply3D 8 9 NE B G Bt Gt op x y 0 0
    | _ => PAConvectionApply3D 0 0 NE B G Bt Gt op x y D1D Q1D
    end
  else None (* MFEM_ABORT("Unknown kernel.") *).

Definition PAConvectionApplyT (dim D1D Q1D NE : nat)
           (B G Bt Gt op x y : list T) : option (list T) :=
  if dim =? 2 then
    match dispatch_key D1D Q1D with
    | 0x22%N => SmemPAConvectionApplyT2D 2 2 8 NE B G Bt Gt op x y 0 0
    | 0x33%N => SmemPAConvectionApplyT2D 3 3 4 NE B G Bt Gt op x y 0 0
    | 0x34%N => SmemPAConvectionApplyT2D 3 4 4 NE B G Bt Gt op x y 0 0
    | 0x44%N => SmemPAConvectionApplyT2D 4 4 4 NE B G Bt Gt op x y 0 0
    | 0x46%N => SmemPAConvectionApplyT2D 4 6 4 NE B G Bt Gt op x y 0 0
    | 0x55%N => SmemPAConvectionApplyT2D 5 5 2 NE B G Bt Gt op x y 0 0
    | 0x58%N => SmemPAConvectionApplyT2D 5 8 2 NE B G Bt Gt op x y 0 0
    | 0x66%N => SmemPAConvectionApplyT2D 6 6 1 NE B G Bt Gt op x y 0 0
    | 0x77%N => SmemPAConvectionApplyT2D 7 7 1 NE B G Bt Gt op x y 0 0
    | 0x88%N => SmemPAConvectionApplyT2D 8 8 1 NE B G Bt Gt op x y 0 0
    | 0x99%N => SmemPAConvectionApplyT2D 9 9 1 NE B G Bt Gt op x y 0 0
    | _ => PAConvectionApplyT2D 0 0 NE B G Bt Gt op x y D1D Q1D
    end
  else if dim =? 3 then
    match dispatch_key D1D Q1D with
    | 0x22%N => SmemPAConvectionApplyT3D 2 2 NE B G Bt Gt op x y 0 0
    | 0x23%N => SmemPAConvectionApplyT3D 2 3 NE B G Bt Gt op x y 0 0
    | 0x24%N => SmemPAConvectionApplyT3D 2 4 NE B G Bt Gt op x y 0 0
    | 0x26%N => SmemPAConvectionApplyT3D 2 6 NE B G Bt Gt op x y 0 0
    | 0x34%N => SmemPAConvectionApplyT3D 3 4 NE B G Bt Gt op x y 0 0
    | 0x35%N => SmemPAConvectionApplyT3D 3 5 NE B G Bt Gt op x y 0 0
    | 0x45%N => SmemPAConvectionApplyT3D 4 5 NE B G Bt Gt op x y 0 0
    | 0x48%N => SmemPAConvectionApplyT3D 4 8 NE B G Bt Gt op x y 0 0
    | 0x56%N => SmemPAConvectionApplyT3D 5 6 NE B G Bt Gt op x y 0 0
    | 0x67%N => SmemPAConvectionApplyT3D 6 7 NE B G Bt Gt op x y 0 0
    | 0x78%N => SmemPAConvectionApplyT3D 7 8 NE B G Bt Gt op x y 0 0
    | 0x89%N => SmemPAConvectionApplyT3D 8 9 NE B G Bt Gt op x y 0 0
    | _ => PAConvectionApplyT3D 0 0 NE B G Bt Gt op x y D1D Q1D
    end
  else None (* MFEM_ABORT("Unknown kernel.") *).

(** The (D1D, Q1D) pairs that have a specialized kernel. *)
Definition catalogue (dim : nat) : list (nat * nat) :=
  if dim =? 2 then
    [(2,2); (3,3); (3,4); (4,4); (4,6); (5,5); (5,8); (6,6); (7,7); (8,8); (9,9)]
  else if dim =? 3 then
    [(2,2); (2,3); (2,4); (2,6); (3,4); (3,5); (4,5); (4,8); (5,6); (6,7); (7,8); (8,9)]
  else [].

(** The generic fallback, run with the sizes of the call. *)
Definition generic_Apply (dim D1D Q1D NE : nat)
           (B G Bt Gt op x y : list T) : option (list T) :=
  if dim =? 2 then PAConvectionApply2D 0 0 NE B G Bt Gt op x y D1D Q1D
  else if dim =? 3 then PAConvectionApply3D 0 0 NE B G Bt Gt op x y D1D Q1D
  else None.

Definition generic_ApplyT (dim D1D Q1D NE : nat)
           (B G Bt Gt op x y : list T) : option (list T) :=
  if dim =? 2 then PAConvectionApplyT2D 0 0 NE B G Bt Gt op x y D1D Q1D
  else if dim =? 3 then PAConvectionApplyT3D 0 0 NE B G Bt Gt op x y D1D Q1D
  else None.

(** ** ConvectionIntegrator

    The members the partial-assembly path uses, as [AssemblePA] leaves
    them. The libCEED branch ([DeviceCanUseCeed()]) belongs to another
    component and is left out. *)
Record ConvectionIntegrator : Type := {
  dim : nat;
  ne : nat;
  nq : nat;
  dofs1D : nat;
  quad1D : nat;
  maps_B : list T;
  maps_G : list T;
  maps_Bt : list T;
  maps_Gt : list T;
  pa_data : list T
}.

(** The vectors of the caller are objects in a store; [x] and [y] are
    passed by reference and may name the same object. *)
Definition Store : Type := nat -> list T.

Definition store_set (m : Store) (r : nat) (v : list T) : Store :=
  fun r' => if r' =? r then v else m r'.

(** [DeviceCanUseCeed()] and [ceedOp->AddMult(x, y)] belong to the
    libCEED backend (fem/ceed), which is not among the sources: the flag
    and the operator are parameters. With libCEED the transpose aborts
    ([MFEM_ABORT]). *)
Definition AddMultPA (DeviceCanUseCeed : bool)
           (ceedOp_AddMult : nat -> nat -> Store -> option Store)
           (self : ConvectionIntegrator) (x y : nat) (m : Store)
  : option Store :=
  if DeviceCanUseCeed then ceedOp_AddMult x y m
  else
    match PAConvectionApply (dim self) (dofs1D self) (quad1D self) (ne self)
            (maps_B self) (maps_G self) (maps_Bt self) (maps_Gt self)
            (pa_data self) (m x) (m y) with
    | Some y' => Some (store_set m y y')
    | None => None
    end.

Definition AddMultTransposePA (DeviceCanUseCeed : bool)
           (self : ConvectionIntegrator) (x y : nat) (m : Store)
  : option Store :=
  if DeviceCanUseCeed then None
  else
    match PAConvectionApplyT (dim self) (dofs1D self) (quad1D self) (ne self)
            (maps_B self) (maps_G self) (maps_Bt self) (maps_Gt self)
            (pa_data self) (m x) (m y) with
    | Some y' => Some (store_set m y y')
    | None => None
    end.

(** ** ConvectionIntegrator::AssemblePA

    What the calls on the mesh, the finite element, the integration rule
    and the coefficient return, in the partial-assembly branch (the
    libCEED branch belongs to another component and is left out):
    [el.GetDim()], [ir->GetNPoints()], [mesh->Dimension()], [fes.GetNE()],
    [ir->GetWeights()], [geom->J], the [DofToQuad] maps with [ndof] and
    [nqpt], and the entries of the [CoefficientVector] built from the
    velocity [Q]. *)
Record AssembleView : Type := {
  el_GetDim : nat;
  ir_GetNPoints : nat;
  mesh_Dimension : nat;
  fes_GetNE : nat;
  ir_GetWeights : list T;
  geom_J : list T;
  dq_ndof : nat;
  dq_nqpt : nat;
  dq_B : list T;
  dq_G : list T;
  dq_Bt : list T;
  dq_Gt : list T;
  coeff_vel : list T
}.

(** [SetSize v s] is [v] after [v.SetSize(s, mt)] (linalg/vector.hpp, not
    among the sources): a parameter, of which the statements assume only
    that the result has [s] entries. [alpha] is the member of the
    integrator. The result is the integrator after the call. *)
Definition AssemblePA (SetSize : list T -> nat -> list T)
           (self : ConvectionIntegrator) (alpha : T) (fes : AssembleView)
  : option ConvectionIntegrator :=
  let dims := el_GetDim fes in
  let symmDims := dims in
  let nq := ir_GetNPoints fes in
  let dim := mesh_Dimension fes in
  let ne := fes_GetNE fes in
  let dofs1D := dq_ndof fes in
  let quad1D := dq_nqpt fes in
  let pa_data := SetSize (pa_data self) (symmDims * nq * ne)%nat in
  let vel := coeff_vel fes in
  match PAConvectionSetup dim nq ne (ir_GetWeights fes) (geom_J fes) vel alpha pa_data
  with
  | Some pa_data =>
      Some (Build_ConvectionIntegrator dim ne nq dofs1D quad1D
              (dq_B fes) (dq_G fes) (dq_Bt fes) (dq_Gt fes) pa_data)
  | None => None
  end.

(** ** DenseSymmetricMatrix (linalg/symmat.hpp)

    A symmetric matrix that stores its upper triangle, row after row.
    [height], [width] and the indices are C [int]s: the arithmetic of
    [operator()] is done in [Z], and a result outside of the range of
    [int] (signed overflow, undefined in C) is [None]. *)

Definition int_ok (z : Z) : bool := ((- 2 ^ 31 <=? z) && (z <? 2 ^ 31))%Z.

Definition int_ret (z : Z) : option Z := if int_ok z then Some z else None.

Definition int_bind (a : option Z) (k : Z -> option Z) : option Z :=
  match a with
  | Some z => k z
  | None => None
  end.

(** [(a*height) - (((a-1)*a)/2) + b - a], the offset of [(a, b)] for
    [a <= b]; [/] on [int] truncates towards zero. *)
Definition sym_offset (height a b : Z) : option Z :=
  int_bind (int_ret (a * height)%Z) (fun t1 =>
  int_bind (int_ret (a - 1)%Z) (fun t2 =>
  int_bind (int_ret (t2 * a)%Z) (fun t3 =>
  int_bind (int_ret (Z.quot t3 2)) (fun t4 =>
  int_bind (int_ret (t1 - t4)%Z) (fun t5 =>
  int_bind (int_ret (t5 + b)%Z) (fun t6 =>
  int_ret (t6 - a)%Z)))))).

(** [height] and [width] of [Matrix], and the [Memory<real_t> data] with
    the number of entries it was given. *)
Record DenseSymmetricMatrix : Type := {
  sm_height : Z;
  sm_width : Z;
  sm_data : list T;
  sm_capacity : Z
}.

(** [MFEM_ASSERT(cond, msg)] checks [cond] in debug builds only
    (general/error.hpp, not among the sources); a failed check aborts. *)
Definition MFEM_ASSERT {A : Type} (debug cond : bool) (k : option A) : option A :=
  if debug then (if cond then k else None) else k.

(** [operator()(i, j)]: the cell of [data] that the returned reference
    names. [data] is not null here. *)
Definition sym_cell (debug : bool) (m : DenseSymmetricMatrix) (i j : Z)
  : option Z :=
  MFEM_ASSERT debug
    ((0 <=? i) && (i <? sm_height m) && (0 <=? j) && (j <? sm_width m))%Z
    (if (i >? j)%Z (* reverse i and j *)
     then sym_offset (sm_height m) j i
     else sym_offset (sm_height m) i j).

(** [GetStoredSize()] *)
Definition GetStoredSize (m : DenseSymmetricMatrix) : Z :=
  Z.quot (sm_height m * (sm_height m + 1)) 2.

(** [UseExternalData(d, s)]: [data.Wrap(d, (s*(s+1))/2, false)], then
    [height = s; width = s]. *)
Definition UseExternalData (d : list T) (s : Z) : DenseSymmetricMatrix :=
  {| sm_height := s; sm_width := s; sm_data := d;
     sm_capacity := Z.quot (s * (s + 1)) 2 |}.

(** Reading and assigning through the reference [a(i, j)]. *)
Definition sym_read (debug : bool) (m : DenseSymmetricMatrix) (i j : Z)
  : option T :=
  match sym_cell debug m i j with
  | Some k => Some (rd (sm_data m) (Z.to_nat k))
  | None => None
  end.

Definition sym_write (debug : bool) (m : DenseSymmetricMatrix) (i j : Z) (v : T)
  : option DenseSymmetricMatrix :=
  match sym_cell debug m i j with
  | Some k => Some {| sm_height := sm_height m; sm_width := sm_width m;
                      sm_data := upd (sm_data m) (Z.to_nat k) v;
                      sm_capacity := sm_capacity m |}
  | None => None
  end.

(** The offset of [(a, b)], [a <= b], when no overflow occurs: the rows
    [0 .. a-1] hold [a*height - (a-1)*a/2] entries, and [(a, b)] is entry
    [b - a] of row [a]. *)
Definition packed_index (height a b : Z) : Z :=
  (a * height - Z.quot ((a - 1) * a) 2 + b - a)%Z.

(** The number of entries that [Read], [HostRead], [Write], [HostWrite],
    [ReadWrite] and [HostReadWrite] ask [mfem::Read], [mfem::Write] and
    [mfem::ReadWrite] for: [Height()*Width()], an [int]. *)
Definition access_size (m : DenseSymmetricMatrix) : option Z :=
  int_ret (sm_height m * sm_width m)%Z.

(** ** square_xy (miniapps/multidomain/multidomain_nd.cpp)

    The vector field of the miniapp that is handed to the convection
    integrator as a [VectorFunctionCoefficient]. [SetSize v s] is [v]
    after [v.SetSize(s)] (linalg/vector.hpp, not among the sources), and
    [2.0] is [1 + 1]. *)
Definition two : T := s1 K + s1 K.

Definition square_xy (SetSize : list T -> nat -> list T) (p v : list T) : list T :=
  let v := SetSize v 3%nat in
  let v := upd v 0 (- two * rd p 1) in
  let v := upd v 1 (two * rd p 0) in
  let v := upd v 2 zero in
  v.
(** * Part II. The element operators as functions of the indices

    [conv2D dx dy] is what Apply adds to [y(dx,dy,e)] in dimension 2,
    [convT2D dx dy] what ApplyTranspose adds; [conv3D] and [convT3D] are
    their counterparts in dimension 3. The intermediate functions follow
    the local arrays of the kernels. [O qx qy c] is the coefficient of the
    element at a quadrature point, [X dx dy] the input dofs of the
    element. *)

Section Operator2D.
Variables D Q : nat.
Variables B G Bt Gt : nat -> nat -> T.
Variable O : nat -> nat -> nat -> T.
Variable X : nat -> nat -> T.

Definition m2_Bu (dy qx : nat) : T := sum D (fun dx => B qx dx * X dx dy).
Definition m2_Gu (dy qx : nat) : T := sum D (fun dx => G qx dx * X dx dy).
Definition m2_GBu (qy qx : nat) : T := sum D (fun dy => G qy dy * m2_Bu dy qx).
Definition m2_BGu (qy qx : nat) : T := sum D (fun dy => B qy dy * m2_Gu dy qx).
Definition m2_DGu (qy qx : nat) : T :=
  (O qx qy 0 * m2_BGu qy qx) + (O qx qy 1 * m2_GBu qy qx).
Definition m2_BDGu (dy qx : nat) : T := sum Q (fun qy => Bt dy qy * m2_DGu qy qx).
Definition conv2D (dx dy : nat) : T := sum Q (fun qx => Bt dx qx * m2_BDGu dy qx).

Definition m2_BBu (qy qx : nat) : T := sum D (fun dy => B qy dy * m2_Bu dy qx).
Definition m2_DBu (qy qx c : nat) : T := O qx qy c * m2_BBu qy qx.
Definition m2_GDBu (dy qx c : nat) : T :=
  match c with
  | 0 => sum Q (fun qy => Bt dy qy * m2_DBu qy qx 0)
  | _ => sum Q (fun qy => Gt dy qy * m2_DBu qy qx 1)
  end.
Definition convT2D (dx dy : nat) : T :=
  sum Q (fun qx => Gt dx qx * m2_GDBu dy qx 0 + Bt dx qx * m2_GDBu dy qx 1).
End Operator2D.

Section Operator3D.
Variables D Q : nat.
Variables B G Bt Gt : nat -> nat -> T.
Variable O : nat -> nat -> nat -> nat -> T.
Variable X : nat -> nat -> nat -> T.

Definition m3_Bu (dz dy qx : nat) : T := sum D (fun dx => B qx dx * X dx dy dz).
Definition m3_Gu (dz dy qx : nat) : T := sum D (fun dx => G qx dx * X dx dy dz).
Definition m3_BBu (dz qy qx : nat) : T := sum D (fun dy => B qy dy * m3_Bu dz dy qx).
Definition m3_GBu (dz qy qx : nat) : T := sum D (fun dy => G qy dy * m3_Bu dz dy qx).
Definition m3_BGu (dz qy qx : nat) : T := sum D (fun dy => B qy dy * m3_Gu dz dy qx).
Definition m3_GBBu (qz qy qx : nat) : T := sum D (fun dz => G qz dz * m3_BBu dz qy qx).
Definition m3_BGBu (qz qy qx : nat) : T := sum D (fun dz => B qz dz * m3_GBu dz qy qx).
Definition m3_BBGu (qz qy qx : nat) : T := sum D (fun dz => B qz dz * m3_BGu dz qy qx).
Definition m3_DGu (qz qy qx : nat) : T :=
  (O qx qy qz 0 * m3_BBGu qz qy qx) + (O qx qy qz 1 * m3_BGBu qz qy qx)
  + (O qx qy qz 2 * m3_GBBu qz qy qx).
Definition m3_BDGu (dz qy qx : nat) : T :=
  sum Q (fun qz => Bt dz qz * m3_DGu qz qy qx).
Definition m3_BBDGu (dz dy qx : nat) : T :=
  sum Q (fun qy => Bt dy qy * m3_BDGu dz qy qx).
Definition conv3D (dx dy dz : nat) : T :=
  sum Q (fun qx => Bt dx qx * m3_BBDGu dz dy qx).

Definition m3_BBBu (qz qy qx : nat) : T := sum D (fun dz => B qz dz * m3_BBu dz qy qx).
Definition m3_DBu (qz qy qx c : nat) : T := O qx qy qz c * m3_BBBu qz qy qx.
Definition m3_GDBu (dz qy qx c : nat) : T :=
  match c with
  | 0 => sum Q (fun qz => Bt dz qz * m3_DBu qz qy qx 0)
  | 1 => sum Q (fun qz => Bt dz qz * m3_DBu qz qy qx 1)
  | _ => sum Q (fun qz => Gt dz qz * m3_DBu qz qy qx 2)
  end.
Definition m3_GGDBu (dz dy qx c : nat) : T :=
  match c with
  | 0 => sum Q (fun qy => Bt dy qy * m3_GDBu dz qy qx 0)
  | 1 => sum Q (fun qy => Gt dy qy * m3_GDBu dz qy qx 1)
  | _ => sum Q (fun qy => Bt dy qy * m3_GDBu dz qy qx 2)
  end.
Definition convT3D (dx dy dz : nat) : T :=
  for_loop Q (fun qx res =>
    res + Gt dx qx * m3_GGDBu dz dy qx 0 + Bt dx qx * m3_GGDBu dz dy qx 1
    + Bt dx qx * m3_GGDBu dz dy qx 2) zero.
End Operator3D.

(** The accumulation of the element contributions into [y]. *)
Definition add_elems2D (NE D : nat) (val : nat -> nat -> nat -> T) (y : list T)
  : list T :=
  for_loop NE (fun e => for_loop D (fun dx => for_loop D (fun dy y =>
    upd y (Reshape3 D D dx dy e) (rd y (Reshape3 D D dx dy e) + val e dx dy)))) y.

Definition add_elems3D (NE D : nat) (val : nat -> nat -> nat -> nat -> T)
           (y : list T) : list T :=
  for_loop NE (fun e => for_loop D (fun dz => for_loop D (fun dy =>
    for_loop D (fun dx y =>
      upd y (Reshape4 D D D dx dy dz e)
          (rd y (Reshape4 D D D dx dy dz e) + val e dx dy dz))))) y.

(** The operators on whole vectors: the accessors of the kernels, and the
    contribution to each dof of each element. *)
Section Operators.
Variables D1D Q1D : nat.
Variables b g bt gt op_ x_ : list T.

Definition acc_B (qx dx : nat) : T := rd b (Reshape2 Q1D qx dx).
Definition acc_G (qx dx : nat) : T := rd g (Reshape2 Q1D qx dx).
Definition acc_Bt (dx qx : nat) : T := rd bt (Reshape2 D1D dx qx).
Definition acc_Gt (dx qx : nat) : T := rd gt (Reshape2 D1D dx qx).
Definition acc_op2 (e qx qy c : nat) : T := rd op_ (Reshape4 Q1D Q1D 2 qx qy c e).
Definition acc_op3 (e qx qy qz c : nat) : T :=
  rd op_ (Reshape5 Q1D Q1D Q1D 3 qx qy qz c e).
Definition acc_x2 (e dx dy : nat) : T := rd x_ (Reshape3 D1D D1D dx dy e).
Definition acc_x3 (e dx dy dz : nat) : T := rd x_ (Reshape4 D1D D1D D1D dx dy dz e).

Definition Apply2D_val (e dx dy : nat) : T :=
  conv2D D1D Q1D acc_B acc_G acc_Bt (acc_op2 e) (acc_x2 e) dx dy.
Definition ApplyT2D_val (e dx dy : nat) : T :=
  convT2D D1D Q1D acc_B acc_Bt acc_Gt (acc_op2 e) (acc_x2 e) dx dy.
Definition Apply3D_val (e dx dy dz : nat) : T :=
  conv3D D1D Q1D acc_B acc_G acc_Bt (acc_op3 e) (acc_x3 e) dx dy dz.
Definition ApplyT3D_val (e dx dy dz : nat) : T :=
  convT3D D1D Q1D acc_B acc_Bt acc_Gt (acc_op3 e) (acc_x3 e) dx dy dz.
End Operators.

(** [fills c L P f]: on a buffer of length [L], [f] combines by [c] the
    value [v] into every cell [a] with [P a v], and leaves the other cells
    alone. [c] is [fun _ v => v] for an assignment, [sadd] for [+=]. *)
Definition fills (c : T -> T -> T) (L : nat) (P : nat -> T -> Prop)
           (f : list T -> list T) : Prop :=
  forall buf, length buf = L ->
    length (f buf) = L /\
    (forall a v, P a v -> rd (f buf) a = c (rd buf a) v) /\
    (forall a, (forall v, ~ P a v) -> rd (f buf) a = rd buf a).


(** * Part III. The quantities the specification speaks of *)

(** The accessors of the Setup kernels: [J(q,r,c,e)] and the velocity at a
    point, which is [V(c,0,0)] when [vel] holds a single vector
    ([vel.Size() == DIM]) and [V(c,q,e)] otherwise. *)
Definition jac (NQ DIM : nat) (j : list T) (q e : nat) (r c : nat) : T :=
  rd j (Reshape4 NQ DIM DIM q r c e).

Definition velocity (DIM NQ : nat) (vel : list T) (q e c : nat) : T :=
  if length vel =? DIM then rd vel c else rd vel (Reshape3 DIM NQ c q e).

(** [alpha * W(q) * v_c] *)
Definition weighted_velocity (DIM NQ : nat) (w vel : list T) (alpha : T)
           (q e c : nat) : T :=
  alpha * rd w q * velocity DIM NQ vel q e c.

(** The entries the Setup kernels store at [(q,c,e)], in the order in
    which the kernels compute them. *)
Definition Setup2D_entry (NQ : nat) (w j vel : list T) (alpha : T)
           (e q c : nat) : T :=
  let J := jac NQ 2 j q e in
  let wx := weighted_velocity 2 NQ w vel alpha q e 0 in
  let wy := weighted_velocity 2 NQ w vel alpha q e 1 in
  match c with
  | 0 => wx * J 1 1 - wy * J 0 1
  | _ => - wx * J 1 0 + wy * J 0 0
  end.

Definition Setup3D_entry (NQ : nat) (w j vel : list T) (alpha : T)
           (e q c : nat) : T :=
  let J := jac NQ 3 j q e in
  let wx := weighted_velocity 3 NQ w vel alpha q e 0 in
  let wy := weighted_velocity 3 NQ w vel alpha q e 1 in
  let wz := weighted_velocity 3 NQ w vel alpha q e 2 in
  let A11 := (J 1 1 * J 2 2) - (J 1 2 * J 2 1) in
  let A12 := (J 2 1 * J 0 2) - (J 0 1 * J 2 2) in
  let A13 := (J 0 1 * J 1 2) - (J 1 1 * J 0 2) in
  let A21 := (J 2 0 * J 1 2) - (J 1 0 * J 2 2) in
  let A22 := (J 0 0 * J 2 2) - (J 0 2 * J 2 0) in
  let A23 := (J 1 0 * J 0 2) - (J 0 0 * J 1 2) in
  let A31 := (J 1 0 * J 2 1) - (J 2 0 * J 1 1) in
  let A32 := (J 2 0 * J 0 1) - (J 0 0 * J 2 1) in
  let A33 := (J 0 0 * J 1 1) - (J 0 1 * J 1 0) in
  match c with
  | 0 => wx * A11 + wy * A12 + wz * A13
  | 1 => wx * A21 + wy * A22 + wz * A23
  | _ => wx * A31 + wy * A32 + wz * A33
  end.

(** The nine entries [A11 .. A33] as PAConvectionSetup3D computes them:
    [Setup3D_A J r c] is the code's [A] with row [r+1] and column
    [c+1]. *)
Definition Setup3D_A (J : nat -> nat -> T) (r c : nat) : T :=
  match r, c with
  | 0, 0 => (J 1 1 * J 2 2) - (J 1 2 * J 2 1)
  | 0, 1 => (J 2 1 * J 0 2) - (J 0 1 * J 2 2)
  | 0, _ => (J 0 1 * J 1 2) - (J 1 1 * J 0 2)
  | 1, 0 => (J 2 0 * J 1 2) - (J 1 0 * J 2 2)
  | 1, 1 => (J 0 0 * J 2 2) - (J 0 2 * J 2 0)
  | 1, _ => (J 1 0 * J 0 2) - (J 0 0 * J 1 2)
  | _, 0 => (J 1 0 * J 2 1) - (J 2 0 * J 1 1)
  | _, 1 => (J 2 0 * J 0 1) - (J 0 0 * J 2 1)
  | _, _ => (J 0 0 * J 1 1) - (J 0 1 * J 1 0)
  end.

(** The adjugate as the specification defines it: the transpose of the
    cofactor matrix. [cofactor2] and [cofactor3] are the signed minors of
    a 2x2 and of a 3x3 matrix (for 3x3 in the cyclic form, which carries
    the sign). *)
Definition cofactor2 (J : nat -> nat -> T) (i j : nat) : T :=
  if Nat.even (i + j) then J (1 - i)%nat (1 - j)%nat
  else - J (1 - i)%nat (1 - j)%nat.

Definition cofactor3 (J : nat -> nat -> T) (i j : nat) : T :=
  J ((i + 1) mod 3) ((j + 1) mod 3) * J ((i + 2) mod 3) ((j + 2) mod 3)
  - J ((i + 1) mod 3) ((j + 2) mod 3) * J ((i + 2) mod 3) ((j + 1) mod 3).

Definition adj2 (J : nat -> nat -> T) (r c : nat) : T := cofactor2 J c r.
Definition adj3 (J : nat -> nat -> T) (r c : nat) : T := cofactor3 J c r.

Definition det2 (J : nat -> nat -> T) : T := J 0 0 * J 1 1 - J 0 1 * J 1 0.
Definition det3 (J : nat -> nat -> T) : T :=
  sum 3 (fun c => J 0 c * cofactor3 J 0 c).

(** [(A v)_r], the product the specification writes [A . v]. *)
Definition matvec (n : nat) (A : nat -> nat -> T) (v : nat -> T) (r : nat) : T :=
  sum n (fun c => A r c * v c).

(** [sum_j v_j A_jr], the product with the indices of [A] exchanged. *)
Definition vecmat (n : nat) (v : nat -> T) (A : nat -> nat -> T) (r : nat) : T :=
  sum n (fun j => v j * A j r).

(** The pairing, at the quadrature points of an element, of the
    interpolated [R] with the directional derivative of [P]. *)
Definition pairing2D (D Q : nat) (B G : nat -> nat -> T)
           (O : nat -> nat -> nat -> T) (P R : nat -> nat -> T) : T :=
  sum Q (fun qx => sum Q (fun qy =>
    m2_DGu D B G O P qy qx * m2_BBu D B R qy qx)).

Definition pairing3D (D Q : nat) (B G : nat -> nat -> T)
           (O : nat -> nat -> nat -> nat -> T) (P R : nat -> nat -> nat -> T) : T :=
  sum Q (fun qx => sum Q (fun qy => sum Q (fun qz =>
    m3_DGu D B G O P qz qy qx * m3_BBBu D B R qz qy qx))).

(** ** Vectors of dofs *)

(** The number of entries of an E-vector. *)
Definition ndofs (dim NE D : nat) : nat := (NE * D ^ dim)%nat.

(** The element, and the position in the element, of entry [i] of an
    E-vector laid out [D x D x NE] or [D x D x D x NE]. *)
Definition blockfun2 (D : nat) (val : nat -> nat -> nat -> T) (i : nat) : T :=
  val (i / D / D) (i mod D) ((i / D) mod D).

Definition blockfun3 (D : nat) (val : nat -> nat -> nat -> nat -> T) (i : nat) : T :=
  val (i / D / D / D) (i mod D) ((i / D) mod D) ((i / D / D) mod D).

(** The contribution of Apply and of ApplyTranspose to entry [i] of [y]:
    it depends on the tables, the coefficient and [x] only. *)
Definition Apply_contribution (dim D1D Q1D : nat) (b g bt op_ x_ : list T)
           (i : nat) : T :=
  if dim =? 2 then blockfun2 D1D (Apply2D_val D1D Q1D b g bt op_ x_) i
  else blockfun3 D1D (Apply3D_val D1D Q1D b g bt op_ x_) i.

Definition ApplyT_contribution (dim D1D Q1D : nat) (b bt gt op_ x_ : list T)
           (i : nat) : T :=
  if dim =? 2 then blockfun2 D1D (ApplyT2D_val D1D Q1D b bt gt op_ x_) i
  else blockfun3 D1D (ApplyT3D_val D1D Q1D b bt gt op_ x_) i.

(** [y] after the final loop of a kernel. *)
Definition Apply_result (dim D1D Q1D NE : nat) (b g bt op_ x_ y_ : list T)
  : list T :=
  if dim =? 2 then add_elems2D NE D1D (Apply2D_val D1D Q1D b g bt op_ x_) y_
  else add_elems3D NE D1D (Apply3D_val D1D Q1D b g bt op_ x_) y_.

Definition ApplyT_result (dim D1D Q1D NE : nat) (b bt gt op_ x_ y_ : list T)
  : list T :=
  if dim =? 2 then add_elems2D NE D1D (ApplyT2D_val D1D Q1D b bt gt op_ x_) y_
  else add_elems3D NE D1D (ApplyT3D_val D1D Q1D b bt gt op_ x_) y_.

(** The Euclidean dot product of two vectors of [N] entries, and what a
    call has added to [y]. *)
Definition dot (N : nat) (a c : nat -> T) : T := sum N (fun i => a i * c i).

Definition added (y' y : list T) (i : nat) : T := rd y' i - rd y i.

(** [mt] holds the transpose of the [Q x D] table [m]. *)
Definition transposed (D Q : nat) (mt m : list T) : Prop :=
  forall d q, (d < D)%nat -> (q < Q)%nat ->
              rd mt (Reshape2 D d q) = rd m (Reshape2 Q q d).

(** The shared-memory kernel instantiated at the sizes [(D1D, Q1D)], the
    way the dispatch tables call it. *)
Definition specialized_Apply (dim D1D Q1D NBZ NE : nat)
           (B G Bt Gt op x y : list T) : option (list T) :=
  if dim =? 2 then SmemPAConvectionApply2D D1D Q1D NBZ NE B G Bt Gt op x y 0 0
  else SmemPAConvectionApply3D D1D Q1D NE B G Bt Gt op x y 0 0.

Definition specialized_ApplyT (dim D1D Q1D NBZ NE : nat)
           (B G Bt Gt op x y : list T) : option (list T) :=
  if dim =? 2 then SmemPAConvectionApplyT2D D1D Q1D NBZ NE B G Bt Gt op x y 0 0
  else SmemPAConvectionApplyT3D D1D Q1D NE B G Bt Gt op x y 0 0.

(** [call], a kernel with everything but [y] fixed, adds [M] to the first
    [N] entries of [y] and leaves the others alone; called again on its
    own result it adds [M] once more. *)
Definition accumulates (call : list T -> option (list T)) (N : nat)
           (M : nat -> T) (y : list T) : Prop :=
  exists y1 y2,
    call y = Some y1 /\ call y1 = Some y2 /\
    length y1 = length y /\
    (forall i, (i < N)%nat -> rd y1 i = rd y i + M i) /\
    (forall i, (N <= i)%nat -> rd y1 i = rd y i) /\
    (forall i, (i < N)%nat -> rd y2 i = rd y i + M i + M i).


(** ** The operators written out

    The value and the derivatives at a quadrature point of the function
    with the dofs [X], as sums over all the dofs of the element, and the
    contributions of Apply and ApplyTranspose as sums over all the
    quadrature points: the formulas that the kernels evaluate by sum
    factorisation. [interp2D D G B X] is the derivative along the first
    axis, [interp2D D B G X] along the second, [interp2D D B B X] the
    value. *)
Definition interp2D (D : nat) (Bx By : nat -> nat -> T) (X : nat -> nat -> T)
           (qx qy : nat) : T :=
  sum D (fun dy => sum D (fun dx => Bx qx dx * By qy dy * X dx dy)).

Definition interp3D (D : nat) (Bx By Bz : nat -> nat -> T)
           (X : nat -> nat -> nat -> T) (qx qy qz : nat) : T :=
  sum D (fun dz => sum D (fun dy => sum D (fun dx =>
    Bx qx dx * By qy dy * Bz qz dz * X dx dy dz))).

Definition direct2D (D Q : nat) (B G Bt : nat -> nat -> T)
           (O : nat -> nat -> nat -> T) (X : nat -> nat -> T) (dx dy : nat) : T :=
  sum Q (fun qy => sum Q (fun qx =>
    Bt dx qx * Bt dy qy
    * (O qx qy 0 * interp2D D G B X qx qy + O qx qy 1 * interp2D D B G X qx qy))).

Definition directT2D (D Q : nat) (B Bt Gt : nat -> nat -> T)
           (O : nat -> nat -> nat -> T) (X : nat -> nat -> T) (dx dy : nat) : T :=
  sum Q (fun qy => sum Q (fun qx =>
    (Gt dx qx * Bt dy qy * O qx qy 0 + Bt dx qx * Gt dy qy * O qx qy 1)
    * interp2D D B B X qx qy)).

Definition direct3D (D Q : nat) (B G Bt : nat -> nat -> T)
           (O : nat -> nat -> nat -> nat -> T) (X : nat -> nat -> nat -> T)
           (dx dy dz : nat) : T :=
  sum Q (fun qz => sum Q (fun qy => sum Q (fun qx =>
    Bt dx qx * Bt dy qy * Bt dz qz
    * (O qx qy qz 0 * interp3D D G B B X qx qy qz
       + O qx qy qz 1 * interp3D D B G B X qx qy qz
       + O qx qy qz 2 * interp3D D B B G X qx qy qz)))).

Definition directT3D (D Q : nat) (B Bt Gt : nat -> nat -> T)
           (O : nat -> nat -> nat -> nat -> T) (X : nat -> nat -> nat -> T)
           (dx dy dz : nat) : T :=
  sum Q (fun qz => sum Q (fun qy => sum Q (fun qx =>
    (Gt dx qx * Bt dy qy * Bt dz qz * O qx qy qz 0
     + Bt dx qx * Gt dy qy * Bt dz qz * O qx qy qz 1
     + Bt dx qx * Bt dy qy * Gt dz qz * O qx qy qz 2)
    * interp3D D B B B X qx qy qz))).

(** The entries of an E-vector, or of the coefficient buffer, that belong
    to element [e], each element having [size] entries. *)
Definition in_block (size e i : nat) : Prop :=
  (size * e <= i)%nat /\ (i < size * e + size)%nat.

(** The determinant of the Jacobian in dimension 2 and 3. *)
Definition det (dim : nat) (J : nat -> nat -> T) : T :=
  if dim =? 2 then det2 J else det3 J.

(** The entry that Setup stores at [(q,c,e)] in dimension 2 or 3. *)
Definition Setup_entry (NQ : nat) (w j vel : list T) (alpha : T) (dim : nat)
  : nat -> nat -> nat -> T :=
  if dim =? 2 then Setup2D_entry NQ w j vel alpha
  else Setup3D_entry NQ w j vel alpha.
(** * Part IV. Loops, buffers and sums: the facts the kernels rest on *)

(** The lemmas that use a law of the ring get the hypothesis
    [exact_arithmetic]; the others hold for every [real_t]. *)
Section ExactArithmetic.
Hypothesis exact_arithmetic : exact K.

Add Ring KRing :
  (exact_arithmetic
   : ring_theory (s0 K) (s1 K) (sadd K) (smul K) (ssub K) (sopp K) eq).

Local Close Scope scalar_scope.

(** ** Index maps *)

Ltac close_conj :=
  repeat match goal with H : _ /\ _ |- _ => destruct H end;
  repeat split; first [assumption | congruence | lia].

Lemma mix_lt (n a i j : nat) :
  i < a -> j < n -> i * n + j < a * n.
Proof.
  intros Hi Hj.
  assert ((i + 1) * n <= a * n) by (apply Nat.mul_le_mono_r; lia). lia.
Qed.

Lemma mix_inj (n i j i' j' : nat) :
  j < n -> j' < n -> i * n + j = i' * n + j' -> i = i' /\ j = j'.
Proof.
  intros Hj Hj' E.
  assert (i = i'); [|subst; lia].
  destruct (Nat.lt_trichotomy i i') as [H|[H|H]]; [exfalso|assumption|exfalso].
  - assert ((i + 1) * n <= i' * n) by (apply Nat.mul_le_mono_r; lia). lia.
  - assert ((i' + 1) * n <= i * n) by (apply Nat.mul_le_mono_r; lia). lia.
Qed.

Lemma at2_lt (n0 n1 i j : nat) : i < n0 -> j < n1 -> at2 n1 i j < n0 * n1.
Proof. unfold at2. apply mix_lt. Qed.

Lemma at2_inj (n1 i j i' j' : nat) :
  j < n1 -> j' < n1 -> at2 n1 i j = at2 n1 i' j' -> i = i' /\ j = j'.
Proof. apply mix_inj. Qed.

Lemma at3_lt (n0 n1 n2 i j k : nat) :
  i < n0 -> j < n1 -> k < n2 -> at3 n1 n2 i j k < n0 * n1 * n2.
Proof.
  intros. unfold at3. apply mix_lt; [|assumption].
  now apply mix_lt.
Qed.

Lemma at3_inj (n1 n2 i j k i' j' k' : nat) :
  j < n1 -> k < n2 -> j' < n1 -> k' < n2 ->
  at3 n1 n2 i j k = at3 n1 n2 i' j' k' -> i = i' /\ j = j' /\ k = k'.
Proof.
  unfold at3; intros Hj Hk Hj' Hk' E.
  apply mix_inj in E; [|assumption..]. destruct E as [E ->].
  apply mix_inj in E; [|assumption..]. close_conj.
Qed.

Lemma at4_lt (n0 n1 n2 n3 i j k l : nat) :
  i < n0 -> j < n1 -> k < n2 -> l < n3 -> at4 n1 n2 n3 i j k l < n0 * n1 * n2 * n3.
Proof.
  intros. unfold at4. apply mix_lt; [|assumption].
  now apply (@at3_lt n0 n1 n2).
Qed.

Lemma at4_inj (n1 n2 n3 i j k l i' j' k' l' : nat) :
  j < n1 -> k < n2 -> l < n3 -> j' < n1 -> k' < n2 -> l' < n3 ->
  at4 n1 n2 n3 i j k l = at4 n1 n2 n3 i' j' k' l' ->
  i = i' /\ j = j' /\ k = k' /\ l = l'.
Proof.
  unfold at4; intros Hj Hk Hl Hj' Hk' Hl' E.
  apply mix_inj in E; [|assumption..]. destruct E as [E ->].
  apply (@at3_inj n1 n2) in E; [|assumption..]. close_conj.
Qed.

Lemma Reshape3_lt (N1 N2 N3 i j k : nat) :
  i < N1 -> j < N2 -> k < N3 -> Reshape3 N1 N2 i j k < N1 * N2 * N3.
Proof.
  intros. unfold Reshape3.
  pose proof (@mix_lt N2 N3 k j). pose proof (@mix_lt N1 (N3 * N2) (k * N2 + j) i).
  nia.
Qed.

Lemma Reshape3_inj (N1 N2 i j k i' j' k' : nat) :
  i < N1 -> j < N2 -> i' < N1 -> j' < N2 ->
  Reshape3 N1 N2 i j k = Reshape3 N1 N2 i' j' k' -> i = i' /\ j = j' /\ k = k'.
Proof.
  unfold Reshape3; intros Hi Hj Hi' Hj' E.
  assert (E1 : (j + N2 * k) * N1 + i = (j' + N2 * k') * N1 + i') by lia.
  apply mix_inj in E1; [|assumption..]. destruct E1 as [E1 ->].
  assert (E2 : k * N2 + j = k' * N2 + j') by lia.
  apply mix_inj in E2; [|assumption..]. close_conj.
Qed.

Lemma Reshape4_lt (N1 N2 N3 N4 i j k l : nat) :
  i < N1 -> j < N2 -> k < N3 -> l < N4 ->
  Reshape4 N1 N2 N3 i j k l < N1 * N2 * N3 * N4.
Proof.
  intros. unfold Reshape4.
  pose proof (@mix_lt N3 N4 l k). pose proof (@mix_lt N2 (N4 * N3) (l * N3 + k) j).
  pose proof (@mix_lt N1 (N4 * N3 * N2) ((l * N3 + k) * N2 + j) i).
  nia.
Qed.

Lemma Reshape4_inj (N1 N2 N3 i j k l i' j' k' l' : nat) :
  i < N1 -> j < N2 -> k < N3 -> i' < N1 -> j' < N2 -> k' < N3 ->
  Reshape4 N1 N2 N3 i j k l = Reshape4 N1 N2 N3 i' j' k' l' ->
  i = i' /\ j = j' /\ k = k' /\ l = l'.
Proof.
  unfold Reshape4; intros Hi Hj Hk Hi' Hj' Hk' E.
  assert (E1 : (j + N2 * (k + N3 * l)) * N1 + i = (j' + N2 * (k' + N3 * l')) * N1 + i')
    by lia.
  apply mix_inj in E1; [|assumption..]. destruct E1 as [E1 ->].
  assert (E2 : (k + N3 * l) * N2 + j = (k' + N3 * l') * N2 + j') by lia.
  apply mix_inj in E2; [|assumption..]. destruct E2 as [E2 ->].
  assert (E3 : l * N3 + k = l' * N3 + k') by lia.
  apply mix_inj in E3; [|assumption..]. close_conj.
Qed.

(** ** Basic facts on loops *)

Lemma for_loop_ext (S : Type) (n : nat) (f g : nat -> S -> S) (s : S) :
  (forall i s', i < n -> f i s' = g i s') ->
  for_loop n f s = for_loop n g s.
Proof.
  induction n as [|n IH]; intros H; simpl; [reflexivity|].
  rewrite IH by (intros; apply H; lia).
  apply H; lia.
Qed.

Lemma for_loop_add (S : Type) (a b : nat) (f : nat -> S -> S) (s : S) :
  for_loop (a + b) f s = for_loop b (fun i => f (a + i)) (for_loop a f s).
Proof.
  induction b as [|b IH]; simpl.
  - now rewrite Nat.add_0_r.
  - rewrite Nat.add_succ_r; simpl. now rewrite IH.
Qed.

(** A loop nest runs through the flattened index space. *)
Lemma for_loop_flat (S : Type) (n m : nat) (f : nat -> nat -> S -> S) (s : S) :
  for_loop n (fun i => for_loop m (f i)) s
  = for_loop (n * m) (fun t => f (t / m) (t mod m)) s.
Proof.
  induction n as [|n IH]; simpl; [reflexivity|].
  rewrite IH. replace (m + n * m) with (n * m + m) by lia.
  rewrite for_loop_add. apply for_loop_ext; intros j s' Hj.
  replace (n * m + j) with (j + n * m) by lia.
  rewrite Nat.div_add by lia. rewrite Nat.Div0.mod_add.
  rewrite Nat.div_small, Nat.mod_small by lia. reflexivity.
Qed.

Lemma for_loop_pair (A B : Type) (n : nat) (body : nat -> A * B -> A * B)
      (f : nat -> A -> A) (g : nat -> B -> B) (a : A) (b : B) :
  (forall i a' b', i < n -> body i (a', b') = (f i a', g i b')) ->
  for_loop n body (a, b) = (for_loop n f a, for_loop n g b).
Proof.
  induction n as [|n IH]; intros H; simpl; [reflexivity|].
  rewrite IH by (intros; apply H; lia). apply H; lia.
Qed.

Lemma for_loop_triple (A B C : Type) (n : nat)
      (body : nat -> A * B * C -> A * B * C)
      (f : nat -> A -> A) (g : nat -> B -> B) (h : nat -> C -> C)
      (a : A) (b : B) (c : C) :
  (forall i a' b' c', i < n -> body i (a', b', c') = (f i a', g i b', h i c')) ->
  for_loop n body (a, b, c) = (for_loop n f a, for_loop n g b, for_loop n h c).
Proof.
  induction n as [|n IH]; intros H; simpl; [reflexivity|].
  rewrite IH by (intros; apply H; lia). apply H; lia.
Qed.

Lemma prod3_le (a b c M : nat) :
  a <= M -> b <= M -> c <= M -> a * b * c <= M * M * M.
Proof.
  intros. apply Nat.mul_le_mono; [apply Nat.mul_le_mono|]; assumption.
Qed.

Local Open Scope scalar_scope.

(** ** Basic facts on buffers *)

Lemma length_upd (v : list T) (i : nat) (x : T) : length (upd v i x) = length v.
Proof.
  revert i; induction v as [|y v IH]; intros [|i]; simpl; auto.
Qed.

Lemma rd_upd_same (v : list T) (i : nat) (x : T) :
  i < length v -> rd (upd v i x) i = x.
Proof.
  revert i; induction v as [|y v IH]; intros [|i]; simpl; intros H; try lia; auto.
  apply IH; lia.
Qed.

Lemma rd_upd_other (v : list T) (i j : nat) (x : T) :
  i <> j -> rd (upd v i x) j = rd v j.
Proof.
  revert i j; induction v as [|y v IH]; intros [|i] [|j]; simpl; intros H;
    try congruence; auto.
  apply IH; lia.
Qed.

Lemma upd_oob (v : list T) (i : nat) (x : T) : length v <= i -> upd v i x = v.
Proof.
  revert i; induction v as [|y v IH]; intros [|i]; simpl; intros H; try lia; auto.
  f_equal; apply IH; lia.
Qed.

Lemma upd_upd_same (v : list T) (i : nat) (x y : T) :
  upd (upd v i x) i y = upd v i y.
Proof.
  revert i; induction v as [|z v IH]; intros [|i]; simpl; auto.
  f_equal; apply IH.
Qed.


Lemma rd_ext (a b : list T) :
  length a = length b -> (forall i, i < length a -> rd a i = rd b i) -> a = b.
Proof.
  revert b; induction a as [|x a IH]; intros [|y b]; simpl; intros HL H;
    try discriminate; auto.
  f_equal.
  - apply (H O); lia.
  - apply IH; [lia|]. intros i Hi. apply (H (Datatypes.S i)); lia.
Qed.

Lemma length_alloc (n : nat) : length (alloc n) = n.
Proof. unfold alloc. now rewrite length_map, length_seq. Qed.

(** ** Sums *)

Lemma sum_S (n : nat) (f : nat -> T) : sum (Datatypes.S n) f = sum n f + f n.
Proof. reflexivity. Qed.

Lemma sum_ext (n : nat) (f g : nat -> T) :
  (forall k, k < n -> f k = g k) -> sum n f = sum n g.
Proof.
  induction n as [|n IH]; intros H; [reflexivity|].
  rewrite !sum_S, IH by (intros; apply H; lia). now rewrite H by lia.
Qed.

Lemma sum_zero (n : nat) (f : nat -> T) :
  (forall k, k < n -> f k = zero) -> sum n f = zero.
Proof.
  induction n as [|n IH]; intros H; [reflexivity|].
  rewrite sum_S, IH, H by (intros; try apply H; lia). ring.
Qed.

Lemma sum_plus (n : nat) (f g : nat -> T) :
  sum n (fun k => f k + g k) = sum n f + sum n g.
Proof.
  induction n as [|n IH]; [unfold sum; simpl; ring|].
  rewrite !sum_S, IH. ring.
Qed.

Lemma sum_mul_l (n : nat) (c : T) (f : nat -> T) :
  c * sum n f = sum n (fun k => c * f k).
Proof.
  induction n as [|n IH]; [unfold sum; simpl; ring|].
  rewrite !sum_S, <- IH. ring.
Qed.

Lemma sum_mul_r (n : nat) (c : T) (f : nat -> T) :
  sum n f * c = sum n (fun k => f k * c).
Proof.
  induction n as [|n IH]; [unfold sum; simpl; ring|].
  rewrite !sum_S, <- IH. ring.
Qed.

Lemma sum_swap (n m : nat) (f : nat -> nat -> T) :
  sum n (fun i => sum m (fun j => f i j)) = sum m (fun j => sum n (fun i => f i j)).
Proof.
  induction n as [|n IH].
  - symmetry. apply sum_zero. reflexivity.
  - rewrite sum_S, IH, <- sum_plus. apply sum_ext; intros. now rewrite sum_S.
Qed.

Lemma sum_add (a b : nat) (f : nat -> T) :
  sum (a + b)%nat f = sum a f + sum b (fun k => f (a + k)%nat).
Proof.
  induction b as [|b IH].
  - rewrite Nat.add_0_r. unfold sum at 3; simpl. ring.
  - rewrite Nat.add_succ_r, !sum_S, IH. ring.
Qed.

(** A sum over a flattened index space is a double sum. *)
Lemma sum_flat (n m : nat) (f : nat -> T) :
  sum (m * n)%nat f = sum m (fun j => sum n (fun i => f (i + n * j)%nat)).
Proof.
  induction m as [|m IH]; [reflexivity|].
  rewrite sum_S, <- IH.
  replace (Datatypes.S m * n)%nat with (m * n + n)%nat by lia.
  rewrite sum_add. f_equal. apply sum_ext; intros. f_equal; lia.
Qed.

(** The accumulation loops of the kernels. *)
Lemma acc1 (n : nat) (g : nat -> T) (a0 : T) :
  for_loop n (fun k a => a + g k) a0 = a0 + sum n g.
Proof.
  induction n as [|n IH]; simpl; [unfold sum; simpl; ring|].
  rewrite IH, sum_S. ring.
Qed.

Lemma cacc1 (n : nat) (g : nat -> T) (a : list T) (i : nat) :
  for_loop n (fun k a' => upd a' i (rd a' i + g k)) (upd a i zero)
  = upd a i (sum n g).
Proof.
  destruct (Nat.lt_ge_cases i (length a)) as [Hi|Hi].
  - induction n as [|n IH]; simpl; [reflexivity|].
    rewrite IH, upd_upd_same, rd_upd_same by assumption. reflexivity.
  - induction n as [|n IH]; simpl; [now rewrite !upd_oob|].
    rewrite IH, !upd_oob; auto. now rewrite upd_oob.
Qed.

Lemma upd_swap (v : list T) (i j : nat) (x y : T) :
  i <> j -> upd (upd v i x) j y = upd (upd v j y) i x.
Proof.
  revert i j; induction v as [|z v IH]; intros [|i] [|j] Hij;
    simpl; try congruence; auto.
  f_equal; apply IH; lia.
Qed.

Lemma cacc1x2 (n : nat) (g h : nat -> T) (a : list T) (i j : nat) :
  i <> j ->
  for_loop n (fun k a' =>
      upd (upd a' i (rd a' i + g k)) j (rd (upd a' i (rd a' i + g k)) j + h k))
    (upd (upd a i zero) j zero)
  = upd (upd a i (sum n g)) j (sum n h).
Proof.
  intros Hij.
  induction n as [|n IH]; simpl; [reflexivity|].
  rewrite IH. rewrite !sum_S.
  set (sg := sum n g). set (sh := sum n h).
  rewrite (rd_upd_other (upd a i sg) sh (not_eq_sym Hij)).
  rewrite (rd_upd_other (upd (upd a i sg) j sh) (rd (upd a i sg) i + g n) Hij).
  rewrite (upd_swap (upd a i sg) sh (rd (upd a i sg) i + g n) (not_eq_sym Hij)).
  rewrite !upd_upd_same.
  destruct (Nat.lt_ge_cases i (length a)) as [Hi|Hi];
    destruct (Nat.lt_ge_cases j (length a)) as [Hj|Hj].
  - rewrite !rd_upd_same by (rewrite ?length_upd; assumption). reflexivity.
  - rewrite rd_upd_same by assumption.
    rewrite !(upd_oob _ (i:=j)) by (rewrite ?length_upd; assumption). reflexivity.
  - rewrite !(upd_oob a (i:=i)) by assumption.
    rewrite rd_upd_same by assumption. reflexivity.
  - rewrite !(upd_oob a (i:=i)) by assumption.
    rewrite !(upd_oob a (i:=j)) by assumption. reflexivity.
Qed.

(** [a[i] += d] *)
Lemma acc_cell_upd_eq (a : list T) (i : nat) (x d : T) :
  upd (upd a i x) i (rd (upd a i x) i + d) = upd a i (x + d).
Proof.
  rewrite upd_upd_same.
  destruct (Nat.lt_ge_cases i (length a)) as [Hi|Hi].
  - now rewrite rd_upd_same.
  - now rewrite !(upd_oob a (i:=i)).
Qed.

Lemma acc_cell_upd_ne (a : list T) (p i : nat) (v d : T) :
  p <> i ->
  upd (upd a p v) i (rd (upd a p v) i + d) = upd (upd a i (rd a i + d)) p v.
Proof.
  intros Hne. rewrite (rd_upd_other a v Hne). now apply upd_swap.
Qed.

Lemma cacc1x3 (n : nat) (f g h : nat -> T) (a : list T) (i j l : nat) :
  i <> j -> i <> l -> j <> l ->
  for_loop n (fun k a' =>
      upd (upd (upd a' i (rd a' i + f k)) j
               (rd (upd a' i (rd a' i + f k)) j + g k)) l
          (rd (upd (upd a' i (rd a' i + f k)) j
                   (rd (upd a' i (rd a' i + f k)) j + g k)) l + h k))
    (upd (upd (upd a i zero) j zero) l zero)
  = upd (upd (upd a i (sum n f)) j (sum n g)) l (sum n h).
Proof.
  intros Hij Hil Hjl.
  induction n as [|n IH]; simpl; [reflexivity|].
  rewrite IH, !sum_S.
  set (sf := sum n f). set (sg := sum n g). set (sh := sum n h).
  assert (E1 : upd (upd (upd (upd a i sf) j sg) l sh) i
                   (rd (upd (upd (upd a i sf) j sg) l sh) i + f n)
               = upd (upd (upd a i (sf + f n)) j sg) l sh).
  { rewrite acc_cell_upd_ne by auto. f_equal.
    rewrite acc_cell_upd_ne by auto. f_equal.
    apply acc_cell_upd_eq. }
  rewrite E1.
  assert (E2 : upd (upd (upd (upd a i (sf + f n)) j sg) l sh) j
                   (rd (upd (upd (upd a i (sf + f n)) j sg) l sh) j + g n)
               = upd (upd (upd a i (sf + f n)) j (sg + g n)) l sh).
  { rewrite acc_cell_upd_ne by auto. f_equal. apply acc_cell_upd_eq. }
  rewrite E2. apply acc_cell_upd_eq.
Qed.

Lemma acc_3terms (n : nat) (f g h : nat -> T) :
  for_loop n (fun k r => r + f k + g k + h k) zero
  = sum n (fun k => f k + g k + h k).
Proof.
  induction n as [|n IH]; [reflexivity|].
  simpl. rewrite IH, sum_S. ring.
Qed.

(** ** Loops that write (or add to) the cells of a buffer *)

Lemma fills_upd (c : T -> T -> T) (L a : nat) (v : T) :
  (a < L)%nat ->
  fills c L (fun a' v' => a' = a /\ v' = v) (fun b => upd b a (c (rd b a) v)).
Proof.
  intros Ha buf HL. split; [now rewrite length_upd|]. split.
  - intros a' v' [-> ->]. apply rd_upd_same; lia.
  - intros a' H. apply rd_upd_other. intros ->. now apply (H v).
Qed.

Lemma fills_iff (c : T -> T -> T) (L : nat) (P Q : nat -> T -> Prop) f :
  (forall a v, P a v <-> Q a v) -> fills c L P f -> fills c L Q f.
Proof.
  intros HPQ HP buf HL. destruct (HP buf HL) as (H1 & H2 & H3).
  split; [assumption|]. split.
  - intros a v Hq. apply H2. now apply HPQ.
  - intros a Hn. apply H3. intros v Hp. apply (Hn v). now apply HPQ.
Qed.

Lemma fills_ext (c : T -> T -> T) (L : nat) (P : nat -> T -> Prop) f g :
  (forall buf, length buf = L -> f buf = g buf) -> fills c L P f -> fills c L P g.
Proof.
  intros Hfg HP buf HL. rewrite <- Hfg by assumption. now apply HP.
Qed.

Lemma fills_loop (c : T -> T -> T) (L n : nat) (P : nat -> nat -> T -> Prop)
      (body : nat -> list T -> list T) :
  (forall i, (i < n)%nat -> fills c L (P i) (body i)) ->
  (forall i i' a v v', (i < n)%nat -> (i' < n)%nat -> i <> i' ->
                       P i a v -> P i' a v' -> False) ->
  fills c L (fun a v => exists i, (i < n)%nat /\ P i a v) (for_loop n body).
Proof.
  induction n as [|n IH]; intros Hb Hd buf HL.
  - simpl. split; [assumption|]. split; [|reflexivity].
    intros a v (i & Hi & _); lia.
  - simpl.
    destruct (IH (fun i Hi => Hb i (Nat.lt_lt_succ_r _ _ Hi))
                 (fun i i' a v v' Hi Hi' =>
                    Hd i i' a v v' (Nat.lt_lt_succ_r _ _ Hi) (Nat.lt_lt_succ_r _ _ Hi'))
                 buf HL) as (L1 & W1 & F1).
    destruct (Hb n (Nat.lt_succ_diag_r n) _ L1) as (L2 & W2 & F2).
    split; [assumption|]. split.
    + intros a v (i & Hi & Hp).
      destruct (Nat.eq_dec i n) as [->|Hne].
      * rewrite (W2 _ _ Hp). f_equal. apply F1.
        intros v' (i' & Hi' & Hp'). apply (Hd i' n a v' v); auto; lia.
      * rewrite F2.
        -- apply W1. exists i. split; [lia|assumption].
        -- intros v' Hp'. apply (Hd i n a v v'); auto; lia.
    + intros a Hn. rewrite F2.
      * apply F1. intros v (i & Hi & Hp). apply (Hn v). exists i. split; [lia|assumption].
      * intros v Hp. apply (Hn v). exists n. split; [lia|assumption].
Qed.

Section Nests.
Variable c : T -> T -> T.
Variable L : nat.

Lemma fill1 (n : nat) (addr : nat -> nat) (val : nat -> T) :
  (forall i, (i < n)%nat -> (addr i < L)%nat) ->
  (forall i i', (i < n)%nat -> (i' < n)%nat -> addr i = addr i' -> i = i') ->
  fills c L (fun a v => exists i, (i < n)%nat /\ a = addr i /\ v = val i)
        (for_loop n (fun i b => upd b (addr i) (c (rd b (addr i)) (val i)))).
Proof.
  intros Hb Hinj. apply fills_loop.
  - intros i Hi. apply fills_upd. auto.
  - intros i i' a v v' Hi Hi' Hne [-> _] [E _]. apply Hne. auto.
Qed.

Lemma fill2 (n m : nat) (addr : nat -> nat -> nat) (val : nat -> nat -> T) :
  (forall i j, (i < n)%nat -> (j < m)%nat -> (addr i j < L)%nat) ->
  (forall i j i' j', (i < n)%nat -> (j < m)%nat -> (i' < n)%nat -> (j' < m)%nat ->
                     addr i j = addr i' j' -> i = i' /\ j = j') ->
  fills c L (fun a v => exists i j, (i < n)%nat /\ (j < m)%nat /\
                                    a = addr i j /\ v = val i j)
        (for_loop n (fun i => for_loop m (fun j b =>
           upd b (addr i j) (c (rd b (addr i j)) (val i j))))).
Proof.
  intros Hb Hinj.
  eapply fills_iff; [|apply fills_loop with
      (P := fun i a v => exists j, (j < m)%nat /\ a = addr i j /\ v = val i j)].
  - intros a v; split.
    + intros (i & Hi & j & Hj & H). exists i, j. close_conj.
    + intros (i & j & Hi & Hj & H). exists i. split; [assumption|]. exists j. close_conj.
  - intros i Hi. apply fill1; [now auto|].
    intros j j' Hj Hj' E. now destruct (Hinj _ _ _ _ Hi Hj Hi Hj' E).
  - intros i i' a v v' Hi Hi' Hne (j & Hj & -> & _) (j' & Hj' & E & _).
    apply Hne. now destruct (Hinj _ _ _ _ Hi Hj Hi' Hj' E).
Qed.

Lemma fill3 (n m p : nat) (addr : nat -> nat -> nat -> nat)
      (val : nat -> nat -> nat -> T) :
  (forall i j k, (i < n)%nat -> (j < m)%nat -> (k < p)%nat -> (addr i j k < L)%nat) ->
  (forall i j k i' j' k', (i < n)%nat -> (j < m)%nat -> (k < p)%nat ->
                          (i' < n)%nat -> (j' < m)%nat -> (k' < p)%nat ->
                          addr i j k = addr i' j' k' -> i = i' /\ j = j' /\ k = k') ->
  fills c L (fun a v => exists i j k, (i < n)%nat /\ (j < m)%nat /\ (k < p)%nat /\
                                      a = addr i j k /\ v = val i j k)
        (for_loop n (fun i => for_loop m (fun j => for_loop p (fun k b =>
           upd b (addr i j k) (c (rd b (addr i j k)) (val i j k)))))).
Proof.
  intros Hb Hinj.
  eapply fills_iff; [|apply fills_loop with
      (P := fun i a v => exists j k, (j < m)%nat /\ (k < p)%nat /\
                                     a = addr i j k /\ v = val i j k)].
  - intros a v; split.
    + intros (i & Hi & j & k & Hj & Hk & H). exists i, j, k. close_conj.
    + intros (i & j & k & Hi & Hj & Hk & H). exists i. split; [assumption|].
      exists j, k. close_conj.
  - intros i Hi. apply fill2; [now auto|].
    intros j k j' k' Hj Hk Hj' Hk' E.
    destruct (Hinj _ _ _ _ _ _ Hi Hj Hk Hi Hj' Hk' E) as (_ & ? & ?). now split.
  - intros i i' a v v' Hi Hi' Hne (j & k & Hj & Hk & -> & _) (j' & k' & Hj' & Hk' & E & _).
    apply Hne. now destruct (Hinj _ _ _ _ _ _ Hi Hj Hk Hi' Hj' Hk' E).
Qed.

Lemma fill4 (n m p q : nat) (addr : nat -> nat -> nat -> nat -> nat)
      (val : nat -> nat -> nat -> nat -> T) :
  (forall i j k l, (i < n)%nat -> (j < m)%nat -> (k < p)%nat -> (l < q)%nat ->
                   (addr i j k l < L)%nat) ->
  (forall i j k l i' j' k' l',
      (i < n)%nat -> (j < m)%nat -> (k < p)%nat -> (l < q)%nat ->
      (i' < n)%nat -> (j' < m)%nat -> (k' < p)%nat -> (l' < q)%nat ->
      addr i j k l = addr i' j' k' l' -> i = i' /\ j = j' /\ k = k' /\ l = l') ->
  fills c L (fun a v => exists i j k l, (i < n)%nat /\ (j < m)%nat /\ (k < p)%nat /\
                                        (l < q)%nat /\ a = addr i j k l /\ v = val i j k l)
        (for_loop n (fun i => for_loop m (fun j => for_loop p (fun k =>
           for_loop q (fun l b =>
             upd b (addr i j k l) (c (rd b (addr i j k l)) (val i j k l))))))).
Proof.
  intros Hb Hinj.
  eapply fills_iff; [|apply fills_loop with
      (P := fun i a v => exists j k l, (j < m)%nat /\ (k < p)%nat /\ (l < q)%nat /\
                                       a = addr i j k l /\ v = val i j k l)].
  - intros a v; split.
    + intros (i & Hi & j & k & l & Hj & Hk & Hl & H). exists i, j, k, l. close_conj.
    + intros (i & j & k & l & Hi & Hj & Hk & Hl & H). exists i. split; [assumption|].
      exists j, k, l. close_conj.
  - intros i Hi. apply fill3; [now auto|].
    intros j k l j' k' l' Hj Hk Hl Hj' Hk' Hl' E.
    destruct (Hinj _ _ _ _ _ _ _ _ Hi Hj Hk Hl Hi Hj' Hk' Hl' E) as (_ & ? & ? & ?).
    now repeat split.
  - intros i i' a v v' Hi Hi' Hne (j & k & l & Hj & Hk & Hl & -> & _)
           (j' & k' & l' & Hj' & Hk' & Hl' & E & _).
    apply Hne. now destruct (Hinj _ _ _ _ _ _ _ _ Hi Hj Hk Hl Hi' Hj' Hk' Hl' E).
Qed.
End Nests.

(** Reading back what a loop nest has written. *)
Lemma fills_rd (c : T -> T -> T) (L : nat) (P : nat -> T -> Prop) f buf a v :
  fills c L P f -> length buf = L -> P a v -> rd (f buf) a = c (rd buf a) v.
Proof. intros H HL HP. now apply (H buf HL). Qed.

Lemma fills_length (c : T -> T -> T) (L : nat) (P : nat -> T -> Prop) f buf :
  fills c L P f -> length buf = L -> length (f buf) = L.
Proof. intros H HL. now apply (H buf HL). Qed.

Section Assignments.
Variable buf : list T.

Lemma set2_rd (n m : nat) (addr : nat -> nat -> nat) (val : nat -> nat -> T) i j :
  (forall i j, (i < n)%nat -> (j < m)%nat -> (addr i j < length buf)%nat) ->
  (forall i j i' j', (i < n)%nat -> (j < m)%nat -> (i' < n)%nat -> (j' < m)%nat ->
                     addr i j = addr i' j' -> i = i' /\ j = j') ->
  (i < n)%nat -> (j < m)%nat ->
  rd (for_loop n (fun i b => for_loop m (fun j b => upd b (addr i j) (val i j)) b) buf)
     (addr i j) = val i j.
Proof.
  intros Hb Hinj Hi Hj.
  destruct (@fill2 (fun _ v => v) (length buf) n m addr val Hb Hinj buf eq_refl) as (_ & H & _).
  apply H.
  exists i, j. close_conj.
Qed.

Lemma set3_rd (n m p : nat) (addr : nat -> nat -> nat -> nat)
      (val : nat -> nat -> nat -> T) i j k :
  (forall i j k, (i < n)%nat -> (j < m)%nat -> (k < p)%nat ->
                 (addr i j k < length buf)%nat) ->
  (forall i j k i' j' k', (i < n)%nat -> (j < m)%nat -> (k < p)%nat ->
                          (i' < n)%nat -> (j' < m)%nat -> (k' < p)%nat ->
                          addr i j k = addr i' j' k' -> i = i' /\ j = j' /\ k = k') ->
  (i < n)%nat -> (j < m)%nat -> (k < p)%nat ->
  rd (for_loop n (fun i b => for_loop m (fun j b => for_loop p (fun k b =>
        upd b (addr i j k) (val i j k)) b) b) buf)
     (addr i j k) = val i j k.
Proof.
  intros Hb Hinj Hi Hj Hk.
  destruct (@fill3 (fun _ v => v) (length buf) n m p addr val Hb Hinj buf eq_refl) as (_ & H & _).
  apply H.
  exists i, j, k. close_conj.
Qed.

Lemma set4_rd (n m p q : nat) (addr : nat -> nat -> nat -> nat -> nat)
      (val : nat -> nat -> nat -> nat -> T) i j k l :
  (forall i j k l, (i < n)%nat -> (j < m)%nat -> (k < p)%nat -> (l < q)%nat ->
                   (addr i j k l < length buf)%nat) ->
  (forall i j k l i' j' k' l',
      (i < n)%nat -> (j < m)%nat -> (k < p)%nat -> (l < q)%nat ->
      (i' < n)%nat -> (j' < m)%nat -> (k' < p)%nat -> (l' < q)%nat ->
      addr i j k l = addr i' j' k' l' -> i = i' /\ j = j' /\ k = k' /\ l = l') ->
  (i < n)%nat -> (j < m)%nat -> (k < p)%nat -> (l < q)%nat ->
  rd (for_loop n (fun i b => for_loop m (fun j b => for_loop p (fun k b =>
        for_loop q (fun l b => upd b (addr i j k l) (val i j k l)) b) b) b) buf)
     (addr i j k l) = val i j k l.
Proof.
  intros Hb Hinj Hi Hj Hk Hl.
  destruct (@fill4 (fun _ v => v) (length buf) n m p q addr val Hb Hinj buf eq_refl) as (_ & H & _).
  apply H.
  exists i, j, k, l. close_conj.
Qed.
End Assignments.

(** The accumulation loops on pairs and triples of scalars or of cells. *)
Lemma acc2 (n : nat) (g h : nat -> T) (a0 b0 : T) :
  for_loop n (fun k '(a, b) => (a + g k, b + h k)) (a0, b0)
  = (a0 + sum n g, b0 + sum n h).
Proof.
  erewrite for_loop_pair by (intros; reflexivity). now rewrite !acc1.
Qed.

Lemma acc3 (n : nat) (f g h : nat -> T) (a0 b0 c0 : T) :
  for_loop n (fun k '(a, b, c) => (a + f k, b + g k, c + h k)) (a0, b0, c0)
  = (a0 + sum n f, b0 + sum n g, c0 + sum n h).
Proof.
  erewrite for_loop_triple by (intros; reflexivity). now rewrite !acc1.
Qed.

Lemma cacc2 (n : nat) (g h : nat -> T) (a b : list T) (i j : nat) :
  for_loop n (fun k '(a', b') =>
      (upd a' i (rd a' i + g k), upd b' j (rd b' j + h k)))
    (upd a i zero, upd b j zero)
  = (upd a i (sum n g), upd b j (sum n h)).
Proof.
  erewrite for_loop_pair by (intros; reflexivity). now rewrite !cacc1.
Qed.

Lemma cacc3 (n : nat) (f g h : nat -> T) (a b c : list T) (i j l : nat) :
  for_loop n (fun k '(a', b', c') =>
      (upd a' i (rd a' i + f k), upd b' j (rd b' j + g k), upd c' l (rd c' l + h k)))
    (upd a i zero, upd b j zero, upd c l zero)
  = (upd a i (sum n f), upd b j (sum n g), upd c l (sum n h)).
Proof.
  erewrite for_loop_triple by (intros; reflexivity). now rewrite !cacc1.
Qed.

Lemma sum_acc (n : nat) (g : nat -> T) :
  for_loop n (fun k a => a + g k) zero = sum n g.
Proof. reflexivity. Qed.

Lemma acc2z (n : nat) (g h : nat -> T) :
  for_loop n (fun k '(a, b) => (a + g k, b + h k)) (zero, zero)
  = (sum n g, sum n h).
Proof.
  erewrite for_loop_pair by (intros; reflexivity). reflexivity.
Qed.

Lemma acc3z (n : nat) (f g h : nat -> T) :
  for_loop n (fun k '(a, b, c) => (a + f k, b + g k, c + h k)) (zero, zero, zero)
  = (sum n f, sum n g, sum n h).
Proof.
  erewrite for_loop_triple by (intros; reflexivity). reflexivity.
Qed.

Lemma let_pair_eq (A B C : Type) (L : A * B) (a : A) (b : B) (R : A -> B -> C) :
  L = (a, b) -> (let '(x, y) := L in R x y) = R a b.
Proof. now intros ->. Qed.

Lemma let_triple_eq (A B C D : Type) (L : A * B * C) (a : A) (b : B) (c : C)
      (R : A -> B -> C -> D) :
  L = (a, b, c) -> (let '(x, y, z) := L in R x y z) = R a b c.
Proof. now intros ->. Qed.

Lemma length_for_loop (n : nat) (body : nat -> list T -> list T) (s : list T) :
  (forall i b, length (body i b) = length b) ->
  length (for_loop n body s) = length s.
Proof.
  intros H. induction n as [|n IH]; simpl; [reflexivity|]. now rewrite H.
Qed.

(** Bring a loop nest on a tuple of buffers to one nest per buffer, each
    cell receiving its accumulated sum. *)
Ltac norm_loop :=
  cbv zeta beta;
  first
    [ apply cacc3 | apply cacc2 | apply cacc1
    | eapply eq_trans; [eapply let_triple_eq; apply acc3z | reflexivity]
    | eapply eq_trans; [eapply let_pair_eq; apply acc2z | reflexivity]
    | eapply eq_trans;
      [ apply for_loop_triple; intros; eapply eq_trans; [norm_loop|reflexivity]
      | reflexivity ]
    | eapply eq_trans;
      [ apply for_loop_pair; intros; eapply eq_trans; [norm_loop|reflexivity]
      | reflexivity ]
    | eapply eq_trans;
      [ apply for_loop_ext; intros; eapply eq_trans; [norm_loop|reflexivity]
      | reflexivity ]
    | reflexivity ].

Ltac len_solve :=
  repeat (apply length_for_loop; intros); rewrite ?length_upd; reflexivity.

Ltac idx_solve :=
  rewrite ?length_alloc; intros; cbv beta in *;
  first
    [ apply at2_lt; lia
    | apply at3_lt; lia
    | apply at4_lt; lia
    | eapply Nat.lt_le_trans; [apply at3_lt|eassumption]; lia
    | eapply Nat.lt_le_trans; [apply at4_lt|eassumption]; lia
    | match goal with
      | H : at2 _ _ _ = at2 _ _ _ |- _ => apply at2_inj in H; [|lia..]
      | H : at3 _ _ _ _ _ = at3 _ _ _ _ _ |- _ => apply at3_inj in H; [|lia..]
      | H : at4 _ _ _ _ _ _ _ = at4 _ _ _ _ _ _ _ |- _ => apply at4_inj in H; [|lia..]
      end; close_conj
    | lia ].

(** * Part V. What the kernels compute *)

(** ** PAConvectionApply2D and SmemPAConvectionApply2D *)

Section Apply2D_proof.
Variables D1D Q1D max_D1D max_Q1D : nat.
Variables B G Bt : nat -> nat -> T.
Variable op : nat -> nat -> nat -> nat -> T.
Variable x : nat -> nat -> nat -> T.
Variable e : nat.
Hypothesis HD : (D1D <= max_D1D)%nat.
Hypothesis HQ : (Q1D <= max_Q1D)%nat.

Local Abbreviation Oe := (fun qx qy c => op qx qy c e).
Local Abbreviation Xe := (fun dx dy => x dx dy e).

Lemma Apply2D_u_spec dy dx :
  (dy < D1D)%nat -> (dx < D1D)%nat ->
  rd (Apply2D_u D1D max_D1D x e) (at2 max_D1D dy dx) = x dx dy e.
Proof.
  intros. unfold Apply2D_u.
  apply set2_rd with (addr := at2 max_D1D) (val := fun dy dx => x dx dy e); idx_solve.
Qed.

Lemma Apply2D_Bu_Gu_spec (u : list T) :
  (forall dy dx, (dy < D1D)%nat -> (dx < D1D)%nat -> rd u (at2 max_D1D dy dx) = x dx dy e) ->
  forall dy qx, (dy < D1D)%nat -> (qx < Q1D)%nat ->
    rd (fst (Apply2D_Bu_Gu D1D Q1D max_D1D max_Q1D B G u)) (at2 max_Q1D dy qx)
    = m2_Bu D1D B Xe dy qx /\
    rd (snd (Apply2D_Bu_Gu D1D Q1D max_D1D max_Q1D B G u)) (at2 max_Q1D dy qx)
    = m2_Gu D1D G Xe dy qx.
Proof.
  intros Hu dy qx Hdy Hqx.
  eassert (E : Apply2D_Bu_Gu D1D Q1D max_D1D max_Q1D B G u = _)
    by (unfold Apply2D_Bu_Gu; norm_loop).
  rewrite E; cbn [fst snd]. split.
  - eapply eq_trans; [apply set2_rd with (addr := at2 max_Q1D); idx_solve|].
    apply sum_ext; intros. now rewrite Hu.
  - eapply eq_trans; [apply set2_rd with (addr := at2 max_Q1D); idx_solve|].
    apply sum_ext; intros. now rewrite Hu.
Qed.

Lemma Apply2D_GBu_BGu_spec (Bu Gu : list T) :
  (forall dy qx, (dy < D1D)%nat -> (qx < Q1D)%nat ->
     rd Bu (at2 max_Q1D dy qx) = m2_Bu D1D B Xe dy qx) ->
  (forall dy qx, (dy < D1D)%nat -> (qx < Q1D)%nat ->
     rd Gu (at2 max_Q1D dy qx) = m2_Gu D1D G Xe dy qx) ->
  forall qy qx, (qy < Q1D)%nat -> (qx < Q1D)%nat ->
    rd (fst (Apply2D_GBu_BGu D1D Q1D max_Q1D B G Bu Gu)) (at2 max_Q1D qy qx)
    = m2_GBu D1D B G Xe qy qx /\
    rd (snd (Apply2D_GBu_BGu D1D Q1D max_Q1D B G Bu Gu)) (at2 max_Q1D qy qx)
    = m2_BGu D1D B G Xe qy qx.
Proof.
  intros HB HG qy qx Hqy Hqx.
  eassert (E : Apply2D_GBu_BGu D1D Q1D max_Q1D B G Bu Gu = _)
    by (unfold Apply2D_GBu_BGu; norm_loop).
  rewrite E; cbn [fst snd]. split.
  - eapply eq_trans;
      [apply set2_rd with (addr := fun qx qy => at2 max_Q1D qy qx); idx_solve|].
    apply sum_ext; intros. now rewrite HB.
  - eapply eq_trans;
      [apply set2_rd with (addr := fun qx qy => at2 max_Q1D qy qx); idx_solve|].
    apply sum_ext; intros. now rewrite HG.
Qed.

Lemma Apply2D_DGu_spec (GBu BGu : list T) :
  (forall qy qx, (qy < Q1D)%nat -> (qx < Q1D)%nat ->
     rd GBu (at2 max_Q1D qy qx) = m2_GBu D1D B G Xe qy qx) ->
  (forall qy qx, (qy < Q1D)%nat -> (qx < Q1D)%nat ->
     rd BGu (at2 max_Q1D qy qx) = m2_BGu D1D B G Xe qy qx) ->
  forall qy qx, (qy < Q1D)%nat -> (qx < Q1D)%nat ->
    rd (Apply2D_DGu Q1D max_Q1D op e GBu BGu) (at2 max_Q1D qy qx)
    = m2_DGu D1D B G Oe Xe qy qx.
Proof.
  intros HGB HBG qy qx Hqy Hqx. unfold Apply2D_DGu. cbv zeta.
  eapply eq_trans; [apply set2_rd with (addr := at2 max_Q1D); idx_solve|].
  unfold m2_DGu. now rewrite HGB, HBG.
Qed.

Lemma Apply2D_BDGu_spec (DGu : list T) :
  (forall qy qx, (qy < Q1D)%nat -> (qx < Q1D)%nat ->
     rd DGu (at2 max_Q1D qy qx) = m2_DGu D1D B G Oe Xe qy qx) ->
  forall dy qx, (dy < D1D)%nat -> (qx < Q1D)%nat ->
    rd (Apply2D_BDGu D1D Q1D max_D1D max_Q1D Bt DGu) (at2 max_Q1D dy qx)
    = m2_BDGu D1D Q1D B G Bt Oe Xe dy qx.
Proof.
  intros HDG dy qx Hdy Hqx.
  eassert (E : Apply2D_BDGu D1D Q1D max_D1D max_Q1D Bt DGu = _)
    by (unfold Apply2D_BDGu; norm_loop).
  rewrite E.
  eapply eq_trans;
    [apply set2_rd with (addr := fun qx dy => at2 max_Q1D dy qx); idx_solve|].
  apply sum_ext; intros. now rewrite HDG.
Qed.

Lemma Apply2D_local_spec dy qx :
  (dy < D1D)%nat -> (qx < Q1D)%nat ->
  rd (Apply2D_local D1D Q1D max_D1D max_Q1D B G Bt op x e) (at2 max_Q1D dy qx)
  = m2_BDGu D1D Q1D B G Bt Oe Xe dy qx.
Proof.
  unfold Apply2D_local.
  pose proof (@Apply2D_Bu_Gu_spec _ Apply2D_u_spec) as H1.
  destruct (Apply2D_Bu_Gu D1D Q1D max_D1D max_Q1D B G _) as [Bu Gu].
  cbn [fst snd] in H1.
  pose proof (@Apply2D_GBu_BGu_spec Bu Gu
                (fun dy qx h1 h2 => proj1 (H1 dy qx h1 h2))
                (fun dy qx h1 h2 => proj2 (H1 dy qx h1 h2))) as H2.
  destruct (Apply2D_GBu_BGu D1D Q1D max_Q1D B G Bu Gu) as [GBu BGu].
  cbn [fst snd] in H2.
  apply Apply2D_BDGu_spec. apply Apply2D_DGu_spec.
  - intros; now apply H2.
  - intros; now apply H2.
Qed.
End Apply2D_proof.

Lemma tparam_le (t d M : nat) : (tparam t d <= M)%nat -> (tparam t d <= tparam t M)%nat.
Proof. destruct t; simpl; lia. Qed.

Lemma MFEM_VERIFY_true (A : Type) (c : bool) (k : option A) :
  c = true -> MFEM_VERIFY c k = k.
Proof. now intros ->. Qed.

Ltac verify_ok :=
  rewrite !MFEM_VERIFY_true by (apply Nat.leb_le; assumption).

Theorem PAConvectionApply2D_eq (T_D1D T_Q1D ne : nat) (b g bt gt op_ x_ y_ : list T)
        (d1d q1d : nat) :
  (tparam T_D1D d1d <= MAX_D1D)%nat -> (tparam T_Q1D q1d <= MAX_Q1D)%nat ->
  PAConvectionApply2D T_D1D T_Q1D ne b g bt gt op_ x_ y_ d1d q1d
  = Some (add_elems2D ne (tparam T_D1D d1d)
            (Apply2D_val (tparam T_D1D d1d) (tparam T_Q1D q1d) b g bt op_ x_) y_).
Proof.
  intros HD HQ. unfold PAConvectionApply2D. cbv zeta. verify_ok.
  f_equal. unfold forall_, add_elems2D.
  apply for_loop_ext; intros e y' He.
  apply for_loop_ext; intros dx y'' Hdx.
  apply for_loop_ext; intros dy y''' Hdy.
  do 2 f_equal. unfold Apply2D_val, conv2D.
  apply sum_ext; intros qx Hqx. f_equal.
  apply Apply2D_local_spec; auto using tparam_le.
Qed.

Section SmemApply2D_proof.
Variables D1D Q1D NBZ max_D1D max_Q1D : nat.
Variables B G Bt : nat -> nat -> T.
Variable op : nat -> nat -> nat -> nat -> T.
Variable x : nat -> nat -> nat -> T.
Variables e tidz : nat.
Hypothesis HD : (D1D <= max_D1D)%nat.
Hypothesis HQ : (Q1D <= max_Q1D)%nat.
Hypothesis Htid : (tidz < NBZ)%nat.

Local Abbreviation Oe := (fun qx qy c => op qx qy c e).
Local Abbreviation Xe := (fun dx dy => x dx dy e).

Lemma SmemApply2D_u_spec dy dx :
  (dy < D1D)%nat -> (dx < D1D)%nat ->
  rd (SmemApply2D_u D1D NBZ max_D1D x e tidz) (at3 max_D1D max_D1D tidz dy dx)
  = x dx dy e.
Proof.
  intros. unfold SmemApply2D_u.
  apply set2_rd with (addr := at3 max_D1D max_D1D tidz)
                     (val := fun dy dx => x dx dy e); idx_solve.
Qed.

Lemma SmemApply2D_Bu_Gu_spec (u : list T) :
  (forall dy dx, (dy < D1D)%nat -> (dx < D1D)%nat ->
     rd u (at3 max_D1D max_D1D tidz dy dx) = x dx dy e) ->
  forall dy qx, (dy < D1D)%nat -> (qx < Q1D)%nat ->
    rd (fst (SmemApply2D_Bu_Gu D1D Q1D NBZ max_D1D max_Q1D B G tidz u))
       (at3 max_D1D max_Q1D tidz dy qx)
    = m2_Bu D1D B Xe dy qx /\
    rd (snd (SmemApply2D_Bu_Gu D1D Q1D NBZ max_D1D max_Q1D B G tidz u))
       (at3 max_D1D max_Q1D tidz dy qx)
    = m2_Gu D1D G Xe dy qx.
Proof.
  intros Hu dy qx Hdy Hqx.
  eassert (E : SmemApply2D_Bu_Gu D1D Q1D NBZ max_D1D max_Q1D B G tidz u = _)
    by (unfold SmemApply2D_Bu_Gu; norm_loop).
  rewrite E; cbn [fst snd]. split.
  - eapply eq_trans;
      [apply set2_rd with (addr := at3 max_D1D max_Q1D tidz); idx_solve|].
    apply sum_ext; intros. now rewrite Hu.
  - eapply eq_trans;
      [apply set2_rd with (addr := at3 max_D1D max_Q1D tidz); idx_solve|].
    apply sum_ext; intros. now rewrite Hu.
Qed.

Lemma SmemApply2D_GBu_BGu_spec (Bu Gu : list T) :
  (forall dy qx, (dy < D1D)%nat -> (qx < Q1D)%nat ->
     rd Bu (at3 max_D1D max_Q1D tidz dy qx) = m2_Bu D1D B Xe dy qx) ->
  (forall dy qx, (dy < D1D)%nat -> (qx < Q1D)%nat ->
     rd Gu (at3 max_D1D max_Q1D tidz dy qx) = m2_Gu D1D G Xe dy qx) ->
  forall qy qx, (qy < Q1D)%nat -> (qx < Q1D)%nat ->
    rd (fst (SmemApply2D_GBu_BGu D1D Q1D NBZ max_D1D max_Q1D B G tidz Bu Gu))
       (at3 max_Q1D max_Q1D tidz qy qx)
    = m2_GBu D1D B G Xe qy qx /\
    rd (snd (SmemApply2D_GBu_BGu D1D Q1D NBZ max_D1D max_Q1D B G tidz Bu Gu))
       (at3 max_Q1D max_Q1D tidz qy qx)
    = m2_BGu D1D B G Xe qy qx.
Proof.
  intros HB HG qy qx Hqy Hqx.
  eassert (E : SmemApply2D_GBu_BGu D1D Q1D NBZ max_D1D max_Q1D B G tidz Bu Gu = _)
    by (unfold SmemApply2D_GBu_BGu; norm_loop).
  rewrite E; cbn [fst snd]. split.
  - eapply eq_trans;
      [apply set2_rd with (addr := fun qx qy => at3 max_Q1D max_Q1D tidz qy qx);
       idx_solve|].
    apply sum_ext; intros. now rewrite HB.
  - eapply eq_trans;
      [apply set2_rd with (addr := fun qx qy => at3 max_Q1D max_Q1D tidz qy qx);
       idx_solve|].
    apply sum_ext; intros. now rewrite HG.
Qed.

Lemma SmemApply2D_DGu_spec (GBu BGu : list T) :
  (forall qy qx, (qy < Q1D)%nat -> (qx < Q1D)%nat ->
     rd GBu (at3 max_Q1D max_Q1D tidz qy qx) = m2_GBu D1D B G Xe qy qx) ->
  (forall qy qx, (qy < Q1D)%nat -> (qx < Q1D)%nat ->
     rd BGu (at3 max_Q1D max_Q1D tidz qy qx) = m2_BGu D1D B G Xe qy qx) ->
  forall qy qx, (qy < Q1D)%nat -> (qx < Q1D)%nat ->
    rd (SmemApply2D_DGu Q1D NBZ max_Q1D op e tidz GBu BGu)
       (at3 max_Q1D max_Q1D tidz qy qx)
    = m2_DGu D1D B G Oe Xe qy qx.
Proof.
  intros HGB HBG qy qx Hqy Hqx. unfold SmemApply2D_DGu. cbv zeta.
  eapply eq_trans;
    [apply set2_rd with (addr := at3 max_Q1D max_Q1D tidz); idx_solve|].
  unfold m2_DGu. now rewrite HGB, HBG.
Qed.

Lemma SmemApply2D_BDGu_spec (DGu : list T) :
  (forall qy qx, (qy < Q1D)%nat -> (qx < Q1D)%nat ->
     rd DGu (at3 max_Q1D max_Q1D tidz qy qx) = m2_DGu D1D B G Oe Xe qy qx) ->
  forall dy qx, (dy < D1D)%nat -> (qx < Q1D)%nat ->
    rd (SmemApply2D_BDGu D1D Q1D NBZ max_D1D max_Q1D Bt tidz DGu)
       (at3 max_D1D max_Q1D tidz dy qx)
    = m2_BDGu D1D Q1D B G Bt Oe Xe dy qx.
Proof.
  intros HDG dy qx Hdy Hqx.
  eassert (E : SmemApply2D_BDGu D1D Q1D NBZ max_D1D max_Q1D Bt tidz DGu = _)
    by (unfold SmemApply2D_BDGu; norm_loop).
  rewrite E.
  eapply eq_trans;
    [apply set2_rd with (addr := fun qx dy => at3 max_D1D max_Q1D tidz dy qx);
     idx_solve|].
  apply sum_ext; intros. now rewrite HDG.
Qed.

Lemma SmemApply2D_local_spec dy qx :
  (dy < D1D)%nat -> (qx < Q1D)%nat ->
  rd (SmemApply2D_local D1D Q1D NBZ max_D1D max_Q1D B G Bt op x e tidz)
     (at3 max_D1D max_Q1D tidz dy qx)
  = m2_BDGu D1D Q1D B G Bt Oe Xe dy qx.
Proof.
  unfold SmemApply2D_local.
  pose proof (@SmemApply2D_Bu_Gu_spec _ SmemApply2D_u_spec) as H1.
  destruct (SmemApply2D_Bu_Gu D1D Q1D NBZ max_D1D max_Q1D B G tidz _) as [Bu Gu].
  cbn [fst snd] in H1.
  pose proof (@SmemApply2D_GBu_BGu_spec Bu Gu
                (fun dy qx h1 h2 => proj1 (H1 dy qx h1 h2))
                (fun dy qx h1 h2 => proj2 (H1 dy qx h1 h2))) as H2.
  destruct (SmemApply2D_GBu_BGu D1D Q1D NBZ max_D1D max_Q1D B G tidz Bu Gu)
    as [GBu BGu].
  cbn [fst snd] in H2.
  apply SmemApply2D_BDGu_spec. apply SmemApply2D_DGu_spec.
  - intros; now apply H2.
  - intros; now apply H2.
Qed.
End SmemApply2D_proof.

Lemma MFEM_THREAD_ID_z_lt (NBZ e : nat) :
  (0 < NBZ)%nat -> (MFEM_THREAD_ID_z backend NBZ e < NBZ)%nat.
Proof.
  intros H. unfold MFEM_THREAD_ID_z. destruct backend; [assumption|].
  apply Nat.mod_upper_bound; lia.
Qed.

Lemma tparam_pos (t : nat) : (0 < tparam t 1)%nat.
Proof. destruct t; simpl; lia. Qed.

Theorem SmemPAConvectionApply2D_eq (T_D1D T_Q1D T_NBZ ne : nat)
        (b g bt gt op_ x_ y_ : list T) (d1d q1d : nat) :
  (tparam T_D1D d1d <= MAX_D1D)%nat -> (tparam T_Q1D q1d <= MAX_Q1D)%nat ->
  SmemPAConvectionApply2D T_D1D T_Q1D T_NBZ ne b g bt gt op_ x_ y_ d1d q1d
  = Some (add_elems2D ne (tparam T_D1D d1d)
            (Apply2D_val (tparam T_D1D d1d) (tparam T_Q1D q1d) b g bt op_ x_) y_).
Proof.
  intros HD HQ. unfold SmemPAConvectionApply2D. cbv zeta. verify_ok.
  f_equal. unfold forall_2D_batch, add_elems2D.
  apply for_loop_ext; intros e y' He.
  apply for_loop_ext; intros dx y'' Hdx.
  apply for_loop_ext; intros dy y''' Hdy.
  do 2 f_equal. unfold Apply2D_val, conv2D.
  apply sum_ext; intros qx Hqx. f_equal.
  apply SmemApply2D_local_spec;
    auto using tparam_le, MFEM_THREAD_ID_z_lt, tparam_pos.
Qed.

(** ** PAConvectionApply3D and SmemPAConvectionApply3D *)

Section Apply3D_proof.
Variables D1D Q1D max_D1D max_Q1D : nat.
Variables B G Bt : nat -> nat -> T.
Variable op : nat -> nat -> nat -> nat -> nat -> T.
Variable x : nat -> nat -> nat -> nat -> T.
Variable e : nat.
Hypothesis HD : (D1D <= max_D1D)%nat.
Hypothesis HQ : (Q1D <= max_Q1D)%nat.

Local Abbreviation Oe := (fun qx qy qz c => op qx qy qz c e).
Local Abbreviation Xe := (fun dx dy dz => x dx dy dz e).

Lemma Apply3D_u_spec dz dy dx :
  (dz < D1D)%nat -> (dy < D1D)%nat -> (dx < D1D)%nat ->
  rd (Apply3D_u D1D max_D1D x e) (at3 max_D1D max_D1D dz dy dx) = x dx dy dz e.
Proof.
  intros. unfold Apply3D_u.
  apply set3_rd with (addr := at3 max_D1D max_D1D)
                     (val := fun dz dy dx => x dx dy dz e); idx_solve.
Qed.

Lemma Apply3D_Bu_Gu_spec (u : list T) :
  (forall dz dy dx, (dz < D1D)%nat -> (dy < D1D)%nat -> (dx < D1D)%nat ->
     rd u (at3 max_D1D max_D1D dz dy dx) = x dx dy dz e) ->
  forall dz dy qx, (dz < D1D)%nat -> (dy < D1D)%nat -> (qx < Q1D)%nat ->
    rd (fst (Apply3D_Bu_Gu D1D Q1D max_D1D max_Q1D B G u))
       (at3 max_D1D max_Q1D dz dy qx) = m3_Bu D1D B Xe dz dy qx /\
    rd (snd (Apply3D_Bu_Gu D1D Q1D max_D1D max_Q1D B G u))
       (at3 max_D1D max_Q1D dz dy qx) = m3_Gu D1D G Xe dz dy qx.
Proof.
  intros Hu dz dy qx Hdz Hdy Hqx.
  eassert (E : Apply3D_Bu_Gu D1D Q1D max_D1D max_Q1D B G u = _)
    by (unfold Apply3D_Bu_Gu; norm_loop).
  rewrite E; cbn [fst snd]. split.
  - eapply eq_trans;
      [apply set3_rd with (addr := at3 max_D1D max_Q1D); idx_solve|].
    apply sum_ext; intros. now rewrite Hu.
  - eapply eq_trans;
      [apply set3_rd with (addr := at3 max_D1D max_Q1D); idx_solve|].
    apply sum_ext; intros. now rewrite Hu.
Qed.

Lemma Apply3D_BBu_GBu_BGu_spec (Bu Gu : list T) :
  (forall dz dy qx, (dz < D1D)%nat -> (dy < D1D)%nat -> (qx < Q1D)%nat ->
     rd Bu (at3 max_D1D max_Q1D dz dy qx) = m3_Bu D1D B Xe dz dy qx) ->
  (forall dz dy qx, (dz < D1D)%nat -> (dy < D1D)%nat -> (qx < Q1D)%nat ->
     rd Gu (at3 max_D1D max_Q1D dz dy qx) = m3_Gu D1D G Xe dz dy qx) ->
  forall dz qy qx, (dz < D1D)%nat -> (qy < Q1D)%nat -> (qx < Q1D)%nat ->
    rd (fst (fst (Apply3D_BBu_GBu_BGu D1D Q1D max_D1D max_Q1D B G Bu Gu)))
       (at3 max_Q1D max_Q1D dz qy qx) = m3_BBu D1D B Xe dz qy qx /\
    rd (snd (fst (Apply3D_BBu_GBu_BGu D1D Q1D max_D1D max_Q1D B G Bu Gu)))
       (at3 max_Q1D max_Q1D dz qy qx) = m3_GBu D1D B G Xe dz qy qx /\
    rd (snd (Apply3D_BBu_GBu_BGu D1D Q1D max_D1D max_Q1D B G Bu Gu))
       (at3 max_Q1D max_Q1D dz qy qx) = m3_BGu D1D B G Xe dz qy qx.
Proof.
  intros HB HG dz qy qx Hdz Hqy Hqx.
  eassert (E : Apply3D_BBu_GBu_BGu D1D Q1D max_D1D max_Q1D B G Bu Gu = _)
    by (unfold Apply3D_BBu_GBu_BGu; norm_loop).
  rewrite E; cbn [fst snd]. repeat split.
  - eapply eq_trans;
      [apply set3_rd with (addr := fun dz qx qy => at3 max_Q1D max_Q1D dz qy qx);
       idx_solve|].
    apply sum_ext; intros. now rewrite HB.
  - eapply eq_trans;
      [apply set3_rd with (addr := fun dz qx qy => at3 max_Q1D max_Q1D dz qy qx);
       idx_solve|].
    apply sum_ext; intros. now rewrite HB.
  - eapply eq_trans;
      [apply set3_rd with (addr := fun dz qx qy => at3 max_Q1D max_Q1D dz qy qx);
       idx_solve|].
    apply sum_ext; intros. now rewrite HG.
Qed.

Lemma Apply3D_GBBu_BGBu_BBGu_spec (BBu GBu BGu : list T) :
  (forall dz qy qx, (dz < D1D)%nat -> (qy < Q1D)%nat -> (qx < Q1D)%nat ->
     rd BBu (at3 max_Q1D max_Q1D dz qy qx) = m3_BBu D1D B Xe dz qy qx) ->
  (forall dz qy qx, (dz < D1D)%nat -> (qy < Q1D)%nat -> (qx < Q1D)%nat ->
     rd GBu (at3 max_Q1D max_Q1D dz qy qx) = m3_GBu D1D B G Xe dz qy qx) ->
  (forall dz qy qx, (dz < D1D)%nat -> (qy < Q1D)%nat -> (qx < Q1D)%nat ->
     rd BGu (at3 max_Q1D max_Q1D dz qy qx) = m3_BGu D1D B G Xe dz qy qx) ->
  forall qz qy qx, (qz < Q1D)%nat -> (qy < Q1D)%nat -> (qx < Q1D)%nat ->
    rd (fst (fst (Apply3D_GBBu_BGBu_BBGu D1D Q1D max_Q1D B G BBu GBu BGu)))
       (at3 max_Q1D max_Q1D qz qy qx) = m3_GBBu D1D B G Xe qz qy qx /\
    rd (snd (fst (Apply3D_GBBu_BGBu_BBGu D1D Q1D max_Q1D B G BBu GBu BGu)))
       (at3 max_Q1D max_Q1D qz qy qx) = m3_BGBu D1D B G Xe qz qy qx /\
    rd (snd (Apply3D_GBBu_BGBu_BBGu D1D Q1D max_Q1D B G BBu GBu BGu))
       (at3 max_Q1D max_Q1D qz qy qx) = m3_BBGu D1D B G Xe qz qy qx.
Proof.
  intros HBB HGB HBG qz qy qx Hqz Hqy Hqx.
  eassert (E : Apply3D_GBBu_BGBu_BBGu D1D Q1D max_Q1D B G BBu GBu BGu = _)
    by (unfold Apply3D_GBBu_BGBu_BBGu; norm_loop).
  rewrite E; cbn [fst snd]. repeat split.
  - eapply eq_trans;
      [apply set3_rd with (addr := fun qx qy qz => at3 max_Q1D max_Q1D qz qy qx);
       idx_solve|].
    apply sum_ext; intros. now rewrite HBB.
  - eapply eq_trans;
      [apply set3_rd with (addr := fun qx qy qz => at3 max_Q1D max_Q1D qz qy qx);
       idx_solve|].
    apply sum_ext; intros. now rewrite HGB.
  - eapply eq_trans;
      [apply set3_rd with (addr := fun qx qy qz => at3 max_Q1D max_Q1D qz qy qx);
       idx_solve|].
    apply sum_ext; intros. now rewrite HBG.
Qed.

Lemma Apply3D_DGu_spec (GBBu BGBu BBGu : list T) :
  (forall qz qy qx, (qz < Q1D)%nat -> (qy < Q1D)%nat -> (qx < Q1D)%nat ->
     rd GBBu (at3 max_Q1D max_Q1D qz qy qx) = m3_GBBu D1D B G Xe qz qy qx) ->
  (forall qz qy qx, (qz < Q1D)%nat -> (qy < Q1D)%nat -> (qx < Q1D)%nat ->
     rd BGBu (at3 max_Q1D max_Q1D qz qy qx) = m3_BGBu D1D B G Xe qz qy qx) ->
  (forall qz qy qx, (qz < Q1D)%nat -> (qy < Q1D)%nat -> (qx < Q1D)%nat ->
     rd BBGu (at3 max_Q1D max_Q1D qz qy qx) = m3_BBGu D1D B G Xe qz qy qx) ->
  forall qz qy qx, (qz < Q1D)%nat -> (qy < Q1D)%nat -> (qx < Q1D)%nat ->
    rd (Apply3D_DGu Q1D max_Q1D op e GBBu BGBu BBGu) (at3 max_Q1D max_Q1D qz qy qx)
    = m3_DGu D1D B G Oe Xe qz qy qx.
Proof.
  intros H1 H2 H3 qz qy qx Hqz Hqy Hqx. unfold Apply3D_DGu. cbv zeta.
  eapply eq_trans; [apply set3_rd with (addr := at3 max_Q1D max_Q1D); idx_solve|].
  unfold m3_DGu. now rewrite H1, H2, H3.
Qed.

Lemma Apply3D_BDGu_spec (DGu : list T) :
  (forall qz qy qx, (qz < Q1D)%nat -> (qy < Q1D)%nat -> (qx < Q1D)%nat ->
     rd DGu (at3 max_Q1D max_Q1D qz qy qx) = m3_DGu D1D B G Oe Xe qz qy qx) ->
  forall dz qy qx, (dz < D1D)%nat -> (qy < Q1D)%nat -> (qx < Q1D)%nat ->
    rd (Apply3D_BDGu D1D Q1D max_D1D max_Q1D Bt DGu) (at3 max_Q1D max_Q1D dz qy qx)
    = m3_BDGu D1D Q1D B G Bt Oe Xe dz qy qx.
Proof.
  intros HDG dz qy qx Hdz Hqy Hqx.
  eassert (E : Apply3D_BDGu D1D Q1D max_D1D max_Q1D Bt DGu = _)
    by (unfold Apply3D_BDGu; norm_loop).
  rewrite E.
  eapply eq_trans;
    [apply set3_rd with (addr := fun qx qy dz => at3 max_Q1D max_Q1D dz qy qx);
     idx_solve|].
  apply sum_ext; intros. now rewrite HDG.
Qed.

Lemma Apply3D_BBDGu_spec (BDGu : list T) :
  (forall dz qy qx, (dz < D1D)%nat -> (qy < Q1D)%nat -> (qx < Q1D)%nat ->
     rd BDGu (at3 max_Q1D max_Q1D dz qy qx) = m3_BDGu D1D Q1D B G Bt Oe Xe dz qy qx) ->
  forall dz dy qx, (dz < D1D)%nat -> (dy < D1D)%nat -> (qx < Q1D)%nat ->
    rd (Apply3D_BBDGu D1D Q1D max_D1D max_Q1D Bt BDGu) (at3 max_D1D max_Q1D dz dy qx)
    = m3_BBDGu D1D Q1D B G Bt Oe Xe dz dy qx.
Proof.
  intros HDG dz dy qx Hdz Hdy Hqx.
  eassert (E : Apply3D_BBDGu D1D Q1D max_D1D max_Q1D Bt BDGu = _)
    by (unfold Apply3D_BBDGu; norm_loop).
  rewrite E.
  eapply eq_trans;
    [apply set3_rd with (addr := fun dz qx dy => at3 max_D1D max_Q1D dz dy qx);
     idx_solve|].
  apply sum_ext; intros. now rewrite HDG.
Qed.

Lemma Apply3D_local_spec dz dy qx :
  (dz < D1D)%nat -> (dy < D1D)%nat -> (qx < Q1D)%nat ->
  rd (Apply3D_local D1D Q1D max_D1D max_Q1D B G Bt op x e)
     (at3 max_D1D max_Q1D dz dy qx)
  = m3_BBDGu D1D Q1D B G Bt Oe Xe dz dy qx.
Proof.
  unfold Apply3D_local.
  pose proof (@Apply3D_Bu_Gu_spec _ Apply3D_u_spec) as H1.
  destruct (Apply3D_Bu_Gu D1D Q1D max_D1D max_Q1D B G _) as [Bu Gu].
  cbn [fst snd] in H1.
  pose proof (@Apply3D_BBu_GBu_BGu_spec Bu Gu
                (fun a b c h1 h2 h3 => proj1 (H1 a b c h1 h2 h3))
                (fun a b c h1 h2 h3 => proj2 (H1 a b c h1 h2 h3))) as H2.
  destruct (Apply3D_BBu_GBu_BGu D1D Q1D max_D1D max_Q1D B G Bu Gu)
    as [[BBu GBu] BGu].
  cbn [fst snd] in H2.
  pose proof (@Apply3D_GBBu_BGBu_BBGu_spec BBu GBu BGu
                (fun a b c h1 h2 h3 => proj1 (H2 a b c h1 h2 h3))
                (fun a b c h1 h2 h3 => proj1 (proj2 (H2 a b c h1 h2 h3)))
                (fun a b c h1 h2 h3 => proj2 (proj2 (H2 a b c h1 h2 h3)))) as H3.
  destruct (Apply3D_GBBu_BGBu_BBGu D1D Q1D max_Q1D B G BBu GBu BGu)
    as [[GBBu BGBu] BBGu].
  cbn [fst snd] in H3.
  apply Apply3D_BBDGu_spec. apply Apply3D_BDGu_spec. apply Apply3D_DGu_spec.
  - intros; now apply H3.
  - intros; now apply H3.
  - intros; now apply H3.
Qed.
End Apply3D_proof.

Theorem PAConvectionApply3D_eq (T_D1D T_Q1D ne : nat) (b g bt gt op_ x_ y_ : list T)
        (d1d q1d : nat) :
  (tparam T_D1D d1d <= MAX_D1D)%nat -> (tparam T_Q1D q1d <= MAX_Q1D)%nat ->
  PAConvectionApply3D T_D1D T_Q1D ne b g bt gt op_ x_ y_ d1d q1d
  = Some (add_elems3D ne (tparam T_D1D d1d)
            (Apply3D_val (tparam T_D1D d1d) (tparam T_Q1D q1d) b g bt op_ x_) y_).
Proof.
  intros HD HQ. unfold PAConvectionApply3D. cbv zeta. verify_ok.
  f_equal. unfold forall_, add_elems3D.
  apply for_loop_ext; intros e y0 He.
  apply for_loop_ext; intros dz y1 Hdz.
  apply for_loop_ext; intros dy y2 Hdy.
  apply for_loop_ext; intros dx y3 Hdx.
  do 2 f_equal. unfold Apply3D_val, conv3D.
  apply sum_ext; intros qx Hqx. f_equal.
  apply Apply3D_local_spec; auto using tparam_le.
Qed.

Section SmemApply3D_proof.
Variables D1D Q1D max_D1D max_Q1D : nat.
Variables B G Bt : nat -> nat -> T.
Variable op : nat -> nat -> nat -> nat -> nat -> T.
Variable x : nat -> nat -> nat -> nat -> T.
Variable e : nat.
Hypothesis HD : (D1D <= max_D1D)%nat.
Hypothesis HQ : (Q1D <= max_Q1D)%nat.

Local Abbreviation Oe := (fun qx qy qz c => op qx qy qz c e).
Local Abbreviation Xe := (fun dx dy dz => x dx dy dz e).

Lemma SmemApply3D_u_spec (sm0 : list T) :
  (max_D1D * max_D1D * max_D1D <= length sm0)%nat ->
  length (SmemApply3D_u D1D max_D1D x e sm0) = length sm0 /\
  forall dz dy dx, (dz < D1D)%nat -> (dy < D1D)%nat -> (dx < D1D)%nat ->
    rd (SmemApply3D_u D1D max_D1D x e sm0) (at3 max_D1D max_D1D dz dy dx)
    = x dx dy dz e.
Proof.
  intros HL. unfold SmemApply3D_u. split; [len_solve|]. intros.
  apply set3_rd with (addr := at3 max_D1D max_D1D)
                     (val := fun dz dy dx => x dx dy dz e); idx_solve.
Qed.

Lemma SmemApply3D_Bu_Gu_spec (u sm1 sm2 : list T) :
  (max_D1D * max_D1D * max_Q1D <= length sm1)%nat ->
  (max_D1D * max_D1D * max_Q1D <= length sm2)%nat ->
  (forall dz dy dx, (dz < D1D)%nat -> (dy < D1D)%nat -> (dx < D1D)%nat ->
     rd u (at3 max_D1D max_D1D dz dy dx) = x dx dy dz e) ->
  length (fst (SmemApply3D_Bu_Gu D1D Q1D max_D1D max_Q1D B G u sm1 sm2)) = length sm1 /\
  length (snd (SmemApply3D_Bu_Gu D1D Q1D max_D1D max_Q1D B G u sm1 sm2)) = length sm2 /\
  forall dz dy qx, (dz < D1D)%nat -> (dy < D1D)%nat -> (qx < Q1D)%nat ->
    rd (fst (SmemApply3D_Bu_Gu D1D Q1D max_D1D max_Q1D B G u sm1 sm2))
       (at3 max_D1D max_Q1D dz dy qx) = m3_Bu D1D B Xe dz dy qx /\
    rd (snd (SmemApply3D_Bu_Gu D1D Q1D max_D1D max_Q1D B G u sm1 sm2))
       (at3 max_D1D max_Q1D dz dy qx) = m3_Gu D1D G Xe dz dy qx.
Proof.
  intros HL1 HL2 Hu.
  eassert (E : SmemApply3D_Bu_Gu D1D Q1D max_D1D max_Q1D B G u sm1 sm2 = _)
    by (unfold SmemApply3D_Bu_Gu; norm_loop).
  rewrite E; cbn [fst snd]. split; [len_solve|]. split; [len_solve|].
  intros dz dy qx Hdz Hdy Hqx. split.
  - eapply eq_trans;
      [apply set3_rd with (addr := at3 max_D1D max_Q1D); idx_solve|].
    apply sum_ext; intros. now rewrite Hu.
  - eapply eq_trans;
      [apply set3_rd with (addr := at3 max_D1D max_Q1D); idx_solve|].
    apply sum_ext; intros. now rewrite Hu.
Qed.

Lemma SmemApply3D_BBu_GBu_BGu_spec (Bu Gu sm3 sm4 sm5 : list T) :
  (max_D1D * max_Q1D * max_Q1D <= length sm3)%nat ->
  (max_D1D * max_Q1D * max_Q1D <= length sm4)%nat ->
  (max_D1D * max_Q1D * max_Q1D <= length sm5)%nat ->
  (forall dz dy qx, (dz < D1D)%nat -> (dy < D1D)%nat -> (qx < Q1D)%nat ->
     rd Bu (at3 max_D1D max_Q1D dz dy qx) = m3_Bu D1D B Xe dz dy qx) ->
  (forall dz dy qx, (dz < D1D)%nat -> (dy < D1D)%nat -> (qx < Q1D)%nat ->
     rd Gu (at3 max_D1D max_Q1D dz dy qx) = m3_Gu D1D G Xe dz dy qx) ->
  let r := SmemApply3D_BBu_GBu_BGu D1D Q1D max_D1D max_Q1D B G Bu Gu sm3 sm4 sm5 in
  length (fst (fst r)) = length sm3 /\
  length (snd (fst r)) = length sm4 /\
  length (snd r) = length sm5 /\
  forall dz qy qx, (dz < D1D)%nat -> (qy < Q1D)%nat -> (qx < Q1D)%nat ->
    rd (fst (fst r)) (at3 max_Q1D max_Q1D dz qy qx) = m3_BBu D1D B Xe dz qy qx /\
    rd (snd (fst r)) (at3 max_Q1D max_Q1D dz qy qx) = m3_GBu D1D B G Xe dz qy qx /\
    rd (snd r) (at3 max_Q1D max_Q1D dz qy qx) = m3_BGu D1D B G Xe dz qy qx.
Proof.
  intros HL3 HL4 HL5 HB HG r.
  eassert (E : r = _) by (unfold r, SmemApply3D_BBu_GBu_BGu; norm_loop).
  rewrite E; cbn [fst snd]. do 3 (split; [len_solve|]).
  intros dz qy qx Hdz Hqy Hqx. repeat split.
  - eapply eq_trans;
      [apply set3_rd with (addr := fun dz qx qy => at3 max_Q1D max_Q1D dz qy qx);
       idx_solve|].
    apply sum_ext; intros. now rewrite HB.
  - eapply eq_trans;
      [apply set3_rd with (addr := fun dz qx qy => at3 max_Q1D max_Q1D dz qy qx);
       idx_solve|].
    apply sum_ext; intros. now rewrite HB.
  - eapply eq_trans;
      [apply set3_rd with (addr := fun dz qx qy => at3 max_Q1D max_Q1D dz qy qx);
       idx_solve|].
    apply sum_ext; intros. now rewrite HG.
Qed.

Lemma SmemApply3D_GBBu_BGBu_BBGu_spec (BBu GBu BGu sm0 sm1 sm2 : list T) :
  (max_Q1D * max_Q1D * max_Q1D <= length sm0)%nat ->
  (max_Q1D * max_Q1D * max_Q1D <= length sm1)%nat ->
  (max_Q1D * max_Q1D * max_Q1D <= length sm2)%nat ->
  (forall dz qy qx, (dz < D1D)%nat -> (qy < Q1D)%nat -> (qx < Q1D)%nat ->
     rd BBu (at3 max_Q1D max_Q1D dz qy qx) = m3_BBu D1D B Xe dz qy qx) ->
  (forall dz qy qx, (dz < D1D)%nat -> (qy < Q1D)%nat -> (qx < Q1D)%nat ->
     rd GBu (at3 max_Q1D max_Q1D dz qy qx) = m3_GBu D1D B G Xe dz qy qx) ->
  (forall dz qy qx, (dz < D1D)%nat -> (qy < Q1D)%nat -> (qx < Q1D)%nat ->
     rd BGu (at3 max_Q1D max_Q1D dz qy qx) = m3_BGu D1D B G Xe dz qy qx) ->
  let r := SmemApply3D_GBBu_BGBu_BBGu D1D Q1D max_Q1D B G BBu GBu BGu sm0 sm1 sm2 in
  length (fst (fst r)) = length sm0 /\
  length (snd (fst r)) = length sm1 /\
  length (snd r) = length sm2 /\
  forall qz qy qx, (qz < Q1D)%nat -> (qy < Q1D)%nat -> (qx < Q1D)%nat ->
    rd (fst (fst r)) (at3 max_Q1D max_Q1D qz qy qx) = m3_GBBu D1D B G Xe qz qy qx /\
    rd (snd (fst r)) (at3 max_Q1D max_Q1D qz qy qx) = m3_BGBu D1D B G Xe qz qy qx /\
    rd (snd r) (at3 max_Q1D max_Q1D qz qy qx) = m3_BBGu D1D B G Xe qz qy qx.
Proof.
  intros HL0 HL1 HL2 HBB HGB HBG r.
  eassert (E : r = _) by (unfold r, SmemApply3D_GBBu_BGBu_BBGu; norm_loop).
  rewrite E; cbn [fst snd]. do 3 (split; [len_solve|]).
  intros qz qy qx Hqz Hqy Hqx. repeat split.
  - eapply eq_trans;
      [apply set3_rd with (addr := fun qx qy qz => at3 max_Q1D max_Q1D qz qy qx);
       idx_solve|].
    apply sum_ext; intros. now rewrite HBB.
  - eapply eq_trans;
      [apply set3_rd with (addr := fun qx qy qz => at3 max_Q1D max_Q1D qz qy qx);
       idx_solve|].
    apply sum_ext; intros. now rewrite HGB.
  - eapply eq_trans;
      [apply set3_rd with (addr := fun qx qy qz => at3 max_Q1D max_Q1D qz qy qx);
       idx_solve|].
    apply sum_ext; intros. now rewrite HBG.
Qed.

Lemma SmemApply3D_DGu_spec (GBBu BGBu BBGu sm3 : list T) :
  (max_Q1D * max_Q1D * max_Q1D <= length sm3)%nat ->
  (forall qz qy qx, (qz < Q1D)%nat -> (qy < Q1D)%nat -> (qx < Q1D)%nat ->
     rd GBBu (at3 max_Q1D max_Q1D qz qy qx) = m3_GBBu D1D B G Xe qz qy qx) ->
  (forall qz qy qx, (qz < Q1D)%nat -> (qy < Q1D)%nat -> (qx < Q1D)%nat ->
     rd BGBu (at3 max_Q1D max_Q1D qz qy qx) = m3_BGBu D1D B G Xe qz qy qx) ->
  (forall qz qy qx, (qz < Q1D)%nat -> (qy < Q1D)%nat -> (qx < Q1D)%nat ->
     rd BBGu (at3 max_Q1D max_Q1D qz qy qx) = m3_BBGu D1D B G Xe qz qy qx) ->
  let r := SmemApply3D_DGu Q1D max_Q1D op e GBBu BGBu BBGu sm3 in
  length r = length sm3 /\
  forall qz qy qx, (qz < Q1D)%nat -> (qy < Q1D)%nat -> (qx < Q1D)%nat ->
    rd r (at3 max_Q1D max_Q1D qz qy qx) = m3_DGu D1D B G Oe Xe qz qy qx.
Proof.
  intros HL H1 H2 H3 r. unfold r, SmemApply3D_DGu. cbv zeta.
  split; [len_solve|]. intros qz qy qx Hqz Hqy Hqx.
  eapply eq_trans; [apply set3_rd with (addr := at3 max_Q1D max_Q1D); idx_solve|].
  unfold m3_DGu. now rewrite H1, H2, H3.
Qed.

Lemma SmemApply3D_BDGu_spec (DGu sm4 : list T) :
  (max_D1D * max_Q1D * max_Q1D <= length sm4)%nat ->
  (forall qz qy qx, (qz < Q1D)%nat -> (qy < Q1D)%nat -> (qx < Q1D)%nat ->
     rd DGu (at3 max_Q1D max_Q1D qz qy qx) = m3_DGu D1D B G Oe Xe qz qy qx) ->
  let r := SmemApply3D_BDGu D1D Q1D max_Q1D Bt DGu sm4 in
  length r = length sm4 /\
  forall dz qy qx, (dz < D1D)%nat -> (qy < Q1D)%nat -> (qx < Q1D)%nat ->
    rd r (at3 max_Q1D max_Q1D dz qy qx) = m3_BDGu D1D Q1D B G Bt Oe Xe dz qy qx.
Proof.
  intros HL HDG r. unfold r, SmemApply3D_BDGu. cbv zeta.
  split; [len_solve|]. intros dz qy qx Hdz Hqy Hqx.
  eapply eq_trans;
    [apply set3_rd with (addr := fun qx qy dz => at3 max_Q1D max_Q1D dz qy qx);
     idx_solve|].
  apply sum_ext; intros. now rewrite HDG.
Qed.

Lemma SmemApply3D_BBDGu_spec (BDGu sm5 : list T) :
  (max_D1D * max_D1D * max_Q1D <= length sm5)%nat ->
  (forall dz qy qx, (dz < D1D)%nat -> (qy < Q1D)%nat -> (qx < Q1D)%nat ->
     rd BDGu (at3 max_Q1D max_Q1D dz qy qx) = m3_BDGu D1D Q1D B G Bt Oe Xe dz qy qx) ->
  let r := SmemApply3D_BBDGu D1D Q1D max_D1D max_Q1D Bt BDGu sm5 in
  length r = length sm5 /\
  forall dz dy qx, (dz < D1D)%nat -> (dy < D1D)%nat -> (qx < Q1D)%nat ->
    rd r (at3 max_D1D max_Q1D dz dy qx) = m3_BBDGu D1D Q1D B G Bt Oe Xe dz dy qx.
Proof.
  intros HL HDG r. unfold r, SmemApply3D_BBDGu. cbv zeta.
  split; [len_solve|]. intros dz dy qx Hdz Hdy Hqx.
  eapply eq_trans;
    [apply set3_rd with (addr := fun dz qx dy => at3 max_D1D max_Q1D dz dy qx);
     idx_solve|].
  apply sum_ext; intros. now rewrite HDG.
Qed.

Lemma SmemApply3D_local_spec dz dy qx :
  (dz < D1D)%nat -> (dy < D1D)%nat -> (qx < Q1D)%nat ->
  rd (SmemApply3D_local D1D Q1D max_D1D max_Q1D B G Bt op x e)
     (at3 max_D1D max_Q1D dz dy qx)
  = m3_BBDGu D1D Q1D B G Bt Oe Xe dz dy qx.
Proof.
  unfold SmemApply3D_local. cbv zeta.
  set (M := if max_D1D <? max_Q1D then max_Q1D else max_D1D).
  assert (HMD : (max_D1D <= M)%nat)
    by (unfold M; destruct (Nat.ltb_spec max_D1D max_Q1D); lia).
  assert (HMQ : (max_Q1D <= M)%nat)
    by (unfold M; destruct (Nat.ltb_spec max_D1D max_Q1D); lia).
  assert (Lddd : (max_D1D * max_D1D * max_D1D <= M * M * M)%nat)
    by now apply prod3_le.
  assert (Lddq : (max_D1D * max_D1D * max_Q1D <= M * M * M)%nat)
    by now apply prod3_le.
  assert (Ldqq : (max_D1D * max_Q1D * max_Q1D <= M * M * M)%nat)
    by now apply prod3_le.
  assert (Lqqq : (max_Q1D * max_Q1D * max_Q1D <= M * M * M)%nat)
    by now apply prod3_le.
  pose proof (length_alloc (M * M * M)) as LA.
  destruct (@SmemApply3D_u_spec (alloc (M * M * M))) as [L0 H0]; [lia|].
  set (s0' := SmemApply3D_u D1D max_D1D x e (alloc (M * M * M))) in *.
  destruct (@SmemApply3D_Bu_Gu_spec s0' (alloc (M * M * M)) (alloc (M * M * M)))
    as (L1 & L2 & H1); [lia|lia|exact H0|].
  destruct (SmemApply3D_Bu_Gu D1D Q1D max_D1D max_Q1D B G s0' _ _) as [s1 s2].
  cbn [fst snd] in L1, L2, H1.
  destruct (@SmemApply3D_BBu_GBu_BGu_spec s1 s2
              (alloc (M * M * M)) (alloc (M * M * M)) (alloc (M * M * M)))
    as (L3 & L4 & L5 & H2);
    [lia|lia|lia|intros; now apply H1|intros; now apply H1|].
  destruct (SmemApply3D_BBu_GBu_BGu D1D Q1D max_D1D max_Q1D B G s1 s2 _ _ _)
    as [[s3 s4] s5].
  cbn [fst snd] in L3, L4, L5, H2.
  destruct (@SmemApply3D_GBBu_BGBu_BBGu_spec s3 s4 s5 s0' s1 s2)
    as (L0' & L1' & L2' & H3);
    [lia|lia|lia|intros; now apply H2|intros; now apply H2|intros; now apply H2|].
  destruct (SmemApply3D_GBBu_BGBu_BBGu D1D Q1D max_Q1D B G s3 s4 s5 s0' s1 s2)
    as [[t0 t1] t2].
  cbn [fst snd] in L0', L1', L2', H3.
  destruct (@SmemApply3D_DGu_spec t0 t1 t2 s3) as (L3' & H4);
    [lia|intros; now apply H3|intros; now apply H3|intros; now apply H3|].
  destruct (@SmemApply3D_BDGu_spec (SmemApply3D_DGu Q1D max_Q1D op e t0 t1 t2 s3) s4)
    as (L4' & H5); [lia|exact H4|].
  destruct (@SmemApply3D_BBDGu_spec
              (SmemApply3D_BDGu D1D Q1D max_Q1D Bt
                 (SmemApply3D_DGu Q1D max_Q1D op e t0 t1 t2 s3) s4) s5)
    as (L5' & H6); [lia|exact H5|].
  apply H6.
Qed.
End SmemApply3D_proof.

Theorem SmemPAConvectionApply3D_eq (T_D1D T_Q1D ne : nat)
        (b g bt gt op_ x_ y_ : list T) (d1d q1d : nat) :
  (tparam T_D1D d1d <= MAX_D1D)%nat -> (tparam T_Q1D q1d <= MAX_Q1D)%nat ->
  SmemPAConvectionApply3D T_D1D T_Q1D ne b g bt gt op_ x_ y_ d1d q1d
  = Some (add_elems3D ne (tparam T_D1D d1d)
            (Apply3D_val (tparam T_D1D d1d) (tparam T_Q1D q1d) b g bt op_ x_) y_).
Proof.
  intros HD HQ. unfold SmemPAConvectionApply3D. cbv zeta. verify_ok.
  f_equal. unfold forall_3D, add_elems3D.
  apply for_loop_ext; intros e y0 He.
  apply for_loop_ext; intros dz y1 Hdz.
  apply for_loop_ext; intros dy y2 Hdy.
  apply for_loop_ext; intros dx y3 Hdx.
  do 2 f_equal. unfold Apply3D_val, conv3D.
  apply sum_ext; intros qx Hqx. f_equal.
  apply SmemApply3D_local_spec; auto using tparam_le.
Qed.

(** ** PAConvectionApplyT2D and SmemPAConvectionApplyT2D *)

Section ApplyT2D_proof.
Variables D1D Q1D max_D1D max_Q1D : nat.
Variables B Bt Gt : nat -> nat -> T.
Variable op : nat -> nat -> nat -> nat -> T.
Variable x : nat -> nat -> nat -> T.
Variable e : nat.
Hypothesis HD : (D1D <= max_D1D)%nat.
Hypothesis HQ : (Q1D <= max_Q1D)%nat.

Local Abbreviation Oe := (fun qx qy c => op qx qy c e).
Local Abbreviation Xe := (fun dx dy => x dx dy e).

Lemma ApplyT2D_u_spec dy dx :
  (dy < D1D)%nat -> (dx < D1D)%nat ->
  rd (ApplyT2D_u D1D max_D1D x e) (at2 max_D1D dy dx) = x dx dy e.
Proof.
  intros. unfold ApplyT2D_u.
  apply set2_rd with (addr := at2 max_D1D) (val := fun dy dx => x dx dy e); idx_solve.
Qed.

Lemma ApplyT2D_Bu_spec (u : list T) :
  (forall dy dx, (dy < D1D)%nat -> (dx < D1D)%nat -> rd u (at2 max_D1D dy dx) = x dx dy e) ->
  forall dy qx, (dy < D1D)%nat -> (qx < Q1D)%nat ->
    rd (ApplyT2D_Bu D1D Q1D max_D1D max_Q1D B u) (at2 max_Q1D dy qx)
    = m2_Bu D1D B Xe dy qx.
Proof.
  intros Hu dy qx Hdy Hqx.
  eassert (E : ApplyT2D_Bu D1D Q1D max_D1D max_Q1D B u = _)
    by (unfold ApplyT2D_Bu; norm_loop).
  rewrite E.
  eapply eq_trans; [apply set2_rd with (addr := at2 max_Q1D); idx_solve|].
  apply sum_ext; intros. now rewrite Hu.
Qed.

Lemma ApplyT2D_BBu_spec (Bu : list T) :
  (forall dy qx, (dy < D1D)%nat -> (qx < Q1D)%nat ->
     rd Bu (at2 max_Q1D dy qx) = m2_Bu D1D B Xe dy qx) ->
  forall qy qx, (qy < Q1D)%nat -> (qx < Q1D)%nat ->
    rd (ApplyT2D_BBu D1D Q1D max_Q1D B Bu) (at2 max_Q1D qy qx)
    = m2_BBu D1D B Xe qy qx.
Proof.
  intros HB qy qx Hqy Hqx.
  eassert (E : ApplyT2D_BBu D1D Q1D max_Q1D B Bu = _)
    by (unfold ApplyT2D_BBu; norm_loop).
  rewrite E.
  eapply eq_trans;
    [apply set2_rd with (addr := fun qx qy => at2 max_Q1D qy qx); idx_solve|].
  apply sum_ext; intros. now rewrite HB.
Qed.

Lemma ApplyT2D_DBu_spec (BBu : list T) :
  (forall qy qx, (qy < Q1D)%nat -> (qx < Q1D)%nat ->
     rd BBu (at2 max_Q1D qy qx) = m2_BBu D1D B Xe qy qx) ->
  forall qy qx c, (qy < Q1D)%nat -> (qx < Q1D)%nat -> (c < 2)%nat ->
    rd (ApplyT2D_DBu Q1D max_Q1D op e BBu) (at3 max_Q1D 2 qy qx c)
    = m2_DBu D1D B Oe Xe qy qx c.
Proof.
  intros HBB qy qx c Hqy Hqx Hc. unfold ApplyT2D_DBu. cbv zeta.
  eapply eq_trans;
    [apply set3_rd with (p := 2%nat) (addr := at3 max_Q1D 2)
       (val := fun qy qx c => op qx qy c e * rd BBu (at2 max_Q1D qy qx)); idx_solve|].
  unfold m2_DBu. now rewrite HBB.
Qed.

Lemma ApplyT2D_GDBu_spec (DBu : list T) :
  (forall qy qx c, (qy < Q1D)%nat -> (qx < Q1D)%nat -> (c < 2)%nat ->
     rd DBu (at3 max_Q1D 2 qy qx c) = m2_DBu D1D B Oe Xe qy qx c) ->
  forall dy qx c, (dy < D1D)%nat -> (qx < Q1D)%nat -> (c < 2)%nat ->
    rd (ApplyT2D_GDBu D1D Q1D max_D1D max_Q1D Bt Gt DBu) (at3 max_Q1D 2 dy qx c)
    = m2_GDBu D1D Q1D B Bt Gt Oe Xe dy qx c.
Proof.
  intros HDB dy qx c Hdy Hqx Hc.
  assert (E : ApplyT2D_GDBu D1D Q1D max_D1D max_Q1D Bt Gt DBu
              = for_loop Q1D (fun qx b => for_loop D1D (fun dy b =>
                  for_loop 2 (fun c b =>
                    upd b (at3 max_Q1D 2 dy qx c)
                        (match c with
                         | 0 => sum Q1D (fun qy => Bt dy qy * rd DBu (at3 max_Q1D 2 qy qx 0))
                         | _ => sum Q1D (fun qy => Gt dy qy * rd DBu (at3 max_Q1D 2 qy qx 1))
                         end)) b) b) (alloc (max_D1D * max_Q1D * 2))).
  { unfold ApplyT2D_GDBu. apply for_loop_ext; intros. apply for_loop_ext; intros.
    cbv zeta. apply cacc1x2. unfold at3; lia. }
  rewrite E.
  eapply eq_trans;
    [apply set3_rd with (p := 2%nat) (addr := fun qx dy c => at3 max_Q1D 2 dy qx c);
     idx_solve|].
  destruct c as [|[|c]]; [| |lia]; cbn [m2_GDBu];
    apply sum_ext; intros; now rewrite HDB by lia.
Qed.

Lemma ApplyT2D_local_spec dy qx c :
  (dy < D1D)%nat -> (qx < Q1D)%nat -> (c < 2)%nat ->
  rd (ApplyT2D_local D1D Q1D max_D1D max_Q1D B Bt Gt op x e) (at3 max_Q1D 2 dy qx c)
  = m2_GDBu D1D Q1D B Bt Gt Oe Xe dy qx c.
Proof.
  unfold ApplyT2D_local. cbv zeta.
  apply ApplyT2D_GDBu_spec, ApplyT2D_DBu_spec, ApplyT2D_BBu_spec, ApplyT2D_Bu_spec.
  apply ApplyT2D_u_spec.
Qed.
End ApplyT2D_proof.

Theorem PAConvectionApplyT2D_eq (T_D1D T_Q1D ne : nat) (b g bt gt op_ x_ y_ : list T)
        (d1d q1d : nat) :
  (tparam T_D1D d1d <= MAX_D1D)%nat -> (tparam T_Q1D q1d <= MAX_Q1D)%nat ->
  PAConvectionApplyT2D T_D1D T_Q1D ne b g bt gt op_ x_ y_ d1d q1d
  = Some (add_elems2D ne (tparam T_D1D d1d)
            (ApplyT2D_val (tparam T_D1D d1d) (tparam T_Q1D q1d) b bt gt op_ x_) y_).
Proof.
  intros HD HQ. unfold PAConvectionApplyT2D. cbv zeta. verify_ok.
  f_equal. unfold forall_, add_elems2D.
  apply for_loop_ext; intros e y' He.
  apply for_loop_ext; intros dx y'' Hdx.
  apply for_loop_ext; intros dy y''' Hdy.
  do 2 f_equal. unfold ApplyT2D_val, convT2D.
  apply sum_ext; intros qx Hqx.
  rewrite !ApplyT2D_local_spec by (auto using tparam_le). reflexivity.
Qed.

Section SmemApplyT2D_proof.
Variables D1D Q1D NBZ max_D1D max_Q1D : nat.
Variables B Bt Gt : nat -> nat -> T.
Variable op : nat -> nat -> nat -> nat -> T.
Variable x : nat -> nat -> nat -> T.
Variables e tidz : nat.
Hypothesis HD : (D1D <= max_D1D)%nat.
Hypothesis HQ : (Q1D <= max_Q1D)%nat.
Hypothesis Htid : (tidz < NBZ)%nat.

Local Abbreviation Oe := (fun qx qy c => op qx qy c e).
Local Abbreviation Xe := (fun dx dy => x dx dy e).

Lemma SmemApplyT2D_u_spec dy dx :
  (dy < D1D)%nat -> (dx < D1D)%nat ->
  rd (SmemApplyT2D_u D1D NBZ max_D1D x e tidz) (at3 max_D1D max_D1D tidz dy dx)
  = x dx dy e.
Proof.
  intros. unfold SmemApplyT2D_u.
  apply set2_rd with (addr := at3 max_D1D max_D1D tidz)
                     (val := fun dy dx => x dx dy e); idx_solve.
Qed.

Lemma SmemApplyT2D_Bu_spec (u : list T) :
  (forall dy dx, (dy < D1D)%nat -> (dx < D1D)%nat ->
     rd u (at3 max_D1D max_D1D tidz dy dx) = x dx dy e) ->
  forall dy qx, (dy < D1D)%nat -> (qx < Q1D)%nat ->
    rd (SmemApplyT2D_Bu D1D Q1D NBZ max_D1D max_Q1D B tidz u)
       (at3 max_D1D max_Q1D tidz dy qx)
    = m2_Bu D1D B Xe dy qx.
Proof.
  intros Hu dy qx Hdy Hqx.
  eassert (E : SmemApplyT2D_Bu D1D Q1D NBZ max_D1D max_Q1D B tidz u = _)
    by (unfold SmemApplyT2D_Bu; norm_loop).
  rewrite E.
  eapply eq_trans;
    [apply set2_rd with (addr := at3 max_D1D max_Q1D tidz); idx_solve|].
  apply sum_ext; intros. now rewrite Hu.
Qed.

Lemma SmemApplyT2D_BBu_spec (Bu : list T) :
  (forall dy qx, (dy < D1D)%nat -> (qx < Q1D)%nat ->
     rd Bu (at3 max_D1D max_Q1D tidz dy qx) = m2_Bu D1D B Xe dy qx) ->
  forall qy qx, (qy < Q1D)%nat -> (qx < Q1D)%nat ->
    rd (SmemApplyT2D_BBu D1D Q1D NBZ max_D1D max_Q1D B tidz Bu)
       (at3 max_Q1D max_Q1D tidz qy qx)
    = m2_BBu D1D B Xe qy qx.
Proof.
  intros HB qy qx Hqy Hqx.
  eassert (E : SmemApplyT2D_BBu D1D Q1D NBZ max_D1D max_Q1D B tidz Bu = _)
    by (unfold SmemApplyT2D_BBu; norm_loop).
  rewrite E.
  eapply eq_trans;
    [apply set2_rd with (addr := fun qx qy => at3 max_Q1D max_Q1D tidz qy qx);
     idx_solve|].
  apply sum_ext; intros. now rewrite HB.
Qed.

Lemma SmemApplyT2D_DBu_spec (BBu : list T) :
  (forall qy qx, (qy < Q1D)%nat -> (qx < Q1D)%nat ->
     rd BBu (at3 max_Q1D max_Q1D tidz qy qx) = m2_BBu D1D B Xe qy qx) ->
  forall qy qx c, (qy < Q1D)%nat -> (qx < Q1D)%nat -> (c < 2)%nat ->
    rd (SmemApplyT2D_DBu Q1D NBZ max_Q1D op e tidz BBu)
       (at4 max_Q1D max_Q1D 2 tidz qy qx c)
    = m2_DBu D1D B Oe Xe qy qx c.
Proof.
  intros HBB qy qx c Hqy Hqx Hc. unfold SmemApplyT2D_DBu. cbv zeta.
  eapply eq_trans;
    [apply set3_rd with (p := 2%nat) (addr := at4 max_Q1D max_Q1D 2 tidz)
       (val := fun qy qx c => op qx qy c e * rd BBu (at3 max_Q1D max_Q1D tidz qy qx));
     idx_solve|].
  unfold m2_DBu. now rewrite HBB.
Qed.

Lemma SmemApplyT2D_GDBu_spec (DBu : list T) :
  (forall qy qx c, (qy < Q1D)%nat -> (qx < Q1D)%nat -> (c < 2)%nat ->
     rd DBu (at4 max_Q1D max_Q1D 2 tidz qy qx c) = m2_DBu D1D B Oe Xe qy qx c) ->
  forall dy qx c, (dy < D1D)%nat -> (qx < Q1D)%nat -> (c < 2)%nat ->
    rd (SmemApplyT2D_GDBu D1D Q1D NBZ max_D1D max_Q1D Bt Gt tidz DBu)
       (at4 max_D1D max_Q1D 2 tidz dy qx c)
    = m2_GDBu D1D Q1D B Bt Gt Oe Xe dy qx c.
Proof.
  intros HDB dy qx c Hdy Hqx Hc.
  assert (E : SmemApplyT2D_GDBu D1D Q1D NBZ max_D1D max_Q1D Bt Gt tidz DBu
              = for_loop Q1D (fun qx b => for_loop D1D (fun dy b =>
                  for_loop 2 (fun c b =>
                    upd b (at4 max_D1D max_Q1D 2 tidz dy qx c)
                        (match c with
                         | 0 => sum Q1D (fun qy =>
                                  Bt dy qy * rd DBu (at4 max_Q1D max_Q1D 2 tidz qy qx 0))
                         | _ => sum Q1D (fun qy =>
                                  Gt dy qy * rd DBu (at4 max_Q1D max_Q1D 2 tidz qy qx 1))
                         end)) b) b) (alloc (NBZ * max_D1D * max_Q1D * 2))).
  { unfold SmemApplyT2D_GDBu. apply for_loop_ext; intros. apply for_loop_ext; intros.
    cbv zeta. apply cacc1x2. unfold at4; lia. }
  rewrite E.
  eapply eq_trans;
    [apply set3_rd with (p := 2%nat)
       (addr := fun qx dy c => at4 max_D1D max_Q1D 2 tidz dy qx c); idx_solve|].
  destruct c as [|[|c]]; [| |lia]; cbn [m2_GDBu];
    apply sum_ext; intros; now rewrite HDB by lia.
Qed.

Lemma SmemApplyT2D_local_spec dy qx c :
  (dy < D1D)%nat -> (qx < Q1D)%nat -> (c < 2)%nat ->
  rd (SmemApplyT2D_local D1D Q1D NBZ max_D1D max_Q1D B Bt Gt op x e tidz)
     (at4 max_D1D max_Q1D 2 tidz dy qx c)
  = m2_GDBu D1D Q1D B Bt Gt Oe Xe dy qx c.
Proof.
  unfold SmemApplyT2D_local. cbv zeta.
  apply SmemApplyT2D_GDBu_spec, SmemApplyT2D_DBu_spec, SmemApplyT2D_BBu_spec,
    SmemApplyT2D_Bu_spec.
  apply SmemApplyT2D_u_spec.
Qed.
End SmemApplyT2D_proof.

Theorem SmemPAConvectionApplyT2D_eq (T_D1D T_Q1D T_NBZ ne : nat)
        (b g bt gt op_ x_ y_ : list T) (d1d q1d : nat) :
  (tparam T_D1D d1d <= MAX_D1D)%nat -> (tparam T_Q1D q1d <= MAX_Q1D)%nat ->
  SmemPAConvectionApplyT2D T_D1D T_Q1D T_NBZ ne b g bt gt op_ x_ y_ d1d q1d
  = Some (add_elems2D ne (tparam T_D1D d1d)
            (ApplyT2D_val (tparam T_D1D d1d) (tparam T_Q1D q1d) b bt gt op_ x_) y_).
Proof.
  intros HD HQ. unfold SmemPAConvectionApplyT2D. cbv zeta. verify_ok.
  f_equal. unfold forall_2D_batch, add_elems2D.
  apply for_loop_ext; intros e y' He.
  apply for_loop_ext; intros dx y'' Hdx.
  apply for_loop_ext; intros dy y''' Hdy.
  do 2 f_equal. unfold ApplyT2D_val, convT2D.
  apply sum_ext; intros qx Hqx.
  rewrite !SmemApplyT2D_local_spec
    by (auto using tparam_le, MFEM_THREAD_ID_z_lt, tparam_pos). reflexivity.
Qed.

(** ** PAConvectionApplyT3D and SmemPAConvectionApplyT3D *)

Section ApplyT3D_proof.
Variables D1D Q1D max_D1D max_Q1D : nat.
Variables B Bt Gt : nat -> nat -> T.
Variable op : nat -> nat -> nat -> nat -> nat -> T.
Variable x : nat -> nat -> nat -> nat -> T.
Variable e : nat.
Hypothesis HD : (D1D <= max_D1D)%nat.
Hypothesis HQ : (Q1D <= max_Q1D)%nat.

Local Abbreviation Oe := (fun qx qy qz c => op qx qy qz c e).
Local Abbreviation Xe := (fun dx dy dz => x dx dy dz e).

Lemma ApplyT3D_u_spec dz dy dx :
  (dz < D1D)%nat -> (dy < D1D)%nat -> (dx < D1D)%nat ->
  rd (ApplyT3D_u D1D max_D1D x e) (at3 max_D1D max_D1D dz dy dx) = x dx dy dz e.
Proof.
  intros. unfold ApplyT3D_u.
  apply set3_rd with (addr := at3 max_D1D max_D1D)
                     (val := fun dz dy dx => x dx dy dz e); idx_solve.
Qed.

Lemma ApplyT3D_Bu_spec (u : list T) :
  (forall dz dy dx, (dz < D1D)%nat -> (dy < D1D)%nat -> (dx < D1D)%nat ->
     rd u (at3 max_D1D max_D1D dz dy dx) = x dx dy dz e) ->
  forall dz dy qx, (dz < D1D)%nat -> (dy < D1D)%nat -> (qx < Q1D)%nat ->
    rd (ApplyT3D_Bu D1D Q1D max_D1D max_Q1D B u) (at3 max_D1D max_Q1D dz dy qx)
    = m3_Bu D1D B Xe dz dy qx.
Proof.
  intros Hu dz dy qx Hdz Hdy Hqx.
  eassert (E : ApplyT3D_Bu D1D Q1D max_D1D max_Q1D B u = _)
    by (unfold ApplyT3D_Bu; norm_loop).
  rewrite E.
  eapply eq_trans; [apply set3_rd with (addr := at3 max_D1D max_Q1D); idx_solve|].
  apply sum_ext; intros. now rewrite Hu.
Qed.

Lemma ApplyT3D_BBu_spec (Bu : list T) :
  (forall dz dy qx, (dz < D1D)%nat -> (dy < D1D)%nat -> (qx < Q1D)%nat ->
     rd Bu (at3 max_D1D max_Q1D dz dy qx) = m3_Bu D1D B Xe dz dy qx) ->
  forall dz qy qx, (dz < D1D)%nat -> (qy < Q1D)%nat -> (qx < Q1D)%nat ->
    rd (ApplyT3D_BBu D1D Q1D max_D1D max_Q1D B Bu) (at3 max_Q1D max_Q1D dz qy qx)
    = m3_BBu D1D B Xe dz qy qx.
Proof.
  intros HB dz qy qx Hdz Hqy Hqx.
  eassert (E : ApplyT3D_BBu D1D Q1D max_D1D max_Q1D B Bu = _)
    by (unfold ApplyT3D_BBu; norm_loop).
  rewrite E.
  eapply eq_trans;
    [apply set3_rd with (addr := fun dz qx qy => at3 max_Q1D max_Q1D dz qy qx);
     idx_solve|].
  apply sum_ext; intros. now rewrite HB.
Qed.

Lemma ApplyT3D_BBBu_spec (BBu : list T) :
  (forall dz qy qx, (dz < D1D)%nat -> (qy < Q1D)%nat -> (qx < Q1D)%nat ->
     rd BBu (at3 max_Q1D max_Q1D dz qy qx) = m3_BBu D1D B Xe dz qy qx) ->
  forall qz qy qx, (qz < Q1D)%nat -> (qy < Q1D)%nat -> (qx < Q1D)%nat ->
    rd (ApplyT3D_BBBu D1D Q1D max_Q1D B BBu) (at3 max_Q1D max_Q1D qz qy qx)
    = m3_BBBu D1D B Xe qz qy qx.
Proof.
  intros HB qz qy qx Hqz Hqy Hqx.
  eassert (E : ApplyT3D_BBBu D1D Q1D max_Q1D B BBu = _)
    by (unfold ApplyT3D_BBBu; norm_loop).
  rewrite E.
  eapply eq_trans;
    [apply set3_rd with (addr := fun qx qy qz => at3 max_Q1D max_Q1D qz qy qx);
     idx_solve|].
  apply sum_ext; intros. now rewrite HB.
Qed.

Lemma ApplyT3D_DBu_spec (BBBu : list T) :
  (forall qz qy qx, (qz < Q1D)%nat -> (qy < Q1D)%nat -> (qx < Q1D)%nat ->
     rd BBBu (at3 max_Q1D max_Q1D qz qy qx) = m3_BBBu D1D B Xe qz qy qx) ->
  forall qz qy qx c, (qz < Q1D)%nat -> (qy < Q1D)%nat -> (qx < Q1D)%nat -> (c < 3)%nat ->
    rd (ApplyT3D_DBu Q1D max_Q1D op e BBBu) (at4 max_Q1D max_Q1D 3 qz qy qx c)
    = m3_DBu D1D B Oe Xe qz qy qx c.
Proof.
  intros HBB qz qy qx c Hqz Hqy Hqx Hc. unfold ApplyT3D_DBu. cbv zeta.
  eapply eq_trans;
    [apply set4_rd with (q := 3%nat) (addr := at4 max_Q1D max_Q1D 3)
       (val := fun qz qy qx c =>
                 op qx qy qz c e * rd BBBu (at3 max_Q1D max_Q1D qz qy qx));
     idx_solve|].
  unfold m3_DBu. now rewrite HBB.
Qed.

Lemma ApplyT3D_GDBu_spec (DBu : list T) :
  (forall qz qy qx c, (qz < Q1D)%nat -> (qy < Q1D)%nat -> (qx < Q1D)%nat -> (c < 3)%nat ->
     rd DBu (at4 max_Q1D max_Q1D 3 qz qy qx c) = m3_DBu D1D B Oe Xe qz qy qx c) ->
  forall dz qy qx c, (dz < D1D)%nat -> (qy < Q1D)%nat -> (qx < Q1D)%nat -> (c < 3)%nat ->
    rd (ApplyT3D_GDBu D1D Q1D max_D1D max_Q1D Bt Gt DBu)
       (at4 max_Q1D max_Q1D 3 dz qy qx c)
    = m3_GDBu D1D Q1D B Bt Gt Oe Xe dz qy qx c.
Proof.
  intros HDB dz qy qx c Hdz Hqy Hqx Hc.
  assert (E : ApplyT3D_GDBu D1D Q1D max_D1D max_Q1D Bt Gt DBu
              = for_loop Q1D (fun qx b => for_loop Q1D (fun qy b =>
                  for_loop D1D (fun dz b => for_loop 3 (fun c b =>
                    upd b (at4 max_Q1D max_Q1D 3 dz qy qx c)
                        (match c with
                         | 0 => sum Q1D (fun qz =>
                                  Bt dz qz * rd DBu (at4 max_Q1D max_Q1D 3 qz qy qx 0))
                         | 1 => sum Q1D (fun qz =>
                                  Bt dz qz * rd DBu (at4 max_Q1D max_Q1D 3 qz qy qx 1))
                         | _ => sum Q1D (fun qz =>
                                  Gt dz qz * rd DBu (at4 max_Q1D max_Q1D 3 qz qy qx 2))
                         end)) b) b) b) (alloc (max_D1D * max_Q1D * max_Q1D * 3))).
  { unfold ApplyT3D_GDBu. do 3 (apply for_loop_ext; intros).
    cbv zeta. apply cacc1x3; unfold at4; lia. }
  rewrite E.
  eapply eq_trans;
    [apply set4_rd with (q := 3%nat)
       (addr := fun qx qy dz c => at4 max_Q1D max_Q1D 3 dz qy qx c); idx_solve|].
  destruct c as [|[|[|c]]]; [| | |lia]; cbn [m3_GDBu];
    apply sum_ext; intros; now rewrite HDB by lia.
Qed.

Lemma ApplyT3D_GGDBu_spec (GDBu : list T) :
  (forall dz qy qx c, (dz < D1D)%nat -> (qy < Q1D)%nat -> (qx < Q1D)%nat -> (c < 3)%nat ->
     rd GDBu (at4 max_Q1D max_Q1D 3 dz qy qx c)
     = m3_GDBu D1D Q1D B Bt Gt Oe Xe dz qy qx c) ->
  forall dz dy qx c, (dz < D1D)%nat -> (dy < D1D)%nat -> (qx < Q1D)%nat -> (c < 3)%nat ->
    rd (ApplyT3D_GGDBu D1D Q1D max_D1D max_Q1D Bt Gt GDBu)
       (at4 max_D1D max_Q1D 3 dz dy qx c)
    = m3_GGDBu D1D Q1D B Bt Gt Oe Xe dz dy qx c.
Proof.
  intros HGD dz dy qx c Hdz Hdy Hqx Hc.
  assert (E : ApplyT3D_GGDBu D1D Q1D max_D1D max_Q1D Bt Gt GDBu
              = for_loop D1D (fun dz b => for_loop Q1D (fun qx b =>
                  for_loop D1D (fun dy b => for_loop 3 (fun c b =>
                    upd b (at4 max_D1D max_Q1D 3 dz dy qx c)
                        (match c with
                         | 0 => sum Q1D (fun qy =>
                                  Bt dy qy * rd GDBu (at4 max_Q1D max_Q1D 3 dz qy qx 0))
                         | 1 => sum Q1D (fun qy =>
                                  Gt dy qy * rd GDBu (at4 max_Q1D max_Q1D 3 dz qy qx 1))
                         | _ => sum Q1D (fun qy =>
                                  Bt dy qy * rd GDBu (at4 max_Q1D max_Q1D 3 dz qy qx 2))
                         end)) b) b) b) (alloc (max_D1D * max_D1D * max_Q1D * 3))).
  { unfold ApplyT3D_GGDBu. do 3 (apply for_loop_ext; intros).
    cbv zeta. apply cacc1x3; unfold at4; lia. }
  rewrite E.
  eapply eq_trans;
    [apply set4_rd with (q := 3%nat)
       (addr := fun dz qx dy c => at4 max_D1D max_Q1D 3 dz dy qx c); idx_solve|].
  destruct c as [|[|[|c]]]; [| | |lia]; cbn [m3_GGDBu];
    apply sum_ext; intros; now rewrite HGD by lia.
Qed.

Lemma ApplyT3D_local_spec dz dy qx c :
  (dz < D1D)%nat -> (dy < D1D)%nat -> (qx < Q1D)%nat -> (c < 3)%nat ->
  rd (ApplyT3D_local D1D Q1D max_D1D max_Q1D B Bt Gt op x e)
     (at4 max_D1D max_Q1D 3 dz dy qx c)
  = m3_GGDBu D1D Q1D B Bt Gt Oe Xe dz dy qx c.
Proof.
  unfold ApplyT3D_local. cbv zeta.
  apply ApplyT3D_GGDBu_spec, ApplyT3D_GDBu_spec, ApplyT3D_DBu_spec,
    ApplyT3D_BBBu_spec, ApplyT3D_BBu_spec, ApplyT3D_Bu_spec.
  apply ApplyT3D_u_spec.
Qed.
End ApplyT3D_proof.

Theorem PAConvectionApplyT3D_eq (T_D1D T_Q1D ne : nat) (b g bt gt op_ x_ y_ : list T)
        (d1d q1d : nat) :
  (tparam T_D1D d1d <= MAX_D1D)%nat -> (tparam T_Q1D q1d <= MAX_Q1D)%nat ->
  PAConvectionApplyT3D T_D1D T_Q1D ne b g bt gt op_ x_ y_ d1d q1d
  = Some (add_elems3D ne (tparam T_D1D d1d)
            (ApplyT3D_val (tparam T_D1D d1d) (tparam T_Q1D q1d) b bt gt op_ x_) y_).
Proof.
  intros HD HQ. unfold PAConvectionApplyT3D. cbv zeta. verify_ok.
  f_equal. unfold forall_, add_elems3D.
  apply for_loop_ext; intros e y0 He.
  apply for_loop_ext; intros dz y1 Hdz.
  apply for_loop_ext; intros dy y2 Hdy.
  apply for_loop_ext; intros dx y3 Hdx.
  do 2 f_equal. unfold ApplyT3D_val, convT3D.
  apply for_loop_ext; intros qx res Hqx.
  rewrite !ApplyT3D_local_spec by (auto using tparam_le). reflexivity.
Qed.

Section SmemApplyT3D_proof.
Variables D1D Q1D max_D1D max_Q1D : nat.
Variables B Bt Gt : nat -> nat -> T.
Variable op : nat -> nat -> nat -> nat -> nat -> T.
Variable x : nat -> nat -> nat -> nat -> T.
Variable e : nat.
Hypothesis HD : (D1D <= max_D1D)%nat.
Hypothesis HQ : (Q1D <= max_Q1D)%nat.

Local Abbreviation Oe := (fun qx qy qz c => op qx qy qz c e).
Local Abbreviation Xe := (fun dx dy dz => x dx dy dz e).

Lemma SmemApplyT3D_u_spec (sm0 : list T) :
  (max_D1D * max_D1D * max_D1D <= length sm0)%nat ->
  let r := SmemApplyT3D_u D1D max_D1D x e sm0 in
  length r = length sm0 /\
  forall dz dy dx, (dz < D1D)%nat -> (dy < D1D)%nat -> (dx < D1D)%nat ->
    rd r (at3 max_D1D max_D1D dz dy dx) = x dx dy dz e.
Proof.
  intros HL r. unfold r, SmemApplyT3D_u. split; [len_solve|]. intros.
  apply set3_rd with (addr := at3 max_D1D max_D1D)
                     (val := fun dz dy dx => x dx dy dz e); idx_solve.
Qed.

Lemma SmemApplyT3D_Bu_spec (u sm1 : list T) :
  (max_D1D * max_D1D * max_Q1D <= length sm1)%nat ->
  (forall dz dy dx, (dz < D1D)%nat -> (dy < D1D)%nat -> (dx < D1D)%nat ->
     rd u (at3 max_D1D max_D1D dz dy dx) = x dx dy dz e) ->
  let r := SmemApplyT3D_Bu D1D Q1D max_D1D max_Q1D B u sm1 in
  length r = length sm1 /\
  forall dz dy qx, (dz < D1D)%nat -> (dy < D1D)%nat -> (qx < Q1D)%nat ->
    rd r (at3 max_D1D max_Q1D dz dy qx) = m3_Bu D1D B Xe dz dy qx.
Proof.
  intros HL Hu r. unfold r, SmemApplyT3D_Bu. cbv zeta.
  split; [len_solve|]. intros dz dy qx Hdz Hdy Hqx.
  eapply eq_trans; [apply set3_rd with (addr := at3 max_D1D max_Q1D); idx_solve|].
  apply sum_ext; intros. now rewrite Hu.
Qed.

Lemma SmemApplyT3D_BBu_spec (Bu sm0 : list T) :
  (max_D1D * max_Q1D * max_Q1D <= length sm0)%nat ->
  (forall dz dy qx, (dz < D1D)%nat -> (dy < D1D)%nat -> (qx < Q1D)%nat ->
     rd Bu (at3 max_D1D max_Q1D dz dy qx) = m3_Bu D1D B Xe dz dy qx) ->
  let r := SmemApplyT3D_BBu D1D Q1D max_D1D max_Q1D B Bu sm0 in
  length r = length sm0 /\
  forall dz qy qx, (dz < D1D)%nat -> (qy < Q1D)%nat -> (qx < Q1D)%nat ->
    rd r (at3 max_Q1D max_Q1D dz qy qx) = m3_BBu D1D B Xe dz qy qx.
Proof.
  intros HL HB r. unfold r, SmemApplyT3D_BBu. cbv zeta.
  split; [len_solve|]. intros dz qy qx Hdz Hqy Hqx.
  eapply eq_trans;
    [apply set3_rd with (addr := fun dz qx qy => at3 max_Q1D max_Q1D dz qy qx);
     idx_solve|].
  apply sum_ext; intros. now rewrite HB.
Qed.

Lemma SmemApplyT3D_BBBu_spec (BBu sm1 : list T) :
  (max_Q1D * max_Q1D * max_Q1D <= length sm1)%nat ->
  (forall dz qy qx, (dz < D1D)%nat -> (qy < Q1D)%nat -> (qx < Q1D)%nat ->
     rd BBu (at3 max_Q1D max_Q1D dz qy qx) = m3_BBu D1D B Xe dz qy qx) ->
  let r := SmemApplyT3D_BBBu D1D Q1D max_Q1D B BBu sm1 in
  length r = length sm1 /\
  forall qz qy qx, (qz < Q1D)%nat -> (qy < Q1D)%nat -> (qx < Q1D)%nat ->
    rd r (at3 max_Q1D max_Q1D qz qy qx) = m3_BBBu D1D B Xe qz qy qx.
Proof.
  intros HL HB r. unfold r, SmemApplyT3D_BBBu. cbv zeta.
  split; [len_solve|]. intros qz qy qx Hqz Hqy Hqx.
  eapply eq_trans;
    [apply set3_rd with (addr := fun qx qy qz => at3 max_Q1D max_Q1D qz qy qx);
     idx_solve|].
  apply sum_ext; intros. now rewrite HB.
Qed.

Lemma SmemApplyT3D_DBu_spec (BBBu sm0 : list T) :
  (max_Q1D * max_Q1D * max_Q1D * 3 <= length sm0)%nat ->
  (forall qz qy qx, (qz < Q1D)%nat -> (qy < Q1D)%nat -> (qx < Q1D)%nat ->
     rd BBBu (at3 max_Q1D max_Q1D qz qy qx) = m3_BBBu D1D B Xe qz qy qx) ->
  let r := SmemApplyT3D_DBu Q1D max_Q1D op e BBBu sm0 in
  length r = length sm0 /\
  forall qz qy qx c, (qz < Q1D)%nat -> (qy < Q1D)%nat -> (qx < Q1D)%nat -> (c < 3)%nat ->
    rd r (at4 max_Q1D max_Q1D 3 qz qy qx c) = m3_DBu D1D B Oe Xe qz qy qx c.
Proof.
  intros HL HBB r. unfold r, SmemApplyT3D_DBu. cbv zeta.
  split; [len_solve|]. intros qz qy qx c Hqz Hqy Hqx Hc.
  eapply eq_trans;
    [apply set4_rd with (q := 3%nat) (addr := at4 max_Q1D max_Q1D 3)
       (val := fun qz qy qx c =>
                 op qx qy qz c e * rd BBBu (at3 max_Q1D max_Q1D qz qy qx));
     idx_solve|].
  unfold m3_DBu. now rewrite HBB.
Qed.

Lemma SmemApplyT3D_GDBu_spec (DBu sm1 : list T) :
  (max_D1D * max_Q1D * max_Q1D * 3 <= length sm1)%nat ->
  (forall qz qy qx c, (qz < Q1D)%nat -> (qy < Q1D)%nat -> (qx < Q1D)%nat -> (c < 3)%nat ->
     rd DBu (at4 max_Q1D max_Q1D 3 qz qy qx c) = m3_DBu D1D B Oe Xe qz qy qx c) ->
  let r := SmemApplyT3D_GDBu D1D Q1D max_Q1D Bt Gt DBu sm1 in
  length r = length sm1 /\
  forall dz qy qx c, (dz < D1D)%nat -> (qy < Q1D)%nat -> (qx < Q1D)%nat -> (c < 3)%nat ->
    rd r (at4 max_Q1D max_Q1D 3 dz qy qx c)
    = m3_GDBu D1D Q1D B Bt Gt Oe Xe dz qy qx c.
Proof.
  intros HL HDB r.
  assert (E : r = for_loop Q1D (fun qx b => for_loop Q1D (fun qy b =>
                  for_loop D1D (fun dz b => for_loop 3 (fun c b =>
                    upd b (at4 max_Q1D max_Q1D 3 dz qy qx c)
                        (match c with
                         | 0 => sum Q1D (fun qz =>
                                  Bt dz qz * rd DBu (at4 max_Q1D max_Q1D 3 qz qy qx 0))
                         | 1 => sum Q1D (fun qz =>
                                  Bt dz qz * rd DBu (at4 max_Q1D max_Q1D 3 qz qy qx 1))
                         | _ => sum Q1D (fun qz =>
                                  Gt dz qz * rd DBu (at4 max_Q1D max_Q1D 3 qz qy qx 2))
                         end)) b) b) b) sm1).
  { unfold r, SmemApplyT3D_GDBu. do 3 (apply for_loop_ext; intros).
    cbv zeta. eapply eq_trans; [eapply let_triple_eq; apply acc3z|]. reflexivity. }
  rewrite E. split; [len_solve|]. intros dz qy qx c Hdz Hqy Hqx Hc.
  eapply eq_trans;
    [apply set4_rd with (q := 3%nat)
       (addr := fun qx qy dz c => at4 max_Q1D max_Q1D 3 dz qy qx c); idx_solve|].
  destruct c as [|[|[|c]]]; [| | |lia]; cbn [m3_GDBu];
    apply sum_ext; intros; now rewrite HDB by lia.
Qed.

Lemma SmemApplyT3D_GGDBu_spec (GDBu sm0 : list T) :
  (max_D1D * max_D1D * max_Q1D * 3 <= length sm0)%nat ->
  (forall dz qy qx c, (dz < D1D)%nat -> (qy < Q1D)%nat -> (qx < Q1D)%nat -> (c < 3)%nat ->
     rd GDBu (at4 max_Q1D max_Q1D 3 dz qy qx c)
     = m3_GDBu D1D Q1D B Bt Gt Oe Xe dz qy qx c) ->
  let r := SmemApplyT3D_GGDBu D1D Q1D max_D1D max_Q1D Bt Gt GDBu sm0 in
  length r = length sm0 /\
  forall dz dy qx c, (dz < D1D)%nat -> (dy < D1D)%nat -> (qx < Q1D)%nat -> (c < 3)%nat ->
    rd r (at4 max_D1D max_Q1D 3 dz dy qx c)
    = m3_GGDBu D1D Q1D B Bt Gt Oe Xe dz dy qx c.
Proof.
  intros HL HGD r.
  assert (E : r = for_loop D1D (fun dz b => for_loop Q1D (fun qx b =>
                  for_loop D1D (fun dy b => for_loop 3 (fun c b =>
                    upd b (at4 max_D1D max_Q1D 3 dz dy qx c)
                        (match c with
                         | 0 => sum Q1D (fun qy =>
                                  Bt dy qy * rd GDBu (at4 max_Q1D max_Q1D 3 dz qy qx 0))
                         | 1 => sum Q1D (fun qy =>
                                  Gt dy qy * rd GDBu (at4 max_Q1D max_Q1D 3 dz qy qx 1))
                         | _ => sum Q1D (fun qy =>
                                  Bt dy qy * rd GDBu (at4 max_Q1D max_Q1D 3 dz qy qx 2))
                         end)) b) b) b) sm0).
  { unfold r, SmemApplyT3D_GGDBu. do 3 (apply for_loop_ext; intros).
    cbv zeta. eapply eq_trans; [eapply let_triple_eq; apply acc3z|]. reflexivity. }
  rewrite E. split; [len_solve|]. intros dz dy qx c Hdz Hdy Hqx Hc.
  eapply eq_trans;
    [apply set4_rd with (q := 3%nat)
       (addr := fun dz qx dy c => at4 max_D1D max_Q1D 3 dz dy qx c); idx_solve|].
  destruct c as [|[|[|c]]]; [| | |lia]; cbn [m3_GGDBu];
    apply sum_ext; intros; now rewrite HGD by lia.
Qed.

Lemma SmemApplyT3D_local_spec dz dy qx c :
  (dz < D1D)%nat -> (dy < D1D)%nat -> (qx < Q1D)%nat -> (c < 3)%nat ->
  rd (SmemApplyT3D_local D1D Q1D max_D1D max_Q1D B Bt Gt op x e)
     (at4 max_D1D max_Q1D 3 dz dy qx c)
  = m3_GGDBu D1D Q1D B Bt Gt Oe Xe dz dy qx c.
Proof.
  unfold SmemApplyT3D_local. cbv zeta.
  set (M := if max_D1D <? max_Q1D then max_Q1D else max_D1D).
  assert (HMD : (max_D1D <= M)%nat)
    by (unfold M; destruct (Nat.ltb_spec max_D1D max_Q1D); lia).
  assert (HMQ : (max_Q1D <= M)%nat)
    by (unfold M; destruct (Nat.ltb_spec max_D1D max_Q1D); lia).
  assert (Lddd : (max_D1D * max_D1D * max_D1D <= M * M * M)%nat)
    by now apply prod3_le.
  assert (Lddq : (max_D1D * max_D1D * max_Q1D <= M * M * M)%nat)
    by now apply prod3_le.
  assert (Ldqq : (max_D1D * max_Q1D * max_Q1D <= M * M * M)%nat)
    by now apply prod3_le.
  assert (Lqqq : (max_Q1D * max_Q1D * max_Q1D <= M * M * M)%nat)
    by now apply prod3_le.
  pose proof (length_alloc (3 * M * M * M)) as LA.
  destruct (@SmemApplyT3D_u_spec (alloc (3 * M * M * M))) as [L0 H0]; [lia|].
  set (a0 := SmemApplyT3D_u D1D max_D1D x e (alloc (3 * M * M * M))) in *.
  destruct (@SmemApplyT3D_Bu_spec a0 (alloc (3 * M * M * M))) as [L1 H1];
    [lia|exact H0|].
  set (a1 := SmemApplyT3D_Bu D1D Q1D max_D1D max_Q1D B a0 _) in *.
  destruct (@SmemApplyT3D_BBu_spec a1 a0) as [L2 H2]; [lia|exact H1|].
  set (a2 := SmemApplyT3D_BBu D1D Q1D max_D1D max_Q1D B a1 a0) in *.
  destruct (@SmemApplyT3D_BBBu_spec a2 a1) as [L3 H3]; [lia|exact H2|].
  set (a3 := SmemApplyT3D_BBBu D1D Q1D max_Q1D B a2 a1) in *.
  destruct (@SmemApplyT3D_DBu_spec a3 a2) as [L4 H4]; [lia|exact H3|].
  set (a4 := SmemApplyT3D_DBu Q1D max_Q1D op e a3 a2) in *.
  destruct (@SmemApplyT3D_GDBu_spec a4 a3) as [L5 H5]; [lia|exact H4|].
  set (a5 := SmemApplyT3D_GDBu D1D Q1D max_Q1D Bt Gt a4 a3) in *.
  destruct (@SmemApplyT3D_GGDBu_spec a5 a4) as [L6 H6]; [lia|exact H5|].
  apply H6.
Qed.
End SmemApplyT3D_proof.

Theorem SmemPAConvectionApplyT3D_eq (T_D1D T_Q1D ne : nat)
        (b g bt gt op_ x_ y_ : list T) (d1d q1d : nat) :
  (tparam T_D1D d1d <= MAX_D1D)%nat -> (tparam T_Q1D q1d <= MAX_Q1D)%nat ->
  SmemPAConvectionApplyT3D T_D1D T_Q1D ne b g bt gt op_ x_ y_ d1d q1d
  = Some (add_elems3D ne (tparam T_D1D d1d)
            (ApplyT3D_val (tparam T_D1D d1d) (tparam T_Q1D q1d) b bt gt op_ x_) y_).
Proof.
  intros HD HQ. unfold SmemPAConvectionApplyT3D. cbv zeta. verify_ok.
  f_equal. unfold forall_3D, add_elems3D.
  apply for_loop_ext; intros e y0 He.
  apply for_loop_ext; intros dz y1 Hdz.
  apply for_loop_ext; intros dy y2 Hdy.
  apply for_loop_ext; intros dx y3 Hdx.
  do 2 f_equal. unfold ApplyT3D_val, convT3D.
  apply for_loop_ext; intros qx res Hqx.
  rewrite !SmemApplyT3D_local_spec by (auto using tparam_le). reflexivity.
Qed.

(** * Part VI. The dispatch layer *)

Lemma dispatch_key_lt16 (D1D Q1D : nat) :
  (Q1D < 16)%nat -> dispatch_key D1D Q1D = N.of_nat (16 * D1D + Q1D).
Proof.
  intros HQ. unfold dispatch_key.
  assert (HL : N.land (N.shiftl (N.of_nat D1D) 4) (N.of_nat Q1D) = 0%N).
  { apply N.bits_inj; intros n. rewrite N.land_spec, N.bits_0.
    destruct (N.lt_ge_cases n 4) as [Hn|Hn].
    - rewrite N.shiftl_spec_low by assumption. reflexivity.
    - replace (N.of_nat Q1D) with (N.of_nat Q1D mod 2 ^ 4)%N
        by (apply N.mod_small; change (2 ^ 4)%N with 16%N; lia).
      rewrite N.mod_pow2_bits_high by assumption. apply andb_false_r. }
  rewrite <- N.lxor_lor, <- N.add_nocarry_lxor by assumption.
  rewrite N.shiftl_mul_pow2. change (2 ^ 4)%N with 16%N. lia.
Qed.

Ltac split_key k :=
  repeat match goal with
         | |- context [match k with _ => _ end] => destruct k
         | |- context [match ?p with _ => _ end] => is_var p; destruct p
         end.

Section Dispatch.
Variables D1D Q1D NE : nat.
Variables b g bt gt op_ x_ y_ : list T.
Hypothesis HD : (D1D <= MAX_D1D)%nat.
Hypothesis HQ : (Q1D <= MAX_Q1D)%nat.
Hypothesis HK : (Q1D < 16)%nat.

Theorem PAConvectionApply_2D_eq :
  PAConvectionApply 2 D1D Q1D NE b g bt gt op_ x_ y_
  = Some (add_elems2D NE D1D (Apply2D_val D1D Q1D b g bt op_ x_) y_).
Proof.
  unfold PAConvectionApply. cbn [Nat.eqb]. rewrite dispatch_key_lt16 by assumption.
  remember (N.of_nat (16 * D1D + Q1D)) as k eqn:Ek.
  split_key k;
    lazymatch goal with
    | |- SmemPAConvectionApply2D ?d ?q _ _ _ _ _ _ _ _ _ _ _ = _ =>
        assert (D1D = d) by lia; assert (Q1D = q) by lia; subst D1D Q1D;
        apply SmemPAConvectionApply2D_eq; assumption
    | |- PAConvectionApply2D _ _ _ _ _ _ _ _ _ _ _ _ = _ =>
        apply PAConvectionApply2D_eq; assumption
    end.
Qed.

Theorem PAConvectionApply_3D_eq :
  PAConvectionApply 3 D1D Q1D NE b g bt gt op_ x_ y_
  = Some (add_elems3D NE D1D (Apply3D_val D1D Q1D b g bt op_ x_) y_).
Proof.
  unfold PAConvectionApply. cbn [Nat.eqb]. rewrite dispatch_key_lt16 by assumption.
  remember (N.of_nat (16 * D1D + Q1D)) as k eqn:Ek.
  split_key k;
    lazymatch goal with
    | |- SmemPAConvectionApply3D ?d ?q _ _ _ _ _ _ _ _ _ _ = _ =>
        assert (D1D = d) by lia; assert (Q1D = q) by lia; subst D1D Q1D;
        apply SmemPAConvectionApply3D_eq; assumption
    | |- PAConvectionApply3D _ _ _ _ _ _ _ _ _ _ _ _ = _ =>
        apply PAConvectionApply3D_eq; assumption
    end.
Qed.

Theorem PAConvectionApplyT_2D_eq :
  PAConvectionApplyT 2 D1D Q1D NE b g bt gt op_ x_ y_
  = Some (add_elems2D NE D1D (ApplyT2D_val D1D Q1D b bt gt op_ x_) y_).
Proof.
  unfold PAConvectionApplyT. cbn [Nat.eqb]. rewrite dispatch_key_lt16 by assumption.
  remember (N.of_nat (16 * D1D + Q1D)) as k eqn:Ek.
  split_key k;
    lazymatch goal with
    | |- SmemPAConvectionApplyT2D ?d ?q _ _ _ _ _ _ _ _ _ _ _ = _ =>
        assert (D1D = d) by lia; assert (Q1D = q) by lia; subst D1D Q1D;
        apply SmemPAConvectionApplyT2D_eq; assumption
    | |- PAConvectionApplyT2D _ _ _ _ _ _ _ _ _ _ _ _ = _ =>
        apply PAConvectionApplyT2D_eq; assumption
    end.
Qed.

Theorem PAConvectionApplyT_3D_eq :
  PAConvectionApplyT 3 D1D Q1D NE b g bt gt op_ x_ y_
  = Some (add_elems3D NE D1D (ApplyT3D_val D1D Q1D b bt gt op_ x_) y_).
Proof.
  unfold PAConvectionApplyT. cbn [Nat.eqb]. rewrite dispatch_key_lt16 by assumption.
  remember (N.of_nat (16 * D1D + Q1D)) as k eqn:Ek.
  split_key k;
    lazymatch goal with
    | |- SmemPAConvectionApplyT3D ?d ?q _ _ _ _ _ _ _ _ _ _ = _ =>
        assert (D1D = d) by lia; assert (Q1D = q) by lia; subst D1D Q1D;
        apply SmemPAConvectionApplyT3D_eq; assumption
    | |- PAConvectionApplyT3D _ _ _ _ _ _ _ _ _ _ _ _ = _ =>
        apply PAConvectionApplyT3D_eq; assumption
    end.
Qed.
End Dispatch.

(** * Part VII. Algebra of the element operators *)

(** Moving a one-dimensional table to the other side of a pairing. *)
Lemma transfer (n m : nat) (Mt M : nat -> nat -> T) (f g : nat -> T) :
  (forall d q, (d < n)%nat -> (q < m)%nat -> Mt d q = M q d) ->
  sum n (fun d => sum m (fun q => Mt d q * f q) * g d)
  = sum m (fun q => f q * sum n (fun d => M q d * g d)).
Proof.
  intros HM.
  transitivity (sum n (fun d => sum m (fun q => f q * (M q d * g d)))).
  - apply sum_ext; intros d Hd. rewrite sum_mul_r.
    apply sum_ext; intros q Hq. rewrite HM by assumption. ring.
  - rewrite sum_swap. apply sum_ext; intros q Hq. now rewrite sum_mul_l.
Qed.

Lemma transfer' (n m : nat) (Mt M : nat -> nat -> T) (f g : nat -> T) :
  (forall d q, (d < n)%nat -> (q < m)%nat -> Mt d q = M q d) ->
  sum n (fun d => g d * sum m (fun q => Mt d q * f q))
  = sum m (fun q => f q * sum n (fun d => M q d * g d)).
Proof.
  intros HM. rewrite <- (transfer Mt M f g HM).
  apply sum_ext; intros. ring.
Qed.

Section Adjoint2D.
Variables D Q : nat.
Variables B G Bt Gt : nat -> nat -> T.
Variable O : nat -> nat -> nat -> T.
Variables P R : nat -> nat -> T.
Hypothesis HB : forall d q, (d < D)%nat -> (q < Q)%nat -> Bt d q = B q d.
Hypothesis HG : forall d q, (d < D)%nat -> (q < Q)%nat -> Gt d q = G q d.

(** Both sides of the adjoint identity are the pairing, at the quadrature
    points, of the interpolated [R] with the directional derivative of
    [P]. *)
Local Abbreviation pairing := (pairing2D D Q B G O P R).

Lemma conv2D_pairing :
  sum D (fun dy => sum D (fun dx => conv2D D Q B G Bt O P dx dy * R dx dy))
  = pairing.
Proof.
  unfold pairing2D, conv2D.
  transitivity (sum D (fun dy => sum Q (fun qx =>
                  m2_BDGu D Q B G Bt O P dy qx * m2_Bu D B R dy qx))).
  { apply sum_ext; intros dy Hdy.
    apply (transfer Bt B (fun qx => m2_BDGu D Q B G Bt O P dy qx)
                    (fun dx => R dx dy) HB). }
  rewrite sum_swap. apply sum_ext; intros qx Hqx. unfold m2_BDGu.
  apply (transfer Bt B (fun qy => m2_DGu D B G O P qy qx)
                  (fun dy => m2_Bu D B R dy qx) HB).
Qed.

Lemma convT2D_pairing :
  sum D (fun dy => sum D (fun dx => P dx dy * convT2D D Q B Bt Gt O R dx dy))
  = pairing.
Proof.
  unfold pairing2D, convT2D.
  transitivity (sum D (fun dy =>
      sum Q (fun qx => m2_GDBu D Q B Bt Gt O R dy qx 0 * m2_Gu D G P dy qx)
      + sum Q (fun qx => m2_GDBu D Q B Bt Gt O R dy qx 1 * m2_Bu D B P dy qx))).
  { apply sum_ext; intros dy Hdy. unfold m2_Gu, m2_Bu.
    rewrite <- (transfer' Gt G (fun qx => m2_GDBu D Q B Bt Gt O R dy qx 0)
                          (fun dx => P dx dy) HG).
    rewrite <- (transfer' Bt B (fun qx => m2_GDBu D Q B Bt Gt O R dy qx 1)
                          (fun dx => P dx dy) HB).
    rewrite <- sum_plus. apply sum_ext; intros dx Hdx.
    rewrite sum_plus. ring. }
  rewrite sum_plus, !(sum_swap D Q), <- sum_plus.
  apply sum_ext; intros qx Hqx.
  cbn [m2_GDBu].
  rewrite (transfer Bt B (fun qy => m2_DBu D B O R qy qx 0)
                    (fun dy => m2_Gu D G P dy qx) HB).
  rewrite (transfer Gt G (fun qy => m2_DBu D B O R qy qx 1)
                    (fun dy => m2_Bu D B P dy qx) HG).
  rewrite <- sum_plus. apply sum_ext; intros qy Hqy.
  unfold m2_DBu, m2_DGu, m2_BGu, m2_GBu. ring.
Qed.

Lemma adjoint2D :
  sum D (fun dy => sum D (fun dx => conv2D D Q B G Bt O P dx dy * R dx dy))
  = sum D (fun dy => sum D (fun dx => P dx dy * convT2D D Q B Bt Gt O R dx dy)).
Proof. now rewrite conv2D_pairing, convT2D_pairing. Qed.
End Adjoint2D.

Lemma sum3_plus (n m l : nat) (f g : nat -> nat -> nat -> T) :
  sum n (fun i => sum m (fun j => sum l (fun k => f i j k + g i j k)))
  = sum n (fun i => sum m (fun j => sum l (fun k => f i j k)))
    + sum n (fun i => sum m (fun j => sum l (fun k => g i j k))).
Proof.
  rewrite <- sum_plus. apply sum_ext; intros i Hi.
  rewrite <- sum_plus. apply sum_ext; intros j Hj.
  apply sum_plus.
Qed.

(** Three tables moved at once, one per axis. *)
Lemma transfer3 (D Q : nat) (M1t M1 M2t M2 M3t M3 : nat -> nat -> T)
      (F U : nat -> nat -> nat -> T) :
  (forall d q, (d < D)%nat -> (q < Q)%nat -> M1t d q = M1 q d) ->
  (forall d q, (d < D)%nat -> (q < Q)%nat -> M2t d q = M2 q d) ->
  (forall d q, (d < D)%nat -> (q < Q)%nat -> M3t d q = M3 q d) ->
  sum D (fun dz => sum D (fun dy => sum D (fun dx =>
    U dx dy dz
    * sum Q (fun qx => M1t dx qx
        * sum Q (fun qy => M2t dy qy
            * sum Q (fun qz => M3t dz qz * F qz qy qx))))))
  = sum Q (fun qx => sum Q (fun qy => sum Q (fun qz =>
      F qz qy qx
      * sum D (fun dz => M3 qz dz
          * sum D (fun dy => M2 qy dy
              * sum D (fun dx => M1 qx dx * U dx dy dz)))))).
Proof.
  intros H1 H2 H3.
  transitivity (sum D (fun dz => sum D (fun dy => sum Q (fun qx =>
    sum Q (fun qy => M2t dy qy * sum Q (fun qz => M3t dz qz * F qz qy qx))
    * sum D (fun dx => M1 qx dx * U dx dy dz))))).
  { apply sum_ext; intros dz Hdz. apply sum_ext; intros dy Hdy.
    apply (transfer' M1t M1
             (fun qx => sum Q (fun qy => M2t dy qy
                          * sum Q (fun qz => M3t dz qz * F qz qy qx)))
             (fun dx => U dx dy dz) H1). }
  transitivity (sum D (fun dz => sum Q (fun qx => sum Q (fun qy =>
    sum Q (fun qz => M3t dz qz * F qz qy qx)
    * sum D (fun dy => M2 qy dy * sum D (fun dx => M1 qx dx * U dx dy dz)))))).
  { apply sum_ext; intros dz Hdz. rewrite sum_swap.
    apply sum_ext; intros qx Hqx.
    apply (transfer M2t M2
             (fun qy => sum Q (fun qz => M3t dz qz * F qz qy qx))
             (fun dy => sum D (fun dx => M1 qx dx * U dx dy dz)) H2). }
  rewrite sum_swap. apply sum_ext; intros qx Hqx.
  rewrite sum_swap. apply sum_ext; intros qy Hqy.
  apply (transfer M3t M3 (fun qz => F qz qy qx)
           (fun dz => sum D (fun dy => M2 qy dy
                        * sum D (fun dx => M1 qx dx * U dx dy dz))) H3).
Qed.

(** The three additions per quadrature point of the last loop of the 3D
    transpose kernels, as one sum. *)
Lemma convT3D_sum (D Q : nat) (B Bt Gt : nat -> nat -> T)
      (O : nat -> nat -> nat -> nat -> T) (X : nat -> nat -> nat -> T)
      (dx dy dz : nat) :
  convT3D D Q B Bt Gt O X dx dy dz
  = sum Q (fun qx => Gt dx qx * m3_GGDBu D Q B Bt Gt O X dz dy qx 0
                     + Bt dx qx * m3_GGDBu D Q B Bt Gt O X dz dy qx 1
                     + Bt dx qx * m3_GGDBu D Q B Bt Gt O X dz dy qx 2).
Proof. apply acc_3terms. Qed.

Section Adjoint3D.
Variables D Q : nat.
Variables B G Bt Gt : nat -> nat -> T.
Variable O : nat -> nat -> nat -> nat -> T.
Variables P R : nat -> nat -> nat -> T.
Hypothesis HB : forall d q, (d < D)%nat -> (q < Q)%nat -> Bt d q = B q d.
Hypothesis HG : forall d q, (d < D)%nat -> (q < Q)%nat -> Gt d q = G q d.

Local Abbreviation pairing := (pairing3D D Q B G O P R).

Lemma conv3D_pairing :
  sum D (fun dz => sum D (fun dy => sum D (fun dx =>
    conv3D D Q B G Bt O P dx dy dz * R dx dy dz)))
  = pairing.
Proof.
  transitivity (sum D (fun dz => sum D (fun dy => sum D (fun dx =>
    R dx dy dz * conv3D D Q B G Bt O P dx dy dz)))).
  { do 3 (apply sum_ext; intros). ring. }
  exact (transfer3 Bt B Bt B Bt B (m3_DGu D B G O P) R HB HB HB).
Qed.

Lemma convT3D_pairing :
  sum D (fun dz => sum D (fun dy => sum D (fun dx =>
    P dx dy dz * convT3D D Q B Bt Gt O R dx dy dz)))
  = pairing.
Proof.
  pose proof (transfer3 Gt G Bt B Bt B
                (fun qz qy qx => m3_DBu D B O R qz qy qx 0) P HG HB HB) as E0.
  pose proof (transfer3 Bt B Gt G Bt B
                (fun qz qy qx => m3_DBu D B O R qz qy qx 1) P HB HG HB) as E1.
  pose proof (transfer3 Bt B Bt B Gt G
                (fun qz qy qx => m3_DBu D B O R qz qy qx 2) P HB HB HG) as E2.
  transitivity (
    sum D (fun dz => sum D (fun dy => sum D (fun dx =>
      P dx dy dz * sum Q (fun qx => Gt dx qx * m3_GGDBu D Q B Bt Gt O R dz dy qx 0))))
    + sum D (fun dz => sum D (fun dy => sum D (fun dx =>
      P dx dy dz * sum Q (fun qx => Bt dx qx * m3_GGDBu D Q B Bt Gt O R dz dy qx 1))))
    + sum D (fun dz => sum D (fun dy => sum D (fun dx =>
      P dx dy dz * sum Q (fun qx => Bt dx qx * m3_GGDBu D Q B Bt Gt O R dz dy qx 2))))).
  { rewrite <- !sum3_plus. do 3 (apply sum_ext; intros).
    rewrite convT3D_sum, !sum_plus. ring. }
  cbn [m3_GGDBu m3_GDBu].
  etransitivity; [apply f_equal2; [apply f_equal2|]; [exact E0|exact E1|exact E2]|].
  unfold pairing3D. rewrite <- !sum3_plus.
  do 3 (apply sum_ext; intros).
  unfold m3_DBu, m3_DGu, m3_BBGu, m3_BGBu, m3_GBBu, m3_BGu, m3_GBu, m3_BBu,
         m3_Gu, m3_Bu.
  ring.
Qed.

Lemma adjoint3D :
  sum D (fun dz => sum D (fun dy => sum D (fun dx =>
    conv3D D Q B G Bt O P dx dy dz * R dx dy dz)))
  = sum D (fun dz => sum D (fun dy => sum D (fun dx =>
      P dx dy dz * convT3D D Q B Bt Gt O R dx dy dz))).
Proof. now rewrite conv3D_pairing, convT3D_pairing. Qed.
End Adjoint3D.

(** * Part VIII. What the final loops do to [y] *)

Local Close Scope scalar_scope.

Lemma Reshape3_surj (N1 N2 N3 a : nat) :
  a < N1 * N2 * N3 ->
  exists i j k, i < N1 /\ j < N2 /\ k < N3 /\ a = Reshape3 N1 N2 i j k.
Proof.
  intros Ha.
  assert (H1 : N1 <> 0) by (intros ->; lia).
  assert (H2 : N2 <> 0) by (intros ->; lia).
  exists (a mod N1), ((a / N1) mod N2), (a / N1 / N2).
  split; [now apply Nat.mod_upper_bound|].
  split; [now apply Nat.mod_upper_bound|].
  split.
  - apply Nat.Div0.div_lt_upper_bound, Nat.Div0.div_lt_upper_bound. lia.
  - unfold Reshape3.
    rewrite (Nat.add_comm ((a / N1) mod N2)), <- Nat.div_mod_eq.
    rewrite Nat.add_comm. apply Nat.div_mod_eq.
Qed.

Lemma for_loop_id (S : Type) (n : nat) (body : nat -> S -> S) (s : S) :
  (forall i s', i < n -> body i s' = s') -> for_loop n body s = s.
Proof.
  induction n as [|n IH]; intros H; simpl; [reflexivity|].
  rewrite IH by (intros; apply H; lia). apply H; lia.
Qed.

Local Open Scope scalar_scope.

Lemma add_elems2D_spec (NE D : nat) (val : nat -> nat -> nat -> T) (y : list T) :
  (D * D * NE <= length y)%nat ->
  length (add_elems2D NE D val y) = length y /\
  (forall e dx dy, (e < NE)%nat -> (dx < D)%nat -> (dy < D)%nat ->
     rd (add_elems2D NE D val y) (Reshape3 D D dx dy e)
     = rd y (Reshape3 D D dx dy e) + val e dx dy) /\
  (forall a, (D * D * NE <= a)%nat -> rd (add_elems2D NE D val y) a = rd y a).
Proof.
  intros HL.
  destruct (@fill3 (sadd K) (length y) NE D D
              (fun e dx dy => Reshape3 D D dx dy e) val) with (buf := y)
    as (H1 & H2 & H3).
  - intros e dx dy He Hdx Hdy.
    eapply Nat.lt_le_trans; [apply Reshape3_lt; eassumption|exact HL].
  - intros e dx dy e' dx' dy' He Hdx Hdy He' Hdx' Hdy' E.
    apply Reshape3_inj in E; [|assumption..]. close_conj.
  - reflexivity.
  - split; [exact H1|]. split.
    + intros e dx dy He Hdx Hdy. apply H2. exists e, dx, dy. close_conj.
    + intros a Ha. apply H3. intros v (e & dx & dy & He & Hdx & Hdy & -> & _).
      pose proof (@Reshape3_lt D D NE dx dy e Hdx Hdy He). lia.
Qed.

Lemma add_elems3D_spec (NE D : nat) (val : nat -> nat -> nat -> nat -> T)
      (y : list T) :
  (D * D * D * NE <= length y)%nat ->
  length (add_elems3D NE D val y) = length y /\
  (forall e dx dy dz, (e < NE)%nat -> (dx < D)%nat -> (dy < D)%nat -> (dz < D)%nat ->
     rd (add_elems3D NE D val y) (Reshape4 D D D dx dy dz e)
     = rd y (Reshape4 D D D dx dy dz e) + val e dx dy dz) /\
  (forall a, (D * D * D * NE <= a)%nat -> rd (add_elems3D NE D val y) a = rd y a).
Proof.
  intros HL.
  destruct (@fill4 (sadd K) (length y) NE D D D
              (fun e dz dy dx => Reshape4 D D D dx dy dz e)
              (fun e dz dy dx => val e dx dy dz)) with (buf := y)
    as (H1 & H2 & H3).
  - intros e dz dy dx He Hdz Hdy Hdx.
    eapply Nat.lt_le_trans; [apply Reshape4_lt; eassumption|exact HL].
  - intros e dz dy dx e' dz' dy' dx' He Hdz Hdy Hdx He' Hdz' Hdy' Hdx' E.
    apply Reshape4_inj in E; [|assumption..]. close_conj.
  - reflexivity.
  - split; [exact H1|]. split.
    + intros e dx dy dz He Hdx Hdy Hdz. apply H2. exists e, dz, dy, dx. close_conj.
    + intros a Ha. apply H3.
      intros v (e & dz & dy & dx & He & Hdz & Hdy & Hdx & -> & _).
      pose proof (@Reshape4_lt D D D NE dx dy dz e Hdx Hdy Hdz He). lia.
Qed.



(** * Part IX. The Setup kernels in closed form *)

Lemma PAConvectionSetup2D_nest (NQ NE : nat) (w j vel : list T) (alpha : T)
      (op : list T) :
  PAConvectionSetup2D NQ NE w j vel alpha op
  = for_loop NE (fun e => for_loop NQ (fun q => for_loop 2 (fun c b =>
      upd b (Reshape3 NQ 2 q c e) (Setup2D_entry NQ w j vel alpha e q c)))) op.
Proof.
  unfold PAConvectionSetup2D, forall_. rewrite for_loop_flat.
  apply for_loop_ext; intros t s Ht. cbn [for_loop]. cbv zeta.
  unfold Setup2D_entry, weighted_velocity, velocity, jac.
  destruct (length vel =? 2); reflexivity.
Qed.

Lemma PAConvectionSetup3D_nest (NQ NE : nat) (w j vel : list T) (alpha : T)
      (op : list T) :
  PAConvectionSetup3D NQ NE w j vel alpha op
  = for_loop NE (fun e => for_loop NQ (fun q => for_loop 3 (fun c b =>
      upd b (Reshape3 NQ 3 q c e) (Setup3D_entry NQ w j vel alpha e q c)))) op.
Proof.
  unfold PAConvectionSetup3D, forall_. rewrite for_loop_flat.
  apply for_loop_ext; intros t s Ht. cbn [for_loop]. cbv zeta.
  unfold Setup3D_entry, weighted_velocity, velocity, jac.
  destruct (length vel =? 3); reflexivity.
Qed.

Section SetupNest.
Variables DIM NQ NE : nat.
Variable val : nat -> nat -> nat -> T.

Local Abbreviation nest :=
  (for_loop NE (fun e => for_loop NQ (fun q => for_loop DIM (fun c b =>
     upd b (Reshape3 NQ DIM q c e) (val e q c))))).

Lemma setup_nest_spec (op : list T) :
  (NQ * DIM * NE <= length op)%nat ->
  length (nest op) = length op /\
  (forall e q c, (e < NE)%nat -> (q < NQ)%nat -> (c < DIM)%nat ->
                 rd (nest op) (Reshape3 NQ DIM q c e) = val e q c) /\
  (forall a, (NQ * DIM * NE <= a)%nat -> rd (nest op) a = rd op a).
Proof.
  intros HL.
  destruct (@fill3 (fun _ v => v) (length op) NE NQ DIM
              (fun e q c => Reshape3 NQ DIM q c e) val) with (buf := op)
    as (H1 & H2 & H3).
  - intros e q c He Hq Hc.
    eapply Nat.lt_le_trans; [apply Reshape3_lt; eassumption|exact HL].
  - intros e q c e' q' c' He Hq Hc He' Hq' Hc' E.
    apply Reshape3_inj in E; [|assumption..]. close_conj.
  - reflexivity.
  - split; [exact H1|]. split.
    + intros e q c He Hq Hc. apply H2. exists e, q, c. close_conj.
    + intros a Ha. apply H3. intros v (e & q & c & He & Hq & Hc & -> & _).
      pose proof (@Reshape3_lt NQ DIM NE q c e Hq Hc He). lia.
Qed.


Lemma setup_nest_indep (op1 op2 : list T) :
  length op1 = (NQ * DIM * NE)%nat -> length op2 = length op1 ->
  nest op1 = nest op2.
Proof.
  intros H1 H2.
  destruct (setup_nest_spec op1) as (L1 & R1 & _); [lia|].
  destruct (setup_nest_spec op2) as (L2 & R2 & _); [lia|].
  apply rd_ext; [congruence|].
  intros a Ha. rewrite L1, H1 in Ha.
  destruct (Reshape3_surj _ _ _ Ha) as (q & c & e & Hq & Hc & He & ->).
  now rewrite R1, R2.
Qed.
End SetupNest.

(** The code's 2x2 and 3x3 expressions are the adjugate applied to the
    weighted velocity, and the adjugate is [det(J) J^{-1}]. *)
Lemma Setup2D_entry_adj (NQ : nat) (w j vel : list T) (alpha : T) (e q c : nat) :
  (c < 2)%nat ->
  Setup2D_entry NQ w j vel alpha e q c
  = matvec 2 (adj2 (jac NQ 2 j q e)) (weighted_velocity 2 NQ w vel alpha q e) c.
Proof.
  intros Hc. destruct c as [|[|c]]; [| |lia];
    unfold Setup2D_entry, matvec, adj2, cofactor2, sum; cbn; ring.
Qed.

Lemma Setup3D_entry_adj (NQ : nat) (w j vel : list T) (alpha : T) (e q c : nat) :
  (c < 3)%nat ->
  Setup3D_entry NQ w j vel alpha e q c
  = matvec 3 (adj3 (jac NQ 3 j q e)) (weighted_velocity 3 NQ w vel alpha q e) c.
Proof.
  intros Hc. destruct c as [|[|[|c]]]; [| | |lia];
    unfold Setup3D_entry, matvec, adj3, cofactor3, sum; cbn; ring.
Qed.

Lemma Setup3D_entry_A (NQ : nat) (w j vel : list T) (alpha : T) (e q c : nat) :
  (c < 3)%nat ->
  Setup3D_entry NQ w j vel alpha e q c
  = weighted_velocity 3 NQ w vel alpha q e 0 * Setup3D_A (jac NQ 3 j q e) c 0
    + weighted_velocity 3 NQ w vel alpha q e 1 * Setup3D_A (jac NQ 3 j q e) c 1
    + weighted_velocity 3 NQ w vel alpha q e 2 * Setup3D_A (jac NQ 3 j q e) c 2.
Proof.
  intros Hc. destruct c as [|[|[|c]]]; [reflexivity|reflexivity|reflexivity|lia].
Qed.

Lemma Setup3D_A_adj (J : nat -> nat -> T) (r c : nat) :
  (r < 3)%nat -> (c < 3)%nat -> Setup3D_A J r c = adj3 J r c.
Proof.
  intros Hr Hc.
  destruct r as [|[|[|r]]]; [| | |lia]; destruct c as [|[|[|c]]]; try lia;
    unfold Setup3D_A, adj3, cofactor3; cbn; ring.
Qed.

Lemma adj2_inverse (J : nat -> nat -> T) (r c : nat) :
  (r < 2)%nat -> (c < 2)%nat ->
  sum 2 (fun k => adj2 J r k * J k c) = if r =? c then det2 J else zero.
Proof.
  intros Hr Hc.
  destruct r as [|[|r]]; [| |lia]; destruct c as [|[|c]]; try lia;
    unfold adj2, cofactor2, det2, sum; cbn; ring.
Qed.

Lemma adj3_inverse (J : nat -> nat -> T) (r c : nat) :
  (r < 3)%nat -> (c < 3)%nat ->
  sum 3 (fun k => adj3 J r k * J k c) = if r =? c then det3 J else zero.
Proof.
  intros Hr Hc.
  destruct r as [|[|[|r]]]; [| | |lia]; destruct c as [|[|[|c]]]; try lia;
    unfold det3, adj3, cofactor3, sum; cbn; ring.
Qed.

(** * Part X. The result of a call on the whole vector *)

Local Close Scope scalar_scope.

Lemma decode_step (D a k : nat) :
  a < D -> (a + D * k) mod D = a /\ (a + D * k) / D = k.
Proof.
  intros Ha. rewrite (Nat.mul_comm D k). split.
  - rewrite Nat.Div0.mod_add. now apply Nat.mod_small.
  - rewrite Nat.div_add by lia. rewrite Nat.div_small by assumption. reflexivity.
Qed.

Lemma ndofs_2 (NE D : nat) : ndofs 2 NE D = NE * D * D.
Proof. unfold ndofs. simpl. lia. Qed.

Lemma ndofs_3 (NE D : nat) : ndofs 3 NE D = NE * D * D * D.
Proof. unfold ndofs. simpl. lia. Qed.

Lemma Reshape4_surj (N1 N2 N3 N4 a : nat) :
  a < N1 * N2 * N3 * N4 ->
  exists i j k l, i < N1 /\ j < N2 /\ k < N3 /\ l < N4 /\
                  a = Reshape4 N1 N2 N3 i j k l.
Proof.
  intros Ha.
  assert (H1 : N1 <> 0) by (intros ->; lia).
  assert (H2 : N2 <> 0) by (intros ->; lia).
  assert (H3 : N3 <> 0) by (intros ->; lia).
  exists (a mod N1), ((a / N1) mod N2), ((a / N1 / N2) mod N3), (a / N1 / N2 / N3).
  split; [now apply Nat.mod_upper_bound|].
  split; [now apply Nat.mod_upper_bound|].
  split; [now apply Nat.mod_upper_bound|].
  split.
  - do 3 apply Nat.Div0.div_lt_upper_bound. lia.
  - unfold Reshape4.
    rewrite (Nat.add_comm ((a / N1 / N2) mod N3)), <- Nat.div_mod_eq.
    rewrite (Nat.add_comm ((a / N1) mod N2)), <- Nat.div_mod_eq.
    rewrite Nat.add_comm. apply Nat.div_mod_eq.
Qed.

Local Open Scope scalar_scope.

Lemma blockfun2_Reshape3 (D : nat) (val : nat -> nat -> nat -> T) (dx dy e : nat) :
  (dx < D)%nat -> (dy < D)%nat ->
  blockfun2 D val (Reshape3 D D dx dy e) = val e dx dy.
Proof.
  intros Hx Hy. unfold blockfun2, Reshape3.
  destruct (@decode_step D dx (dy + D * e)%nat Hx) as [-> ->].
  destruct (@decode_step D dy e Hy) as [-> ->]. reflexivity.
Qed.

Lemma blockfun3_Reshape4 (D : nat) (val : nat -> nat -> nat -> nat -> T)
      (dx dy dz e : nat) :
  (dx < D)%nat -> (dy < D)%nat -> (dz < D)%nat ->
  blockfun3 D val (Reshape4 D D D dx dy dz e) = val e dx dy dz.
Proof.
  intros Hx Hy Hz. unfold blockfun3, Reshape4.
  destruct (@decode_step D dx (dy + D * (dz + D * e))%nat Hx) as [-> ->].
  destruct (@decode_step D dy (dz + D * e)%nat Hy) as [-> ->].
  destruct (@decode_step D dz e Hz) as [-> ->]. reflexivity.
Qed.

Lemma sum_blocks2 (NE D : nat) (f : nat -> T) :
  sum (NE * D * D) f
  = sum NE (fun e => sum D (fun dy => sum D (fun dx => f (Reshape3 D D dx dy e)))).
Proof.
  rewrite sum_flat, sum_flat. reflexivity.
Qed.

Lemma sum_blocks3 (NE D : nat) (f : nat -> T) :
  sum (NE * D * D * D) f
  = sum NE (fun e => sum D (fun dz => sum D (fun dy => sum D (fun dx =>
      f (Reshape4 D D D dx dy dz e))))).
Proof.
  rewrite sum_flat, sum_flat, sum_flat. reflexivity.
Qed.

(** The accumulation, entry by entry of the flat vector. *)
Lemma add_elems2D_flat (NE D : nat) (val : nat -> nat -> nat -> T) (y : list T)
      (i : nat) :
  (NE * D * D <= length y)%nat -> (i < NE * D * D)%nat ->
  rd (add_elems2D NE D val y) i = rd y i + blockfun2 D val i.
Proof.
  intros HL Hi.
  destruct (@add_elems2D_spec NE D val y) as (_ & H & _); [lia|].
  destruct (@Reshape3_surj D D NE i) as (dx & dy & e & Hx & Hy & He & ->); [lia|].
  rewrite H, blockfun2_Reshape3 by assumption. reflexivity.
Qed.

Lemma add_elems3D_flat (NE D : nat) (val : nat -> nat -> nat -> nat -> T)
      (y : list T) (i : nat) :
  (NE * D * D * D <= length y)%nat -> (i < NE * D * D * D)%nat ->
  rd (add_elems3D NE D val y) i = rd y i + blockfun3 D val i.
Proof.
  intros HL Hi.
  destruct (@add_elems3D_spec NE D val y) as (_ & H & _); [lia|].
  destruct (@Reshape4_surj D D D NE i) as (dx & dy & dz & e & Hx & Hy & Hz & He & ->);
    [lia|].
  rewrite H, blockfun3_Reshape4 by assumption. reflexivity.
Qed.

Section Results.
Variables dim D1D Q1D NE : nat.
Variables b g bt gt op_ x_ y_ : list T.
Hypothesis Hdim : dim = 2%nat \/ dim = 3%nat.

Lemma Apply_result_spec :
  (ndofs dim NE D1D <= length y_)%nat ->
  length (Apply_result dim D1D Q1D NE b g bt op_ x_ y_) = length y_ /\
  (forall i, (i < ndofs dim NE D1D)%nat ->
     rd (Apply_result dim D1D Q1D NE b g bt op_ x_ y_) i
     = rd y_ i + Apply_contribution dim D1D Q1D b g bt op_ x_ i) /\
  (forall i, (ndofs dim NE D1D <= i)%nat ->
     rd (Apply_result dim D1D Q1D NE b g bt op_ x_ y_) i = rd y_ i).
Proof.
  unfold Apply_result, Apply_contribution.
  destruct Hdim as [-> | ->]; cbn [Nat.eqb]; [rewrite ndofs_2|rewrite ndofs_3]; intros HL.
  - destruct (@add_elems2D_spec NE D1D (Apply2D_val D1D Q1D b g bt op_ x_) y_)
      as (H1 & _ & H3); [lia|].
    split; [exact H1|]. split.
    + intros i Hi. now apply add_elems2D_flat.
    + intros i Hi. apply H3. lia.
  - destruct (@add_elems3D_spec NE D1D (Apply3D_val D1D Q1D b g bt op_ x_) y_)
      as (H1 & _ & H3); [lia|].
    split; [exact H1|]. split.
    + intros i Hi. now apply add_elems3D_flat.
    + intros i Hi. apply H3. lia.
Qed.

Lemma ApplyT_result_spec :
  (ndofs dim NE D1D <= length y_)%nat ->
  length (ApplyT_result dim D1D Q1D NE b bt gt op_ x_ y_) = length y_ /\
  (forall i, (i < ndofs dim NE D1D)%nat ->
     rd (ApplyT_result dim D1D Q1D NE b bt gt op_ x_ y_) i
     = rd y_ i + ApplyT_contribution dim D1D Q1D b bt gt op_ x_ i) /\
  (forall i, (ndofs dim NE D1D <= i)%nat ->
     rd (ApplyT_result dim D1D Q1D NE b bt gt op_ x_ y_) i = rd y_ i).
Proof.
  unfold ApplyT_result, ApplyT_contribution.
  destruct Hdim as [-> | ->]; cbn [Nat.eqb]; [rewrite ndofs_2|rewrite ndofs_3]; intros HL.
  - destruct (@add_elems2D_spec NE D1D (ApplyT2D_val D1D Q1D b bt gt op_ x_) y_)
      as (H1 & _ & H3); [lia|].
    split; [exact H1|]. split.
    + intros i Hi. now apply add_elems2D_flat.
    + intros i Hi. apply H3. lia.
  - destruct (@add_elems3D_spec NE D1D (ApplyT3D_val D1D Q1D b bt gt op_ x_) y_)
      as (H1 & _ & H3); [lia|].
    split; [exact H1|]. split.
    + intros i Hi. now apply add_elems3D_flat.
    + intros i Hi. apply H3. lia.
Qed.

Hypothesis HD : (D1D <= MAX_D1D)%nat.
Hypothesis HQ : (Q1D <= MAX_Q1D)%nat.

Lemma generic_Apply_eq :
  generic_Apply dim D1D Q1D NE b g bt gt op_ x_ y_
  = Some (Apply_result dim D1D Q1D NE b g bt op_ x_ y_).
Proof.
  unfold generic_Apply, Apply_result.
  destruct Hdim as [-> | ->]; cbn [Nat.eqb].
  - now apply (@PAConvectionApply2D_eq 0 0 NE b g bt gt op_ x_ y_ D1D Q1D).
  - now apply (@PAConvectionApply3D_eq 0 0 NE b g bt gt op_ x_ y_ D1D Q1D).
Qed.

Lemma generic_ApplyT_eq :
  generic_ApplyT dim D1D Q1D NE b g bt gt op_ x_ y_
  = Some (ApplyT_result dim D1D Q1D NE b bt gt op_ x_ y_).
Proof.
  unfold generic_ApplyT, ApplyT_result.
  destruct Hdim as [-> | ->]; cbn [Nat.eqb].
  - now apply (@PAConvectionApplyT2D_eq 0 0 NE b g bt gt op_ x_ y_ D1D Q1D).
  - now apply (@PAConvectionApplyT3D_eq 0 0 NE b g bt gt op_ x_ y_ D1D Q1D).
Qed.

Hypothesis HK : (Q1D < 16)%nat.

Lemma PAConvectionApply_eq :
  PAConvectionApply dim D1D Q1D NE b g bt gt op_ x_ y_
  = Some (Apply_result dim D1D Q1D NE b g bt op_ x_ y_).
Proof.
  unfold Apply_result. destruct Hdim as [-> | ->]; cbn [Nat.eqb].
  - now apply PAConvectionApply_2D_eq.
  - now apply PAConvectionApply_3D_eq.
Qed.

Lemma PAConvectionApplyT_eq :
  PAConvectionApplyT dim D1D Q1D NE b g bt gt op_ x_ y_
  = Some (ApplyT_result dim D1D Q1D NE b bt gt op_ x_ y_).
Proof.
  unfold ApplyT_result. destruct Hdim as [-> | ->]; cbn [Nat.eqb].
  - now apply PAConvectionApplyT_2D_eq.
  - now apply PAConvectionApplyT_3D_eq.
Qed.
End Results.

(** * Part XI. The adjoint identity and the zero coefficient on vectors *)

Lemma adjoint_contribution (dim D1D Q1D NE : nat) (b g bt gt op_ p q : list T) :
  dim = 2%nat \/ dim = 3%nat ->
  transposed D1D Q1D bt b -> transposed D1D Q1D gt g ->
  dot (ndofs dim NE D1D) (Apply_contribution dim D1D Q1D b g bt op_ p) (rd q)
  = dot (ndofs dim NE D1D) (rd p) (ApplyT_contribution dim D1D Q1D b bt gt op_ q).
Proof.
  intros [-> | ->] HB HG; unfold dot, Apply_contribution, ApplyT_contribution;
    cbn [Nat.eqb].
  - rewrite ndofs_2, !sum_blocks2. apply sum_ext; intros e He.
    transitivity (sum D1D (fun dy => sum D1D (fun dx =>
      Apply2D_val D1D Q1D b g bt op_ p e dx dy * acc_x2 D1D q e dx dy))).
    { do 2 (apply sum_ext; intros). now rewrite blockfun2_Reshape3. }
    transitivity (sum D1D (fun dy => sum D1D (fun dx =>
      acc_x2 D1D p e dx dy * ApplyT2D_val D1D Q1D b bt gt op_ q e dx dy))).
    { unfold Apply2D_val, ApplyT2D_val. apply adjoint2D; assumption. }
    do 2 (apply sum_ext; intros). now rewrite blockfun2_Reshape3.
  - rewrite ndofs_3, !sum_blocks3. apply sum_ext; intros e He.
    transitivity (sum D1D (fun dz => sum D1D (fun dy => sum D1D (fun dx =>
      Apply3D_val D1D Q1D b g bt op_ p e dx dy dz * acc_x3 D1D q e dx dy dz)))).
    { do 3 (apply sum_ext; intros). now rewrite blockfun3_Reshape4. }
    transitivity (sum D1D (fun dz => sum D1D (fun dy => sum D1D (fun dx =>
      acc_x3 D1D p e dx dy dz * ApplyT3D_val D1D Q1D b bt gt op_ q e dx dy dz)))).
    { unfold Apply3D_val, ApplyT3D_val. apply adjoint3D; assumption. }
    do 3 (apply sum_ext; intros). now rewrite blockfun3_Reshape4.
Qed.


Section ZeroCoefficient.
Variables D Q : nat.
Variables B G Bt Gt : nat -> nat -> T.




End ZeroCoefficient.





(** * Part XII. The platform limits *)

Ltac limit_fails k :=
  intros Hlim; unfold k; cbv zeta; unfold MFEM_VERIFY;
  match goal with
  | |- (if ?a <=? ?b then _ else _) = None =>
      destruct (Nat.leb_spec a b); [|reflexivity]
  end;
  match goal with
  | |- (if ?a <=? ?b then _ else _) = None =>
      destruct (Nat.leb_spec a b); [|reflexivity]
  end;
  lia.

Section Limits.
Variables T_D1D T_Q1D T_NBZ ne : nat.
Variables b g bt gt op_ x_ y_ : list T.
Variables d1d q1d : nat.

Local Abbreviation exceeds :=
  ((MAX_D1D < tparam T_D1D d1d)%nat \/ (MAX_Q1D < tparam T_Q1D q1d)%nat).

Lemma PAConvectionApply2D_limit :
  exceeds -> PAConvectionApply2D T_D1D T_Q1D ne b g bt gt op_ x_ y_ d1d q1d = None.
Proof. limit_fails PAConvectionApply2D. Qed.

Lemma SmemPAConvectionApply2D_limit :
  exceeds ->
  SmemPAConvectionApply2D T_D1D T_Q1D T_NBZ ne b g bt gt op_ x_ y_ d1d q1d = None.
Proof. limit_fails SmemPAConvectionApply2D. Qed.

Lemma PAConvectionApply3D_limit :
  exceeds -> PAConvectionApply3D T_D1D T_Q1D ne b g bt gt op_ x_ y_ d1d q1d = None.
Proof. limit_fails PAConvectionApply3D. Qed.

Lemma SmemPAConvectionApply3D_limit :
  exceeds ->
  SmemPAConvectionApply3D T_D1D T_Q1D ne b g bt gt op_ x_ y_ d1d q1d = None.
Proof. limit_fails SmemPAConvectionApply3D. Qed.

Lemma PAConvectionApplyT2D_limit :
  exceeds -> PAConvectionApplyT2D T_D1D T_Q1D ne b g bt gt op_ x_ y_ d1d q1d = None.
Proof. limit_fails PAConvectionApplyT2D. Qed.

Lemma SmemPAConvectionApplyT2D_limit :
  exceeds ->
  SmemPAConvectionApplyT2D T_D1D T_Q1D T_NBZ ne b g bt gt op_ x_ y_ d1d q1d = None.
Proof. limit_fails SmemPAConvectionApplyT2D. Qed.

Lemma PAConvectionApplyT3D_limit :
  exceeds -> PAConvectionApplyT3D T_D1D T_Q1D ne b g bt gt op_ x_ y_ d1d q1d = None.
Proof. limit_fails PAConvectionApplyT3D. Qed.

Lemma SmemPAConvectionApplyT3D_limit :
  exceeds ->
  SmemPAConvectionApplyT3D T_D1D T_Q1D ne b g bt gt op_ x_ y_ d1d q1d = None.
Proof. limit_fails SmemPAConvectionApplyT3D. Qed.
End Limits.

Lemma tparam_self (t : nat) : tparam t 0 = t.
Proof. now destruct t. Qed.

(** A shared-memory kernel instantiated at [(D1D, Q1D)] and the generic
    kernel run with these sizes fail together or return the same [y]. *)
Lemma specialized_generic_Apply (dim D1D Q1D NBZ NE : nat)
      (b g bt gt op_ x_ y_ : list T) :
  dim = 2%nat \/ dim = 3%nat ->
  specialized_Apply dim D1D Q1D NBZ NE b g bt gt op_ x_ y_
  = generic_Apply dim D1D Q1D NE b g bt gt op_ x_ y_.
Proof.
  intros Hdim. unfold specialized_Apply, generic_Apply.
  destruct (le_lt_dec D1D MAX_D1D) as [HD|HD];
    [destruct (le_lt_dec Q1D MAX_Q1D) as [HQ|HQ]|].
  - destruct Hdim as [-> | ->]; cbn [Nat.eqb].
    + rewrite SmemPAConvectionApply2D_eq, PAConvectionApply2D_eq;
        rewrite ?tparam_self; cbn [tparam]; auto.
    + rewrite SmemPAConvectionApply3D_eq, PAConvectionApply3D_eq;
        rewrite ?tparam_self; cbn [tparam]; auto.
  - destruct Hdim as [-> | ->]; cbn [Nat.eqb].
    + rewrite SmemPAConvectionApply2D_limit, PAConvectionApply2D_limit;
        rewrite ?tparam_self; cbn [tparam]; auto.
    + rewrite SmemPAConvectionApply3D_limit, PAConvectionApply3D_limit;
        rewrite ?tparam_self; cbn [tparam]; auto.
  - destruct Hdim as [-> | ->]; cbn [Nat.eqb].
    + rewrite SmemPAConvectionApply2D_limit, PAConvectionApply2D_limit;
        rewrite ?tparam_self; cbn [tparam]; auto.
    + rewrite SmemPAConvectionApply3D_limit, PAConvectionApply3D_limit;
        rewrite ?tparam_self; cbn [tparam]; auto.
Qed.

Lemma specialized_generic_ApplyT (dim D1D Q1D NBZ NE : nat)
      (b g bt gt op_ x_ y_ : list T) :
  dim = 2%nat \/ dim = 3%nat ->
  specialized_ApplyT dim D1D Q1D NBZ NE b g bt gt op_ x_ y_
  = generic_ApplyT dim D1D Q1D NE b g bt gt op_ x_ y_.
Proof.
  intros Hdim. unfold specialized_ApplyT, generic_ApplyT.
  destruct (le_lt_dec D1D MAX_D1D) as [HD|HD];
    [destruct (le_lt_dec Q1D MAX_Q1D) as [HQ|HQ]|].
  - destruct Hdim as [-> | ->]; cbn [Nat.eqb].
    + rewrite SmemPAConvectionApplyT2D_eq, PAConvectionApplyT2D_eq;
        rewrite ?tparam_self; cbn [tparam]; auto.
    + rewrite SmemPAConvectionApplyT3D_eq, PAConvectionApplyT3D_eq;
        rewrite ?tparam_self; cbn [tparam]; auto.
  - destruct Hdim as [-> | ->]; cbn [Nat.eqb].
    + rewrite SmemPAConvectionApplyT2D_limit, PAConvectionApplyT2D_limit;
        rewrite ?tparam_self; cbn [tparam]; auto.
    + rewrite SmemPAConvectionApplyT3D_limit, PAConvectionApplyT3D_limit;
        rewrite ?tparam_self; cbn [tparam]; auto.
  - destruct Hdim as [-> | ->]; cbn [Nat.eqb].
    + rewrite SmemPAConvectionApplyT2D_limit, PAConvectionApplyT2D_limit;
        rewrite ?tparam_self; cbn [tparam]; auto.
    + rewrite SmemPAConvectionApplyT3D_limit, PAConvectionApplyT3D_limit;
        rewrite ?tparam_self; cbn [tparam]; auto.
Qed.

(** When [Q1D] fits the four bits that the dispatch key gives it, the
    dispatching entry points abort on sizes above a platform limit, and on
    every dimension other than 2 and 3. *)
Lemma PAConvectionApply_limit (dim D1D Q1D NE : nat) (b g bt gt op_ x_ y_ : list T) :
  (Q1D < 16)%nat -> (MAX_D1D < D1D)%nat \/ (MAX_Q1D < Q1D)%nat ->
  PAConvectionApply dim D1D Q1D NE b g bt gt op_ x_ y_ = None.
Proof.
  intros HK Hlim. unfold PAConvectionApply.
  destruct (dim =? 2); [|destruct (dim =? 3); [|reflexivity]];
    rewrite dispatch_key_lt16 by assumption;
    remember (N.of_nat (16 * D1D + Q1D)) as k eqn:Ek;
    split_key k;
    lazymatch goal with
    | |- SmemPAConvectionApply2D ?d ?q _ _ _ _ _ _ _ _ _ _ _ = _ =>
        assert (D1D = d) by lia; assert (Q1D = q) by lia; subst D1D Q1D;
        apply SmemPAConvectionApply2D_limit; exact Hlim
    | |- SmemPAConvectionApply3D ?d ?q _ _ _ _ _ _ _ _ _ _ = _ =>
        assert (D1D = d) by lia; assert (Q1D = q) by lia; subst D1D Q1D;
        apply SmemPAConvectionApply3D_limit; exact Hlim
    | |- PAConvectionApply2D _ _ _ _ _ _ _ _ _ _ _ _ = _ =>
        apply PAConvectionApply2D_limit; exact Hlim
    | |- PAConvectionApply3D _ _ _ _ _ _ _ _ _ _ _ _ = _ =>
        apply PAConvectionApply3D_limit; exact Hlim
    end.
Qed.

Lemma PAConvectionApplyT_limit (dim D1D Q1D NE : nat) (b g bt gt op_ x_ y_ : list T) :
  (Q1D < 16)%nat -> (MAX_D1D < D1D)%nat \/ (MAX_Q1D < Q1D)%nat ->
  PAConvectionApplyT dim D1D Q1D NE b g bt gt op_ x_ y_ = None.
Proof.
  intros HK Hlim. unfold PAConvectionApplyT.
  destruct (dim =? 2); [|destruct (dim =? 3); [|reflexivity]];
    rewrite dispatch_key_lt16 by assumption;
    remember (N.of_nat (16 * D1D + Q1D)) as k eqn:Ek;
    split_key k;
    lazymatch goal with
    | |- SmemPAConvectionApplyT2D ?d ?q _ _ _ _ _ _ _ _ _ _ _ = _ =>
        assert (D1D = d) by lia; assert (Q1D = q) by lia; subst D1D Q1D;
        apply SmemPAConvectionApplyT2D_limit; exact Hlim
    | |- SmemPAConvectionApplyT3D ?d ?q _ _ _ _ _ _ _ _ _ _ = _ =>
        assert (D1D = d) by lia; assert (Q1D = q) by lia; subst D1D Q1D;
        apply SmemPAConvectionApplyT3D_limit; exact Hlim
    | |- PAConvectionApplyT2D _ _ _ _ _ _ _ _ _ _ _ _ = _ =>
        apply PAConvectionApplyT2D_limit; exact Hlim
    | |- PAConvectionApplyT3D _ _ _ _ _ _ _ _ _ _ _ _ = _ =>
        apply PAConvectionApplyT3D_limit; exact Hlim
    end.
Qed.

Lemma PAConvectionApply_dim (dim D1D Q1D NE : nat) (b g bt gt op_ x_ y_ : list T) :
  dim <> 2%nat -> dim <> 3%nat ->
  PAConvectionApply dim D1D Q1D NE b g bt gt op_ x_ y_ = None /\
  PAConvectionApplyT dim D1D Q1D NE b g bt gt op_ x_ y_ = None.
Proof.
  intros H2 H3. unfold PAConvectionApply, PAConvectionApplyT.
  apply Nat.eqb_neq in H2, H3. now rewrite H2, H3.
Qed.

(** * Part XIII. The statements of the specification *)

Lemma PAConvectionSetup_2 (NQ NE : nat) (w j vel : list T) (alpha : T) (op : list T) :
  PAConvectionSetup 2 NQ NE w j vel alpha op
  = Some (PAConvectionSetup2D NQ NE w j vel alpha op).
Proof. reflexivity. Qed.

Lemma PAConvectionSetup_3 (NQ NE : nat) (w j vel : list T) (alpha : T) (op : list T) :
  PAConvectionSetup 3 NQ NE w j vel alpha op
  = Some (PAConvectionSetup3D NQ NE w j vel alpha op).
Proof. reflexivity. Qed.

(** C6: Setup with dimension 1 aborts, so nothing is written. With
    dimension 2 or 3 it succeeds, and every entry of the coefficient
    buffer (of [NQ * dim * NE] entries) is written from the inputs alone:
    the result does not depend on what the buffer held before. *)
Theorem C6_Setup_dimensions (dim NQ NE : nat) (W J coeff : list T) (alpha : T)
        (op : list T) :
  dim = 2%nat \/ dim = 3%nat -> length op = (NQ * dim * NE)%nat ->
  PAConvectionSetup 1 NQ NE W J coeff alpha op = None /\
  exists op',
    PAConvectionSetup dim NQ NE W J coeff alpha op = Some op' /\
    length op' = length op /\
    (forall op0, length op0 = length op ->
                 PAConvectionSetup dim NQ NE W J coeff alpha op0 = Some op').
Proof.
  intros Hdim HL. split; [reflexivity|].
  destruct Hdim as [-> | ->]; eexists.
  - split; [apply PAConvectionSetup_2|]. rewrite !PAConvectionSetup2D_nest. split.
    + apply setup_nest_spec. lia.
    + intros op0 H0. rewrite PAConvectionSetup_2, PAConvectionSetup2D_nest.
      f_equal. apply setup_nest_indep; congruence.
  - split; [apply PAConvectionSetup_3|]. rewrite !PAConvectionSetup3D_nest. split.
    + apply setup_nest_spec. lia.
    + intros op0 H0. rewrite PAConvectionSetup_3, PAConvectionSetup3D_nest.
      f_equal. apply setup_nest_indep; congruence.
Qed.



Lemma dot_added_l (N : nat) (y' y : list T) (M c : nat -> T) :
  (forall i, (i < N)%nat -> rd y' i = rd y i + M i) ->
  dot N (added y' y) c = dot N M c.
Proof.
  intros H. apply sum_ext; intros i Hi. unfold added. rewrite H by assumption. ring.
Qed.

Lemma dot_added_r (N : nat) (y' y : list T) (M a : nat -> T) :
  (forall i, (i < N)%nat -> rd y' i = rd y i + M i) ->
  dot N a (added y' y) = dot N a M.
Proof.
  intros H. apply sum_ext; intros i Hi. unfold added. rewrite H by assumption. ring.
Qed.

Lemma accumulates_of_spec (call res : list T -> _) (N : nat) (M : nat -> T) :
  (forall y, (N <= length y)%nat ->
     call y = Some (res y) /\ length (res y) = length y /\
     (forall i, (i < N)%nat -> rd (res y) i = rd y i + M i) /\
     (forall i, (N <= i)%nat -> rd (res y) i = rd y i)) ->
  forall y, (N <= length y)%nat -> accumulates call N M y.
Proof.
  intros H y HL. destruct (H y HL) as (E1 & L1 & A1 & F1).
  destruct (H (res y)) as (E2 & L2 & A2 & F2); [lia|].
  exists (res y), (res (res y)). repeat split; auto.
  intros i Hi. now rewrite A2, A1.
Qed.

(** The adjoint identity in exact arithmetic: for dimension 2 and 3, all
    sizes within the platform limits and all vectors [p], [q], what Apply
    adds to [y] for the input [p] and what ApplyTranspose adds for the
    input [q] satisfy [dot(Apply(p), q) = dot(p, ApplyT(q))], the tables
    [Bt] and [Gt] being the transposes of [B] and [G]. It holds for the
    generic kernels, and for the dispatching entry points when [Q1D] fits
    the four bits that the dispatch key gives it. *)
Lemma adjoint_identity (dim D1D Q1D NE : nat) (b g bt gt op_ p q y1 y2 : list T) :
  dim = 2%nat \/ dim = 3%nat ->
  (D1D <= MAX_D1D)%nat -> (Q1D <= MAX_Q1D)%nat ->
  transposed D1D Q1D bt b -> transposed D1D Q1D gt g ->
  (ndofs dim NE D1D <= length y1)%nat -> (ndofs dim NE D1D <= length y2)%nat ->
  (exists y1' y2',
     generic_Apply dim D1D Q1D NE b g bt gt op_ p y1 = Some y1' /\
     generic_ApplyT dim D1D Q1D NE b g bt gt op_ q y2 = Some y2' /\
     dot (ndofs dim NE D1D) (added y1' y1) (rd q)
     = dot (ndofs dim NE D1D) (rd p) (added y2' y2)) /\
  ((Q1D < 16)%nat ->
   exists y1' y2',
     PAConvectionApply dim D1D Q1D NE b g bt gt op_ p y1 = Some y1' /\
     PAConvectionApplyT dim D1D Q1D NE b g bt gt op_ q y2 = Some y2' /\
     dot (ndofs dim NE D1D) (added y1' y1) (rd q)
     = dot (ndofs dim NE D1D) (rd p) (added y2' y2)).
Proof.
  intros Hdim HD HQ HB HG H1 H2.
  destruct (@Apply_result_spec dim D1D Q1D NE b g bt op_ p y1 Hdim H1) as (_ & A1 & _).
  destruct (@ApplyT_result_spec dim D1D Q1D NE b bt gt op_ q y2 Hdim H2) as (_ & A2 & _).
  assert (E : dot (ndofs dim NE D1D)
                  (added (Apply_result dim D1D Q1D NE b g bt op_ p y1) y1) (rd q)
              = dot (ndofs dim NE D1D) (rd p)
                    (added (ApplyT_result dim D1D Q1D NE b bt gt op_ q y2) y2)).
  { rewrite (@dot_added_l _ _ _ _ (rd q) A1), (@dot_added_r _ _ _ _ (rd p) A2).
    now apply adjoint_contribution. }
  split.
  - do 2 eexists. split; [now apply generic_Apply_eq|].
    split; [now apply generic_ApplyT_eq|]. exact E.
  - intros HK. do 2 eexists. split; [now apply PAConvectionApply_eq|].
    split; [now apply PAConvectionApplyT_eq|]. exact E.
Qed.

(** The kernels accumulate: after a call the vector is the initial [y]
    plus the contribution [M(x)], which does not depend on [y]; a second
    identical call adds the contribution a second time. It holds for the
    generic kernels within the platform limits, and for the dispatching
    entry points when also [Q1D < 16]. *)
Lemma Apply_accumulates (dim D1D Q1D NE : nat) (b g bt gt op_ x_ y_ : list T) :
  dim = 2%nat \/ dim = 3%nat ->
  (D1D <= MAX_D1D)%nat -> (Q1D <= MAX_Q1D)%nat ->
  (ndofs dim NE D1D <= length y_)%nat ->
  accumulates (generic_Apply dim D1D Q1D NE b g bt gt op_ x_) (ndofs dim NE D1D)
              (Apply_contribution dim D1D Q1D b g bt op_ x_) y_ /\
  accumulates (generic_ApplyT dim D1D Q1D NE b g bt gt op_ x_) (ndofs dim NE D1D)
              (ApplyT_contribution dim D1D Q1D b bt gt op_ x_) y_ /\
  ((Q1D < 16)%nat ->
   accumulates (PAConvectionApply dim D1D Q1D NE b g bt gt op_ x_) (ndofs dim NE D1D)
               (Apply_contribution dim D1D Q1D b g bt op_ x_) y_ /\
   accumulates (PAConvectionApplyT dim D1D Q1D NE b g bt gt op_ x_) (ndofs dim NE D1D)
               (ApplyT_contribution dim D1D Q1D b bt gt op_ x_) y_).
Proof.
  intros Hdim HD HQ HL.
  split; [|split; [|intros HK; split]].
  - apply accumulates_of_spec with (res := Apply_result dim D1D Q1D NE b g bt op_ x_);
      [|assumption].
    intros y Hy. split; [now apply generic_Apply_eq|]. now apply Apply_result_spec.
  - apply accumulates_of_spec with (res := ApplyT_result dim D1D Q1D NE b bt gt op_ x_);
      [|assumption].
    intros y Hy. split; [now apply generic_ApplyT_eq|]. now apply ApplyT_result_spec.
  - apply accumulates_of_spec with (res := Apply_result dim D1D Q1D NE b g bt op_ x_);
      [|assumption].
    intros y Hy. split; [now apply PAConvectionApply_eq|]. now apply Apply_result_spec.
  - apply accumulates_of_spec with (res := ApplyT_result dim D1D Q1D NE b bt gt op_ x_);
      [|assumption].
    intros y Hy. split; [now apply PAConvectionApplyT_eq|]. now apply ApplyT_result_spec.
Qed.

Lemma catalogue_dim (dim D1D Q1D : nat) :
  In (D1D, Q1D) (catalogue dim) -> dim = 2%nat \/ dim = 3%nat.
Proof.
  unfold catalogue.
  destruct (Nat.eqb_spec dim 2); [auto|].
  destruct (Nat.eqb_spec dim 3); [auto|]. intros [].
Qed.

(** C5: for every pair [(D1D, Q1D)] of the catalogue of a dimension, the
    dispatch selects the shared-memory kernel instantiated at that pair,
    and this kernel returns what the generic fallback returns when run
    with the same sizes and inputs (the same [y], or the same failure),
    for Apply and for ApplyTranspose. *)
Theorem C5_specialized_equals_generic (dim D1D Q1D NE : nat)
        (b g bt gt op_ x_ y_ : list T) :
  In (D1D, Q1D) (catalogue dim) ->
  exists NBZ,
    PAConvectionApply dim D1D Q1D NE b g bt gt op_ x_ y_
    = specialized_Apply dim D1D Q1D NBZ NE b g bt gt op_ x_ y_ /\
    PAConvectionApplyT dim D1D Q1D NE b g bt gt op_ x_ y_
    = specialized_ApplyT dim D1D Q1D NBZ NE b g bt gt op_ x_ y_ /\
    specialized_Apply dim D1D Q1D NBZ NE b g bt gt op_ x_ y_
    = generic_Apply dim D1D Q1D NE b g bt gt op_ x_ y_ /\
    specialized_ApplyT dim D1D Q1D NBZ NE b g bt gt op_ x_ y_
    = generic_ApplyT dim D1D Q1D NE b g bt gt op_ x_ y_.
Proof.
  intros Hin. pose proof (catalogue_dim _ _ _ Hin) as Hdim.
  enough (exists NBZ,
    PAConvectionApply dim D1D Q1D NE b g bt gt op_ x_ y_
    = specialized_Apply dim D1D Q1D NBZ NE b g bt gt op_ x_ y_ /\
    PAConvectionApplyT dim D1D Q1D NE b g bt gt op_ x_ y_
    = specialized_ApplyT dim D1D Q1D NBZ NE b g bt gt op_ x_ y_) as (NBZ & E1 & E2).
  { exists NBZ. split; [exact E1|]. split; [exact E2|].
    split; [now apply specialized_generic_Apply|now apply specialized_generic_ApplyT]. }
  destruct Hdim as [-> | ->]; unfold catalogue in Hin; cbn [Nat.eqb] in Hin.
  - repeat (destruct Hin as [Hin|Hin];
            [injection Hin as <- <-; eexists; split; reflexivity|]).
    destruct Hin.
  - repeat (destruct Hin as [Hin|Hin];
            [injection Hin as <- <-; exists 1%nat; split; reflexivity|]).
    destruct Hin.
Qed.

(** C7: the dispatch key [(D1D << 4) | Q1D] of the sizes [(2, 34)] is the
    key [0x22] of the catalogue pair [(2, 2)]. With [Q1D = 34] above the
    platform limit, Apply and ApplyTranspose in dimension 2 therefore do
    not abort: they run the shared-memory kernel of the pair [(2, 2)] and
    add its contribution to [y], whereas the generic kernel run with the
    sizes of the call aborts. *)
Theorem C7_dispatch_key_collision (NE : nat) (b g bt gt op_ x_ y_ : list T) :
  (2 <= MAX_D1D)%nat -> (2 <= MAX_Q1D)%nat -> (MAX_Q1D < 34)%nat ->
  PAConvectionApply 2 2 34 NE b g bt gt op_ x_ y_
  = Some (Apply_result 2 2 2 NE b g bt op_ x_ y_) /\
  PAConvectionApplyT 2 2 34 NE b g bt gt op_ x_ y_
  = Some (ApplyT_result 2 2 2 NE b bt gt op_ x_ y_) /\
  generic_Apply 2 2 34 NE b g bt gt op_ x_ y_ = None /\
  generic_ApplyT 2 2 34 NE b g bt gt op_ x_ y_ = None.
Proof.
  intros HD HQ HM. split; [|split; [|split]].
  - change (PAConvectionApply 2 2 34 NE b g bt gt op_ x_ y_)
      with (SmemPAConvectionApply2D 2 2 8 NE b g bt gt op_ x_ y_ 0 0).
    now apply SmemPAConvectionApply2D_eq.
  - change (PAConvectionApplyT 2 2 34 NE b g bt gt op_ x_ y_)
      with (SmemPAConvectionApplyT2D 2 2 8 NE b g bt gt op_ x_ y_ 0 0).
    now apply SmemPAConvectionApplyT2D_eq.
  - apply PAConvectionApply2D_limit. right. exact HM.
  - apply PAConvectionApplyT2D_limit. right. exact HM.
Qed.

(** C9: the generic kernels carry the same check of the platform limits
    as the shared-memory ones: when [D1D] exceeds [MAX_D1D] or [Q1D]
    exceeds [MAX_Q1D], the generic Apply and ApplyTranspose abort, in
    every dimension. *)
Theorem C9_generic_limit (dim D1D Q1D NE : nat) (b g bt gt op_ x_ y_ : list T) :
  (MAX_D1D < D1D)%nat \/ (MAX_Q1D < Q1D)%nat ->
  generic_Apply dim D1D Q1D NE b g bt gt op_ x_ y_ = None /\
  generic_ApplyT dim D1D Q1D NE b g bt gt op_ x_ y_ = None.
Proof.
  intros H. unfold generic_Apply, generic_ApplyT.
  destruct (dim =? 2); [|destruct (dim =? 3); [|split; reflexivity]]; split.
  - now apply PAConvectionApply2D_limit.
  - now apply PAConvectionApplyT2D_limit.
  - now apply PAConvectionApply3D_limit.
  - now apply PAConvectionApplyT3D_limit.
Qed.

Lemma store_set_same (m : Store) (r : nat) (v : list T) : store_set m r v r = v.
Proof. unfold store_set. now rewrite Nat.eqb_refl. Qed.

Lemma store_set_other (m : Store) (r r' : nat) (v : list T) :
  r' <> r -> store_set m r v r' = m r'.
Proof. intros H. unfold store_set. now apply Nat.eqb_neq in H as ->. Qed.

(** Without libCEED, and when [Q1D < 16], a call of AddMultPA or of
    AddMultTransposePA within the platform limits replaces the object
    [y] of the store and no other, and in [y] each entry of each element
    block gets its contribution added once, the length and the entries
    beyond the blocks being kept. With libCEED the transpose aborts. *)
Lemma AddMultPA_adds_contribution
      (ceedOp_AddMult : nat -> nat -> Store -> option Store)
      (self : ConvectionIntegrator) (x y : nat) (m : Store) :
  dim self = 2%nat \/ dim self = 3%nat ->
  (dofs1D self <= MAX_D1D)%nat -> (quad1D self <= MAX_Q1D)%nat ->
  (quad1D self < 16)%nat ->
  (ndofs (dim self) (ne self) (dofs1D self) <= length (m y))%nat ->
  (exists m',
     AddMultPA false ceedOp_AddMult self x y m = Some m' /\
     (forall r, r <> y -> m' r = m r) /\
     length (m' y) = length (m y) /\
     (forall i, (i < ndofs (dim self) (ne self) (dofs1D self))%nat ->
        rd (m' y) i
        = rd (m y) i
          + Apply_contribution (dim self) (dofs1D self) (quad1D self) (maps_B self)
              (maps_G self) (maps_Bt self) (pa_data self) (m x) i) /\
     (forall i, (ndofs (dim self) (ne self) (dofs1D self) <= i)%nat ->
        rd (m' y) i = rd (m y) i)) /\
  (exists m',
     AddMultTransposePA false self x y m = Some m' /\
     (forall r, r <> y -> m' r = m r) /\
     length (m' y) = length (m y) /\
     (forall i, (i < ndofs (dim self) (ne self) (dofs1D self))%nat ->
        rd (m' y) i
        = rd (m y) i
          + ApplyT_contribution (dim self) (dofs1D self) (quad1D self) (maps_B self)
              (maps_Bt self) (maps_Gt self) (pa_data self) (m x) i) /\
     (forall i, (ndofs (dim self) (ne self) (dofs1D self) <= i)%nat ->
        rd (m' y) i = rd (m y) i)) /\
  AddMultTransposePA true self x y m = None.
Proof.
  intros Hdim HD HQ HK HL. split; [|split; [|reflexivity]].
  - unfold AddMultPA. rewrite PAConvectionApply_eq by assumption.
    eexists. split; [reflexivity|]. split.
    + intros r Hr. now apply store_set_other.
    + rewrite store_set_same. now apply Apply_result_spec.
  - unfold AddMultTransposePA. rewrite PAConvectionApplyT_eq by assumption.
    eexists. split; [reflexivity|]. split.
    + intros r Hr. now apply store_set_other.
    + rewrite store_set_same. now apply ApplyT_result_spec.
Qed.
(** * Part XIV. The packed storage of DenseSymmetricMatrix *)

Local Close Scope scalar_scope.
Local Open Scope Z_scope.

Lemma int_ret_ok (z : Z) : - 2 ^ 31 <= z < 2 ^ 31 -> int_ret z = Some z.
Proof.
  intros H. unfold int_ret, int_ok.
  destruct (Z.leb_spec (- 2 ^ 31) z); [|lia].
  destruct (Z.ltb_spec z (2 ^ 31)); [reflexivity|lia].
Qed.

(** The product of two consecutive integers is even. *)
Lemma consecutive_even (a : Z) : (a - 1) * a = 2 * Z.quot ((a - 1) * a) 2.
Proof.
  assert (H : ((a - 1) * a) mod 2 = 0).
  { rewrite Z.mul_mod by lia. rewrite Zminus_mod.
    pose proof (Z.mod_pos_bound a 2 ltac:(lia)) as Hb.
    assert (Ha : a mod 2 = 0 \/ a mod 2 = 1) by lia.
    destruct Ha as [-> | ->]; reflexivity. }
  pose proof (Z.quot_rem' ((a - 1) * a) 2) as E.
  assert (Hr : Z.rem ((a - 1) * a) 2 = 0).
  { apply Z.rem_divide; [lia|]. apply Z.mod_divide; [lia|assumption]. }
  lia.
Qed.

(** The number of entries of the rows [0 .. a-1]. *)
Lemma sym_offset_eq (h a b : Z) :
  0 <= a <= b -> b < h -> h <= 46340 ->
  sym_offset h a b = Some (packed_index h a b) /\
  0 <= packed_index h a b < Z.quot (h * (h + 1)) 2.
Proof.
  intros Hab Hb Hh. unfold packed_index.
  pose proof (consecutive_even a) as Ea.
  pose proof (consecutive_even (h + 1)) as Eh.
  replace (h + 1 - 1) with h in Eh by lia.
  set (t := Z.quot ((a - 1) * a) 2) in *.
  set (s := Z.quot (h * (h + 1)) 2) in *.
  assert (Hmax : 2 ^ 31 = 2147483648) by reflexivity.
  assert (Hhh : h * h <= 2147395600) by nia.
  assert (Ht : 0 <= t) by nia.
  assert (Hk : 0 <= a * h - t + b - a < s) by nia.
  split; [|exact Hk].
  unfold sym_offset, int_bind.
  rewrite (@int_ret_ok (a * h)) by nia.
  rewrite (@int_ret_ok (a - 1)) by lia.
  rewrite (@int_ret_ok ((a - 1) * a)) by nia.
  fold t.
  rewrite (@int_ret_ok t) by nia.
  rewrite (@int_ret_ok (a * h - t)) by nia.
  rewrite (@int_ret_ok (a * h - t + b)) by nia.
  rewrite (@int_ret_ok (a * h - t + b - a)) by nia.
  reflexivity.
Qed.

Lemma packed_index_inj (h a b a' b' : Z) :
  0 <= a <= b -> b < h -> 0 <= a' <= b' -> b' < h ->
  packed_index h a b = packed_index h a' b' -> a = a' /\ b = b'.
Proof.
  intros Hab Hb Hab' Hb' E. unfold packed_index in E.
  pose proof (consecutive_even a) as Ea.
  pose proof (consecutive_even a') as Ea'.
  set (t := Z.quot ((a - 1) * a) 2) in *.
  set (t' := Z.quot ((a' - 1) * a') 2) in *.
  assert (a = a').
  { destruct (Z.lt_trichotomy a a') as [Hlt|[Heq|Hgt]]; [|assumption|]; exfalso.
    - assert (H : (a' - a - 1) * (2 * (h - a) - (a' - a)) >= 0) by nia. nia.
    - assert (H : (a - a' - 1) * (2 * (h - a') - (a - a')) >= 0) by nia. nia. }
  subst a'. split; [reflexivity|]. lia.
Qed.

Lemma packed_index_surj (h k : Z) :
  0 <= h -> 0 <= k < Z.quot (h * (h + 1)) 2 ->
  exists a b, 0 <= a <= b /\ b < h /\ packed_index h a b = k.
Proof.
  intros Hh Hk.
  pose proof (consecutive_even (h + 1)) as Eh.
  replace (h + 1 - 1) with h in Eh by lia.
  (* rows [0 .. n-1] cover the offsets below [packed_index h n n] *)
  assert (H : forall n : nat, Z.of_nat n <= h ->
            forall k, 0 <= k < packed_index h (Z.of_nat n) (Z.of_nat n) ->
            exists a b, 0 <= a <= b /\ b < h /\ packed_index h a b = k).
  { induction n as [|n IH]; intros Hn k' Hk'.
    - unfold packed_index in Hk'. simpl in Hk'. lia.
    - assert (Hs : packed_index h (Z.of_nat (S n)) (Z.of_nat (S n))
                   = packed_index h (Z.of_nat n) (Z.of_nat n) + (h - Z.of_nat n)).
      { unfold packed_index.
        pose proof (consecutive_even (Z.of_nat (S n))) as E1.
        pose proof (consecutive_even (Z.of_nat n)) as E2.
        nia. }
      destruct (Z.lt_ge_cases k' (packed_index h (Z.of_nat n) (Z.of_nat n)))
        as [Hlt|Hge].
      + apply IH; lia.
      + exists (Z.of_nat n), (Z.of_nat n + (k' - packed_index h (Z.of_nat n) (Z.of_nat n))).
        split; [lia|]. split; [lia|]. unfold packed_index in *. lia. }
  apply (H (Z.to_nat h)); [lia|].
  rewrite Z2Nat.id by assumption.
  unfold packed_index.
  pose proof (consecutive_even h) as E1. nia.
Qed.

Section SymmetricAccess.
Variable debug : bool.
Variable m : DenseSymmetricMatrix.
Hypothesis Hsq : sm_width m = sm_height m.
Hypothesis Hsmall : sm_height m <= 46340.

Lemma sym_cell_eq (i j : Z) :
  0 <= i < sm_height m -> 0 <= j < sm_height m ->
  sym_cell debug m i j
  = Some (packed_index (sm_height m) (Z.min i j) (Z.max i j)).
Proof.
  intros Hi Hj. unfold sym_cell, MFEM_ASSERT. rewrite Hsq.
  destruct (Z.leb_spec 0 i); [|lia]. destruct (Z.ltb_spec i (sm_height m)); [|lia].
  destruct (Z.leb_spec 0 j); [|lia]. destruct (Z.ltb_spec j (sm_height m)); [|lia].
  cbn [andb].
  assert (E : (if (i >? j) then sym_offset (sm_height m) j i
               else sym_offset (sm_height m) i j)
              = Some (packed_index (sm_height m) (Z.min i j) (Z.max i j))).
  { destruct (Z.gtb_spec i j).
    - rewrite Z.min_r, Z.max_l by lia. apply sym_offset_eq; lia.
    - rewrite Z.min_l, Z.max_r by lia. apply sym_offset_eq; lia. }
  rewrite E. now destruct debug.
Qed.

Lemma sym_cell_range (i j : Z) :
  0 <= i < sm_height m -> 0 <= j < sm_height m ->
  0 <= packed_index (sm_height m) (Z.min i j) (Z.max i j) < GetStoredSize m.
Proof.
  intros Hi Hj. unfold GetStoredSize. apply sym_offset_eq; lia.
Qed.

Lemma sym_cell_same (i j k l : Z) :
  0 <= i < sm_height m -> 0 <= j < sm_height m ->
  0 <= k < sm_height m -> 0 <= l < sm_height m ->
  (sym_cell debug m i j = sym_cell debug m k l
   <-> (i = k /\ j = l) \/ (i = l /\ j = k)).
Proof.
  intros Hi Hj Hk Hl. rewrite !sym_cell_eq by assumption. split.
  - intros E. injection E as E. apply packed_index_inj in E; lia.
  - intros [[-> ->] | [-> ->]]; [reflexivity|].
    now rewrite Z.min_comm, Z.max_comm.
Qed.
End SymmetricAccess.

(** X1: for a square matrix of height at most 46340 and indices
    [0 <= i, j < height], [operator()(i, j)] computes its offset without
    signed overflow, and the offset is a cell of the stored triangle:
    it lies in [0, GetStoredSize()), which is also the number of entries
    that [UseExternalData] wraps. *)
Theorem sym_cell_in_bounds (debug : bool) (m : DenseSymmetricMatrix) (i j : Z) :
  sm_width m = sm_height m -> sm_height m <= 46340 ->
  0 <= i < sm_height m -> 0 <= j < sm_height m ->
  exists k, sym_cell debug m i j = Some k /\ 0 <= k < GetStoredSize m /\
            forall d, GetStoredSize m
                      = sm_capacity (UseExternalData d (sm_height m)).
Proof.
  intros Hsq Hsmall Hi Hj. eexists. split; [now apply sym_cell_eq|].
  split; [now apply sym_cell_range|]. reflexivity.
Qed.

(** X2: two valid accesses name the same cell exactly when they name the
    same unordered pair of indices: [a(i,j)] and [a(j,i)] share a cell,
    and no other two entries do. *)
Theorem sym_cell_unordered_pair (debug : bool) (m : DenseSymmetricMatrix)
        (i j k l : Z) :
  sm_width m = sm_height m -> sm_height m <= 46340 ->
  0 <= i < sm_height m -> 0 <= j < sm_height m ->
  0 <= k < sm_height m -> 0 <= l < sm_height m ->
  (sym_cell debug m i j = sym_cell debug m k l
   <-> (i = k /\ j = l) \/ (i = l /\ j = k)).
Proof. intros. now apply sym_cell_same. Qed.

(** X3: every cell of the stored triangle belongs to an entry: for each
    offset [k] in [0, GetStoredSize()) there are [i <= j < height] with
    [a(i, j)] at offset [k]. *)
Theorem sym_cell_onto (debug : bool) (m : DenseSymmetricMatrix) (k : Z) :
  sm_width m = sm_height m -> 0 <= sm_height m <= 46340 ->
  0 <= k < GetStoredSize m ->
  exists i j, 0 <= i <= j /\ j < sm_height m /\ sym_cell debug m i j = Some k.
Proof.
  intros Hsq Hh Hk.
  destruct (@packed_index_surj (sm_height m) k) as (a & b & Hab & Hb & E);
    [lia|exact Hk|].
  exists a, b. split; [exact Hab|]. split; [exact Hb|].
  rewrite sym_cell_eq by lia. now rewrite Z.min_l, Z.max_r, E by lia.
Qed.

Local Open Scope nat_scope.

(** X4: assigning [a(i, j) = v] makes both [a(i, j)] and [a(j, i)] read
    [v], keeps the sizes, and leaves every entry with another unordered
    pair of indices as it was. *)
Theorem sym_write_read (debug : bool) (m : DenseSymmetricMatrix) (i j : Z) (v : T) :
  sm_width m = sm_height m -> (sm_height m <= 46340)%Z ->
  (0 <= i < sm_height m)%Z -> (0 <= j < sm_height m)%Z ->
  (GetStoredSize m <= Z.of_nat (length (sm_data m)))%Z ->
  exists m',
    sym_write debug m i j v = Some m' /\
    sm_height m' = sm_height m /\ sm_width m' = sm_width m /\
    length (sm_data m') = length (sm_data m) /\
    sym_read debug m' i j = Some v /\ sym_read debug m' j i = Some v /\
    forall k l, (0 <= k < sm_height m)%Z -> (0 <= l < sm_height m)%Z ->
                ~ ((k = i /\ l = j) \/ (k = j /\ l = i)) ->
                sym_read debug m' k l = sym_read debug m k l.
Proof.
  intros Hsq Hsmall Hi Hj HL.
  pose proof (sym_cell_range m Hsmall Hi Hj) as Hr.
  unfold sym_write. rewrite sym_cell_eq by assumption.
  eexists. split; [reflexivity|].
  set (c := packed_index (sm_height m) (Z.min i j) (Z.max i j)) in *.
  set (m' := {| sm_height := sm_height m; sm_width := sm_width m;
                sm_data := upd (sm_data m) (Z.to_nat c) v;
                sm_capacity := sm_capacity m |}).
  assert (Hc : forall k l, (0 <= k < sm_height m)%Z -> (0 <= l < sm_height m)%Z ->
             sym_cell debug m' k l = sym_cell debug m k l).
  { intros k l Hk Hl. now rewrite !sym_cell_eq. }
  split; [reflexivity|]. split; [reflexivity|].
  split; [apply length_upd|].
  assert (Hread : sym_read debug m' i j = Some v).
  { unfold sym_read. rewrite Hc, sym_cell_eq by assumption. fold c. cbn [sm_data m'].
    f_equal. apply rd_upd_same. lia. }
  split; [exact Hread|]. split.
  - unfold sym_read in *. rewrite Hc in * by assumption.
    rewrite (proj2 (sym_cell_same debug m Hsq Hsmall Hj Hi Hi Hj)); [exact Hread|].
    right. split; reflexivity.
  - intros k l Hk Hl Hne. unfold sym_read. rewrite Hc by assumption.
    rewrite !sym_cell_eq by assumption. cbn [sm_data m']. f_equal.
    apply rd_upd_other. fold c. intros E.
    apply Hne.
    assert (E' : sym_cell debug m i j = sym_cell debug m k l).
    { rewrite !sym_cell_eq by assumption. fold c. f_equal.
      pose proof (sym_cell_range m Hsmall Hk Hl). lia. }
    apply sym_cell_same in E'; try assumption. destruct E' as [[-> ->]|[-> ->]]; auto.
Qed.

(** X5: the offset arithmetic of [operator()] leaves the range of [int]
    for large matrices: once the height reaches 46342, the access to the
    last diagonal entry overflows in [(height-1) * height]. *)
Theorem sym_cell_overflow (debug : bool) (m : DenseSymmetricMatrix) :
  sm_width m = sm_height m -> (46342 <= sm_height m)%Z ->
  sym_cell debug m (sm_height m - 1) (sm_height m - 1) = None.
Proof.
  intros Hsq Hh. unfold sym_cell, MFEM_ASSERT. rewrite Hsq.
  assert (E : sym_offset (sm_height m) (sm_height m - 1) (sm_height m - 1) = None).
  { unfold sym_offset, int_bind, int_ret at 1, int_ok.
    destruct (Z.ltb_spec ((sm_height m - 1) * sm_height m) (2 ^ 31)) as [H|H].
    - exfalso. change (2 ^ 31)%Z with 2147483648%Z in H. nia.
    - now rewrite andb_false_r. }
  rewrite Z.gtb_ltb, Z.ltb_irrefl, E.
  destruct debug; [|reflexivity]. now destruct (_ && _)%bool.
Qed.

Local Close Scope Z_scope.
Local Open Scope scalar_scope.

(** * Part XV. Sum factorisation against the sums written out *)

Lemma interp2D_nest (D : nat) (Bx By : nat -> nat -> T) (X : nat -> nat -> T)
      (qx qy : nat) :
  sum D (fun dy => By qy dy * sum D (fun dx => Bx qx dx * X dx dy))
  = interp2D D Bx By X qx qy.
Proof.
  unfold interp2D. apply sum_ext; intros dy _. rewrite sum_mul_l.
  apply sum_ext; intros dx _. ring.
Qed.

Lemma interp3D_nest (D : nat) (Bx By Bz : nat -> nat -> T)
      (X : nat -> nat -> nat -> T) (qx qy qz : nat) :
  sum D (fun dz => Bz qz dz * sum D (fun dy => By qy dy
    * sum D (fun dx => Bx qx dx * X dx dy dz)))
  = interp3D D Bx By Bz X qx qy qz.
Proof.
  unfold interp3D. apply sum_ext; intros dz _. rewrite sum_mul_l.
  apply sum_ext; intros dy _. rewrite !sum_mul_l.
  apply sum_ext; intros dx _. ring.
Qed.

Section Direct2D.
Variables D Q : nat.
Variables B G Bt Gt : nat -> nat -> T.
Variable O : nat -> nat -> nat -> T.
Variable X : nat -> nat -> T.

Lemma conv2D_direct (dx dy : nat) :
  conv2D D Q B G Bt O X dx dy = direct2D D Q B G Bt O X dx dy.
Proof.
  unfold conv2D, direct2D. rewrite (sum_swap Q Q).
  apply sum_ext; intros qx _. unfold m2_BDGu. rewrite sum_mul_l.
  apply sum_ext; intros qy _. unfold m2_DGu.
  rewrite <- (interp2D_nest D G B X qx qy), <- (interp2D_nest D B G X qx qy).
  unfold m2_BGu, m2_GBu, m2_Gu, m2_Bu. ring.
Qed.

Lemma convT2D_direct (dx dy : nat) :
  convT2D D Q B Bt Gt O X dx dy = directT2D D Q B Bt Gt O X dx dy.
Proof.
  unfold convT2D, directT2D. rewrite (sum_swap Q Q).
  apply sum_ext; intros qx _. cbn [m2_GDBu].
  rewrite !sum_mul_l, <- sum_plus.
  apply sum_ext; intros qy _. unfold m2_DBu.
  rewrite <- (interp2D_nest D B B X qx qy).
  unfold m2_BBu, m2_Bu. ring.
Qed.
End Direct2D.

Section Direct3D.
Variables D Q : nat.
Variables B G Bt Gt : nat -> nat -> T.
Variable O : nat -> nat -> nat -> nat -> T.
Variable X : nat -> nat -> nat -> T.

Lemma sum3_swap (n : nat) (f : nat -> nat -> nat -> T) :
  sum n (fun a => sum n (fun b => sum n (fun c => f a b c)))
  = sum n (fun c => sum n (fun b => sum n (fun a => f a b c))).
Proof.
  rewrite sum_swap. 
  transitivity (sum n (fun b => sum n (fun c => sum n (fun a => f a b c)))).
  { apply sum_ext; intros b _. apply sum_swap. }
  apply sum_swap.
Qed.

Lemma conv3D_direct (dx dy dz : nat) :
  conv3D D Q B G Bt O X dx dy dz = direct3D D Q B G Bt O X dx dy dz.
Proof.
  unfold conv3D, direct3D.
  rewrite (sum3_swap Q (fun qz qy qx => _)).
  apply sum_ext; intros qx _. unfold m3_BBDGu. rewrite sum_mul_l.
  apply sum_ext; intros qy _. unfold m3_BDGu. rewrite !sum_mul_l.
  apply sum_ext; intros qz _. unfold m3_DGu.
  rewrite <- (interp3D_nest D G B B X qx qy qz),
          <- (interp3D_nest D B G B X qx qy qz),
          <- (interp3D_nest D B B G X qx qy qz).
  unfold m3_BBGu, m3_BGBu, m3_GBBu, m3_BGu, m3_GBu, m3_BBu, m3_Gu, m3_Bu. ring.
Qed.

Lemma convT3D_direct (dx dy dz : nat) :
  convT3D D Q B Bt Gt O X dx dy dz = directT3D D Q B Bt Gt O X dx dy dz.
Proof.
  rewrite convT3D_sum. unfold directT3D.
  rewrite (sum3_swap Q (fun qz qy qx => _)).
  apply sum_ext; intros qx _. cbn [m3_GGDBu].
  rewrite !sum_mul_l, <- !sum_plus.
  apply sum_ext; intros qy _. cbn [m3_GDBu].
  rewrite !sum_mul_l, <- !sum_plus.
  apply sum_ext; intros qz _. unfold m3_DBu.
  rewrite <- (interp3D_nest D B B B X qx qy qz).
  unfold m3_BBBu, m3_BBu, m3_Bu. ring.
Qed.
End Direct3D.

(** * Part XVI. The contribution as a function of its inputs *)

Lemma sum_lin2 (n : nat) (a : T) (f f1 f2 : nat -> T) :
  (forall k, (k < n)%nat -> f k = a * f1 k + f2 k) ->
  sum n f = a * sum n f1 + sum n f2.
Proof.
  intros H. rewrite sum_mul_l, <- sum_plus. now apply sum_ext.
Qed.

(** [lin_sums] goes down nested sums to their summands. *)
Ltac lin_sums := repeat (apply sum_lin2; intros ? ?).
Ltac ext_sums := repeat (apply sum_ext; intros ? ?).

(** [ext_ops H1 .. H6] compares two nests of sums operation by
    operation, with the hypotheses on the operands. *)
Ltac ext_ops HB HG HBt HGt HO HX :=
  repeat first
    [ reflexivity
    | apply sum_ext; intros ? ?
    | apply for_loop_ext; intros ? ? ?
    | apply HB; assumption
    | apply HG; assumption
    | apply HBt; assumption
    | apply HGt; assumption
    | apply HX; assumption
    | apply HO; first [assumption | lia]
    | apply f_equal2 ].

Section Linear.
Variables D Q : nat.
Variables B G Bt Gt : nat -> nat -> T.
Variable a : T.

Lemma interp2D_linear (Bx By : nat -> nat -> T) (X X1 X2 : nat -> nat -> T) qx qy :
  (forall dx dy, X dx dy = a * X1 dx dy + X2 dx dy) ->
  interp2D D Bx By X qx qy
  = a * interp2D D Bx By X1 qx qy + interp2D D Bx By X2 qx qy.
Proof. intros H. unfold interp2D. lin_sums. rewrite H. ring. Qed.

Lemma interp3D_linear (Bx By Bz : nat -> nat -> T)
      (X X1 X2 : nat -> nat -> nat -> T) qx qy qz :
  (forall dx dy dz, X dx dy dz = a * X1 dx dy dz + X2 dx dy dz) ->
  interp3D D Bx By Bz X qx qy qz
  = a * interp3D D Bx By Bz X1 qx qy qz + interp3D D Bx By Bz X2 qx qy qz.
Proof. intros H. unfold interp3D. lin_sums. rewrite H. ring. Qed.

Lemma direct2D_linear_x O (X X1 X2 : nat -> nat -> T) dx dy :
  (forall dx dy, X dx dy = a * X1 dx dy + X2 dx dy) ->
  direct2D D Q B G Bt O X dx dy
  = a * direct2D D Q B G Bt O X1 dx dy + direct2D D Q B G Bt O X2 dx dy.
Proof.
  intros H. unfold direct2D. lin_sums.
  rewrite !(@interp2D_linear _ _ _ _ _ _ _ H). ring.
Qed.

Lemma directT2D_linear_x O (X X1 X2 : nat -> nat -> T) dx dy :
  (forall dx dy, X dx dy = a * X1 dx dy + X2 dx dy) ->
  directT2D D Q B Bt Gt O X dx dy
  = a * directT2D D Q B Bt Gt O X1 dx dy + directT2D D Q B Bt Gt O X2 dx dy.
Proof.
  intros H. unfold directT2D. lin_sums.
  rewrite !(@interp2D_linear _ _ _ _ _ _ _ H). ring.
Qed.

Lemma direct3D_linear_x O (X X1 X2 : nat -> nat -> nat -> T) dx dy dz :
  (forall dx dy dz, X dx dy dz = a * X1 dx dy dz + X2 dx dy dz) ->
  direct3D D Q B G Bt O X dx dy dz
  = a * direct3D D Q B G Bt O X1 dx dy dz + direct3D D Q B G Bt O X2 dx dy dz.
Proof.
  intros H. unfold direct3D. lin_sums.
  rewrite !(@interp3D_linear _ _ _ _ _ _ _ _ _ H). ring.
Qed.

Lemma directT3D_linear_x O (X X1 X2 : nat -> nat -> nat -> T) dx dy dz :
  (forall dx dy dz, X dx dy dz = a * X1 dx dy dz + X2 dx dy dz) ->
  directT3D D Q B Bt Gt O X dx dy dz
  = a * directT3D D Q B Bt Gt O X1 dx dy dz + directT3D D Q B Bt Gt O X2 dx dy dz.
Proof.
  intros H. unfold directT3D. lin_sums.
  rewrite !(@interp3D_linear _ _ _ _ _ _ _ _ _ H). ring.
Qed.

Lemma direct2D_linear_op (O O1 O2 : nat -> nat -> nat -> T) X dx dy :
  (forall qx qy c, O qx qy c = a * O1 qx qy c + O2 qx qy c) ->
  direct2D D Q B G Bt O X dx dy
  = a * direct2D D Q B G Bt O1 X dx dy + direct2D D Q B G Bt O2 X dx dy.
Proof. intros H. unfold direct2D. lin_sums. rewrite !H. ring. Qed.

Lemma directT2D_linear_op (O O1 O2 : nat -> nat -> nat -> T) X dx dy :
  (forall qx qy c, O qx qy c = a * O1 qx qy c + O2 qx qy c) ->
  directT2D D Q B Bt Gt O X dx dy
  = a * directT2D D Q B Bt Gt O1 X dx dy + directT2D D Q B Bt Gt O2 X dx dy.
Proof. intros H. unfold directT2D. lin_sums. rewrite !H. ring. Qed.

Lemma direct3D_linear_op (O O1 O2 : nat -> nat -> nat -> nat -> T) X dx dy dz :
  (forall qx qy qz c, O qx qy qz c = a * O1 qx qy qz c + O2 qx qy qz c) ->
  direct3D D Q B G Bt O X dx dy dz
  = a * direct3D D Q B G Bt O1 X dx dy dz + direct3D D Q B G Bt O2 X dx dy dz.
Proof. intros H. unfold direct3D. lin_sums. rewrite !H. ring. Qed.

Lemma directT3D_linear_op (O O1 O2 : nat -> nat -> nat -> nat -> T) X dx dy dz :
  (forall qx qy qz c, O qx qy qz c = a * O1 qx qy qz c + O2 qx qy qz c) ->
  directT3D D Q B Bt Gt O X dx dy dz
  = a * directT3D D Q B Bt Gt O1 X dx dy dz + directT3D D Q B Bt Gt O2 X dx dy dz.
Proof. intros H. unfold directT3D. lin_sums. rewrite !H. ring. Qed.
End Linear.

Section ContributionLinear.
Variables dim D1D Q1D : nat.
Variables b g bt gt : list T.
Variable a : T.

Lemma Apply_contribution_linear_x (op_ x_ x1 x2 : list T) (i : nat) :
  (forall k, rd x_ k = a * rd x1 k + rd x2 k) ->
  Apply_contribution dim D1D Q1D b g bt op_ x_ i
  = a * Apply_contribution dim D1D Q1D b g bt op_ x1 i
    + Apply_contribution dim D1D Q1D b g bt op_ x2 i.
Proof.
  intros H. unfold Apply_contribution, blockfun2, blockfun3, Apply2D_val, Apply3D_val.
  destruct (dim =? 2); rewrite ?conv2D_direct, ?conv3D_direct.
  - apply direct2D_linear_x. intros; apply H.
  - apply direct3D_linear_x. intros; apply H.
Qed.

Lemma ApplyT_contribution_linear_x (op_ x_ x1 x2 : list T) (i : nat) :
  (forall k, rd x_ k = a * rd x1 k + rd x2 k) ->
  ApplyT_contribution dim D1D Q1D b bt gt op_ x_ i
  = a * ApplyT_contribution dim D1D Q1D b bt gt op_ x1 i
    + ApplyT_contribution dim D1D Q1D b bt gt op_ x2 i.
Proof.
  intros H. unfold ApplyT_contribution, blockfun2, blockfun3, ApplyT2D_val, ApplyT3D_val.
  destruct (dim =? 2); rewrite ?convT2D_direct, ?convT3D_direct.
  - apply directT2D_linear_x. intros; apply H.
  - apply directT3D_linear_x. intros; apply H.
Qed.

Lemma Apply_contribution_linear_op (op_ op1 op2 x_ : list T) (i : nat) :
  (forall k, rd op_ k = a * rd op1 k + rd op2 k) ->
  Apply_contribution dim D1D Q1D b g bt op_ x_ i
  = a * Apply_contribution dim D1D Q1D b g bt op1 x_ i
    + Apply_contribution dim D1D Q1D b g bt op2 x_ i.
Proof.
  intros H. unfold Apply_contribution, blockfun2, blockfun3, Apply2D_val, Apply3D_val.
  destruct (dim =? 2); rewrite ?conv2D_direct, ?conv3D_direct.
  - apply direct2D_linear_op. intros; apply H.
  - apply direct3D_linear_op. intros; apply H.
Qed.

Lemma ApplyT_contribution_linear_op (op_ op1 op2 x_ : list T) (i : nat) :
  (forall k, rd op_ k = a * rd op1 k + rd op2 k) ->
  ApplyT_contribution dim D1D Q1D b bt gt op_ x_ i
  = a * ApplyT_contribution dim D1D Q1D b bt gt op1 x_ i
    + ApplyT_contribution dim D1D Q1D b bt gt op2 x_ i.
Proof.
  intros H. unfold ApplyT_contribution, blockfun2, blockfun3, ApplyT2D_val, ApplyT3D_val.
  destruct (dim =? 2); rewrite ?convT2D_direct, ?convT3D_direct.
  - apply directT2D_linear_op. intros; apply H.
  - apply directT3D_linear_op. intros; apply H.
Qed.
End ContributionLinear.

(** Only the entries within the sizes matter. *)
Section Local2D.
Variables D Q : nat.
Variables B G Bt Gt B' G' Bt' Gt' : nat -> nat -> T.
Variables O O' : nat -> nat -> nat -> T.
Variables X X' : nat -> nat -> T.
Hypothesis HB : forall q d, (q < Q)%nat -> (d < D)%nat -> B q d = B' q d.
Hypothesis HG : forall q d, (q < Q)%nat -> (d < D)%nat -> G q d = G' q d.
Hypothesis HBt : forall d q, (d < D)%nat -> (q < Q)%nat -> Bt d q = Bt' d q.
Hypothesis HGt : forall d q, (d < D)%nat -> (q < Q)%nat -> Gt d q = Gt' d q.
Hypothesis HO : forall qx qy c, (qx < Q)%nat -> (qy < Q)%nat -> (c < 2)%nat ->
                                O qx qy c = O' qx qy c.
Hypothesis HX : forall dx dy, (dx < D)%nat -> (dy < D)%nat -> X dx dy = X' dx dy.

Lemma interp2D_ext (Bx By Bx' By' : nat -> nat -> T) qx qy :
  (forall d, (d < D)%nat -> Bx qx d = Bx' qx d) ->
  (forall d, (d < D)%nat -> By qy d = By' qy d) ->
  interp2D D Bx By X qx qy = interp2D D Bx' By' X' qx qy.
Proof.
  intros Hx Hy. unfold interp2D. ext_sums.
  rewrite Hx, Hy, HX by assumption. reflexivity.
Qed.

Lemma direct2D_ext dx dy :
  (dx < D)%nat -> (dy < D)%nat ->
  direct2D D Q B G Bt O X dx dy = direct2D D Q B' G' Bt' O' X' dx dy.
Proof.
  intros Hdx Hdy. unfold direct2D. ext_sums.
  rewrite (@HBt dx _), (@HBt dy _), (@HO _ _ 0%nat), (@HO _ _ 1%nat) by (assumption || lia).
  rewrite (@interp2D_ext G B G' B'), (@interp2D_ext B G B' G') by auto.
  reflexivity.
Qed.

Lemma conv2D_ext dx dy :
  (dx < D)%nat -> (dy < D)%nat ->
  conv2D D Q B G Bt O X dx dy = conv2D D Q B' G' Bt' O' X' dx dy.
Proof.
  intros Hdx Hdy.
  unfold conv2D, m2_BDGu, m2_DGu, m2_BGu, m2_GBu, m2_Gu, m2_Bu.
  ext_ops HB HG HBt HGt HO HX.
Qed.

Lemma convT2D_ext dx dy :
  (dx < D)%nat -> (dy < D)%nat ->
  convT2D D Q B Bt Gt O X dx dy = convT2D D Q B' Bt' Gt' O' X' dx dy.
Proof.
  intros Hdx Hdy.
  unfold convT2D. cbn [m2_GDBu]. unfold m2_DBu, m2_BBu, m2_Bu.
  ext_ops HB HG HBt HGt HO HX.
Qed.

Lemma directT2D_ext dx dy :
  (dx < D)%nat -> (dy < D)%nat ->
  directT2D D Q B Bt Gt O X dx dy = directT2D D Q B' Bt' Gt' O' X' dx dy.
Proof.
  intros Hdx Hdy. unfold directT2D. ext_sums.
  rewrite (@HBt dx _), (@HBt dy _), (@HGt dx _), (@HGt dy _), (@HO _ _ 0%nat), (@HO _ _ 1%nat)
    by (assumption || lia).
  rewrite (@interp2D_ext B B B' B') by auto.
  reflexivity.
Qed.
End Local2D.

Section Local3D.
Variables D Q : nat.
Variables B G Bt Gt B' G' Bt' Gt' : nat -> nat -> T.
Variables O O' : nat -> nat -> nat -> nat -> T.
Variables X X' : nat -> nat -> nat -> T.
Hypothesis HB : forall q d, (q < Q)%nat -> (d < D)%nat -> B q d = B' q d.
Hypothesis HG : forall q d, (q < Q)%nat -> (d < D)%nat -> G q d = G' q d.
Hypothesis HBt : forall d q, (d < D)%nat -> (q < Q)%nat -> Bt d q = Bt' d q.
Hypothesis HGt : forall d q, (d < D)%nat -> (q < Q)%nat -> Gt d q = Gt' d q.
Hypothesis HO : forall qx qy qz c, (qx < Q)%nat -> (qy < Q)%nat -> (qz < Q)%nat ->
                                   (c < 3)%nat -> O qx qy qz c = O' qx qy qz c.
Hypothesis HX : forall dx dy dz, (dx < D)%nat -> (dy < D)%nat -> (dz < D)%nat ->
                                 X dx dy dz = X' dx dy dz.

Lemma interp3D_ext (Bx By Bz Bx' By' Bz' : nat -> nat -> T) qx qy qz :
  (forall d, (d < D)%nat -> Bx qx d = Bx' qx d) ->
  (forall d, (d < D)%nat -> By qy d = By' qy d) ->
  (forall d, (d < D)%nat -> Bz qz d = Bz' qz d) ->
  interp3D D Bx By Bz X qx qy qz = interp3D D Bx' By' Bz' X' qx qy qz.
Proof.
  intros Hx Hy Hz. unfold interp3D. ext_sums.
  rewrite Hx, Hy, Hz, HX by assumption. reflexivity.
Qed.

Lemma direct3D_ext dx dy dz :
  (dx < D)%nat -> (dy < D)%nat -> (dz < D)%nat ->
  direct3D D Q B G Bt O X dx dy dz = direct3D D Q B' G' Bt' O' X' dx dy dz.
Proof.
  intros Hdx Hdy Hdz. unfold direct3D. ext_sums.
  rewrite (@HBt dx _), (@HBt dy _), (@HBt dz _),
    (@HO _ _ _ 0%nat), (@HO _ _ _ 1%nat), (@HO _ _ _ 2%nat) by (assumption || lia).
  rewrite (@interp3D_ext G B B G' B' B'), (@interp3D_ext B G B B' G' B'),
    (@interp3D_ext B B G B' B' G') by auto.
  reflexivity.
Qed.

Lemma conv3D_ext dx dy dz :
  (dx < D)%nat -> (dy < D)%nat -> (dz < D)%nat ->
  conv3D D Q B G Bt O X dx dy dz = conv3D D Q B' G' Bt' O' X' dx dy dz.
Proof.
  intros Hdx Hdy Hdz.
  unfold conv3D, m3_BBDGu, m3_BDGu, m3_DGu, m3_BBGu, m3_BGBu, m3_GBBu,
         m3_BGu, m3_GBu, m3_BBu, m3_Gu, m3_Bu.
  ext_ops HB HG HBt HGt HO HX.
Qed.

Lemma convT3D_ext dx dy dz :
  (dx < D)%nat -> (dy < D)%nat -> (dz < D)%nat ->
  convT3D D Q B Bt Gt O X dx dy dz = convT3D D Q B' Bt' Gt' O' X' dx dy dz.
Proof.
  intros Hdx Hdy Hdz.
  unfold convT3D. cbn [m3_GGDBu m3_GDBu]. unfold m3_DBu, m3_BBBu, m3_BBu, m3_Bu.
  ext_ops HB HG HBt HGt HO HX.
Qed.

Lemma directT3D_ext dx dy dz :
  (dx < D)%nat -> (dy < D)%nat -> (dz < D)%nat ->
  directT3D D Q B Bt Gt O X dx dy dz = directT3D D Q B' Bt' Gt' O' X' dx dy dz.
Proof.
  intros Hdx Hdy Hdz. unfold directT3D. ext_sums.
  rewrite (@HBt dx _), (@HBt dy _), (@HBt dz _), (@HGt dx _), (@HGt dy _), (@HGt dz _),
    (@HO _ _ _ 0%nat), (@HO _ _ _ 1%nat), (@HO _ _ _ 2%nat) by (assumption || lia).
  rewrite (@interp3D_ext B B B B' B' B') by auto.
  reflexivity.
Qed.
End Local3D.

Local Close Scope scalar_scope.

Lemma in_block_decode2 (D e i : nat) :
  in_block (D ^ 2) e i -> 0 < D /\ i / D / D = e.
Proof.
  unfold in_block. simpl. rewrite Nat.mul_1_r. intros [H1 H2].
  assert (HD : 0 < D) by nia. split; [exact HD|].
  rewrite Nat.Div0.div_div.
  symmetry. apply Nat.div_unique with (r := i - D * D * e); lia.
Qed.

Lemma in_block_decode3 (D e i : nat) :
  in_block (D ^ 3) e i -> 0 < D /\ i / D / D / D = e.
Proof.
  unfold in_block. simpl. rewrite Nat.mul_1_r. intros [H1 H2].
  assert (HD : 0 < D) by nia. split; [exact HD|].
  rewrite !Nat.Div0.div_div.
  symmetry. apply Nat.div_unique with (r := i - D * (D * D) * e); lia.
Qed.

Lemma Reshape2_below (N1 N2 i j : nat) :
  i < N1 -> j < N2 -> Reshape2 N1 i j < N1 * N2.
Proof. unfold Reshape2. nia. Qed.

Lemma Reshape3_block (D dx dy e : nat) :
  dx < D -> dy < D -> in_block (D ^ 2) e (Reshape3 D D dx dy e).
Proof. unfold in_block, Reshape3. simpl. nia. Qed.

Lemma Reshape4_block (D dx dy dz e : nat) :
  dx < D -> dy < D -> dz < D -> in_block (D ^ 3) e (Reshape4 D D D dx dy dz e).
Proof.
  unfold in_block, Reshape4. simpl. intros Hx Hy Hz.
  assert (dx + D * (dy + D * dz) < D * (D * D)) by nia. nia.
Qed.

Lemma Reshape4_op_block (Q qx qy c e : nat) :
  qx < Q -> qy < Q -> c < 2 -> in_block (2 * Q ^ 2) e (Reshape4 Q Q 2 qx qy c e).
Proof.
  unfold in_block, Reshape4. simpl. intros Hx Hy Hc.
  assert (qx + Q * qy < Q * Q) by nia. nia.
Qed.

Lemma Reshape5_op_block (Q qx qy qz c e : nat) :
  qx < Q -> qy < Q -> qz < Q -> c < 3 ->
  in_block (3 * Q ^ 3) e (Reshape5 Q Q Q 3 qx qy qz c e).
Proof.
  unfold in_block, Reshape5. simpl. intros Hx Hy Hz Hc.
  assert (qx + Q * qy < Q * Q) by nia.
  assert (qx + Q * (qy + Q * qz) < Q * (Q * Q)) by nia. nia.
Qed.

Local Open Scope scalar_scope.

Section ContributionLocal.
Variables dim D1D Q1D : nat.
Variables b g bt gt op_ x_ b' g' bt' gt' op' x' : list T.
Variables e i : nat.
Hypothesis Hdim : dim = 2%nat \/ dim = 3%nat.
Hypothesis Hi : in_block (D1D ^ dim) e i.
Hypothesis Hb : forall k, (k < Q1D * D1D)%nat -> rd b k = rd b' k.
Hypothesis Hg : forall k, (k < Q1D * D1D)%nat -> rd g k = rd g' k.
Hypothesis Hbt : forall k, (k < D1D * Q1D)%nat -> rd bt k = rd bt' k.
Hypothesis Hgt : forall k, (k < D1D * Q1D)%nat -> rd gt k = rd gt' k.
Hypothesis Hx : forall k, in_block (D1D ^ dim) e k -> rd x_ k = rd x' k.
Hypothesis Hop : forall k, in_block (dim * Q1D ^ dim) e k -> rd op_ k = rd op' k.

Lemma Apply_contribution_local :
  Apply_contribution dim D1D Q1D b g bt op_ x_ i
  = Apply_contribution dim D1D Q1D b' g' bt' op' x' i.
Proof.
  unfold Apply_contribution. destruct Hdim as [E|E]; subst dim; cbn [Nat.eqb].
  - destruct (@in_block_decode2 _ _ _ Hi) as [HD He].
    unfold blockfun2, Apply2D_val. rewrite He.
    apply conv2D_ext;
      try (apply Nat.mod_upper_bound; lia);
      unfold acc_B, acc_G, acc_Bt, acc_op2, acc_x2; intros.
    + apply Hb. now apply Reshape2_below.
    + apply Hg. now apply Reshape2_below.
    + apply Hbt. now apply Reshape2_below.
    + apply Hop. now apply Reshape4_op_block.
    + apply Hx. now apply Reshape3_block.
  - destruct (@in_block_decode3 _ _ _ Hi) as [HD He].
    unfold blockfun3, Apply3D_val. rewrite He.
    apply conv3D_ext;
      try (apply Nat.mod_upper_bound; lia);
      unfold acc_B, acc_G, acc_Bt, acc_op3, acc_x3; intros.
    + apply Hb. now apply Reshape2_below.
    + apply Hg. now apply Reshape2_below.
    + apply Hbt. now apply Reshape2_below.
    + apply Hop. now apply Reshape5_op_block.
    + apply Hx. now apply Reshape4_block.
Qed.

Lemma ApplyT_contribution_local :
  ApplyT_contribution dim D1D Q1D b bt gt op_ x_ i
  = ApplyT_contribution dim D1D Q1D b' bt' gt' op' x' i.
Proof.
  unfold ApplyT_contribution. destruct Hdim as [E|E]; subst dim; cbn [Nat.eqb].
  - destruct (@in_block_decode2 _ _ _ Hi) as [HD He].
    unfold blockfun2, ApplyT2D_val. rewrite He.
    apply convT2D_ext;
      try (apply Nat.mod_upper_bound; lia);
      unfold acc_B, acc_Bt, acc_Gt, acc_op2, acc_x2; intros.
    + apply Hb. now apply Reshape2_below.
    + apply Hbt. now apply Reshape2_below.
    + apply Hgt. now apply Reshape2_below.
    + apply Hop. now apply Reshape4_op_block.
    + apply Hx. now apply Reshape3_block.
  - destruct (@in_block_decode3 _ _ _ Hi) as [HD He].
    unfold blockfun3, ApplyT3D_val. rewrite He.
    apply convT3D_ext;
      try (apply Nat.mod_upper_bound; lia);
      unfold acc_B, acc_Bt, acc_Gt, acc_op3, acc_x3; intros.
    + apply Hb. now apply Reshape2_below.
    + apply Hbt. now apply Reshape2_below.
    + apply Hgt. now apply Reshape2_below.
    + apply Hop. now apply Reshape5_op_block.
    + apply Hx. now apply Reshape4_block.
Qed.
End ContributionLocal.

(** * Part XVII. Further properties of Apply and ApplyTranspose *)

Section GenericSpec.
Variables dim D1D Q1D NE : nat.
Variables b g bt gt op_ x_ y_ : list T.
Hypothesis Hdim : dim = 2%nat \/ dim = 3%nat.
Hypothesis HD : (D1D <= MAX_D1D)%nat.
Hypothesis HQ : (Q1D <= MAX_Q1D)%nat.
Hypothesis HL : (ndofs dim NE D1D <= length y_)%nat.

Lemma generic_Apply_spec :
  exists y',
    generic_Apply dim D1D Q1D NE b g bt gt op_ x_ y_ = Some y' /\
    length y' = length y_ /\
    (forall i, (i < ndofs dim NE D1D)%nat ->
       rd y' i = rd y_ i + Apply_contribution dim D1D Q1D b g bt op_ x_ i) /\
    (forall i, (ndofs dim NE D1D <= i)%nat -> rd y' i = rd y_ i).
Proof.
  eexists. split; [now apply generic_Apply_eq|]. now apply Apply_result_spec.
Qed.

Lemma generic_ApplyT_spec :
  exists y',
    generic_ApplyT dim D1D Q1D NE b g bt gt op_ x_ y_ = Some y' /\
    length y' = length y_ /\
    (forall i, (i < ndofs dim NE D1D)%nat ->
       rd y' i = rd y_ i + ApplyT_contribution dim D1D Q1D b bt gt op_ x_ i) /\
    (forall i, (ndofs dim NE D1D <= i)%nat -> rd y' i = rd y_ i).
Proof.
  eexists. split; [now apply generic_ApplyT_eq|]. now apply ApplyT_result_spec.
Qed.
End GenericSpec.

(** X6: in exact arithmetic and within the platform limits the generic
    Apply kernels add to
    [y(dx,dy,e)] (to [y(dx,dy,dz,e)] in dimension 3) the sum, over all the
    quadrature points of the element, of [Bt(dx,qx) Bt(dy,qy)] times
    [op(q,0,e)] times the first derivative of the element's function plus
    [op(q,1,e)] times the second one, the derivatives being the sums over
    all the dofs: the sum factorisation computes the sums written out. *)
Theorem Apply_direct_sums (NE D1D Q1D : nat) (b g bt gt op_ x_ y_ : list T) :
  (D1D <= MAX_D1D)%nat -> (Q1D <= MAX_Q1D)%nat ->
  ((D1D * D1D * NE <= length y_)%nat ->
   exists y',
     PAConvectionApply2D 0 0 NE b g bt gt op_ x_ y_ D1D Q1D = Some y' /\
     forall e dx dy, (e < NE)%nat -> (dx < D1D)%nat -> (dy < D1D)%nat ->
       rd y' (Reshape3 D1D D1D dx dy e)
       = rd y_ (Reshape3 D1D D1D dx dy e)
         + direct2D D1D Q1D (acc_B Q1D b) (acc_G Q1D g) (acc_Bt D1D bt)
             (acc_op2 Q1D op_ e) (acc_x2 D1D x_ e) dx dy) /\
  ((D1D * D1D * D1D * NE <= length y_)%nat ->
   exists y',
     PAConvectionApply3D 0 0 NE b g bt gt op_ x_ y_ D1D Q1D = Some y' /\
     forall e dx dy dz,
       (e < NE)%nat -> (dx < D1D)%nat -> (dy < D1D)%nat -> (dz < D1D)%nat ->
       rd y' (Reshape4 D1D D1D D1D dx dy dz e)
       = rd y_ (Reshape4 D1D D1D D1D dx dy dz e)
         + direct3D D1D Q1D (acc_B Q1D b) (acc_G Q1D g) (acc_Bt D1D bt)
             (acc_op3 Q1D op_ e) (acc_x3 D1D x_ e) dx dy dz).
Proof.
  intros HD HQ. split; intros HL.
  - rewrite PAConvectionApply2D_eq by assumption. cbn [tparam].
    eexists. split; [reflexivity|]. intros e dx dy He Hdx Hdy.
    destruct (@add_elems2D_spec NE D1D (Apply2D_val D1D Q1D b g bt op_ x_) y_ HL)
      as (_ & H & _).
    rewrite H by assumption. unfold Apply2D_val. now rewrite conv2D_direct.
  - rewrite PAConvectionApply3D_eq by assumption. cbn [tparam].
    eexists. split; [reflexivity|]. intros e dx dy dz He Hdx Hdy Hdz.
    destruct (@add_elems3D_spec NE D1D (Apply3D_val D1D Q1D b g bt op_ x_) y_ HL)
      as (_ & H & _).
    rewrite H by assumption. unfold Apply3D_val. now rewrite conv3D_direct.
Qed.

(** X7: in exact arithmetic and within the platform limits the generic
    ApplyTranspose kernels add to [y(dx,dy,e)] the sum, over all the quadrature points of the
    element, of the value of the element's function times
    [Gt(dx,qx) Bt(dy,qy) op(q,0,e) + Bt(dx,qx) Gt(dy,qy) op(q,1,e)], with
    the third term [Bt Bt Gt op(q,2,e)] in dimension 3. *)
Theorem ApplyT_direct_sums (NE D1D Q1D : nat) (b g bt gt op_ x_ y_ : list T) :
  (D1D <= MAX_D1D)%nat -> (Q1D <= MAX_Q1D)%nat ->
  ((D1D * D1D * NE <= length y_)%nat ->
   exists y',
     PAConvectionApplyT2D 0 0 NE b g bt gt op_ x_ y_ D1D Q1D = Some y' /\
     forall e dx dy, (e < NE)%nat -> (dx < D1D)%nat -> (dy < D1D)%nat ->
       rd y' (Reshape3 D1D D1D dx dy e)
       = rd y_ (Reshape3 D1D D1D dx dy e)
         + directT2D D1D Q1D (acc_B Q1D b) (acc_Bt D1D bt) (acc_Gt D1D gt)
             (acc_op2 Q1D op_ e) (acc_x2 D1D x_ e) dx dy) /\
  ((D1D * D1D * D1D * NE <= length y_)%nat ->
   exists y',
     PAConvectionApplyT3D 0 0 NE b g bt gt op_ x_ y_ D1D Q1D = Some y' /\
     forall e dx dy dz,
       (e < NE)%nat -> (dx < D1D)%nat -> (dy < D1D)%nat -> (dz < D1D)%nat ->
       rd y' (Reshape4 D1D D1D D1D dx dy dz e)
       = rd y_ (Reshape4 D1D D1D D1D dx dy dz e)
         + directT3D D1D Q1D (acc_B Q1D b) (acc_Bt D1D bt) (acc_Gt D1D gt)
             (acc_op3 Q1D op_ e) (acc_x3 D1D x_ e) dx dy dz).
Proof.
  intros HD HQ. split; intros HL.
  - rewrite PAConvectionApplyT2D_eq by assumption. cbn [tparam].
    eexists. split; [reflexivity|]. intros e dx dy He Hdx Hdy.
    destruct (@add_elems2D_spec NE D1D (ApplyT2D_val D1D Q1D b bt gt op_ x_) y_ HL)
      as (_ & H & _).
    rewrite H by assumption. unfold ApplyT2D_val. now rewrite convT2D_direct.
  - rewrite PAConvectionApplyT3D_eq by assumption. cbn [tparam].
    eexists. split; [reflexivity|]. intros e dx dy dz He Hdx Hdy Hdz.
    destruct (@add_elems3D_spec NE D1D (ApplyT3D_val D1D Q1D b bt gt op_ x_) y_ HL)
      as (_ & H & _).
    rewrite H by assumption. unfold ApplyT3D_val. now rewrite convT3D_direct.
Qed.

Lemma added_eq (y' y : list T) (M : T) (i : nat) :
  rd y' i = rd y i + M -> added y' y i = M.
Proof. intros H. unfold added. rewrite H. ring. Qed.

(** X8: in exact arithmetic the generic Apply and ApplyTranspose
    kernels are linear in the input vector: when
    [x = a*x1 + x2] entry by entry, what a call adds to [y] for [x] is [a]
    times what it adds for [x1] plus what it adds for [x2]. *)
Theorem Apply_linear_in_x (dim D1D Q1D NE : nat) (b g bt gt op_ x_ x1 x2 y_ : list T)
        (a : T) :
  dim = 2%nat \/ dim = 3%nat ->
  (D1D <= MAX_D1D)%nat -> (Q1D <= MAX_Q1D)%nat ->
  (ndofs dim NE D1D <= length y_)%nat ->
  (forall k, rd x_ k = a * rd x1 k + rd x2 k) ->
  (exists y' y1' y2',
     generic_Apply dim D1D Q1D NE b g bt gt op_ x_ y_ = Some y' /\
     generic_Apply dim D1D Q1D NE b g bt gt op_ x1 y_ = Some y1' /\
     generic_Apply dim D1D Q1D NE b g bt gt op_ x2 y_ = Some y2' /\
     forall i, (i < ndofs dim NE D1D)%nat ->
       added y' y_ i = a * added y1' y_ i + added y2' y_ i) /\
  (exists y' y1' y2',
     generic_ApplyT dim D1D Q1D NE b g bt gt op_ x_ y_ = Some y' /\
     generic_ApplyT dim D1D Q1D NE b g bt gt op_ x1 y_ = Some y1' /\
     generic_ApplyT dim D1D Q1D NE b g bt gt op_ x2 y_ = Some y2' /\
     forall i, (i < ndofs dim NE D1D)%nat ->
       added y' y_ i = a * added y1' y_ i + added y2' y_ i).
Proof.
  intros Hdim HD HQ HL Hx. split.
  - destruct (@generic_Apply_spec dim D1D Q1D NE b g bt gt op_ x_ y_) as (y' & E & _ & A & _);
      try assumption.
    destruct (@generic_Apply_spec dim D1D Q1D NE b g bt gt op_ x1 y_) as (y1' & E1 & _ & A1 & _);
      try assumption.
    destruct (@generic_Apply_spec dim D1D Q1D NE b g bt gt op_ x2 y_) as (y2' & E2 & _ & A2 & _);
      try assumption.
    exists y', y1', y2'. repeat split; try assumption.
    intros i Hi.
    rewrite (@added_eq _ _ _ _ (A i Hi)), (@added_eq _ _ _ _ (A1 i Hi)), (@added_eq _ _ _ _ (A2 i Hi)).
    now apply Apply_contribution_linear_x.
  - destruct (@generic_ApplyT_spec dim D1D Q1D NE b g bt gt op_ x_ y_) as (y' & E & _ & A & _);
      try assumption.
    destruct (@generic_ApplyT_spec dim D1D Q1D NE b g bt gt op_ x1 y_) as (y1' & E1 & _ & A1 & _);
      try assumption.
    destruct (@generic_ApplyT_spec dim D1D Q1D NE b g bt gt op_ x2 y_) as (y2' & E2 & _ & A2 & _);
      try assumption.
    exists y', y1', y2'. repeat split; try assumption.
    intros i Hi.
    rewrite (@added_eq _ _ _ _ (A i Hi)), (@added_eq _ _ _ _ (A1 i Hi)), (@added_eq _ _ _ _ (A2 i Hi)).
    now apply ApplyT_contribution_linear_x.
Qed.

(** X9: in exact arithmetic the generic Apply and ApplyTranspose
    kernels are linear in the coefficient buffer:
    when [op = a*op1 + op2] entry by entry, what a call adds to [y] with
    [op] is [a] times what it adds with [op1] plus what it adds with
    [op2]. *)
Theorem Apply_linear_in_op (dim D1D Q1D NE : nat)
        (b g bt gt op_ op1 op2 x_ y_ : list T) (a : T) :
  dim = 2%nat \/ dim = 3%nat ->
  (D1D <= MAX_D1D)%nat -> (Q1D <= MAX_Q1D)%nat ->
  (ndofs dim NE D1D <= length y_)%nat ->
  (forall k, rd op_ k = a * rd op1 k + rd op2 k) ->
  (exists y' y1' y2',
     generic_Apply dim D1D Q1D NE b g bt gt op_ x_ y_ = Some y' /\
     generic_Apply dim D1D Q1D NE b g bt gt op1 x_ y_ = Some y1' /\
     generic_Apply dim D1D Q1D NE b g bt gt op2 x_ y_ = Some y2' /\
     forall i, (i < ndofs dim NE D1D)%nat ->
       added y' y_ i = a * added y1' y_ i + added y2' y_ i) /\
  (exists y' y1' y2',
     generic_ApplyT dim D1D Q1D NE b g bt gt op_ x_ y_ = Some y' /\
     generic_ApplyT dim D1D Q1D NE b g bt gt op1 x_ y_ = Some y1' /\
     generic_ApplyT dim D1D Q1D NE b g bt gt op2 x_ y_ = Some y2' /\
     forall i, (i < ndofs dim NE D1D)%nat ->
       added y' y_ i = a * added y1' y_ i + added y2' y_ i).
Proof.
  intros Hdim HD HQ HL Hx. split.
  - destruct (@generic_Apply_spec dim D1D Q1D NE b g bt gt op_ x_ y_) as (y' & E & _ & A & _);
      try assumption.
    destruct (@generic_Apply_spec dim D1D Q1D NE b g bt gt op1 x_ y_) as (y1' & E1 & _ & A1 & _);
      try assumption.
    destruct (@generic_Apply_spec dim D1D Q1D NE b g bt gt op2 x_ y_) as (y2' & E2 & _ & A2 & _);
      try assumption.
    exists y', y1', y2'. repeat split; try assumption.
    intros i Hi.
    rewrite (@added_eq _ _ _ _ (A i Hi)), (@added_eq _ _ _ _ (A1 i Hi)), (@added_eq _ _ _ _ (A2 i Hi)).
    now apply Apply_contribution_linear_op.
  - destruct (@generic_ApplyT_spec dim D1D Q1D NE b g bt gt op_ x_ y_) as (y' & E & _ & A & _);
      try assumption.
    destruct (@generic_ApplyT_spec dim D1D Q1D NE b g bt gt op1 x_ y_) as (y1' & E1 & _ & A1 & _);
      try assumption.
    destruct (@generic_ApplyT_spec dim D1D Q1D NE b g bt gt op2 x_ y_) as (y2' & E2 & _ & A2 & _);
      try assumption.
    exists y', y1', y2'. repeat split; try assumption.
    intros i Hi.
    rewrite (@added_eq _ _ _ _ (A i Hi)), (@added_eq _ _ _ _ (A1 i Hi)), (@added_eq _ _ _ _ (A2 i Hi)).
    now apply ApplyT_contribution_linear_op.
Qed.

Local Close Scope scalar_scope.

Lemma in_block_below (size e NE i : nat) :
  e < NE -> in_block size e i -> i < NE * size.
Proof. unfold in_block. intros He [_ H]. nia. Qed.

Lemma in_block_above (size e NE i : nat) :
  NE <= e -> in_block size e i -> NE * size <= i.
Proof. unfold in_block. intros He [H _]. nia. Qed.

Local Open Scope scalar_scope.

(** X10: what a call adds to the dofs of element [e] depends only on the
    entries of [x] and of the coefficient buffer that belong to element
    [e], and on the [Q1D * D1D] entries of each table: two calls whose
    inputs agree there leave the same values in the block of [e]. *)
Theorem Apply_reads_own_element (dim D1D Q1D NE : nat)
        (b g bt gt op_ x_ b' g' bt' gt' op' x' y_ : list T) (e : nat) :
  dim = 2%nat \/ dim = 3%nat ->
  (D1D <= MAX_D1D)%nat -> (Q1D <= MAX_Q1D)%nat ->
  (ndofs dim NE D1D <= length y_)%nat ->
  (forall k, (k < Q1D * D1D)%nat -> rd b k = rd b' k) ->
  (forall k, (k < Q1D * D1D)%nat -> rd g k = rd g' k) ->
  (forall k, (k < D1D * Q1D)%nat -> rd bt k = rd bt' k) ->
  (forall k, (k < D1D * Q1D)%nat -> rd gt k = rd gt' k) ->
  (forall k, in_block (D1D ^ dim) e k -> rd x_ k = rd x' k) ->
  (forall k, in_block (dim * Q1D ^ dim) e k -> rd op_ k = rd op' k) ->
  (exists y1 y2,
     generic_Apply dim D1D Q1D NE b g bt gt op_ x_ y_ = Some y1 /\
     generic_Apply dim D1D Q1D NE b' g' bt' gt' op' x' y_ = Some y2 /\
     forall i, in_block (D1D ^ dim) e i -> rd y1 i = rd y2 i) /\
  (exists y1 y2,
     generic_ApplyT dim D1D Q1D NE b g bt gt op_ x_ y_ = Some y1 /\
     generic_ApplyT dim D1D Q1D NE b' g' bt' gt' op' x' y_ = Some y2 /\
     forall i, in_block (D1D ^ dim) e i -> rd y1 i = rd y2 i).
Proof.
  intros Hdim HD HQ HL Hb Hg Hbt Hgt Hx Hop. split.
  - destruct (@generic_Apply_spec dim D1D Q1D NE b g bt gt op_ x_ y_)
      as (y1 & E1 & _ & A1 & F1); try assumption.
    destruct (@generic_Apply_spec dim D1D Q1D NE b' g' bt' gt' op' x' y_)
      as (y2 & E2 & _ & A2 & F2); try assumption.
    exists y1, y2. split; [exact E1|]. split; [exact E2|].
    intros i Hi. destruct (le_lt_dec NE e) as [He|He].
    + pose proof (in_block_above He Hi). unfold ndofs in *.
      now rewrite F1, F2.
    + pose proof (in_block_below He Hi). unfold ndofs in *.
      rewrite A1, A2 by assumption. f_equal.
      now apply Apply_contribution_local with (e := e).
  - destruct (@generic_ApplyT_spec dim D1D Q1D NE b g bt gt op_ x_ y_)
      as (y1 & E1 & _ & A1 & F1); try assumption.
    destruct (@generic_ApplyT_spec dim D1D Q1D NE b' g' bt' gt' op' x' y_)
      as (y2 & E2 & _ & A2 & F2); try assumption.
    exists y1, y2. split; [exact E1|]. split; [exact E2|].
    intros i Hi. destruct (le_lt_dec NE e) as [He|He].
    + pose proof (in_block_above He Hi). unfold ndofs in *.
      now rewrite F1, F2.
    + pose proof (in_block_below He Hi). unfold ndofs in *.
      rewrite A1, A2 by assumption. f_equal.
      now apply ApplyT_contribution_local with (e := e).
Qed.

(** X11: in exact arithmetic successive accumulations of the generic
    kernels into the same [y] commute: an Apply
    with [(op1, x1)] followed by an ApplyTranspose (or by another Apply)
    with [(op2, x2)] leaves the same vector as the two calls in the other
    order. *)
Theorem accumulations_commute (dim D1D Q1D NE : nat)
        (b g bt gt op1 op2 x1 x2 y_ : list T) :
  dim = 2%nat \/ dim = 3%nat ->
  (D1D <= MAX_D1D)%nat -> (Q1D <= MAX_Q1D)%nat ->
  (ndofs dim NE D1D <= length y_)%nat ->
  (exists y1 y2 y12 y21,
     generic_Apply dim D1D Q1D NE b g bt gt op1 x1 y_ = Some y1 /\
     generic_ApplyT dim D1D Q1D NE b g bt gt op2 x2 y1 = Some y12 /\
     generic_ApplyT dim D1D Q1D NE b g bt gt op2 x2 y_ = Some y2 /\
     generic_Apply dim D1D Q1D NE b g bt gt op1 x1 y2 = Some y21 /\
     y12 = y21) /\
  (exists y1 y2 y12 y21,
     generic_Apply dim D1D Q1D NE b g bt gt op1 x1 y_ = Some y1 /\
     generic_Apply dim D1D Q1D NE b g bt gt op2 x2 y1 = Some y12 /\
     generic_Apply dim D1D Q1D NE b g bt gt op2 x2 y_ = Some y2 /\
     generic_Apply dim D1D Q1D NE b g bt gt op1 x1 y2 = Some y21 /\
     y12 = y21).
Proof.
  intros Hdim HD HQ HL. split.
  - destruct (@generic_Apply_spec dim D1D Q1D NE b g bt gt op1 x1 y_)
      as (y1 & E1 & L1 & A1 & F1); try assumption.
    destruct (@generic_ApplyT_spec dim D1D Q1D NE b g bt gt op2 x2 y1)
      as (y12 & E12 & L12 & A12 & F12); try assumption; [lia|].
    destruct (@generic_ApplyT_spec dim D1D Q1D NE b g bt gt op2 x2 y_)
      as (y2 & E2 & L2 & A2 & F2); try assumption.
    destruct (@generic_Apply_spec dim D1D Q1D NE b g bt gt op1 x1 y2)
      as (y21 & E21 & L21 & A21 & F21); try assumption; [lia|].
    exists y1, y2, y12, y21. repeat split; try assumption.
    apply rd_ext; [congruence|]. intros i _.
    destruct (le_lt_dec (ndofs dim NE D1D) i) as [Hi|Hi].
    + now rewrite F12, F1, F21, F2.
    + rewrite A12, A1, A21, A2 by assumption. ring.
  - destruct (@generic_Apply_spec dim D1D Q1D NE b g bt gt op1 x1 y_)
      as (y1 & E1 & L1 & A1 & F1); try assumption.
    destruct (@generic_Apply_spec dim D1D Q1D NE b g bt gt op2 x2 y1)
      as (y12 & E12 & L12 & A12 & F12); try assumption; [lia|].
    destruct (@generic_Apply_spec dim D1D Q1D NE b g bt gt op2 x2 y_)
      as (y2 & E2 & L2 & A2 & F2); try assumption.
    destruct (@generic_Apply_spec dim D1D Q1D NE b g bt gt op1 x1 y2)
      as (y21 & E21 & L21 & A21 & F21); try assumption; [lia|].
    exists y1, y2, y12, y21. repeat split; try assumption.
    apply rd_ext; [congruence|]. intros i _.
    destruct (le_lt_dec (ndofs dim NE D1D) i) as [Hi|Hi].
    + now rewrite F12, F1, F21, F2.
    + rewrite A12, A1, A21, A2 by assumption. ring.
Qed.

Lemma Apply_result_empty (dim D1D Q1D NE : nat) (b g bt op_ x_ y_ : list T) :
  NE = 0%nat \/ D1D = 0%nat ->
  Apply_result dim D1D Q1D NE b g bt op_ x_ y_ = y_.
Proof.
  intros H. unfold Apply_result, add_elems2D, add_elems3D.
  destruct H as [-> | ->]; destruct (dim =? 2); try reflexivity;
    apply for_loop_id; intros; reflexivity.
Qed.

Lemma ApplyT_result_empty (dim D1D Q1D NE : nat) (b bt gt op_ x_ y_ : list T) :
  NE = 0%nat \/ D1D = 0%nat ->
  ApplyT_result dim D1D Q1D NE b bt gt op_ x_ y_ = y_.
Proof.
  intros H. unfold ApplyT_result, add_elems2D, add_elems3D.
  destruct H as [-> | ->]; destruct (dim =? 2); try reflexivity;
    apply for_loop_id; intros; reflexivity.
Qed.

(** X12: for dimension 2 or 3 and sizes within the platform limits, on
    a problem with no element or no dof per axis the generic Apply and
    ApplyTranspose return [y] as it was, whatever its length, and so do
    the dispatching entry points when [Q1D < 16]. No law of arithmetic is
    used. *)
Theorem Apply_empty (dim D1D Q1D NE : nat) (b g bt gt op_ x_ y_ : list T) :
  dim = 2%nat \/ dim = 3%nat ->
  (D1D <= MAX_D1D)%nat -> (Q1D <= MAX_Q1D)%nat ->
  NE = 0%nat \/ D1D = 0%nat ->
  generic_Apply dim D1D Q1D NE b g bt gt op_ x_ y_ = Some y_ /\
  generic_ApplyT dim D1D Q1D NE b g bt gt op_ x_ y_ = Some y_ /\
  ((Q1D < 16)%nat ->
   PAConvectionApply dim D1D Q1D NE b g bt gt op_ x_ y_ = Some y_ /\
   PAConvectionApplyT dim D1D Q1D NE b g bt gt op_ x_ y_ = Some y_).
Proof.
  intros Hdim HD HQ H.
  rewrite generic_Apply_eq, generic_ApplyT_eq by assumption.
  rewrite Apply_result_empty, ApplyT_result_empty by assumption.
  split; [reflexivity|]. split; [reflexivity|]. intros HK.
  rewrite PAConvectionApply_eq, PAConvectionApplyT_eq by assumption.
  now rewrite Apply_result_empty, ApplyT_result_empty.
Qed.

Lemma generic_kernels_limit (dim D1D Q1D NE : nat) (b g bt gt op_ x_ y_ : list T) :
  (MAX_D1D < D1D)%nat \/ (MAX_Q1D < Q1D)%nat ->
  generic_Apply dim D1D Q1D NE b g bt gt op_ x_ y_ = None /\
  generic_ApplyT dim D1D Q1D NE b g bt gt op_ x_ y_ = None.
Proof.
  intros H. unfold generic_Apply, generic_ApplyT.
  destruct (dim =? 2); [|destruct (dim =? 3); [|split; reflexivity]]; split.
  - now apply PAConvectionApply2D_limit.
  - now apply PAConvectionApplyT2D_limit.
  - now apply PAConvectionApply3D_limit.
  - now apply PAConvectionApplyT3D_limit.
Qed.

(** X13: when [Q1D] fits the four bits of the dispatch key, dispatching
    is transparent: for every dimension and all sizes the entry points
    return what the generic kernels return when run with the sizes of the
    call, the same [y] or the same abort. *)
Theorem dispatch_transparent (dim D1D Q1D NE : nat) (b g bt gt op_ x_ y_ : list T) :
  (Q1D < 16)%nat ->
  PAConvectionApply dim D1D Q1D NE b g bt gt op_ x_ y_
  = generic_Apply dim D1D Q1D NE b g bt gt op_ x_ y_ /\
  PAConvectionApplyT dim D1D Q1D NE b g bt gt op_ x_ y_
  = generic_ApplyT dim D1D Q1D NE b g bt gt op_ x_ y_.
Proof.
  intros HK.
  destruct (Nat.eq_dec dim 2) as [E2|N2]; [|destruct (Nat.eq_dec dim 3) as [E3|N3]].
  3:{ destruct (PAConvectionApply_dim D1D Q1D NE b g bt gt op_ x_ y_ N2 N3) as [-> ->].
      unfold generic_Apply, generic_ApplyT.
      apply Nat.eqb_neq in N2, N3. now rewrite N2, N3. }
  all: assert (Hdim : dim = 2%nat \/ dim = 3%nat) by auto;
    destruct (le_lt_dec D1D MAX_D1D) as [HD|HD];
    [destruct (le_lt_dec Q1D MAX_Q1D) as [HQ|HQ]|];
    first [ now rewrite PAConvectionApply_eq, PAConvectionApplyT_eq,
              generic_Apply_eq, generic_ApplyT_eq by assumption
          | rewrite PAConvectionApply_limit, PAConvectionApplyT_limit by auto;
            destruct (@generic_kernels_limit dim D1D Q1D NE b g bt gt op_ x_ y_) as [-> ->];
            auto ].
Qed.

(** X14: the entry points abort for every dimension other than 2 and 3,
    and, when [Q1D] fits the four bits of the dispatch key, for all sizes
    above a platform limit, whichever kernel the dispatch selects. *)
Theorem entry_points_abort (dim D1D Q1D NE : nat) (b g bt gt op_ x_ y_ : list T) :
  (dim <> 2%nat /\ dim <> 3%nat) \/
  ((Q1D < 16)%nat /\ ((MAX_D1D < D1D)%nat \/ (MAX_Q1D < Q1D)%nat)) ->
  PAConvectionApply dim D1D Q1D NE b g bt gt op_ x_ y_ = None /\
  PAConvectionApplyT dim D1D Q1D NE b g bt gt op_ x_ y_ = None.
Proof.
  intros [[N2 N3] | [HK Hlim]].
  - now apply PAConvectionApply_dim.
  - split; [now apply PAConvectionApply_limit|now apply PAConvectionApplyT_limit].
Qed.

(** X15: on sizes with [Q1D < 16] the dispatch key [(D1D << 4) | Q1D]
    is injective: two such pairs of sizes with the same key are equal. *)
Theorem dispatch_key_injective (D1D Q1D D1D' Q1D' : nat) :
  (Q1D < 16)%nat -> (Q1D' < 16)%nat ->
  dispatch_key D1D Q1D = dispatch_key D1D' Q1D' -> D1D = D1D' /\ Q1D = Q1D'.
Proof.
  intros H H' E. rewrite !dispatch_key_lt16 in E by assumption. lia.
Qed.

Lemma dispatch_key_wrap (d q : nat) :
  (q < 16)%nat -> dispatch_key d (16 * d + q) = dispatch_key d q.
Proof.
  intros Hq.
  assert (E : N.of_nat (16 * d + q) = dispatch_key d q)
    by (symmetry; now apply dispatch_key_lt16).
  unfold dispatch_key in *. rewrite E.
  now rewrite N.lor_assoc, N.lor_diag.
Qed.

(** X16: the dispatch looks at the key only. Sizes [(D1D, Q1D)] whose key
    equals the key of a catalogue pair [(d, q)] run the kernel
    instantiated at [(d, q)], with the sizes [(d, q)]; this is the case of
    the sizes [(d, 16*d + q)]. *)
Theorem dispatch_by_key_only (dim d q NE : nat) (b g bt gt op_ x_ y_ : list T) :
  In (d, q) (catalogue dim) ->
  (forall D1D Q1D, dispatch_key D1D Q1D = dispatch_key d q ->
     PAConvectionApply dim D1D Q1D NE b g bt gt op_ x_ y_
     = PAConvectionApply dim d q NE b g bt gt op_ x_ y_ /\
     PAConvectionApplyT dim D1D Q1D NE b g bt gt op_ x_ y_
     = PAConvectionApplyT dim d q NE b g bt gt op_ x_ y_) /\
  dispatch_key d (16 * d + q) = dispatch_key d q.
Proof.
  intros Hin. pose proof (catalogue_dim _ _ _ Hin) as Hdim.
  destruct Hdim as [-> | ->]; unfold catalogue in Hin; cbn [Nat.eqb] in Hin;
    repeat (destruct Hin as [Hin|Hin];
            [injection Hin as <- <-;
             split; [|apply dispatch_key_wrap; lia];
             intros D1D Q1D HK;
             unfold PAConvectionApply, PAConvectionApplyT; cbn [Nat.eqb];
             rewrite HK; split; reflexivity|]);
    destruct Hin.
Qed.

(** * Part XVIII. Further properties of Setup and AssemblePA *)

Section SetupFacts.
Variables NQ NE : nat.
Variables w j vel : list T.
Variable alpha : T.

(** [PAConvectionSetup] in dimension 2 or 3 as one loop nest. *)
Local Abbreviation entry := (Setup_entry NQ w j vel alpha).

Lemma PAConvectionSetup_nest (dim : nat) (op : list T) :
  dim = 2%nat \/ dim = 3%nat ->
  PAConvectionSetup dim NQ NE w j vel alpha op
  = Some (for_loop NE (fun e => for_loop NQ (fun q => for_loop dim (fun c b =>
            upd b (Reshape3 NQ dim q c e) (entry dim e q c)))) op).
Proof.
  intros [-> | ->]; unfold Setup_entry; cbn [Nat.eqb].
  - now rewrite PAConvectionSetup_2, PAConvectionSetup2D_nest.
  - now rewrite PAConvectionSetup_3, PAConvectionSetup3D_nest.
Qed.

Lemma PAConvectionSetup_spec (dim : nat) (op : list T) :
  dim = 2%nat \/ dim = 3%nat -> (NQ * dim * NE <= length op)%nat ->
  exists op',
    PAConvectionSetup dim NQ NE w j vel alpha op = Some op' /\
    length op' = length op /\
    (forall e q c, (e < NE)%nat -> (q < NQ)%nat -> (c < dim)%nat ->
       rd op' (Reshape3 NQ dim q c e) = entry dim e q c) /\
    (forall a, (NQ * dim * NE <= a)%nat -> rd op' a = rd op a).
Proof.
  intros Hdim HL. eexists. split; [now apply PAConvectionSetup_nest|].
  now apply setup_nest_spec.
Qed.

Lemma Setup_entry_solves (dim e q r : nat) :
  dim = 2%nat \/ dim = 3%nat -> (r < dim)%nat ->
  sum dim (fun c => jac NQ dim j q e r c * entry dim e q c)
  = det dim (jac NQ dim j q e) * weighted_velocity dim NQ w vel alpha q e r.
Proof.
  intros [-> | ->] Hr; unfold Setup_entry, det; cbn [Nat.eqb].
  - destruct r as [|[|r]]; [| |lia];
      unfold Setup2D_entry, det2, sum; cbn; ring.
  - destruct r as [|[|[|r]]]; [| | |lia];
      unfold Setup3D_entry, det3, cofactor3, sum; cbn; ring.
Qed.
End SetupFacts.

(** X17: in exact arithmetic the vector [y] that Setup stores at a
    quadrature point solves
    [J y = det(J) * alpha * W(q) * v], with [J] the Jacobian at the point:
    it is [det(J) J^-1] applied to the weighted velocity, computed
    without a division. *)
Theorem Setup_solves_Jacobian (dim NQ NE : nat) (w j vel : list T) (alpha : T)
        (op : list T) (q e : nat) :
  dim = 2%nat \/ dim = 3%nat ->
  (q < NQ)%nat -> (e < NE)%nat -> (NQ * dim * NE <= length op)%nat ->
  exists op',
    PAConvectionSetup dim NQ NE w j vel alpha op = Some op' /\
    forall r, (r < dim)%nat ->
      sum dim (fun c => jac NQ dim j q e r c * rd op' (Reshape3 NQ dim q c e))
      = det dim (jac NQ dim j q e) * weighted_velocity dim NQ w vel alpha q e r.
Proof.
  intros Hdim Hq He HL.
  destruct (@PAConvectionSetup_spec NQ NE w j vel alpha dim op Hdim HL)
    as (op' & E & _ & H & _).
  exists op'. split; [exact E|]. intros r Hr.
  rewrite <- (@Setup_entry_solves NQ w j vel alpha dim e q r Hdim Hr).
  apply sum_ext; intros c Hc. now rewrite H.
Qed.

(** X18: Setup in dimension 2 or 3 keeps the length of the buffer and
    the entries beyond the [NQ * dim * NE] it writes, and it is
    idempotent: run again on its own result it returns that result. *)
Theorem Setup_idempotent (dim NQ NE : nat) (w j vel : list T) (alpha : T)
        (op : list T) :
  dim = 2%nat \/ dim = 3%nat -> (NQ * dim * NE <= length op)%nat ->
  exists op',
    PAConvectionSetup dim NQ NE w j vel alpha op = Some op' /\
    length op' = length op /\
    (forall i, (NQ * dim * NE <= i)%nat -> rd op' i = rd op i) /\
    PAConvectionSetup dim NQ NE w j vel alpha op' = Some op'.
Proof.
  intros Hdim HL.
  destruct (@PAConvectionSetup_spec NQ NE w j vel alpha dim op Hdim HL)
    as (op' & E & L & H & F).
  exists op'. split; [exact E|]. split; [exact L|]. split; [exact F|].
  destruct (@PAConvectionSetup_spec NQ NE w j vel alpha dim op' Hdim)
    as (op'' & E' & L' & H' & F'); [lia|].
  rewrite E'. f_equal. apply rd_ext; [exact L'|].
  intros i _. destruct (le_lt_dec (NQ * dim * NE) i) as [Hi|Hi].
  - now apply F'.
  - destruct (Reshape3_surj _ _ _ Hi) as (q & c & e & Hq & Hc & He & ->).
    now rewrite H', H.
Qed.

Lemma velocity_uniform (dim NQ NE : nat) (v velfull : list T) (q e c : nat) :
  length v = dim ->
  (forall c q e, (c < dim)%nat -> (q < NQ)%nat -> (e < NE)%nat ->
                 rd velfull (Reshape3 dim NQ c q e) = rd v c) ->
  (q < NQ)%nat -> (e < NE)%nat -> (c < dim)%nat ->
  velocity dim NQ velfull q e c = velocity dim NQ v q e c.
Proof.
  intros Hv Hfull Hq He Hc. unfold velocity.
  rewrite Hv, Nat.eqb_refl.
  destruct (length velfull =? dim).
  - rewrite <- (Hfull c 0%nat 0%nat) by lia. f_equal.
    unfold Reshape3. lia.
  - now apply Hfull.
Qed.

(** X19: a uniform velocity stored as a single vector gives the same
    coefficient buffer as the same velocity stored at every quadrature
    point of every element. *)
Theorem Setup_uniform_velocity (dim NQ NE : nat) (w j v velfull : list T)
        (alpha : T) (op : list T) :
  dim = 2%nat \/ dim = 3%nat -> length v = dim ->
  (forall c q e, (c < dim)%nat -> (q < NQ)%nat -> (e < NE)%nat ->
                 rd velfull (Reshape3 dim NQ c q e) = rd v c) ->
  PAConvectionSetup dim NQ NE w j velfull alpha op
  = PAConvectionSetup dim NQ NE w j v alpha op.
Proof.
  intros Hdim Hv Hfull. rewrite !PAConvectionSetup_nest by assumption. f_equal.
  apply for_loop_ext; intros e s1 He.
  apply for_loop_ext; intros q s2 Hq.
  apply for_loop_ext; intros c s3 Hc. f_equal.
  assert (V : forall c', (c' < dim)%nat ->
            weighted_velocity dim NQ w velfull alpha q e c'
            = weighted_velocity dim NQ w v alpha q e c').
  { intros c' Hc'. unfold weighted_velocity.
    now rewrite (@velocity_uniform dim NQ NE v velfull q e c'). }
  unfold Setup_entry. destruct Hdim as [E|E]; subst dim; cbn [Nat.eqb].
  - unfold Setup2D_entry. now rewrite !V by lia.
  - unfold Setup3D_entry. now rewrite !V by lia.
Qed.

Lemma Setup_entry_linear (NQ : nat) (w j vel vel1 vel2 : list T) (alpha a : T)
      (dim e q c : nat) :
  length vel1 = length vel -> length vel2 = length vel ->
  (forall k, rd vel k = a * rd vel1 k + rd vel2 k) ->
  Setup_entry NQ w j vel alpha dim e q c
  = a * Setup_entry NQ w j vel1 alpha dim e q c
    + Setup_entry NQ w j vel2 alpha dim e q c.
Proof.
  intros L1 L2 H.
  assert (V : forall d c', weighted_velocity d NQ w vel alpha q e c'
              = a * weighted_velocity d NQ w vel1 alpha q e c'
                + weighted_velocity d NQ w vel2 alpha q e c').
  { intros d c'. unfold weighted_velocity, velocity. rewrite L1, L2.
    destruct (length vel =? d); rewrite H; ring. }
  unfold Setup_entry. destruct (dim =? 2).
  - unfold Setup2D_entry. rewrite !V. destruct c; ring.
  - unfold Setup3D_entry. rewrite !V. destruct c as [|[|c]]; ring.
Qed.

Lemma Setup_entry_scale (NQ : nat) (w j vel : list T) (alpha a : T)
      (dim e q c : nat) :
  Setup_entry NQ w j vel (a * alpha) dim e q c
  = a * Setup_entry NQ w j vel alpha dim e q c.
Proof.
  unfold Setup_entry. destruct (dim =? 2).
  - unfold Setup2D_entry, weighted_velocity. destruct c; ring.
  - unfold Setup3D_entry, weighted_velocity. destruct c as [|[|c]]; ring.
Qed.

(** X20: in exact arithmetic the coefficient buffer is linear in the
    velocity and in
    [alpha]: for [vel = a*vel1 + vel2] entry by entry (vectors of one
    length) every written entry is [a] times the entry for [vel1] plus the
    entry for [vel2], and replacing [alpha] by [a*alpha] multiplies every
    written entry by [a]. *)
Theorem Setup_linear (dim NQ NE : nat) (w j vel vel1 vel2 : list T) (alpha a : T)
        (op : list T) :
  dim = 2%nat \/ dim = 3%nat -> (NQ * dim * NE <= length op)%nat ->
  length vel1 = length vel -> length vel2 = length vel ->
  (forall k, rd vel k = a * rd vel1 k + rd vel2 k) ->
  exists op' op1 op2 opa,
    PAConvectionSetup dim NQ NE w j vel alpha op = Some op' /\
    PAConvectionSetup dim NQ NE w j vel1 alpha op = Some op1 /\
    PAConvectionSetup dim NQ NE w j vel2 alpha op = Some op2 /\
    PAConvectionSetup dim NQ NE w j vel1 (a * alpha) op = Some opa /\
    forall i, (i < NQ * dim * NE)%nat ->
      rd op' i = a * rd op1 i + rd op2 i /\ rd opa i = a * rd op1 i.
Proof.
  intros Hdim HL L1 L2 Hv.
  destruct (@PAConvectionSetup_spec NQ NE w j vel alpha dim op Hdim HL)
    as (op' & E & _ & H & _).
  destruct (@PAConvectionSetup_spec NQ NE w j vel1 alpha dim op Hdim HL)
    as (op1 & E1 & _ & H1 & _).
  destruct (@PAConvectionSetup_spec NQ NE w j vel2 alpha dim op Hdim HL)
    as (op2 & E2 & _ & H2 & _).
  destruct (@PAConvectionSetup_spec NQ NE w j vel1 (a * alpha) dim op Hdim HL)
    as (opa & Ea & _ & Ha & _).
  exists op', op1, op2, opa. repeat split; try assumption;
    destruct (Reshape3_surj _ _ _ H0) as (q & c & e & Hq & Hc & He & ->);
    rewrite ?H, ?H1, ?H2, ?Ha by assumption.
  - now apply Setup_entry_linear.
  - apply Setup_entry_scale.
Qed.

Lemma Setup_overwrites (dim NQ NE : nat) (w j vel : list T) (alpha : T)
      (op : list T) :
  dim = 2%nat \/ dim = 3%nat -> length op = (NQ * dim * NE)%nat ->
  exists op',
    PAConvectionSetup dim NQ NE w j vel alpha op = Some op' /\
    length op' = length op /\
    (forall op0, length op0 = length op ->
                 PAConvectionSetup dim NQ NE w j vel alpha op0 = Some op').
Proof.
  intros Hdim HL. eexists. split; [now apply PAConvectionSetup_nest|]. split.
  - apply setup_nest_spec. lia.
  - intros op0 H0. rewrite PAConvectionSetup_nest by assumption. f_equal.
    apply setup_nest_indep; congruence.
Qed.

(** X21: in the partial-assembly branch, AssemblePA aborts on a mesh of
    dimension 1; on a mesh of dimension 2 or 3 (the dimension of the
    element) it leaves an integrator that holds the sizes and tables of
    the space and a coefficient buffer of [dim * nq * ne] entries, and
    this integrator does not depend on the integrator before the call
    nor on what [SetSize] leaves in the buffer. *)
Theorem AssemblePA_spec (SetSize : list T -> nat -> list T)
        (self : ConvectionIntegrator) (alpha : T) (fes : AssembleView) :
  (forall v s, length (SetSize v s) = s) ->
  (mesh_Dimension fes = 1%nat -> AssemblePA SetSize self alpha fes = None) /\
  (el_GetDim fes = mesh_Dimension fes ->
   mesh_Dimension fes = 2%nat \/ mesh_Dimension fes = 3%nat ->
   exists self',
     AssemblePA SetSize self alpha fes = Some self' /\
     dim self' = mesh_Dimension fes /\ ne self' = fes_GetNE fes /\
     nq self' = ir_GetNPoints fes /\
     dofs1D self' = dq_ndof fes /\ quad1D self' = dq_nqpt fes /\
     maps_B self' = dq_B fes /\ maps_G self' = dq_G fes /\
     maps_Bt self' = dq_Bt fes /\ maps_Gt self' = dq_Gt fes /\
     length (pa_data self') = (dim self' * nq self' * ne self')%nat /\
     forall SetSize' self0,
       (forall v s, length (SetSize' v s) = s) ->
       AssemblePA SetSize' self0 alpha fes = Some self').
Proof.
  intros HS. split.
  - intros H1. unfold AssemblePA. now rewrite H1.
  - intros Hel Hdim. unfold AssemblePA. cbv zeta. rewrite Hel.
    set (n := (mesh_Dimension fes * ir_GetNPoints fes * fes_GetNE fes)%nat).
    assert (Hn : n = (ir_GetNPoints fes * mesh_Dimension fes * fes_GetNE fes)%nat)
      by (unfold n; lia).
    destruct (@Setup_overwrites (mesh_Dimension fes) (ir_GetNPoints fes) (fes_GetNE fes)
                (ir_GetWeights fes) (geom_J fes) (coeff_vel fes) alpha
                (SetSize (pa_data self) n) Hdim)
      as (op' & E & L & I); [rewrite HS; exact Hn|].
    rewrite E. eexists. split; [reflexivity|]. cbn.
    repeat split; try reflexivity.
    + rewrite L, HS. reflexivity.
    + intros SetSize' self0 HS'.
      rewrite (I (SetSize' (pa_data self0) n)); [reflexivity|].
      now rewrite HS, HS'.
Qed.

(** * Part XIX. The access shortcuts of DenseSymmetricMatrix and the
    velocity field of the miniapp *)

(** X22: the shortcuts [Read], [Write], [ReadWrite] and their host
    versions ask for [Height()*Width()] entries, the size of the full
    square, while the matrix wraps [s*(s+1)/2] entries: the request fits
    the storage only for [s <= 1]. *)
Theorem access_size_exceeds_storage (d : list T) (s : Z) :
  (0 <= s <= 46340)%Z ->
  access_size (UseExternalData d s) = Some (s * s)%Z /\
  sm_capacity (UseExternalData d s) = GetStoredSize (UseExternalData d s) /\
  ((s * s <= sm_capacity (UseExternalData d s))%Z <-> (s <= 1)%Z).
Proof.
  intros Hs. unfold access_size, GetStoredSize. cbn [UseExternalData sm_height sm_width sm_capacity].
  split; [apply int_ret_ok; change (2 ^ 31)%Z with 2147483648%Z; nia|].
  split; [reflexivity|].
  pose proof (consecutive_even (s + 1)) as E.
  replace (s + 1 - 1)%Z with s in E by lia.
  split; intros H; nia.
Qed.

Lemma square_xy_perpendicular (p0 p1 : T) :
  (- two * p1) * p0 + (two * p0) * p1 = zero.
Proof. ring. Qed.

Lemma square_xy_counter_clockwise (p0 p1 : T) :
  p0 * (two * p0) - p1 * (- two * p1) = two * (p0 * p0 + p1 * p1).
Proof. unfold two. ring. Qed.

End ExactArithmetic.

(** * Part XX. Statements of which only a part needs exact arithmetic

    The formulas that the code evaluates hold for every [real_t]; that
    they are the adjugate applied to a vector, or that two products
    cancel, holds in exact arithmetic. *)

(** C1: in dimension 2, Setup stores at every quadrature point [q] of
    every element [e] the vector with components
    [y_0 = wx*J22 - wy*J12] and [y_1 = -wx*J21 + wy*J11], where
    [wx = alpha*W(q)*v_0], [wy = alpha*W(q)*v_1] and [J] is the Jacobian at
    the point; this vector is [adj(J)] applied to [alpha*W(q)*v] (in exact
    arithmetic). The velocity is the single vector of [vel] when [vel]
    has two entries. *)
Theorem C1_Setup2D_adjugate (NQ NE : nat) (w j vel : list T) (alpha : T)
        (op : list T) (q e : nat) :
  (q < NQ)%nat -> (e < NE)%nat -> (NQ * 2 * NE <= length op)%nat ->
  exists op',
    PAConvectionSetup 2 NQ NE w j vel alpha op = Some op' /\
    rd op' (Reshape3 NQ 2 q 0 e)
    = weighted_velocity 2 NQ w vel alpha q e 0 * jac NQ 2 j q e 1 1
      - weighted_velocity 2 NQ w vel alpha q e 1 * jac NQ 2 j q e 0 1 /\
    rd op' (Reshape3 NQ 2 q 1 e)
    = - weighted_velocity 2 NQ w vel alpha q e 0 * jac NQ 2 j q e 1 0
      + weighted_velocity 2 NQ w vel alpha q e 1 * jac NQ 2 j q e 0 0 /\
    (exact K ->
     forall c, (c < 2)%nat ->
       rd op' (Reshape3 NQ 2 q c e)
       = matvec 2 (adj2 (jac NQ 2 j q e)) (weighted_velocity 2 NQ w vel alpha q e) c) /\
    (length vel = 2%nat ->
     forall c, weighted_velocity 2 NQ w vel alpha q e c = alpha * rd w q * rd vel c).
Proof.
  intros Hq He HL. eexists. split; [apply PAConvectionSetup_2|].
  rewrite PAConvectionSetup2D_nest.
  destruct (@setup_nest_spec 2 NQ NE (Setup2D_entry NQ w j vel alpha) op HL)
    as (_ & H & _).
  repeat split.
  - now rewrite H by (assumption || lia).
  - now rewrite H by (assumption || lia).
  - intros HX c Hc. rewrite H by assumption. now apply Setup2D_entry_adj.
  - intros Hv c. unfold weighted_velocity, velocity. now rewrite Hv.
Qed.

(** C2: in dimension 3, Setup computes the nine entries [A_ij] from the
    Jacobian and stores at every quadrature point of every element the
    vector [y_i = sum_j A_ij * wx_j], with [wx_j = alpha*W(q)*v_j]. In
    exact arithmetic [A] is the adjugate [adj(J)], the transposed
    cofactor matrix with [adj(J) J = det(J) I], and the stored vector is
    the adjugate applied to the weighted velocity. *)
Theorem C2_Setup3D_adjugate (NQ NE : nat) (w j vel : list T) (alpha : T)
        (op : list T) (q e : nat) :
  (q < NQ)%nat -> (e < NE)%nat -> (NQ * 3 * NE <= length op)%nat ->
  exists op',
    PAConvectionSetup 3 NQ NE w j vel alpha op = Some op' /\
    (forall c, (c < 3)%nat ->
       rd op' (Reshape3 NQ 3 q c e)
       = weighted_velocity 3 NQ w vel alpha q e 0 * Setup3D_A (jac NQ 3 j q e) c 0
         + weighted_velocity 3 NQ w vel alpha q e 1 * Setup3D_A (jac NQ 3 j q e) c 1
         + weighted_velocity 3 NQ w vel alpha q e 2 * Setup3D_A (jac NQ 3 j q e) c 2) /\
    (exact K ->
     (forall r c, (r < 3)%nat -> (c < 3)%nat ->
        Setup3D_A (jac NQ 3 j q e) r c = adj3 (jac NQ 3 j q e) r c) /\
     (forall c, (c < 3)%nat ->
        rd op' (Reshape3 NQ 3 q c e)
        = matvec 3 (adj3 (jac NQ 3 j q e)) (weighted_velocity 3 NQ w vel alpha q e) c) /\
     (forall r c, (r < 3)%nat -> (c < 3)%nat ->
        sum 3 (fun k => adj3 (jac NQ 3 j q e) r k * jac NQ 3 j q e k c)
        = if r =? c then det3 (jac NQ 3 j q e) else zero)).
Proof.
  intros Hq He HL. eexists. split; [apply PAConvectionSetup_3|].
  rewrite PAConvectionSetup3D_nest.
  destruct (@setup_nest_spec 3 NQ NE (Setup3D_entry NQ w j vel alpha) op HL)
    as (_ & H & _).
  split; [|intros HX; split; [|split]].
  - intros c Hc. rewrite H by assumption. now apply Setup3D_entry_A.
  - intros r c Hr Hc. now apply Setup3D_A_adj.
  - intros c Hc. rewrite H by assumption. now apply Setup3D_entry_adj.
  - intros r c Hr Hc. now apply adj3_inverse.
Qed.

(** X23: [square_xy] returns a vector of three entries that lies in the
    xy plane; in exact arithmetic it is perpendicular to the position
    [(p0, p1)] and turns counter-clockwise around the origin:
    [p0*v1 - p1*v0 = 2*(p0^2 + p1^2)]. What [v] held before the call
    plays no role. *)
Theorem square_xy_tangential (SetSize : list T -> nat -> list T) (p v : list T) :
  (forall u s, length (SetSize u s) = s) ->
  let v' := square_xy SetSize p v in
  length v' = 3%nat /\
  rd v' 2 = zero /\
  (exact K -> rd v' 0 * rd p 0 + rd v' 1 * rd p 1 = zero) /\
  (exact K ->
   rd p 0 * rd v' 1 - rd p 1 * rd v' 0
   = two * (rd p 0 * rd p 0 + rd p 1 * rd p 1)) /\
  forall SetSize' v0, (forall u s, length (SetSize' u s) = s) ->
    square_xy SetSize' p v0 = v'.
Proof.
  intros HS.
  assert (F : forall S0 u, (forall u s, length (S0 u s) = s) ->
            square_xy S0 p u = [- two * rd p 1; two * rd p 0; zero]).
  { intros S0 u H0. unfold square_xy. specialize (H0 u 3%nat).
    destruct (S0 u 3%nat) as [|a [|b [|c [|e l]]]]; try discriminate H0.
    reflexivity. }
  cbv zeta. rewrite (F SetSize v HS).
  split; [reflexivity|]. split; [reflexivity|].
  split; [intros HX; now apply square_xy_perpendicular|].
  split; [intros HX; now apply square_xy_counter_clockwise|].
  intros S0 v0 H0. now apply F.
Qed.
End Kernels.

(** * Part XXI. The dispatch key at sizes within the limits

    The key [(D1D << 4) | Q1D] gives [Q1D] four bits. On the host the
    limits are 24: [Q1D] from 16 to 24 is within them, and the keys of
    [(3, 19)] and of [(2, 19)] are the key [0x33] of the catalogue pair
    [(3, 3)], so that both entry points run the shared-memory kernels
    instantiated at [(3, 3)] on the data of the call. What these calls
    return is computed here, for every content of the uninitialised
    arrays and on host and device. The platform limits are
    [MAX_D1D = MAX_Q1D = 24]. *)

Lemma col_Bt_transposed : transposed ZScalar 3 19 col_Bt col_B.
Proof.
  intros d q Hd Hq.
  do 3 (destruct d as [|d];
        [do 19 (destruct q as [|q]; [vm_compute; reflexivity|]); lia|]).
  lia.
Qed.

Lemma col_Gt_transposed : transposed ZScalar 3 19 col_Gt col_G.
Proof.
  intros d q Hd Hq.
  do 3 (destruct d as [|d];
        [do 19 (destruct q as [|q]; [vm_compute; reflexivity|]); lia|]).
  lia.
Qed.

(** The kernels that the sizes [(3, 19)] and [(2, 19)] select in
    dimension 2. *)
Lemma key_0x33 (K : Scalar) (uninit : nat -> real_t K) (MAX_D1D MAX_Q1D : nat)
      (backend : Backend) (D1D NE : nat) (b g bt gt op_ x_ y_ : list (real_t K)) :
  D1D = 2 \/ D1D = 3 ->
  PAConvectionApply K uninit MAX_D1D MAX_Q1D backend 2 D1D 19 NE b g bt gt op_ x_ y_
  = SmemPAConvectionApply2D K uninit MAX_D1D MAX_Q1D backend 3 3 4 NE
      b g bt gt op_ x_ y_ 0 0 /\
  PAConvectionApplyT K uninit MAX_D1D MAX_Q1D backend 2 D1D 19 NE b g bt gt op_ x_ y_
  = SmemPAConvectionApplyT2D K uninit MAX_D1D MAX_Q1D backend 3 3 4 NE
      b g bt gt op_ x_ y_ 0 0.
Proof. intros [-> | ->]; split; reflexivity. Qed.

Ltac run_0x33 :=
  rewrite ?(proj1 (@key_0x33 _ _ _ _ _ 2 _ _ _ _ _ _ _ _ (or_introl eq_refl))),
          ?(proj2 (@key_0x33 _ _ _ _ _ 2 _ _ _ _ _ _ _ _ (or_introl eq_refl))),
          ?(proj1 (@key_0x33 _ _ _ _ _ 3 _ _ _ _ _ _ _ _ (or_intror eq_refl))),
          ?(proj2 (@key_0x33 _ _ _ _ _ 3 _ _ _ _ _ _ _ _ (or_intror eq_refl)));
  rewrite ?SmemPAConvectionApply2D_eq, ?SmemPAConvectionApplyT2D_eq
    by (cbn; lia).

Ltac run_generic :=
  rewrite ?generic_Apply_eq, ?generic_ApplyT_eq by (first [now left | lia]).

(** C3: the adjoint identity fails at the sizes [(3, 19)], which are
    within the limits, with tables [Bt], [Gt] that are the transposes of
    [B], [G]: the entry points run the kernels of [(3, 3)], which read the
    [19 x 3] tables as [3 x 3] tables, and
    [dot(Apply(p), q) = -1327] while [dot(p, ApplyTranspose(q)) = 6192].
    The generic kernels, run with the sizes of the call, give [-3936] on
    both sides. *)
Theorem C3_adjoint_key_collision (uninit : nat -> Z) (backend : Backend) :
  transposed ZScalar 3 19 col_Bt col_B /\
  transposed ZScalar 3 19 col_Gt col_G /\
  (exists y1 y2,
     PAConvectionApply ZScalar uninit 24 24 backend 2 3 19 1
       col_B col_G col_Bt col_Gt col_op col_p col_y = Some y1 /\
     PAConvectionApplyT ZScalar uninit 24 24 backend 2 3 19 1
       col_B col_G col_Bt col_Gt col_op col_q col_y = Some y2 /\
     dot ZScalar 9 (added ZScalar y1 col_y) (rd ZScalar col_q) = (-1327)%Z /\
     dot ZScalar 9 (rd ZScalar col_p) (added ZScalar y2 col_y) = 6192%Z) /\
  (exists y1 y2,
     generic_Apply ZScalar uninit 24 24 2 3 19 1
       col_B col_G col_Bt col_Gt col_op col_p col_y = Some y1 /\
     generic_ApplyT ZScalar uninit 24 24 2 3 19 1
       col_B col_G col_Bt col_Gt col_op col_q col_y = Some y2 /\
     dot ZScalar 9 (added ZScalar y1 col_y) (rd ZScalar col_q) = (-3936)%Z /\
     dot ZScalar 9 (rd ZScalar col_p) (added ZScalar y2 col_y) = (-3936)%Z).
Proof.
  split; [exact col_Bt_transposed|]. split; [exact col_Gt_transposed|]. split.
  - run_0x33. do 2 eexists. split; [reflexivity|]. split; [reflexivity|].
    split; vm_compute; reflexivity.
  - run_generic. do 2 eexists. split; [reflexivity|]. split; [reflexivity|].
    split; vm_compute; reflexivity.
Qed.

(** C4: at the sizes [(2, 19)], within the limits, the vectors have four
    entries per element and the entry points run, for all inputs, the
    kernels instantiated at [(3, 3)], which address nine. The lists
    [sample_p ++ t] are the vector [x = sample_p] followed by the five
    cells behind it in memory: what the call adds to the four entries of
    [y] changes with these cells, so it is not a function of [x], the
    coefficients and the tables. The generic kernels, run with the sizes
    of the call, add the same amount whatever lies behind [x]. *)
Theorem C4_accumulate_key_collision (uninit : nat -> Z) (backend : Backend) :
  (forall (NE : nat) (b g bt gt op_ x_ y_ : list Z),
     PAConvectionApply ZScalar uninit 24 24 backend 2 2 19 NE b g bt gt op_ x_ y_
     = SmemPAConvectionApply2D ZScalar uninit 24 24 backend 3 3 4 NE
         b g bt gt op_ x_ y_ 0 0 /\
     PAConvectionApplyT ZScalar uninit 24 24 backend 2 2 19 NE b g bt gt op_ x_ y_
     = SmemPAConvectionApplyT2D ZScalar uninit 24 24 backend 3 3 4 NE
         b g bt gt op_ x_ y_ 0 0) /\
  PAConvectionApply ZScalar uninit 24 24 backend 2 2 19 1
    skew_B skew_G skew_Bt skew_Gt col_op sample_p sample_y
  = Some [-215; 152; 456; 199]%Z /\
  PAConvectionApply ZScalar uninit 24 24 backend 2 2 19 1
    skew_B skew_G skew_Bt skew_Gt col_op (sample_p ++ [0; 0; 0; 0; 0]%Z) sample_y
  = Some [-215; 152; 456; 199]%Z /\
  PAConvectionApply ZScalar uninit 24 24 backend 2 2 19 1
    skew_B skew_G skew_Bt skew_Gt col_op (sample_p ++ [7; 7; 7; 7; 7]%Z) sample_y
  = Some [-2420; 698; 1338; 955]%Z /\
  PAConvectionApplyT ZScalar uninit 24 24 backend 2 2 19 1
    skew_B skew_G skew_Bt skew_Gt col_op (sample_p ++ [0; 0; 0; 0; 0]%Z) sample_y
  = Some [-431; 578; 201; 235]%Z /\
  PAConvectionApplyT ZScalar uninit 24 24 backend 2 2 19 1
    skew_B skew_G skew_Bt skew_Gt col_op (sample_p ++ [7; 7; 7; 7; 7]%Z) sample_y
  = Some [-1691; 508; -324; 340]%Z /\
  (forall t : list Z,
     generic_Apply ZScalar uninit 24 24 2 2 19 1
       skew_B skew_G skew_Bt skew_Gt col_op (sample_p ++ t) sample_y
     = Some [1387; -6060; -5600; 6069]%Z).
Proof.
  split; [intros; split; reflexivity|].
  split; [|split; [|split; [|split; [|split]]]];
    [run_0x33; vm_compute; reflexivity ..|].
  intros t. run_generic. reflexivity.
Qed.

(** C10: at the sizes [(2, 19)], within the limits, AddMultPA and
    AddMultTransposePA write behind [y]. The list
    [sample_y ++ [0; 0; 0; 0; 0]] is the vector [y] of four entries
    followed by the five cells behind it in memory: the call, which runs
    the kernels of [(3, 3)] on nine entries per element, leaves other
    values in these cells, whereas the generic kernels, run with the
    sizes of the call, change the four entries of [y] and nothing
    else. *)
Theorem C10_frame_key_collision (uninit : nat -> Z) (backend : Backend)
        (ceedOp_AddMult : nat -> nat -> Store ZScalar -> option (Store ZScalar)) :
  let self := Build_ConvectionIntegrator ZScalar 2 1 361 2 19
                skew_B skew_G skew_Bt skew_Gt col_op in
  let m : Store ZScalar :=
    fun r => if r =? 0 then sample_p else sample_y ++ [0; 0; 0; 0; 0]%Z in
  (exists m',
     @AddMultPA ZScalar uninit 24 24 backend false ceedOp_AddMult self 0 1 m = Some m' /\
     m' 1 = [-215; 152; 456; 199; -64; -131; -384; 40; 149]%Z) /\
  (exists m',
     @AddMultTransposePA ZScalar uninit 24 24 backend false self 0 1 m = Some m' /\
     m' 1 = [-431; 578; 201; 235; -318; -123; -150; 318; -84]%Z) /\
  generic_Apply ZScalar uninit 24 24 2 2 19 1
    skew_B skew_G skew_Bt skew_Gt col_op sample_p (sample_y ++ [0; 0; 0; 0; 0]%Z)
  = Some [1387; -6060; -5600; 6069; 0; 0; 0; 0; 0]%Z /\
  generic_ApplyT ZScalar uninit 24 24 2 2 19 1
    skew_B skew_G skew_Bt skew_Gt col_op sample_p (sample_y ++ [0; 0; 0; 0; 0]%Z)
  = Some [1036; -6111; -5522; 6117; 0; 0; 0; 0; 0]%Z.
Proof.
  cbv zeta. split; [|split; [|split]].
  - unfold AddMultPA.
    cbn [dim dofs1D quad1D ne maps_B maps_G maps_Bt maps_Gt pa_data Nat.eqb].
    run_0x33. eexists. split; [reflexivity|]. vm_compute. reflexivity.
  - unfold AddMultTransposePA.
    cbn [dim dofs1D quad1D ne maps_B maps_G maps_Bt maps_Gt pa_data Nat.eqb].
    run_0x33. eexists. split; [reflexivity|]. vm_compute. reflexivity.
  - run_generic. vm_compute. reflexivity.
  - run_generic. vm_compute. reflexivity.
Qed.

(** * Part XXII. The kernels on sample data

    The statements above at the integers, on the sample data: two dofs and
    two quadrature points per axis, one element, and the limits 24 of a
    host build. Local arrays start out as zeros. *)

Lemma ZScalar_exact : exact ZScalar.
Proof. exact InitialRing.Zth. Qed.

Lemma sample_Bt_transposed : transposed ZScalar 2 2 sample_Bt sample_B.
Proof. intros [|[|d]] [|[|q]] Hd Hq; try lia; reflexivity. Defined.

Lemma sample_Gt_transposed : transposed ZScalar 2 2 sample_Gt sample_G.
Proof. intros [|[|d]] [|[|q]] Hd Hq; try lia; reflexivity. Defined.

Lemma C1_witness :
  exists op',
    PAConvectionSetup ZScalar 2 1 1 [2%Z] sample_J2 [5; 7]%Z 3%Z [0; 0]%Z = Some op' /\
    rd ZScalar op' 0 = (-6)%Z /\ rd ZScalar op' 1 = (-18)%Z.
Proof.
  destruct (@C1_Setup2D_adjugate ZScalar 1 1 [2%Z] sample_J2 [5; 7]%Z 3%Z [0; 0]%Z 0 0)
    as (op' & E & H0 & H1 & _); [lia | lia | simpl; lia |].
  exists op'. split; [exact E|]. split; [exact H0|exact H1].
Defined.

Lemma C2_witness :
  exists op',
    PAConvectionSetup ZScalar 3 1 1 [2%Z] sample_J3 [1; 1; 1]%Z 3%Z [0; 0; 0]%Z
    = Some op' /\
    rd ZScalar op' 0 = (-6)%Z /\ rd ZScalar op' 1 = 6%Z /\ rd ZScalar op' 2 = 6%Z.
Proof.
  destruct (@C2_Setup3D_adjugate ZScalar 1 1 [2%Z] sample_J3 [1; 1; 1]%Z 3%Z
              [0; 0; 0]%Z 0 0)
    as (op' & E & H & _); [lia | lia | simpl; lia |].
  exists op'. split; [exact E|].
  split; [exact (H 0%nat ltac:(lia))|].
  split; [exact (H 1%nat ltac:(lia))|exact (H 2%nat ltac:(lia))].
Defined.

(** With the indices of the adjugate exchanged, [y_i = sum_j wx_j * A_ji],
    the formula gives [(6, -6, 6)] on the sample Jacobian, where Setup
    stores [(-6, 6, 6)]. *)
Lemma C2_counterexample :
  ~ (exists op',
       PAConvectionSetup ZScalar 3 1 1 [2%Z] sample_J3 [1; 1; 1]%Z 3%Z [0; 0; 0]%Z
       = Some op' /\
       forall i, i < 3 ->
         rd ZScalar op' (Reshape3 1 3 0 i 0)
         = vecmat ZScalar 3 (weighted_velocity ZScalar 3 1 [2%Z] [1; 1; 1]%Z 3%Z 0 0)
                  (adj3 ZScalar (jac ZScalar 1 3 sample_J3 0 0)) i).
Proof.
  intros (op' & E & H).
  vm_compute in E. injection E as <-.
  specialize (H 0%nat ltac:(lia)). vm_compute in H. discriminate H.
Qed.

Lemma C5_witness :
  PAConvectionApply ZScalar (fun _ => 0%Z) 24 24 Host 2 2 2 1
    sample_B sample_G sample_Bt sample_Gt sample_op sample_p sample_y
  = generic_Apply ZScalar (fun _ => 0%Z) 24 24 2 2 2 1
      sample_B sample_G sample_Bt sample_Gt sample_op sample_p sample_y.
Proof.
  destruct (@C5_specialized_equals_generic ZScalar (fun _ => 0%Z) 24 24 Host 2 2 2 1
              sample_B sample_G sample_Bt sample_Gt sample_op sample_p sample_y)
    as (NBZ & E1 & _ & E3 & _); [simpl; now left|].
  exact (eq_trans E1 E3).
Defined.

Lemma C6_witness :
  PAConvectionSetup ZScalar 1 1 1 [2%Z] sample_J2 [5; 7]%Z 3%Z [0; 0]%Z = None /\
  exists op',
    PAConvectionSetup ZScalar 2 1 1 [2%Z] sample_J2 [5; 7]%Z 3%Z [0; 0]%Z = Some op' /\
    length op' = 2 /\
    forall op0, length op0 = 2 ->
      PAConvectionSetup ZScalar 2 1 1 [2%Z] sample_J2 [5; 7]%Z 3%Z op0 = Some op'.
Proof.
  refine (@C6_Setup_dimensions ZScalar 2 1 1 [2%Z] sample_J2 [5; 7]%Z 3%Z [0; 0]%Z _ _);
    [now left|reflexivity].
Defined.

(** In dimension 4 (any dimension other than 1, 2 and 3) Setup returns
    without writing: the buffer keeps what it held, so the result depends
    on the prior contents. *)
Lemma C6_counterexample :
  PAConvectionSetup ZScalar 4 1 1 [2%Z] sample_J2 [5; 7]%Z 3%Z [7; 7; 7; 7]%Z
  = Some [7; 7; 7; 7]%Z /\
  ~ (forall op0, length op0 = 4 ->
       PAConvectionSetup ZScalar 4 1 1 [2%Z] sample_J2 [5; 7]%Z 3%Z op0
       = PAConvectionSetup ZScalar 4 1 1 [2%Z] sample_J2 [5; 7]%Z 3%Z [7; 7; 7; 7]%Z).
Proof.
  split; [reflexivity|]. intros H.
  specialize (H [0; 0; 0; 0]%Z eq_refl). vm_compute in H. discriminate H.
Qed.

Lemma C7_witness :
  PAConvectionApply ZScalar (fun _ => 0%Z) 24 24 Host 2 2 34 1
    wide_B wide_G wide_Bt wide_Gt wide_op sample_p sample_y
  = Some [8668; 19882; 19084; 43666]%Z /\
  PAConvectionApplyT ZScalar (fun _ => 0%Z) 24 24 Host 2 2 34 1
    wide_B wide_G wide_Bt wide_Gt wide_op sample_p sample_y
  = Some [-5972; -2222; 10348; 47002]%Z /\
  generic_Apply ZScalar (fun _ => 0%Z) 24 24 2 2 34 1
    wide_B wide_G wide_Bt wide_Gt wide_op sample_p sample_y = None.
Proof.
  destruct (@C7_dispatch_key_collision ZScalar (fun _ => 0%Z) 24 24 Host 1
              wide_B wide_G wide_Bt wide_Gt wide_op sample_p sample_y)
    as (E1 & E2 & E3 & _); [lia | lia | lia |].
  split; [exact E1|]. split; [exact E2|exact E3].
Defined.




Lemma C9_witness :
  generic_Apply ZScalar (fun _ => 0%Z) 24 24 2 25 2 1
    sample_B sample_G sample_Bt sample_Gt sample_op sample_p sample_y = None /\
  generic_ApplyT ZScalar (fun _ => 0%Z) 24 24 2 25 2 1
    sample_B sample_G sample_Bt sample_Gt sample_op sample_p sample_y = None.
Proof.
  refine (@C9_generic_limit ZScalar (fun _ => 0%Z) 24 24 2 25 2 1
            sample_B sample_G sample_Bt sample_Gt sample_op sample_p sample_y _).
  left. lia.
Defined.

(** No sizes above a platform limit let a generic kernel run to
    completion. *)
Lemma C9_counterexample :
  ~ (exists (K : Scalar) (uninit : nat -> real_t K) (MAX_D1D MAX_Q1D : nat)
            (dim D1D Q1D NE : nat) (b g bt gt op_ x_ y_ : list (real_t K)),
       (MAX_D1D < D1D \/ MAX_Q1D < Q1D) /\
       (generic_Apply K uninit MAX_D1D MAX_Q1D dim D1D Q1D NE b g bt gt op_ x_ y_
        <> None \/
        generic_ApplyT K uninit MAX_D1D MAX_Q1D dim D1D Q1D NE b g bt gt op_ x_ y_
        <> None)).
Proof.
  intros (K & uninit & MAX_D1D & MAX_Q1D & dim & D1D & Q1D & NE
          & b & g & bt & gt & op_ & x_ & y_ & Hlim & H).
  assert (E1 : generic_Apply K uninit MAX_D1D MAX_Q1D dim D1D Q1D NE b g bt gt op_ x_ y_
               = None).
  { unfold generic_Apply.
    destruct (dim =? 2); [now apply PAConvectionApply2D_limit|].
    destruct (dim =? 3); [now apply PAConvectionApply3D_limit|reflexivity]. }
  assert (E2 : generic_ApplyT K uninit MAX_D1D MAX_Q1D dim D1D Q1D NE b g bt gt op_ x_ y_
               = None).
  { unfold generic_ApplyT.
    destruct (dim =? 2); [now apply PAConvectionApplyT2D_limit|].
    destruct (dim =? 3); [now apply PAConvectionApplyT3D_limit|reflexivity]. }
  destruct H as [H|H]; [now apply H|now apply H].
Qed.

(** * Part XXIII. The kernels and the memory they do not initialise *)

(** X24: the generic kernels never let an uninitialised cell of a local
    array reach [y]: whatever the local arrays hold before they are
    filled, a call returns the same [y] or the same abort, for all
    inputs and all sizes. *)
Theorem generic_kernels_uninitialised (K : Scalar) (u1 u2 : nat -> real_t K)
        (MAX_D1D MAX_Q1D T_D1D T_Q1D ne : nat)
        (b g bt gt op_ x_ y_ : list (real_t K)) (d1d q1d : nat) :
  PAConvectionApply2D K u1 MAX_D1D MAX_Q1D T_D1D T_Q1D ne b g bt gt op_ x_ y_ d1d q1d
  = PAConvectionApply2D K u2 MAX_D1D MAX_Q1D T_D1D T_Q1D ne b g bt gt op_ x_ y_ d1d q1d /\
  PAConvectionApply3D K u1 MAX_D1D MAX_Q1D T_D1D T_Q1D ne b g bt gt op_ x_ y_ d1d q1d
  = PAConvectionApply3D K u2 MAX_D1D MAX_Q1D T_D1D T_Q1D ne b g bt gt op_ x_ y_ d1d q1d /\
  PAConvectionApplyT2D K u1 MAX_D1D MAX_Q1D T_D1D T_Q1D ne b g bt gt op_ x_ y_ d1d q1d
  = PAConvectionApplyT2D K u2 MAX_D1D MAX_Q1D T_D1D T_Q1D ne b g bt gt op_ x_ y_ d1d q1d /\
  PAConvectionApplyT3D K u1 MAX_D1D MAX_Q1D T_D1D T_Q1D ne b g bt gt op_ x_ y_ d1d q1d
  = PAConvectionApplyT3D K u2 MAX_D1D MAX_Q1D T_D1D T_Q1D ne b g bt gt op_ x_ y_ d1d q1d.
Proof.
  destruct (le_lt_dec (tparam T_D1D d1d) MAX_D1D) as [HD|HD];
    [destruct (le_lt_dec (tparam T_Q1D q1d) MAX_Q1D) as [HQ|HQ]|].
  - now rewrite !PAConvectionApply2D_eq, !PAConvectionApply3D_eq,
      !PAConvectionApplyT2D_eq, !PAConvectionApplyT3D_eq by assumption.
  - now rewrite !PAConvectionApply2D_limit, !PAConvectionApply3D_limit,
      !PAConvectionApplyT2D_limit, !PAConvectionApplyT3D_limit by auto.
  - now rewrite !PAConvectionApply2D_limit, !PAConvectionApply3D_limit,
      !PAConvectionApplyT2D_limit, !PAConvectionApplyT3D_limit by auto.
Qed.

(** X25: the shared-memory kernels return the same [y] (or the same
    abort) whatever the shared arrays hold before they are filled,
    whatever the batch size [NBZ] and whether the batch slot of an
    element is 0 (host) or its rank in the batch (device). *)
Theorem smem_kernels_batching (K : Scalar) (u1 u2 : nat -> real_t K)
        (MAX_D1D MAX_Q1D : nat) (k1 k2 : Backend) (T_D1D T_Q1D NBZ1 NBZ2 ne : nat)
        (b g bt gt op_ x_ y_ : list (real_t K)) (d1d q1d : nat) :
  SmemPAConvectionApply2D K u1 MAX_D1D MAX_Q1D k1 T_D1D T_Q1D NBZ1 ne
    b g bt gt op_ x_ y_ d1d q1d
  = SmemPAConvectionApply2D K u2 MAX_D1D MAX_Q1D k2 T_D1D T_Q1D NBZ2 ne
      b g bt gt op_ x_ y_ d1d q1d /\
  SmemPAConvectionApplyT2D K u1 MAX_D1D MAX_Q1D k1 T_D1D T_Q1D NBZ1 ne
    b g bt gt op_ x_ y_ d1d q1d
  = SmemPAConvectionApplyT2D K u2 MAX_D1D MAX_Q1D k2 T_D1D T_Q1D NBZ2 ne
      b g bt gt op_ x_ y_ d1d q1d /\
  SmemPAConvectionApply3D K u1 MAX_D1D MAX_Q1D T_D1D T_Q1D ne b g bt gt op_ x_ y_ d1d q1d
  = SmemPAConvectionApply3D K u2 MAX_D1D MAX_Q1D T_D1D T_Q1D ne
      b g bt gt op_ x_ y_ d1d q1d /\
  SmemPAConvectionApplyT3D K u1 MAX_D1D MAX_Q1D T_D1D T_Q1D ne b g bt gt op_ x_ y_ d1d q1d
  = SmemPAConvectionApplyT3D K u2 MAX_D1D MAX_Q1D T_D1D T_Q1D ne
      b g bt gt op_ x_ y_ d1d q1d.
Proof.
  destruct (le_lt_dec (tparam T_D1D d1d) MAX_D1D) as [HD|HD];
    [destruct (le_lt_dec (tparam T_Q1D q1d) MAX_Q1D) as [HQ|HQ]|].
  - now rewrite !SmemPAConvectionApply2D_eq, !SmemPAConvectionApply3D_eq,
      !SmemPAConvectionApplyT2D_eq, !SmemPAConvectionApplyT3D_eq by assumption.
  - now rewrite !SmemPAConvectionApply2D_limit, !SmemPAConvectionApply3D_limit,
      !SmemPAConvectionApplyT2D_limit, !SmemPAConvectionApplyT3D_limit by auto.
  - now rewrite !SmemPAConvectionApply2D_limit, !SmemPAConvectionApply3D_limit,
      !SmemPAConvectionApplyT2D_limit, !SmemPAConvectionApplyT3D_limit by auto.
Qed.

(** * Part XXIV. The further properties on sample data

    A packed symmetric matrix of height 3 over six entries, and the
    kernels on the sample data of the part before. *)

Tactic Notation "index_cases" ident(k) integer(n) :=
  do n (destruct k as [|k]; [first [reflexivity | lia]|]);
  first [lia | destruct k; reflexivity].

Lemma sym_cell_in_bounds_witness :
  exists k,
    sym_cell true (UseExternalData ZScalar [1; 2; 3; 4; 5; 6]%Z 3) 2 1 = Some k /\
    (0 <= k < 6)%Z.
Proof.
  destruct (@sym_cell_in_bounds ZScalar true
              (UseExternalData ZScalar [1; 2; 3; 4; 5; 6]%Z 3) 2 1)
    as (k & E & B & _); [reflexivity | simpl; lia | simpl; lia | simpl; lia |].
  exists k. split; [exact E|exact B].
Defined.

Lemma sym_cell_unordered_pair_witness :
  sym_cell true (UseExternalData ZScalar [1; 2; 3; 4; 5; 6]%Z 3) 2 1
  = sym_cell true (UseExternalData ZScalar [1; 2; 3; 4; 5; 6]%Z 3) 1 2.
Proof.
  apply (proj2 (@sym_cell_unordered_pair ZScalar true
                  (UseExternalData ZScalar [1; 2; 3; 4; 5; 6]%Z 3) 2 1 1 2
                  eq_refl ltac:(simpl; lia) ltac:(simpl; lia) ltac:(simpl; lia)
                  ltac:(simpl; lia) ltac:(simpl; lia))).
  right. split; reflexivity.
Defined.

Lemma sym_cell_onto_witness :
  exists i j : Z,
    (0 <= i <= j)%Z /\ (j < 3)%Z /\
    sym_cell true (UseExternalData ZScalar [1; 2; 3; 4; 5; 6]%Z 3) i j = Some 4%Z.
Proof.
  refine (@sym_cell_onto ZScalar true
            (UseExternalData ZScalar [1; 2; 3; 4; 5; 6]%Z 3) 4 eq_refl _ _);
    vm_compute; repeat split; discriminate.
Defined.

Lemma sym_write_read_witness :
  exists m',
    sym_write true (UseExternalData ZScalar [1; 2; 3; 4; 5; 6]%Z 3) 2 1 9%Z = Some m' /\
    sym_read true m' 1 2 = Some 9%Z /\
    sym_read true m' 0 0
    = sym_read true (UseExternalData ZScalar [1; 2; 3; 4; 5; 6]%Z 3) 0 0.
Proof.
  destruct (@sym_write_read ZScalar true
              (UseExternalData ZScalar [1; 2; 3; 4; 5; 6]%Z 3) 2 1 9%Z)
    as (m' & E & _ & _ & _ & _ & R & F);
    [reflexivity | simpl; lia | simpl; lia | simpl; lia | vm_compute; discriminate |].
  exists m'. split; [exact E|]. split; [exact R|].
  apply F; simpl; lia.
Defined.

Lemma sym_cell_overflow_witness :
  sym_cell true (UseExternalData ZScalar [] 46342) 46341 46341 = None.
Proof.
  refine (@sym_cell_overflow ZScalar true (UseExternalData ZScalar [] 46342) eq_refl _).
  simpl. lia.
Defined.

Lemma Apply_direct_sums_witness :
  exists y',
    PAConvectionApply2D ZScalar (fun _ => 0%Z) 24 24 0 0 1
      sample_B sample_G sample_Bt sample_Gt sample_op sample_p sample_y 2 2 = Some y' /\
    forall dx dy, dx < 2 -> dy < 2 ->
      rd ZScalar y' (Reshape3 2 2 dx dy 0)
      = (rd ZScalar sample_y (Reshape3 2 2 dx dy 0)
         + direct2D ZScalar 2 2 (acc_B ZScalar 2 sample_B) (acc_G ZScalar 2 sample_G)
             (acc_Bt ZScalar 2 sample_Bt) (acc_op2 ZScalar 2 sample_op 0)
             (acc_x2 ZScalar 2 sample_p 0) dx dy)%Z.
Proof.
  destruct (proj1 (@Apply_direct_sums ZScalar (fun _ => 0%Z) 24 24 ZScalar_exact 1 2 2
                     sample_B sample_G sample_Bt sample_Gt sample_op sample_p sample_y
                     ltac:(lia) ltac:(lia)) ltac:(vm_compute; lia))
    as (y' & E & H).
  exists y'. split; [exact E|].
  intros dx dy Hx Hy. apply (H 0%nat dx dy); lia.
Defined.

Lemma ApplyT_direct_sums_witness :
  exists y',
    PAConvectionApplyT2D ZScalar (fun _ => 0%Z) 24 24 0 0 1
      sample_B sample_G sample_Bt sample_Gt sample_op sample_p sample_y 2 2 = Some y' /\
    forall dx dy, dx < 2 -> dy < 2 ->
      rd ZScalar y' (Reshape3 2 2 dx dy 0)
      = (rd ZScalar sample_y (Reshape3 2 2 dx dy 0)
         + directT2D ZScalar 2 2 (acc_B ZScalar 2 sample_B) (acc_Bt ZScalar 2 sample_Bt)
             (acc_Gt ZScalar 2 sample_Gt) (acc_op2 ZScalar 2 sample_op 0)
             (acc_x2 ZScalar 2 sample_p 0) dx dy)%Z.
Proof.
  destruct (proj1 (@ApplyT_direct_sums ZScalar (fun _ => 0%Z) 24 24 ZScalar_exact 1 2 2
                     sample_B sample_G sample_Bt sample_Gt sample_op sample_p sample_y
                     ltac:(lia) ltac:(lia)) ltac:(vm_compute; lia))
    as (y' & E & H).
  exists y'. split; [exact E|].
  intros dx dy Hx Hy. apply (H 0%nat dx dy); lia.
Defined.

Lemma Apply_linear_in_x_witness :
  exists y' y1' y2',
    generic_Apply ZScalar (fun _ => 0%Z) 24 24 2 2 2 1
      sample_B sample_G sample_Bt sample_Gt sample_op [4; 3; 1; 7]%Z sample_y
    = Some y' /\
    generic_Apply ZScalar (fun _ => 0%Z) 24 24 2 2 2 1
      sample_B sample_G sample_Bt sample_Gt sample_op sample_p sample_y = Some y1' /\
    generic_Apply ZScalar (fun _ => 0%Z) 24 24 2 2 2 1
      sample_B sample_G sample_Bt sample_Gt sample_op sample_q sample_y = Some y2' /\
    forall i, i < 4 ->
      added ZScalar y' sample_y i
      = (2 * added ZScalar y1' sample_y i + added ZScalar y2' sample_y i)%Z.
Proof.
  refine (proj1 (@Apply_linear_in_x ZScalar (fun _ => 0%Z) 24 24 ZScalar_exact 2 2 2 1
                   sample_B sample_G sample_Bt sample_Gt sample_op
                   [4; 3; 1; 7]%Z sample_p sample_q sample_y 2%Z
                   (or_introl eq_refl) ltac:(lia) ltac:(lia) ltac:(vm_compute; lia) _)).
  intros k. index_cases k 4.
Defined.

Lemma Apply_linear_in_op_witness :
  exists y' y1' y2',
    generic_ApplyT ZScalar (fun _ => 0%Z) 24 24 2 2 2 1
      sample_B sample_G sample_Bt sample_Gt [3; 5; 7; 9; 11; 13; 15; 17]%Z
      sample_p sample_y = Some y' /\
    generic_ApplyT ZScalar (fun _ => 0%Z) 24 24 2 2 2 1
      sample_B sample_G sample_Bt sample_Gt sample_op sample_p sample_y = Some y1' /\
    generic_ApplyT ZScalar (fun _ => 0%Z) 24 24 2 2 2 1
      sample_B sample_G sample_Bt sample_Gt (repeat 1%Z 8) sample_p sample_y
    = Some y2' /\
    forall i, i < 4 ->
      added ZScalar y' sample_y i
      = (2 * added ZScalar y1' sample_y i + added ZScalar y2' sample_y i)%Z.
Proof.
  refine (proj2 (@Apply_linear_in_op ZScalar (fun _ => 0%Z) 24 24 ZScalar_exact 2 2 2 1
                   sample_B sample_G sample_Bt sample_Gt
                   [3; 5; 7; 9; 11; 13; 15; 17]%Z sample_op (repeat 1%Z 8)
                   sample_p sample_y 2%Z
                   (or_introl eq_refl) ltac:(lia) ltac:(lia) ltac:(vm_compute; lia) _)).
  intros k. index_cases k 8.
Defined.

Lemma Apply_reads_own_element_witness :
  exists y1 y2,
    generic_Apply ZScalar (fun _ => 0%Z) 24 24 2 2 2 1
      sample_B sample_G sample_Bt sample_Gt sample_op sample_p sample_y = Some y1 /\
    generic_Apply ZScalar (fun _ => 0%Z) 24 24 2 2 2 1
      (sample_B ++ [7%Z]) (sample_G ++ [7%Z]) (sample_Bt ++ [7%Z]) (sample_Gt ++ [7%Z])
      (sample_op ++ [7%Z]) (sample_p ++ [7%Z]) sample_y = Some y2 /\
    forall i, in_block 4 0 i -> rd ZScalar y1 i = rd ZScalar y2 i.
Proof.
  refine (proj1 (@Apply_reads_own_element ZScalar (fun _ => 0%Z) 24 24 2 2 2 1
                   sample_B sample_G sample_Bt sample_Gt sample_op sample_p
                   (sample_B ++ [7%Z]) (sample_G ++ [7%Z]) (sample_Bt ++ [7%Z])
                   (sample_Gt ++ [7%Z]) (sample_op ++ [7%Z]) (sample_p ++ [7%Z])
                   sample_y 0
                   (or_introl eq_refl) ltac:(lia) ltac:(lia) ltac:(vm_compute; lia)
                   _ _ _ _ _ _)).
  - intros k Hk. index_cases k 4.
  - intros k Hk. index_cases k 4.
  - intros k Hk. index_cases k 4.
  - intros k Hk. index_cases k 4.
  - intros k [_ Hk]. cbn in Hk. index_cases k 4.
  - intros k [_ Hk]. cbn in Hk. index_cases k 8.
Defined.

Lemma accumulations_commute_witness :
  exists y1 y2 y12 y21,
    generic_Apply ZScalar (fun _ => 0%Z) 24 24 2 2 2 1
      sample_B sample_G sample_Bt sample_Gt sample_op sample_p sample_y = Some y1 /\
    generic_ApplyT ZScalar (fun _ => 0%Z) 24 24 2 2 2 1
      sample_B sample_G sample_Bt sample_Gt (repeat 1%Z 8) sample_q y1 = Some y12 /\
    generic_ApplyT ZScalar (fun _ => 0%Z) 24 24 2 2 2 1
      sample_B sample_G sample_Bt sample_Gt (repeat 1%Z 8) sample_q sample_y
    = Some y2 /\
    generic_Apply ZScalar (fun _ => 0%Z) 24 24 2 2 2 1
      sample_B sample_G sample_Bt sample_Gt sample_op sample_p y2 = Some y21 /\
    y12 = y21.
Proof.
  refine (proj1 (@accumulations_commute ZScalar (fun _ => 0%Z) 24 24 ZScalar_exact 2 2 2 1
                   sample_B sample_G sample_Bt sample_Gt sample_op (repeat 1%Z 8)
                   sample_p sample_q sample_y
                   (or_introl eq_refl) ltac:(lia) ltac:(lia) ltac:(vm_compute; lia))).
Defined.

Lemma Apply_empty_witness :
  generic_Apply ZScalar (fun _ => 0%Z) 24 24 2 2 2 0
    sample_B sample_G sample_Bt sample_Gt sample_op sample_p sample_y = Some sample_y /\
  PAConvectionApplyT ZScalar (fun _ => 0%Z) 24 24 Host 3 0 2 5
    sample_B sample_G sample_Bt sample_Gt sample_op sample_p sample_y = Some sample_y.
Proof.
  split.
  - refine (proj1 (@Apply_empty ZScalar (fun _ => 0%Z) 24 24 Host 2 2 2 0
                     sample_B sample_G sample_Bt sample_Gt sample_op sample_p sample_y
                     (or_introl eq_refl) ltac:(lia) ltac:(lia) (or_introl eq_refl))).
  - refine (proj2 (proj2 (proj2 (@Apply_empty ZScalar (fun _ => 0%Z) 24 24 Host 3 0 2 5
                     sample_B sample_G sample_Bt sample_Gt sample_op sample_p sample_y
                     (or_intror eq_refl) ltac:(lia) ltac:(lia) (or_intror eq_refl)))
                   ltac:(lia))).
Defined.

Lemma dispatch_transparent_witness :
  PAConvectionApply ZScalar (fun _ => 0%Z) 24 24 Host 2 2 3 1
    wide_B wide_G wide_Bt wide_Gt wide_op sample_p sample_y
  = generic_Apply ZScalar (fun _ => 0%Z) 24 24 2 2 3 1
      wide_B wide_G wide_Bt wide_Gt wide_op sample_p sample_y.
Proof.
  refine (proj1 (@dispatch_transparent ZScalar (fun _ => 0%Z) 24 24 Host 2 2 3 1
                   wide_B wide_G wide_Bt wide_Gt wide_op sample_p sample_y _)).
  lia.
Defined.

Lemma entry_points_abort_witness :
  PAConvectionApply ZScalar (fun _ => 0%Z) 24 24 Host 1 2 2 1
    sample_B sample_G sample_Bt sample_Gt sample_op sample_p sample_y = None /\
  PAConvectionApplyT ZScalar (fun _ => 0%Z) 24 24 Host 2 25 2 1
    sample_B sample_G sample_Bt sample_Gt sample_op sample_p sample_y = None.
Proof.
  split.
  - refine (proj1 (@entry_points_abort ZScalar (fun _ => 0%Z) 24 24 Host 1 2 2 1
                     sample_B sample_G sample_Bt sample_Gt sample_op sample_p sample_y
                     _)).
    left. split; discriminate.
  - refine (proj2 (@entry_points_abort ZScalar (fun _ => 0%Z) 24 24 Host 2 25 2 1
                     sample_B sample_G sample_Bt sample_Gt sample_op sample_p sample_y
                     _)).
    right. split; [lia|left; lia].
Defined.

Lemma dispatch_key_injective_witness : dispatch_key 3 4 <> dispatch_key 4 3.
Proof.
  intros E.
  destruct (@dispatch_key_injective 3 4 4 3 ltac:(lia) ltac:(lia) E) as [H _].
  discriminate H.
Defined.

Lemma dispatch_by_key_only_witness :
  PAConvectionApply ZScalar (fun _ => 0%Z) 24 24 Host 2 2 34 1
    wide_B wide_G wide_Bt wide_Gt wide_op sample_p sample_y
  = PAConvectionApply ZScalar (fun _ => 0%Z) 24 24 Host 2 2 2 1
      wide_B wide_G wide_Bt wide_Gt wide_op sample_p sample_y.
Proof.
  refine (proj1 (proj1 (@dispatch_by_key_only ZScalar (fun _ => 0%Z) 24 24 Host 2 2 2 1
                   wide_B wide_G wide_Bt wide_Gt wide_op sample_p sample_y _)
                 2 34 eq_refl)).
  cbn. auto 20.
Defined.

Lemma Setup_solves_Jacobian_witness :
  exists op',
    PAConvectionSetup ZScalar 2 1 1 [2%Z] sample_J2 [5; 7]%Z 3%Z [0; 0]%Z = Some op' /\
    forall r, r < 2 ->
      sum ZScalar 2 (fun c =>
        (jac ZScalar 1 2 sample_J2 0 0 r c * rd ZScalar op' (Reshape3 1 2 0 c 0))%Z)
      = (det ZScalar 2 (jac ZScalar 1 2 sample_J2 0 0)
         * weighted_velocity ZScalar 2 1 [2%Z] [5; 7]%Z 3%Z 0 0 r)%Z.
Proof.
  refine (@Setup_solves_Jacobian ZScalar ZScalar_exact 2 1 1 [2%Z] sample_J2 [5; 7]%Z 3%Z [0; 0]%Z
            0 0 (or_introl eq_refl) _ _ _); vm_compute; lia.
Defined.

Lemma Setup_idempotent_witness :
  exists op',
    PAConvectionSetup ZScalar 2 1 1 [2%Z] sample_J2 [5; 7]%Z 3%Z [0; 0; 4]%Z
    = Some op' /\
    rd ZScalar op' 2 = 4%Z /\
    PAConvectionSetup ZScalar 2 1 1 [2%Z] sample_J2 [5; 7]%Z 3%Z op' = Some op'.
Proof.
  destruct (@Setup_idempotent ZScalar 2 1 1 [2%Z] sample_J2 [5; 7]%Z 3%Z [0; 0; 4]%Z
              (or_introl eq_refl) ltac:(vm_compute; lia))
    as (op' & E & _ & F & I).
  exists op'. split; [exact E|]. split; [|exact I].
  apply (F 2%nat). simpl. lia.
Defined.

Lemma Setup_uniform_velocity_witness :
  PAConvectionSetup ZScalar 2 2 1 [2; 2]%Z (sample_J2 ++ sample_J2)
    [5; 7; 5; 7]%Z 3%Z [0; 0; 0; 0]%Z
  = PAConvectionSetup ZScalar 2 2 1 [2; 2]%Z (sample_J2 ++ sample_J2)
      [5; 7]%Z 3%Z [0; 0; 0; 0]%Z.
Proof.
  refine (@Setup_uniform_velocity ZScalar 2 2 1 [2; 2]%Z (sample_J2 ++ sample_J2)
            [5; 7]%Z [5; 7; 5; 7]%Z 3%Z [0; 0; 0; 0]%Z
            (or_introl eq_refl) eq_refl _).
  intros [|[|c]] [|[|q]] [|e] Hc Hq He; try lia; reflexivity.
Defined.

Lemma Setup_linear_witness :
  exists op' op1 op2 opa,
    PAConvectionSetup ZScalar 2 1 1 [2%Z] sample_J2 [11; 15]%Z 3%Z [0; 0]%Z
    = Some op' /\
    PAConvectionSetup ZScalar 2 1 1 [2%Z] sample_J2 [5; 7]%Z 3%Z [0; 0]%Z = Some op1 /\
    PAConvectionSetup ZScalar 2 1 1 [2%Z] sample_J2 [1; 1]%Z 3%Z [0; 0]%Z = Some op2 /\
    PAConvectionSetup ZScalar 2 1 1 [2%Z] sample_J2 [5; 7]%Z (2 * 3)%Z [0; 0]%Z
    = Some opa /\
    forall i, i < 2 ->
      rd ZScalar op' i = (2 * rd ZScalar op1 i + rd ZScalar op2 i)%Z /\
      rd ZScalar opa i = (2 * rd ZScalar op1 i)%Z.
Proof.
  refine (@Setup_linear ZScalar ZScalar_exact 2 1 1 [2%Z] sample_J2 [11; 15]%Z [5; 7]%Z [1; 1]%Z
            3%Z 2%Z [0; 0]%Z (or_introl eq_refl) ltac:(vm_compute; lia) eq_refl eq_refl _).
  intros k. index_cases k 2.
Defined.

Lemma resize_length (v : list Z) (s : nat) :
  length (firstn s v ++ repeat 0%Z (s - length v)) = s.
Proof. rewrite length_app, length_firstn, repeat_length. lia. Defined.

Lemma AssemblePA_spec_witness :
  exists self',
    @AssemblePA ZScalar (fun v s => firstn s v ++ repeat 0%Z (s - length v))
      (Build_ConvectionIntegrator ZScalar 0 0 0 0 0 [] [] [] [] [])
      3%Z
      (Build_AssembleView ZScalar 2 1 2 1 [2%Z] sample_J2 2 2
         sample_B sample_G sample_Bt sample_Gt [5; 7]%Z) = Some self' /\
    dim self' = 2 /\ ne self' = 1 /\ nq self' = 1 /\ length (pa_data self') = 2.
Proof.
  destruct (proj2 (@AssemblePA_spec ZScalar
              (fun v s => firstn s v ++ repeat 0%Z (s - length v))
              (Build_ConvectionIntegrator ZScalar 0 0 0 0 0 [] [] [] [] [])
              3%Z
              (Build_AssembleView ZScalar 2 1 2 1 [2%Z] sample_J2 2 2
                 sample_B sample_G sample_Bt sample_Gt [5; 7]%Z)
              resize_length) eq_refl (or_introl eq_refl))
    as (self' & E & Hd & Hn & Hq & _ & _ & _ & _ & _ & _ & HL & _).
  exists self'. split; [exact E|].
  split; [exact Hd|]. split; [exact Hn|]. split; [exact Hq|].
  rewrite HL, Hd, Hn, Hq. reflexivity.
Defined.

Lemma access_size_exceeds_storage_witness :
  access_size (UseExternalData ZScalar [1; 2; 3; 4; 5; 6]%Z 3) = Some 9%Z /\
  sm_capacity (UseExternalData ZScalar [1; 2; 3; 4; 5; 6]%Z 3) = 6%Z.
Proof.
  destruct (@access_size_exceeds_storage ZScalar [1; 2; 3; 4; 5; 6]%Z 3 ltac:(lia))
    as (E & _ & _).
  split; [exact E|reflexivity].
Defined.

Lemma square_xy_tangential_witness :
  square_xy ZScalar (fun v s => firstn s v ++ repeat 0%Z (s - length v))
    [3; 4; 5]%Z [9%Z] = [-8; 6; 0]%Z /\
  (rd ZScalar [-8; 6; 0]%Z 0 * 3 + rd ZScalar [-8; 6; 0]%Z 1 * 4 = 0)%Z.
Proof.
  destruct (@square_xy_tangential ZScalar
              (fun v s => firstn s v ++ repeat 0%Z (s - length v))
              [3; 4; 5]%Z [9%Z] resize_length)
    as (_ & _ & E & _).
  split; [reflexivity|exact (E ZScalar_exact)].
Defined.
